(** * panda: multi-sentence compression, a shallow embedding

    The development follows [src/panda/panda.py].  The two classes of the
    module, [word_graph] and [keyphrase_reranker], become two Rocq modules of
    the same names; every method becomes a function of the same name.

    Conventions of the embedding:
    - Python exceptions are values of [exn]; a method that may raise returns
      a [result].
    - Python [float]s are modelled by exact rationals ([Q]); a division
      raises [ZeroDivisionError] exactly when the divisor is zero.
    - Byte strings are [string]; the [re] module and the [bisect] module are
      libraries outside the repository: [re] is an interface ([Re]) the
      development is parametric in, [bisect.insort] is modelled by the
      binary search it performs.
    - [dict]s are [gmap]s when only lookups matter and association lists
      when the iteration order is observable. *)

From Stdlib Require Import QArith Qminmax Qabs.
From stdpp Require Import gmap strings list fin_maps sorting.

Open Scope nat_scope.

(** ** Exceptions and results *)

Inductive exn : Set :=
  | IndexError
  | KeyError
  | ValueError
  | TypeError
  | AttributeError
  | ZeroDivisionError
  | NetworkXError
  | Unmapped       (* a position of [mapping] still holds 0: unreachable, [build_graph_raises] *)
  | OutOfFuel.     (* the loop has not finished within the given fuel *)

Inductive result (A : Type) : Type :=
  | Ok (a : A)
  | Raise (e : exn).
Arguments Ok {A} a.
Arguments Raise {A} e.

#[export] Instance result_ret : MRet result := λ A a, Ok a.
#[export] Instance result_bind : MBind result := λ A B f m,
  match m with
  | Ok a => f a
  | Raise e => Raise e
  end.
#[export] Instance result_fmap : FMap result := λ A B f m,
  match m with
  | Ok a => Ok (f a)
  | Raise e => Raise e
  end.

Definition is_Ok {A} (r : result A) : Prop := ∃ a, r = Ok a.

(** [o ?! e]: the value of [o], or exception [e]. *)
Definition or_raise {A} (o : option A) (e : exn) : result A :=
  match o with
  | Some a => Ok a
  | None => Raise e
  end.
Infix "?!" := or_raise (at level 45, left associativity).

(** A [for] loop with an accumulator that may raise. *)
Fixpoint foldM {A S} (f : S → A → result S) (l : list A) (s : S) : result S :=
  match l with
  | [] => Ok s
  | x :: l' => s' ← f s x; foldM f l' s'
  end.

(** ** Python sequences *)

(** [l[z]] for a possibly negative index. *)
Definition py_index {A} (l : list A) (z : Z) : result A :=
  if (0 <=? z)%Z then l !! Z.to_nat z ?! IndexError
  else if (- Z.of_nat (length l) <=? z)%Z
       then l !! Z.to_nat (Z.of_nat (length l) + z) ?! IndexError
       else Raise IndexError.

(** [l.count(x)] *)
Definition count `{EqDecision A} (x : A) (l : list A) : nat :=
  length (filter (λ y, y = x) l).

(** [del l[i]] *)
Definition del {A} (i : nat) (l : list A) : list A := delete i l.

(** [sum(l)] on floats *)
Definition sum (l : list Q) : Q := fold_left Qplus l 0%Q.

(** [min(l)] of a non-empty list of floats *)
Definition min_list (d : Q) (l : list Q) : Q := fold_left Qmin l d.

(** Float division. *)
Definition qdiv (a b : Q) : result Q :=
  if Qeq_bool b 0 then Raise ZeroDivisionError else Ok (a / b)%Q.

(** ** Python byte strings *)

(** [s.lower()] *)
Definition lower_ascii (c : Ascii.ascii) : Ascii.ascii :=
  let n := Ascii.nat_of_ascii c in
  if (65 <=? n) && (n <=? 90) then Ascii.ascii_of_nat (n + 32) else c.

Fixpoint lower (s : string) : string :=
  match s with
  | EmptyString => EmptyString
  | String c s' => String (lower_ascii c) (lower s')
  end.

(** [s.split(sep)] for a non-empty [sep]: [skip] counts the characters of a
    separator just recognised that are still to be passed over, [cur] is the
    piece being read. *)
Fixpoint split_go (sep s : string) (skip : nat) (cur : string) : list string :=
  match s with
  | EmptyString => [cur]
  | String c s' =>
      match skip with
      | S n => split_go sep s' n cur
      | O =>
          if String.prefix sep s
          then cur :: split_go sep s' (String.length sep - 1) EmptyString
          else split_go sep s' 0 (cur +:+ String c EmptyString)
      end
  end.

Definition split (sep s : string) : list string := split_go sep s 0 EmptyString.

(** [s.strip()] *)
Definition is_space (c : Ascii.ascii) : bool :=
  let n := Ascii.nat_of_ascii c in
  (n =? 32) || ((9 <=? n) && (n <=? 13)).

Fixpoint lstrip (s : string) : string :=
  match s with
  | EmptyString => EmptyString
  | String c s' => if is_space c then lstrip s' else s
  end.

Definition strip (s : string) : string :=
  String.rev (lstrip (String.rev (lstrip s))).

(** [a, b = s.split(sep)] *)
Definition split2 (sep s : string) : result (string * string) :=
  match split sep s with
  | [a; b] => Ok (a, b)
  | _ => Raise ValueError
  end.

(** ** The [re] module *)

Class Re := {
  (** [re.search(pattern, s)] is not [None] *)
  re_search : string → string → bool;
  (** the groups of [re.match(pattern, s)], [None] when there is no match *)
  re_match : string → string → option (list string);
  (** [re.sub(pattern, repl, s)] *)
  re_sub : string → string → string → string;
  (** [re.escape(s)] *)
  re_escape : string → string;
}.

(** The pattern of a single non-word character, [(?u)^\W$]. *)
Definition nonword_pattern : string := "(?u)^\W$".

(** A [for] loop that collects one value per element. *)
Fixpoint mapM {A B} (f : A → result B) (l : list A) : result (list B) :=
  match l with
  | [] => Ok []
  | x :: l' => y ← f x; ys ← mapM f l'; Ok (y :: ys)
  end.

(** ** [bisect.insort]

    The binary search of [bisect.insort_right]; [hi - lo] shrinks at every
    round, so [length a] rounds are enough. *)
Fixpoint bisect_right {A} (lt : A → A → bool) (fuel : nat) (a : list A) (x : A)
    (lo hi : nat) : nat :=
  match fuel with
  | O => lo
  | S fuel' =>
      if lo <? hi then
        let mid := (lo + hi) / 2 in
        match a !! mid with
        | Some y =>
            if lt x y then bisect_right lt fuel' a x lo mid
            else bisect_right lt fuel' a x (S mid) hi
        | None => lo
        end
      else lo
  end.

Definition insort {A} (lt : A → A → bool) (a : list A) (x : A) : list A :=
  let lo := bisect_right lt (length a) a x 0 (length a) in
  take lo a ++ x :: drop lo a.

(** Python's [<] on lists of comparable items. *)
Fixpoint list_lt {A} (lt : A → A → bool) (l1 l2 : list A) : bool :=
  match l1, l2 with
  | _, [] => false
  | [], _ :: _ => true
  | x :: l1', y :: l2' =>
      if lt x y then true else if lt y x then false else list_lt lt l1' l2'
  end.

Definition Qlt_bool (a b : Q) : bool := negb (Qle_bool b a).

(** A compression, [(cumulative score, [(word, POS); ...])]. *)
Definition fusion_lt (a b : Q * list (string * string)) : bool :=
  Qlt_bool a.1 b.1
  || (Qeq_bool a.1 b.1
      && list_lt (λ u v, String.ltb u.1 v.1 || (String.eqb u.1 v.1 && String.ltb u.2 v.2))
                 a.2 b.2).

(** ** Lists on the heap

    A list the caller passes to a constructor is an object the constructor
    could mutate; lists of sentences therefore live on a heap.  An element
    is a raw sentence, a pre-processed sentence of [word_graph] or a tagged
    sentence of [keyphrase_reranker]. *)

Inductive pyval : Type :=
  | VStr (s : string)
  | VSentence (l : list (string * string * string))
  | VTagged (l : list (string * string)).

Abbreviation loc := positive.
Abbreviation heap := (gmap loc (list pyval)).

(** [list(l)]: a new list object with the elements of [l]. *)
Definition list_copy (h : heap) (l : loc) : result (heap * loc) :=
  xs ← h !! l ?! TypeError;
  let l' := fresh (dom h) in
  Ok (<[l' := xs]> h, l').

(** [len(l)] *)
Definition list_len (h : heap) (l : loc) : result nat :=
  xs ← h !! l ?! TypeError; Ok (length xs).

(** [l[i]] *)
Definition load (h : heap) (l : loc) (i : nat) : result pyval :=
  xs ← h !! l ?! TypeError; xs !! i ?! IndexError.

(** [l[i] = v] *)
Definition store (h : heap) (l : loc) (i : nat) (v : pyval) : result heap :=
  xs ← h !! l ?! TypeError;
  if i <? length xs then Ok (<[l := <[i := v]> xs]> h) else Raise IndexError.

Definition as_str (v : pyval) : result string :=
  match v with VStr s => Ok s | _ => Raise TypeError end.
Definition as_sentence (v : pyval) : result (list (string * string * string)) :=
  match v with VSentence l => Ok l | _ => Raise TypeError end.
Definition as_tagged (v : pyval) : result (list (string * string)) :=
  match v with VTagged l => Ok l | _ => Raise TypeError end.

(** [float(s)] for [s] made of digits with at most one dot. *)
Definition digit_of (c : Ascii.ascii) : option nat :=
  let n := Ascii.nat_of_ascii c in
  if (48 <=? n) && (n <=? 57) then Some (n - 48) else None.

Fixpoint digits_value (s : string) (acc : nat) : option nat :=
  match s with
  | EmptyString => Some acc
  | String c s' => d ← digit_of c; digits_value s' (10 * acc + d)
  end.

Definition float_of_string (s : string) : result Q :=
  match split "." s with
  | [a] =>
      if decide (a = "") then Raise ValueError
      else n ← digits_value a 0 ?! ValueError; Ok (inject_Z (Z.of_nat n))
  | [a; b] =>
      if decide (a = "" ∧ b = "") then Raise ValueError
      else n ← digits_value a 0 ?! ValueError;
           m ← digits_value b 0 ?! ValueError;
           Ok (inject_Z (Z.of_nat n)
               + (Z.of_nat m # Pos.of_nat (10 ^ String.length b)))%Q
  | _ => Raise ValueError
  end.

(** * The class [word_graph] *)

Module word_graph.

(** An annotated token [(word, POS, weight)]; the weight is still the
    string the pattern matched, or the sentinel. *)
Abbreviation token := (string * string * string)%type.
(** An occurrence [(sentence_id, position_in_sentence)]. *)
Abbreviation occ := (nat * nat)%type.
(** A node of the word graph, [('word/-/POS', id)]. *)
Abbreviation node := (string * nat)%type.

Definition start : string := "-start-".
Definition stop : string := "-end-".
Definition sep : string := "/-/".

(** The attributes [info] and [label] of a node. *)
Record attrs : Type := Attrs { info : list occ; label : string }.

(** [nx.DiGraph]: the node dictionary and the edges with their optional
    [weight] attribute. *)
Record DiGraph : Type := Graph {
  nodes : gmap node attrs;
  edges : gmap (node * node) (option Q);
}.

Definition empty_graph : DiGraph := Graph ∅ ∅.

Definition has_node (g : DiGraph) (n : node) : bool :=
  bool_decide (is_Some (nodes g !! n)).

(** [graph.node[n]['info']] *)
Definition graph_info (g : DiGraph) (n : node) : result (list occ) :=
  a ← nodes g !! n ?! KeyError; Ok (info a).

(** [graph.add_node(n, info=inf, label=lbl)] *)
Definition add_node (g : DiGraph) (n : node) (inf : list occ) (lbl : string) : DiGraph :=
  Graph (<[n := Attrs inf lbl]> (nodes g)) (edges g).

(** [graph.node[n]['info'].append(o)] *)
Definition info_append (g : DiGraph) (n : node) (o : occ) : DiGraph :=
  Graph (alter (λ a, Attrs (info a ++ [o]) (label a)) n (nodes g)) (edges g).

(** [graph.add_edge(u, v)]: an edge that exists keeps its attributes.  Both
    ends are nodes of the graph whenever [build_graph] calls it (lemma
    [connect_adjacent]), so no node is created here. *)
Definition add_edge (g : DiGraph) (u v : node) : DiGraph :=
  Graph (nodes g)
        (match edges g !! (u, v) with
         | Some _ => edges g
         | None => <[(u, v) := None]> (edges g)
         end).

(** [graph.neighbors(n)]; networkx raises when [n] is not a node. *)
Definition neighbors (g : DiGraph) (n : node) : result (list node) :=
  if has_node g n
  then Ok (omap (λ e, if decide (e.1.1 = n) then Some e.1.2 else None)
                (map_to_list (edges g)))
  else Raise NetworkXError.

(** [graph[u][v]['weight']] *)
Definition edge_weight (g : DiGraph) (u v : node) : result Q :=
  a ← edges g !! (u, v) ?! KeyError; a ?! KeyError.

(** [max_index]: the first position of the largest element. *)
Fixpoint max_index_loop (l : list nat) (z max_val max_ind : nat) : nat :=
  match l with
  | [] => max_ind
  | y :: l' =>
      if max_val <? y
      then max_index_loop l' (S z) y z
      else max_index_loop l' (S z) max_val max_ind
  end.

Definition max_index (l : list nat) : result nat :=
  match l with
  | [] => Raise IndexError           (* l[0] *)
  | [_] => Ok 0
  | max_val :: l' => Ok (max_index_loop l' 1 max_val 0)
  end.

Inductive direction : Set := dir_left | dir_right | dir_all.

Section graph.
Context `{Re}.
(** [self.stopwords] and [self.sentence] (after [pre_process_sentences]) *)
Variable stopwords : gset string.
Variable sentence : list (list token).

Definition is_stopword (w : string) : bool := bool_decide (w ∈ stopwords).
Definition is_punct (w : string) : bool := re_search nonword_pattern w.

(** [token.lower() + self.sep + pos] *)
Definition key_of (t : token) : string := lower t.1.1 +:+ sep +:+ t.1.2.

(** [ambiguous_nodes]: the loop [while has_node((node, k)): k += 1] leaves
    after at most [size (nodes g)] rounds (lemmas [ambiguous_nodes_below]
    and [ambiguous_nodes_fresh]). *)
Fixpoint ambiguous_nodes_loop (fuel : nat) (g : DiGraph) (node : string) (k : nat) : nat :=
  match fuel with
  | O => k
  | S fuel' =>
      if has_node g (node, k) then ambiguous_nodes_loop fuel' g node (S k) else k
  end.

Definition ambiguous_nodes (g : DiGraph) (node : string) : nat :=
  ambiguous_nodes_loop (S (size (nodes g))) g node 0.

Definition get_directed_context (g : DiGraph) (node : string) (k : nat)
    (dir : direction) (non_pos : bool) : result (list string) :=
  inf ← graph_info g (node, k);
  '(l_context, r_context) ←
    foldM (λ '(l_context, r_context) '(sid, off),
             s ← sentence !! sid ?! IndexError;
             p ← py_index s (Z.of_nat off - 1);
             n ← py_index s (Z.of_nat off + 1);
             let prev := key_of p in
             let next := key_of n in
             if non_pos
             then Ok (if is_stopword p.1.1 then l_context else l_context ++ [prev],
                      if is_stopword n.1.1 then r_context else r_context ++ [next])
             else Ok (l_context ++ [prev], r_context ++ [next]))
          inf ([], []);
  Ok match dir with
     | dir_left => l_context
     | dir_right => r_context
     | dir_all => l_context ++ r_context
     end.

(** The overlap of variant [l] with the neighbours of the current token. *)
Definition context_overlap (g : DiGraph) (node : string) (non_pos : bool)
    (prev_node next_node : string) (l : nat) : result nat :=
  l_context ← get_directed_context g node l dir_left non_pos;
  r_context ← get_directed_context g node l dir_right non_pos;
  Ok (count prev_node l_context + count next_node r_context).

(** The sentence ids of a node. *)
Definition ids_of (g : DiGraph) (n : node) : result (list nat) :=
  inf ← graph_info g n; Ok (inf.*1).

(** The loop [while not found] of pass 2; every round deletes one candidate,
    so [S (length ambinode_overlap)] rounds of fuel are enough (lemma
    [select_candidate_fuel]).  Returns [(found, selected)]. *)
Fixpoint select_candidate (fuel : nat) (g : DiGraph) (node : string) (i : nat)
    (ambinode_overlap ambinode_frequency : list nat) : result (bool * nat) :=
  match fuel with
  | O => Raise OutOfFuel
  | S fuel' =>
      selected ← max_index ambinode_overlap;
      v ← ambinode_overlap !! selected ?! IndexError;
      selected ← (if v =? 0 then max_index ambinode_frequency else Ok selected);
      ids ← ids_of g (node, selected);
      if bool_decide (i ∉ ids) then Ok (true, selected)
      else
        _ ← ambinode_overlap !! selected ?! IndexError;
        _ ← ambinode_frequency !! selected ?! IndexError;
        let ambinode_overlap' := del selected ambinode_overlap in
        let ambinode_frequency' := del selected ambinode_frequency in
        if length ambinode_overlap' =? 0 then Ok (false, selected)
        else select_candidate fuel' g node i ambinode_overlap' ambinode_frequency'
  end.

(** The state of the passes over sentence [i]: the graph and [mapping],
    where [None] stands for the initial 0. *)
Abbreviation pass_state := (DiGraph * list (option node))%type.

(** Pass 1: words without candidate, with one unambiguous candidate, or
    repeated in the sentence. *)
Definition pass1 (i : nat) (s : list token) (st : pass_state) (j : nat) : result pass_state :=
  let '(g, mapping) := st in
  '(token, pos, weight) ← s !! j ?! IndexError;
  if is_stopword token || is_punct token then Ok st
  else
    let node := lower token +:+ sep +:+ pos in
    let k := ambiguous_nodes g node in
    if k =? 0 then
      Ok (add_node g (node, 0) [(i, j)] (lower token), <[j := Some (node, 0)]> mapping)
    else if k =? 1 then
      ids ← ids_of g (node, 0);
      if bool_decide (i ∉ ids)
      then Ok (info_append g (node, 0) (i, j), <[j := Some (node, 0)]> mapping)
      else Ok (add_node g (node, 1) [(i, j)] (lower token), <[j := Some (node, 1)]> mapping)
    else Ok st.

(** Pass 2: non-stopwords with several candidates. *)
Definition pass2 (i : nat) (s : list token) (st : pass_state) (j : nat) : result pass_state :=
  let '(g, mapping) := st in
  '(token, pos, weight) ← s !! j ?! IndexError;
  if is_stopword token || is_punct token then Ok st
  else
    m ← mapping !! j ?! IndexError;
    match m with
    | Some _ => Ok st
    | None =>
        let node := lower token +:+ sep +:+ pos in
        p ← py_index s (Z.of_nat j - 1);
        n ← py_index s (Z.of_nat j + 1);
        let prev_node := key_of p in
        let next_node := key_of n in
        let k := ambiguous_nodes g node in
        ambinode_overlap ← mapM (context_overlap g node false prev_node next_node) (seq 0 k);
        ambinode_frequency ← mapM (λ l, inf ← graph_info g (node, l); Ok (length inf)) (seq 0 k);
        '(found, selected) ←
          select_candidate (S (length ambinode_overlap)) g node i
                           ambinode_overlap ambinode_frequency;
        if found : bool
        then Ok (info_append g (node, selected) (i, j), <[j := Some (node, selected)]> mapping)
        else Ok (add_node g (node, k) [(i, j)] (lower token), <[j := Some (node, k)]> mapping)
    end.

(** Passes 3 and 4 differ in the tokens they take, in [non_pos] and in the
    overlap a candidate must exceed. *)
Definition pass_context (non_pos : bool) (threshold : nat)
    (i : nat) (s : list token) (st : pass_state) (j : nat)
    (token pos : string) : result pass_state :=
  let '(g, mapping) := st in
  let node := lower token +:+ sep +:+ pos in
  let k := ambiguous_nodes g node in
  if k =? 0 then
    Ok (add_node g (node, 0) [(i, j)] (lower token), <[j := Some (node, 0)]> mapping)
  else
    p ← py_index s (Z.of_nat j - 1);
    n ← py_index s (Z.of_nat j + 1);
    let prev_node := key_of p in
    let next_node := key_of n in
    ambinode_overlap ← mapM (context_overlap g node non_pos prev_node next_node) (seq 0 k);
    selected ← max_index ambinode_overlap;
    ids ← ids_of g (node, selected);
    v ← ambinode_overlap !! selected ?! IndexError;
    if bool_decide (i ∉ ids) && (threshold <? v)
    then Ok (info_append g (node, selected) (i, j), <[j := Some (node, selected)]> mapping)
    else Ok (add_node g (node, k) [(i, j)] (lower token), <[j := Some (node, k)]> mapping).

(** Pass 3: stopwords. *)
Definition pass3 (i : nat) (s : list token) (st : pass_state) (j : nat) : result pass_state :=
  '(token, pos, weight) ← s !! j ?! IndexError;
  if negb (is_stopword token) then Ok st
  else pass_context true 0 i s st j token pos.

(** Pass 4: punctuation marks. *)
Definition pass4 (i : nat) (s : list token) (st : pass_state) (j : nat) : result pass_state :=
  '(token, pos, weight) ← s !! j ?! IndexError;
  if negb (is_punct token) then Ok st
  else pass_context false 1 i s st j token pos.

(** The edges between consecutive positions of [mapping]. *)
Definition connect (mapping : list (option node)) (g : DiGraph) (j : nat) : result DiGraph :=
  u ← mapping !! (j - 1) ?! IndexError;
  v ← mapping !! j ?! IndexError;
  u ← u ?! Unmapped;
  v ← v ?! Unmapped;
  Ok (add_edge g u v).

(** The four passes over sentence [i]. *)
Definition map_sentence (g : DiGraph) (i : nat) (s : list token) : result pass_state :=
  let sentence_len := length s in
  let mapping := replicate sentence_len None in
  st ← foldM (pass1 i s) (seq 0 sentence_len) (g, mapping);
  st ← foldM (pass2 i s) (seq 0 sentence_len) st;
  st ← foldM (pass3 i s) (seq 0 sentence_len) st;
  foldM (pass4 i s) (seq 0 sentence_len) st.

(** One round of the loop over the sentences. *)
Definition add_sentence (g : DiGraph) (i : nat) : result DiGraph :=
  s ← sentence !! i ?! IndexError;
  '(g, mapping) ← map_sentence g i s;
  foldM (connect mapping) (seq 1 (length mapping - 1)) g.

(** The graph before the edge weights are computed. *)
Definition build_nodes_and_edges : result DiGraph :=
  foldM add_sentence (seq 0 (length sentence)) empty_graph.

(** [self.term_weight] *)
Variable term_weight : gmap string Q.

(** The positions of a node in sentence [s]. *)
Definition positions_in (inf : list occ) (s : nat) : list nat :=
  omap (λ '(sentence_id, pos_in_sentence),
          if sentence_id =? s then Some pos_in_sentence else None) inf.

(** [all_diff_pos_i_j]: the distances of the couples where [i] comes
    before [j]. *)
Definition all_diff_pos (pos_i_in_s pos_j_in_s : list nat) : list Q :=
  x ← pos_i_in_s;
  y ← pos_j_in_s;
  let diff_i_j := (Z.of_nat x - Z.of_nat y)%Z in
  if (diff_i_j <? 0)%Z then [(-1 * inject_Z diff_i_j)%Q] else [].

(** The entry of [diff] for sentence [s]. *)
Definition diff_entry (info1 info2 : list occ) (s : nat) : result Q :=
  match all_diff_pos (positions_in info1 s) (positions_in info2 s) with
  | [] => Ok 0%Q
  | d :: ds => qdiv 1 (min_list d ds)
  end.

(** [diff], one entry per sentence. *)
Definition diff_list (length : nat) (info1 info2 : list occ) : result (list Q) :=
  mapM (diff_entry info1 info2) (seq 0 length).

(** [term_weight[key]] if present, otherwise [0.0] *)
Definition weight_of (key : string) : Q := default 0%Q (term_weight !! key).

Definition get_edge_weight (g : DiGraph) (node1 node2 : node) : result Q :=
  info1 ← graph_info g node1;
  info2 ← graph_info g node2;
  let weight1 := weight_of node1.1 in
  let weight2 := weight_of node2.1 in
  if Qeq_bool weight1 0 || Qeq_bool weight2 0 then Ok 0%Q
  else
    diff ← diff_list (length sentence) info1 info2;
    a ← qdiv (weight1 + weight2) (sum diff);
    qdiv a (weight1 * weight2).

(** The last loop of [build_graph]: every edge receives its weight. *)
Definition weigh_edges (g : DiGraph) : result DiGraph :=
  es ← foldM (λ es e,
                edge_weight ← get_edge_weight g e.1 e.2;
                Ok (<[e := Some edge_weight]> es))
             (map_to_list (edges g)).*1 (edges g);
  Ok (Graph (nodes g) es).

Definition build_graph : result DiGraph :=
  g ← build_nodes_and_edges; weigh_edges g.

End graph.

Definition node_lt (a b : node) : bool :=
  String.ltb a.1 b.1 || (String.eqb a.1 b.1 && (a.2 <? b.2)).

(** A label of the frontier, [(w, node, id)]. *)
Abbreviation xlabel := (Q * node * nat)%type.

Definition xlabel_lt (a b : xlabel) : bool :=
  Qlt_bool a.1.1 b.1.1
  || (Qeq_bool a.1.1 b.1.1
      && (node_lt a.1.2 b.1.2
          || (bool_decide (a.1.2 = b.1.2) && (a.2 <? b.2)))).

Definition xlabel_eqb (a b : xlabel) : bool :=
  Qeq_bool a.1.1 b.1.1 && bool_decide (a.1.2 = b.1.2) && (a.2 =? b.2).

(** The dictionary [paths], keyed by labels. *)
Definition paths_get (paths : list (xlabel * list node)) (x : xlabel) : result (list node) :=
  match list_find (λ e, xlabel_eqb e.1 x = true) paths with
  | Some (_, (_, p)) => Ok p
  | None => Raise KeyError
  end.

Definition paths_del (paths : list (xlabel * list node)) (x : xlabel) : list (xlabel * list node) :=
  filter (λ e, xlabel_eqb e.1 x = false) paths.

Definition paths_set (paths : list (xlabel * list node)) (x : xlabel) (p : list node) :
    list (xlabel * list node) :=
  paths_del paths x ++ [(x, p)].

(** ** The path search *)

(** The counters of the checks on a path that reached the end. *)
Record path_stats : Type := Stats {
  nb_verbs : nat;
  path_length : nat;
  paired_parentheses : Z;
  quotation_mark_number : nat;
  raw_sentence : string;
}.

Definition quotation_mark : string := String (Ascii.ascii_of_nat 34) EmptyString.

(** The state of [k_shortest_paths]. *)
Record search_state : Type := Search {
  kshortestpaths : list (list node * Q);
  orderedX : list xlabel;
  paths : list (xlabel * list node);
  visited : gmap node nat;
  sentence_container : gset string;
}.

Definition add_verb (st : path_stats) : path_stats :=
  Stats (S (nb_verbs st)) (path_length st) (paired_parentheses st)
        (quotation_mark_number st) (raw_sentence st).
Definition add_word (st : path_stats) : path_stats :=
  Stats (nb_verbs st) (S (path_length st)) (paired_parentheses st)
        (quotation_mark_number st) (raw_sentence st).
Definition add_paren (d : Z) (st : path_stats) : path_stats :=
  Stats (nb_verbs st) (path_length st) (paired_parentheses st + d)
        (quotation_mark_number st) (raw_sentence st).
Definition add_quotation_mark (st : path_stats) : path_stats :=
  Stats (nb_verbs st) (path_length st) (paired_parentheses st)
        (S (quotation_mark_number st)) (raw_sentence st).
Definition add_raw (word : string) (st : path_stats) : path_stats :=
  Stats (nb_verbs st) (path_length st) (paired_parentheses st)
        (quotation_mark_number st) (raw_sentence st +:+ word +:+ " ").

Section search.
Context `{Re}.
(** [self.verbs], [self.nb_words], and the graph as the search reads it:
    [graph.neighbors(n)] in some order and [graph[u][v]['weight']]. *)
Variable verbs : gset string.
Variable nb_words : Z.
Variable graph_neighbors : node → result (list node).
Variable graph_weight : node → node → result Q.

(** One round of the loop over the nodes of the path, the end excluded. *)
Definition scan_node (st : path_stats) (n : node) : result path_stats :=
  '(word, tag) ← split2 sep n.1;
  let st := if bool_decide (tag ∈ verbs) then add_verb st else st in
  let st :=
    if negb (re_search nonword_pattern word) then add_word st
    else if decide (word = "(") then add_paren (-1) st
    else if decide (word = ")") then add_paren 1 st
    else if decide (word = quotation_mark) then add_quotation_mark st
    else st in
  Ok (add_raw word st).

(** [shortestpath[i]] for [i] in [range(len(shortestpath) - 1)] *)
Definition scanned (shortestpath : list node) : list node :=
  take (length shortestpath - 1) shortestpath.

Definition scan_path (shortestpath : list node) : result path_stats :=
  foldM scan_node (scanned shortestpath) (Stats 0 0 0 0 "").

(** The constraints on a path. *)
Definition accepted (container : gset string) (st : path_stats) : bool :=
  (0 <? nb_verbs st)
  && (nb_words <=? Z.of_nat (path_length st))%Z
  && (paired_parentheses st =? 0)%Z
  && (quotation_mark_number st mod 2 =? 0)
  && bool_decide (strip (raw_sentence st) ∉ container).

(** The body of the loop over the neighbours of [shortest]. *)
Definition visit (end_ : node) (shortest : xlabel) (shortestpath : list node)
    (st : search_state) (node : node) : result search_state :=
  if bool_decide (node ∈ shortestpath) then Ok st
  else
    e ← graph_weight shortest.1.2 node;
    let w := (shortest.1.1 + e)%Q in
    if bool_decide (node = end_) then
      stats ← scan_path shortestpath;
      if accepted (sentence_container st) stats
      then Ok (Search (kshortestpaths st ++ [(reverse (node :: shortestpath), w)])
                      (orderedX st) (paths st) (visited st)
                      ({[strip (raw_sentence stats)]} ∪ sentence_container st))
      else Ok st
    else
      let id := match visited st !! node with Some c => S c | None => 0 end in
      Ok (Search (kshortestpaths st)
                 (insort xlabel_lt (orderedX st) (w, node, id))
                 (paths_set (paths st) (w, node, id) (node :: shortestpath))
                 (<[node := id]> (visited st))
                 (sentence_container st)).

(** One round of the [while] loop. *)
Definition expand (end_ : node) (st : search_state) : result search_state :=
  match orderedX st with
  | [] => Raise IndexError
  | shortest :: rest =>
      shortestpath ← paths_get (paths st) shortest;
      let st := Search (kshortestpaths st) rest (paths_del (paths st) shortest)
                       (visited st) (sentence_container st) in
      ns ← graph_neighbors shortest.1.2;
      foldM (visit end_ shortest shortestpath) ns st
  end.

Definition searching (k : Z) (st : search_state) : bool :=
  (Z.of_nat (length (kshortestpaths st)) <? k)%Z && (0 <? length (orderedX st)).

Fixpoint search_loop (fuel : nat) (end_ : node) (k : Z) (st : search_state) :
    result search_state :=
  if searching k st then
    match fuel with
    | O => Raise OutOfFuel
    | S fuel' => st' ← expand end_ st; search_loop fuel' end_ k st'
    end
  else Ok st.

Definition initial (start_ : node) : search_state :=
  Search [] [(0%Q, start_, 0)] [((0%Q, start_, 0), [start_])] {[start_ := 0]} ∅.

Definition k_shortest_paths (fuel : nat) (start_ end_ : node) (k : Z) :
    result (list (list node * Q)) :=
  st ← search_loop fuel end_ k (initial start_); Ok (kshortestpaths st).

(** [nodes[j]] for [j] in [range(1, len(nodes) - 1)] *)
Definition inner (nodes : list node) : list node :=
  take (length nodes - 2) (drop 1 nodes).

Definition fuse (fusions : list (Q * list (string * string))) (p : list node * Q) :
    result (list (Q * list (string * string))) :=
  sentence ← mapM (λ n : node, split2 sep n.1) (inner p.1);
  Ok (insort fusion_lt fusions (p.2, sentence)).

Definition get_compression (fuel : nat) (nb_candidates : Z) :
    result (list (Q * list (string * string))) :=
  paths ← k_shortest_paths fuel (start +:+ sep +:+ start, 0) (stop +:+ sep +:+ stop, 0)
                           nb_candidates;
  if 0 <? length paths
  then foldM fuse (take (Z.to_nat (Z.min nb_candidates (Z.of_nat (length paths)))) paths) []
  else Ok [].

End search.

(** ** The constructor *)

Section init.
Context `{Re}.

(** The pattern of a token, [word SEP pos SEP weight]. *)
Definition token_pattern (pos_separator : string) : string :=
  let pos_separator_re := re_escape pos_separator in
  "^(.+)" +:+ pos_separator_re +:+ "(.+)" +:+ pos_separator_re +:+ "(\d+(\.\d+)*)$".

(** The body of the loop over the words of a sentence. *)
Definition parse_word (pos_separator : string) (container : list token) (w : string) :
    result (list token) :=
  m ← re_match (token_pattern pos_separator) w ?! AttributeError;
  token ← m !! 0 ?! IndexError;
  pos ← m !! 1 ?! IndexError;
  weight ← m !! 2 ?! IndexError;
  Ok (container ++ [(lower token, pos, weight)]).

(** One round of [pre_process_sentences]; [self_sentence] is the list
    object [self.sentence]. *)
Definition pre_process_sentence (pos_separator : string) (self_sentence : loc)
    (h : heap) (i : nat) : result heap :=
  s ← load h self_sentence i ≫= as_str;
  h ← store h self_sentence i (VStr (re_sub " +" " " s));
  s ← load h self_sentence i ≫= as_str;
  h ← store h self_sentence i (VStr (strip s));
  s ← load h self_sentence i ≫= as_str;
  let words := split " " s in
  container ← foldM (parse_word pos_separator) words [(start, start, start)];
  store h self_sentence i (VSentence (container ++ [(stop, stop, stop)])).

Definition pre_process_sentences (pos_separator : string) (self_sentence : loc)
    (self_length : nat) (h : heap) : result heap :=
  foldM (pre_process_sentence pos_separator self_sentence) (seq 0 self_length) h.

(** [self.sentence[i]] for every [i] of [range(self.length)] *)
Definition read_sentences (h : heap) (self_sentence : loc) (self_length : nat) :
    result (list (list token)) :=
  mapM (λ i, load h self_sentence i ≫= as_sentence) (seq 0 self_length).

(** [compute_statistics]: the dictionaries [terms] and [weights], then
    [term_freq] and [term_weight]. *)
Definition count_token (i : nat) (st : gmap string (list nat) * gmap string (list Q))
    (t : token) : result (gmap string (list nat) * gmap string (list Q)) :=
  let '(terms, weights) := st in
  let '(token, pos, weight) := t in
  let node := lower token +:+ sep +:+ pos in
  let terms := <[node := default [] (terms !! node) ++ [i]]> terms in
  if bool_decide (weight = start) || bool_decide (weight = stop) then Ok (terms, weights)
  else
    w ← float_of_string weight;
    Ok (terms, <[node := default [] (weights !! node) ++ [w]]> weights).

Definition compute_statistics (sentence : list (list token)) :
    result (gmap string nat * gmap string Q) :=
  foldM (λ st (e : nat * list token), foldM (count_token e.1) e.2 st)
        (imap pair sentence) (∅, ∅)
  ≫= λ st : gmap string (list nat) * gmap string (list Q),
       Ok (length <$> st.1, (λ ws, fold_left Qplus ws 0%Q) <$> st.2).

(** The fields of a [word_graph] object. *)
Record object : Type := Object {
  self_sentence : loc;
  self_length : nat;
  self_nb_words : Z;
  self_stopwords : gset string;
  self_graph : DiGraph;
  self_term_freq : gmap string nat;
  self_term_weight : gmap string Q;
  self_verbs : gset string;
}.

Definition english_verbs : gset string :=
  list_to_set ["VB"; "VBD"; "VBP"; "VBZ"; "VH"; "VHD"; "VHP"; "VBZ"; "VV"; "VVD"; "VVP"; "VVZ"].
Definition french_verbs : gset string := list_to_set ["V"; "VPP"; "VINF"].

(** [__init__]; [loaded_stopwords] is what [load_stopwords] read from the
    resource file of [lang]. *)
Definition init (h : heap) (sentence_list : loc) (nb_words : Z) (lang : string)
    (loaded_stopwords : gset string) (pos_separator : string) : result (heap * object) :=
  '(h, sentence) ← list_copy h sentence_list;
  length ← list_len h sentence_list;
  let verbs := if decide (lang = "fr") then french_verbs else english_verbs in
  h ← pre_process_sentences pos_separator sentence length h;
  sentences ← read_sentences h sentence length;
  '(term_freq, term_weight) ← compute_statistics sentences;
  graph ← build_graph loaded_stopwords sentences term_weight;
  Ok (h, Object sentence length nb_words loaded_stopwords graph term_freq term_weight verbs).

(** [get_compression] on an object. *)
Definition compress (fuel : nat) (self : object) (nb_candidates : Z) :
    result (list (Q * list (string * string))) :=
  get_compression (self_verbs self) (self_nb_words self)
                  (neighbors (self_graph self)) (edge_weight (self_graph self))
                  fuel nb_candidates.

End init.
End word_graph.

(** * The class [keyphrase_reranker] *)

Module keyphrase_reranker.

(** A node of the co-occurrence graph, [(word, POS)]. *)
Abbreviation wnode := (string * string)%type.

(** [nx.Graph]: the nodes and the neighbours of a node in the order of their
    creation, and the [weight] attribute of the edges, stored for both
    orientations. *)
Record Graph : Type := MkGraph {
  nodes : list wnode;
  adj : gmap wnode (list wnode);
  weights : gmap (wnode * wnode) nat;
}.

Definition empty_graph : Graph := MkGraph [] ∅ ∅.

Definition has_node (g : Graph) (n : wnode) : bool := bool_decide (n ∈ nodes g).

Definition add_node (g : Graph) (n : wnode) : Graph :=
  MkGraph (nodes g ++ [n]) (<[n := []]> (adj g)) (weights g).

Definition has_edge (g : Graph) (u v : wnode) : bool :=
  bool_decide (is_Some (weights g !! (u, v))).

(** [graph.add_edge(u, v, weight=1)] between two nodes of the graph *)
Definition add_edge (g : Graph) (u v : wnode) : Graph :=
  let a := <[u := default [] (adj g !! u) ++ [v]]> (adj g) in
  let a := if decide (u = v) then a else <[v := default [] (a !! v) ++ [u]]> a in
  MkGraph (nodes g) a (<[(v, u) := 1]> (<[(u, v) := 1]> (weights g))).

(** [graph[u][v]['weight'] += 1] *)
Definition increment (g : Graph) (u v : wnode) : result Graph :=
  w ← weights g !! (u, v) ?! KeyError;
  Ok (MkGraph (nodes g) (adj g) (<[(v, u) := S w]> (<[(u, v) := S w]> (weights g)))).

(** [graph.neighbors_iter(n)] *)
Definition neighbors (g : Graph) (n : wnode) : result (list wnode) :=
  adj g !! n ?! NetworkXError.

(** [graph[u][v]['weight']] *)
Definition edge_weight (g : Graph) (u v : wnode) : result Q :=
  w ← weights g !! (u, v) ?! KeyError; Ok (inject_Z (Z.of_nat w)).

(** A dictionary whose iteration order is observable: the keys in the order
    of their insertion. *)
Fixpoint dict_set {V} (d : list (string * V)) (k : string) (v : V) : list (string * V) :=
  match d with
  | [] => [(k, v)]
  | (k', v') :: d' => if decide (k' = k) then (k, v) :: d' else (k', v') :: dict_set d' k v
  end.

Definition dict_get {V} (d : list (string * V)) (k : string) : result V :=
  match list_find (λ e, e.1 = k) d with
  | Some (_, (_, v)) => Ok v
  | None => Raise KeyError
  end.

(** [sorted(l, key=key, reverse=True)]: the sort is stable. *)
Fixpoint insert_desc {A K} (le : K → K → bool) (key : A → K) (x : A) (l : list A) : list A :=
  match l with
  | [] => [x]
  | y :: l' => if le (key y) (key x) then x :: l else y :: insert_desc le key x l'
  end.

Definition sorted_desc {A K} (le : K → K → bool) (key : A → K) (l : list A) : list A :=
  foldr (insert_desc le key) [] l.

(** [a in b] on strings *)
Fixpoint is_substring (a b : string) : bool :=
  String.prefix a b
  || match b with
     | EmptyString => false
     | String _ b' => is_substring a b'
     end.

(** ** TextRank *)

Section TextRank.
(** The graph as [undirected_TextRank] reads it. *)
Variable graph_nodes : list wnode.
Variable graph_neighbors : wnode → result (list wnode).
Variable graph_weight : wnode → wnode → result Q.
Variable d : Q.
Variable f_conv : Q.

(** The state of the loop: [word_scores] and [max_node_difference]. *)
Abbreviation rank_state := (gmap wnode Q * Q)%type.

Definition initial_scores : gmap wnode Q :=
  foldl (λ word_scores node, <[node := 1%Q]> word_scores) ∅ graph_nodes.

(** The body of the loop over the nodes [J] connected to [I]. *)
Definition add_vote (current_node_scores : gmap wnode Q) (node_i : wnode)
    (sum_Vj : Q) (node_j : wnode) : result Q :=
  wji ← graph_weight node_j node_i;
  WSVj ← current_node_scores !! node_j ?! KeyError;
  ks ← graph_neighbors node_j;
  sum_wjk ← foldM (λ sum_wjk node_k, w ← graph_weight node_j node_k; Ok (sum_wjk + w)%Q)
                  ks 0%Q;
  q ← qdiv (wji * WSVj) sum_wjk;
  Ok (sum_Vj + q)%Q.

(** The body of the loop over the nodes [I]. *)
Definition update_node (current_node_scores : gmap wnode Q) (st : rank_state)
    (node_i : wnode) : result rank_state :=
  js ← graph_neighbors node_i;
  sum_Vj ← foldM (add_vote current_node_scores node_i) js 0%Q;
  let word_scores := <[node_i := ((1 - d) + (d * sum_Vj))%Q]> st.1 in
  new ← word_scores !! node_i ?! KeyError;
  old ← current_node_scores !! node_i ?! KeyError;
  let score_difference := Qabs (new - old) in
  Ok (word_scores, Qmax score_difference score_difference).

(** One round of the [while] loop. *)
Definition sweep (st : rank_state) : result rank_state :=
  let current_node_scores := st.1 in
  foldM (update_node current_node_scores) graph_nodes st.

(** [max_node_difference >= f_conv] *)
Definition unstable (st : rank_state) : bool := Qle_bool f_conv st.2.

Fixpoint rank_loop (fuel : nat) (st : rank_state) : result rank_state :=
  if unstable st then
    match fuel with
    | O => Raise OutOfFuel
    | S fuel' => st' ← sweep st; rank_loop fuel' st'
    end
  else Ok st.

(** The state after [n] rounds. *)
Fixpoint sweeps (n : nat) (st : rank_state) : result rank_state :=
  match n with
  | O => Ok st
  | S n' => st' ← sweep st; sweeps n' st'
  end.

Definition undirected_TextRank (fuel : nat) : result (gmap wnode Q) :=
  st ← rank_loop fuel (initial_scores, f_conv); Ok st.1.

End TextRank.

(** ** Candidates, scores and clusters *)

Section candidates.
Context `{Re}.
Variable syntactic_filter : list string.
Variable syntactic_patterns : list string.

Definition in_filter (pos : string) : bool := bool_decide (pos ∈ syntactic_filter).

Definition is_a_candidate (keyphrase_candidate : list wnode) : bool :=
  let candidate_pattern := String.concat "" keyphrase_candidate.*2 in
  forallb (λ pattern, re_search pattern candidate_pattern) syntactic_patterns.

(** [' '.join(u[0] for u in candidate)] *)
Definition surface (candidate : list wnode) : string := String.concat " " candidate.*1.

(** The state of the scan of a sentence: [keyphrase_candidates] and the
    buffer [candidate]. *)
Definition scan_token (st : list (string * list wnode) * list wnode) (t : wnode) :
    list (string * list wnode) * list wnode :=
  let '(keyphrase_candidates, candidate) := st in
  if in_filter t.2 then (keyphrase_candidates, candidate ++ [t])
  else if (0 <? length candidate) && is_a_candidate candidate
  then (dict_set keyphrase_candidates (surface candidate) candidate, [])
  else (keyphrase_candidates, []).

Definition scan_sentence (keyphrase_candidates : list (string * list wnode))
    (sentence : list wnode) : list (string * list wnode) :=
  let '(keyphrase_candidates, candidate) :=
    foldl scan_token (keyphrase_candidates, []) sentence in
  if (0 <? length candidate) && is_a_candidate candidate
  then dict_set keyphrase_candidates (surface candidate) candidate
  else keyphrase_candidates.

Definition generate_candidates (sentences : list (list wnode)) : list (string * list wnode) :=
  foldl scan_sentence [] sentences.

End candidates.

Definition score_keyphrase_candidates (word_scores : gmap wnode Q)
    (keyphrase_candidates : list (string * list wnode)) : result (list (string * Q)) :=
  foldM (λ keyphrase_scores '(keyphrase, candidate),
           keyphrase_score ←
             foldM (λ keyphrase_score word_pos_tuple,
                      w ← word_scores !! word_pos_tuple ?! KeyError;
                      Ok (keyphrase_score + w)%Q) candidate 0%Q;
           q ← qdiv keyphrase_score (inject_Z (Z.of_nat (length candidate)) + 1);
           Ok (dict_set keyphrase_scores keyphrase q))
        keyphrase_candidates [].

(** [set(keyphrase.split(' '))] *)
Definition word_set (keyphrase : string) : gset string := list_to_set (split " " keyphrase).

(** [len(keyphrase_words.difference(cluster_words)) == 0] *)
Definition covers (cluster keyphrase : string) : bool :=
  size (word_set keyphrase ∖ word_set cluster) =? 0.

(** The loop over the existing clusters: [keyphrase] joins every cluster
    whose representative covers it. *)
Fixpoint join_clusters (keyphrase : string) (clusters : list (string * list string)) :
    list (string * list string) * bool :=
  match clusters with
  | [] => ([], false)
  | (cluster, members) :: rest =>
      let '(rest', found_cluster) := join_clusters keyphrase rest in
      if covers cluster keyphrase
      then ((cluster, members ++ [keyphrase]) :: rest', true)
      else ((cluster, members) :: rest', found_cluster)
  end.

(** The body of the loop over the keyphrases by decreasing length. *)
Definition place (clusters : list (string * list string)) (keyphrase : string) :
    list (string * list string) :=
  let '(clusters', found_cluster) := join_clusters keyphrase clusters in
  if found_cluster then clusters' else dict_set clusters' keyphrase [keyphrase].

(** [descending]: the keyphrases by decreasing number of words. *)
Definition descending (keyphrase_candidates : list (string * list wnode)) : list string :=
  (sorted_desc Nat.leb (λ e : string * list wnode, length e.2) keyphrase_candidates).*1.

Definition make_clusters (keyphrase_candidates : list (string * list wnode)) :
    list (string * list string) :=
  foldl place [] (descending keyphrase_candidates).

(** The best keyphrase of every cluster. *)
Definition best_candidates (keyphrase_scores : list (string * Q))
    (clusters : list (string * list string)) : result (list string) :=
  mapM (λ '(cluster, members),
          scored ← mapM (λ k, s ← dict_get keyphrase_scores k; Ok (k, s)) members;
          head (sorted_desc Qle_bool snd scored).*1 ?! IndexError)
       clusters.

(** The last loop: a best keyphrase contained in a better one is dropped. *)
Definition drop_redundant (sorted_keyphrases : list string) : list string :=
  foldl (λ non_redundant_keyphrases keyphrase,
           if existsb (is_substring keyphrase) non_redundant_keyphrases
           then non_redundant_keyphrases
           else non_redundant_keyphrases ++ [keyphrase])
        [] sorted_keyphrases.

Definition cluster_keyphrase_candidates (keyphrase_candidates : list (string * list wnode))
    (keyphrase_scores : list (string * Q)) :
    result (list (string * list wnode) * list (string * Q)) :=
  let clusters := make_clusters keyphrase_candidates in
  best_candidate_keyphrases ← best_candidates keyphrase_scores clusters;
  scored ← mapM (λ k, s ← dict_get keyphrase_scores k; Ok (k, s)) best_candidate_keyphrases;
  let sorted_keyphrases := (sorted_desc Qle_bool snd scored).*1 in
  let non_redundant_keyphrases := drop_redundant sorted_keyphrases in
  let keep {V} (e : string * V) := bool_decide (e.1 ∈ non_redundant_keyphrases) in
  if forallb (λ e : string * list wnode,
                keep e || bool_decide (is_Some (list_find (λ s : string * Q, s.1 = e.1)
                                                          keyphrase_scores)))
             keyphrase_candidates
  then Ok (filter (λ e, keep e = true) keyphrase_candidates,
           filter (λ e, keep e = true) keyphrase_scores)
  else Raise KeyError.

(** ** The co-occurrence graph and the constructor *)

Section init.
Context `{Re}.
Variable stopwords : gset string.
Variable syntactic_filter : list string.
Variable pos_separator : string.

Definition wordpos_to_tuple (word : string) : result wnode :=
  let pos_separator_re := re_escape pos_separator in
  m ← re_match ("^(.+)" +:+ pos_separator_re +:+ "(.+)$") word ?! AttributeError;
  token ← m !! 0 ?! IndexError;
  POS ← m !! 1 ?! IndexError;
  Ok (lower token, POS).

(** Loop 1 of [build_graph]: the word becomes a tuple and, if its category
    is one of the filter, a node. *)
Definition tag_word (st : Graph * list wnode) (w : string) : result (Graph * list wnode) :=
  let '(g, sentence) := st in
  '(word, pos) ← wordpos_to_tuple w;
  let t := (lower word, pos) in
  let t := if bool_decide (t.1 ∈ stopwords) then (t.1, "STOPWORD") else t in
  let g := if in_filter syntactic_filter t.2 && negb (has_node g t) then add_node g t else g in
  Ok (g, sentence ++ [t]).

(** [range(a, b)] *)
Definition range (a b : Z) : list nat := seq (Z.to_nat a) (Z.to_nat (b - a)).

(** Loop 2 of [build_graph]: the co-occurrences of the word at [j]. *)
Definition link (window : Z) (sentence : list wnode) (g : Graph) (j : nat) : result Graph :=
  first_node ← sentence !! j ?! IndexError;
  let len := Z.of_nat (length sentence) in
  let max_window := if (window <? 1)%Z then len else window in
  foldM (λ g k,
           second_node ← sentence !! k ?! IndexError;
           if has_node g first_node && has_node g second_node
           then (if negb (has_edge g first_node second_node)
                 then Ok (add_edge g first_node second_node)
                 else increment g first_node second_node)
           else Ok g)
        (range (Z.of_nat j + 1) (Z.min len (Z.of_nat j + max_window))) g.

(** One round of [build_graph]; [self_sentences] is the list object
    [self.sentences]. *)
Definition build_sentence (window : Z) (self_sentences : loc) (st : heap * Graph) (i : nat) :
    result (heap * Graph) :=
  let '(h, g) := st in
  s ← load h self_sentences i ≫= as_str;
  h ← store h self_sentences i (VStr (re_sub " +" " " s));
  s ← load h self_sentences i ≫= as_str;
  let words := split " " s in
  '(g, sentence) ← foldM tag_word words (g, []);
  g ← foldM (link window sentence) (seq 0 (length sentence)) g;
  h ← store h self_sentences i (VTagged sentence);
  Ok (h, g).

Definition build_graph (window : Z) (self_sentences : loc) (h : heap) (g : Graph) :
    result (heap * Graph) :=
  n ← list_len h self_sentences;
  foldM (build_sentence window self_sentences) (seq 0 n) (h, g).

End init.

(** The fields of a [keyphrase_reranker] object. *)
Record object : Type := Object {
  self_sentences : loc;
  self_nbest_compressions : list (Q * list wnode);
  self_graph : Graph;
  self_keyphrase_candidates : list (string * list wnode);
  self_word_scores : gmap wnode Q;
  self_keyphrase_scores : list (string * Q);
}.

Section object.
Context `{Re}.

(** [__init__]; [fuel] bounds the rounds of [undirected_TextRank]. *)
Definition init (fuel : nat) (h : heap) (sentence_list : loc)
    (nbest_compressions : list (Q * list wnode)) (lang : string)
    (patterns stopwords : list string) (pos_separator : string) : result (heap * object) :=
  '(h, sentences) ← list_copy h sentence_list;
  let french := bool_decide (lang = "fr") in
  let syntactic_filter :=
    if french then ["NPP"; "NC"; "ADJ"] else ["JJ"; "NNP"; "NNS"; "NN"; "NNPS"] in
  let syntactic_patterns :=
    (if french then ["^(ADJ)*(NC|NPP)+(ADJ)*$"] else ["^(JJ)*(NNP|NNS|NN)+$"]) ++ patterns in
  '(h, graph) ← build_graph (list_to_set stopwords) syntactic_filter pos_separator
                            0 sentences h empty_graph;
  n ← list_len h sentences;
  tagged ← mapM (λ i, load h sentences i ≫= as_tagged) (seq 0 n);
  let keyphrase_candidates := generate_candidates syntactic_filter syntactic_patterns tagged in
  word_scores ← undirected_TextRank (nodes graph) (neighbors graph) (edge_weight graph)
                                    (85 # 100) (1 # 10000) fuel;
  keyphrase_scores ← score_keyphrase_candidates word_scores keyphrase_candidates;
  '(keyphrase_candidates, keyphrase_scores) ←
    cluster_keyphrase_candidates keyphrase_candidates keyphrase_scores;
  Ok (h, Object sentences nbest_compressions graph keyphrase_candidates
                word_scores keyphrase_scores).

End object.

Definition rerank_nbest_compressions (self : object) : result (list (Q * list wnode)) :=
  foldM (λ reranked_compressions '(cummulative_score, path),
           let compression := String.concat " " path.*1 in
           total_keyphrase_score ←
             foldM (λ total '(keyphrase, _),
                      if is_substring keyphrase compression
                      then s ← dict_get (self_keyphrase_scores self) keyphrase;
                           Ok (total + s)%Q
                      else Ok total)
                   (self_keyphrase_candidates self) 1%Q;
           score ← qdiv cummulative_score
                        (inject_Z (Z.of_nat (length path)) * total_keyphrase_score);
           Ok (insort fusion_lt reranked_compressions (score, path)))
        (self_nbest_compressions self) [].

End keyphrase_reranker.

(** * An instance of [Re] for plain ASCII input

    Enough of [re] to run the examples: the non-word test on a single ASCII
    character, tokens of the shape [word/POS/digits] and [word/POS] without
    any other [/], runs of spaces. *)

Module AsciiRe.

Definition is_word_char (c : Ascii.ascii) : bool :=
  let n := Ascii.nat_of_ascii c in
  ((48 <=? n) && (n <=? 57)) || ((65 <=? n) && (n <=? 90))
  || ((97 <=? n) && (n <=? 122)) || (n =? 95).

Definition search (pattern s : string) : bool :=
  if decide (pattern = nonword_pattern)
  then match s with
       | String c EmptyString => negb (is_word_char c)
       | _ => false
       end
  else false.

Definition groups (pattern s : string) : option (list string) :=
  match split "/" s with
  | [w; p] => if decide (w ≠ "" ∧ p ≠ "") then Some [w; p] else None
  | [w; p; x] => if decide (w ≠ "" ∧ p ≠ "" ∧ x ≠ "") then Some [w; p; x] else None
  | _ => None
  end.

Fixpoint squeeze (s : string) (after_space : bool) : string :=
  match s with
  | EmptyString => EmptyString
  | String c s' =>
      if Ascii.eqb c (Ascii.ascii_of_nat 32)
      then (if after_space then squeeze s' true else String c (squeeze s' true))
      else String c (squeeze s' false)
  end.

#[export] Instance ascii_re : Re := {
  re_search := search;
  re_match := groups;
  re_sub := λ pattern repl s, squeeze s false;
  re_escape := λ s, s;
}.

End AsciiRe.

(** * Example data *)

Module examples.
Import word_graph AsciiRe.

Definition tok (w p : string) : token := (w, p, "1").
Definition first : token := (start, start, start).
Definition last : token := (stop, stop, stop).

(** Two pre-processed sentences, "a b a" and "a c ,". *)
Definition two_sentences : list (list token) :=
  [ [first; tok "a" "N"; tok "b" "VB"; tok "a" "N"; last];
    [first; tok "a" "N"; tok "c" "VB"; tok "," "P"; last] ].

Definition two_weights : gmap string Q :=
  {[ "a/-/N" := 3%Q; "b/-/VB" := 1%Q; "c/-/VB" := 1%Q; ",/-/P" := 1%Q ]}.

Definition two_graph_unweighted : DiGraph :=
  Eval vm_compute in
    match build_nodes_and_edges ∅ two_sentences with
    | Ok g => g
    | Raise _ => empty_graph
    end.

Definition two_graph : DiGraph :=
  Eval vm_compute in
    match build_graph ∅ two_sentences two_weights with
    | Ok g => g
    | Raise _ => empty_graph
    end.

(** Three sentences around a word "x": after the first two, variant 0 of
    "x" has one occurrence (between "a" and "b") and variant 1 has two
    (after "b", before "c" and before "e"). *)
Definition three_sentences : list (list token) :=
  [ [first; tok "a" "N"; tok "x" "N"; tok "b" "N"; tok "x" "N"; tok "c" "N"; last];
    [first; tok "b" "N"; tok "x" "N"; tok "e" "N"; last];
    [first; tok "a" "N"; tok "x" "N"; tok "c" "N"; last] ].

Definition third_sentence : list token :=
  [first; tok "a" "N"; tok "x" "N"; tok "c" "N"; last].

(** The graph and [mapping] when pass 2 starts on the third sentence. *)
Definition tie_state : DiGraph * list (option node) :=
  Eval vm_compute in
    match
      g ← foldM (add_sentence ∅ three_sentences) [0; 1] empty_graph;
      foldM (pass1 ∅ 2 third_sentence) (seq 0 5) (g, replicate 5 None)
    with
    | Ok st => st
    | Raise _ => (empty_graph, [])
    end.

(** Two sentences where the second occurrence of "x" in the second sentence
    meets a variant its first occurrence has just joined. *)
Definition retry_sentences : list (list token) :=
  [ [first; tok "a" "N"; tok "x" "N"; tok "b" "N"; tok "x" "N"; tok "c" "N";
     tok "x" "N"; tok "d" "N"; last];
    [first; tok "b" "N"; tok "x" "N"; tok "c" "N"; tok "q" "N"; tok "b" "N";
     tok "x" "N"; tok "d" "N"; last] ].

Definition retry_graph : DiGraph :=
  Eval vm_compute in
    match build_nodes_and_edges ∅ retry_sentences with
    | Ok g => g
    | Raise _ => empty_graph
    end.

(** A graph given directly: from the start, "run" is reached at weight 1
    and "go" at weight 2; the end is at weight 10 from "run" and at weight 1
    from "go". *)
Definition fork_start : node := (start +:+ sep +:+ start, 0).
Definition fork_end : node := (stop +:+ sep +:+ stop, 0).

Definition fork_graph : DiGraph :=
  Graph (list_to_map [ (fork_start, Attrs [(0, 0); (1, 0)] start);
                       (("run/-/VB", 0), Attrs [(0, 1)] "run");
                       (("go/-/VB", 0), Attrs [(1, 1)] "go");
                       (fork_end, Attrs [(0, 2); (1, 2)] stop) ])
        (list_to_map [ ((fork_start, ("run/-/VB", 0)), Some 1%Q);
                       ((fork_start, ("go/-/VB", 0)), Some 2%Q);
                       ((("run/-/VB", 0), fork_end), Some 10%Q);
                       ((("go/-/VB", 0), fork_end), Some 1%Q) ]).

(** A heap with one list of sentences at location 1. *)
Definition heap_of (sentences : list string) : heap := {[ 1%positive := VStr <$> sentences ]}.

(** The object built from the sentence ") run (", with its heap. *)
Definition paren_init : heap * object :=
  Eval vm_compute in
    match init (heap_of [")/P/1 run/VB/1 (/P/1"]) 1 1 "en" ∅ "/" with
    | Ok r => r
    | Raise _ => (∅, Object 1 0 0 ∅ empty_graph ∅ ∅ ∅)
    end.

End examples.

Module more_examples.
Import AsciiRe examples.

(** The two constructors on a list of one sentence. *)
Definition cat_word_graph : heap * word_graph.object :=
  Eval vm_compute in
    match word_graph.init (heap_of ["the/DT/1 cat/NN/2 sat/VB/1"]) 1 8 "en" {["the"]} "/" with
    | Ok r => r
    | Raise _ => (∅, word_graph.Object 1 0 0 ∅ word_graph.empty_graph ∅ ∅ ∅)
    end.

Definition cat_reranker : heap * keyphrase_reranker.object :=
  Eval vm_compute in
    match keyphrase_reranker.init 5 (heap_of ["the/DT cat/NN sat/VB"]) 1 [] "en" []
            ["the"] "/" with
    | Ok r => r
    | Raise _ => (∅, keyphrase_reranker.Object 1 [] keyphrase_reranker.empty_graph [] ∅ [])
    end.

End more_examples.

(** * Specifications *)

(** The exceptions Python itself can raise: the other two are artefacts of
    the embedding. *)
Definition python_exn (e : exn) : Prop := e ≠ Unmapped ∧ e ≠ OutOfFuel.

(** [r] raises no exception outside [P]. *)
Definition raises_only {A} (P : exn → Prop) (r : result A) : Prop :=
  ∀ e, r = Raise e → P e.

Module word_graph_spec.
Import word_graph.

(** Same-sentence exclusion: the occurrences of a node come from pairwise
    distinct sentences. *)
Definition distinct_sentences (g : DiGraph) : Prop :=
  ∀ n a, nodes g !! n = Some a → NoDup (info a).*1.

(** What a pass does to the graph and to [mapping] when it settles the
    token at position [j] of sentence [i]: a new node is created for the
    occurrence, or the occurrence joins a node without any occurrence from
    sentence [i]. *)
Inductive assigns (i j : nat) :
    DiGraph * list (option node) → DiGraph * list (option node) → Prop :=
  | assigns_new g mapping n lbl :
      nodes g !! n = None →
      assigns i j (g, mapping) (add_node g n [(i, j)] lbl, <[j := Some n]> mapping)
  | assigns_old g mapping n a :
      nodes g !! n = Some a →
      i ∉ (info a).*1 →
      assigns i j (g, mapping) (info_append g n (i, j), <[j := Some n]> mapping).

(** Position [j] of [mapping] holds a node. *)
Definition mapped (mapping : list (option node)) (j : nat) : Prop :=
  ∃ n, mapping !! j = Some (Some n).

(** The node at position [j] of [mapping] is in the graph and holds the
    occurrence [(i, j)]. *)
Definition located (i : nat) (st : DiGraph * list (option node)) : Prop :=
  ∀ j n, st.2 !! j = Some (Some n) →
    ∃ a, nodes st.1 !! n = Some a ∧ (i, j) ∈ info a.

(** [g'] has the edges of [g] and its nodes, with their occurrences and
    possibly more. *)
Definition extends (g g' : DiGraph) : Prop :=
  edges g' = edges g
  ∧ ∀ n a, nodes g !! n = Some a → ∃ a', nodes g' !! n = Some a' ∧ info a ⊆ info a'.

(** Every edge joins two nodes of the graph that hold consecutive positions
    of one of the [len] sentences. *)
Definition adjacent_edges (len : nat) (g : DiGraph) : Prop :=
  ∀ u v w, edges g !! (u, v) = Some w →
    ∃ s p au av,
      s < len ∧ nodes g !! u = Some au ∧ nodes g !! v = Some av
      ∧ (s, p) ∈ info au ∧ (s, S p) ∈ info av.

(** The tokens of the three groups of the passes. *)
Definition content_word `{Re} (stopwords : gset string) (s : list token) (j : nat) : Prop :=
  ∃ t, s !! j = Some t ∧ (is_stopword stopwords t.1.1 || is_punct t.1.1) = false.
Definition stop_word (stopwords : gset string) (s : list token) (j : nat) : Prop :=
  ∃ t, s !! j = Some t ∧ is_stopword stopwords t.1.1 = true.
Definition punctuation `{Re} (s : list token) (j : nat) : Prop :=
  ∃ t, s !! j = Some t ∧ is_punct t.1.1 = true.

(** [m] is the first position of the largest element of [l]. *)
Definition first_max (l : list nat) (m : nat) : Prop :=
  ∃ v, l !! m = Some v
       ∧ (∀ z y, l !! z = Some y → y ≤ v)
       ∧ (∀ z y, z < m → l !! z = Some y → y < v).

(** The variant pass 2 tries first: the first one of largest overlap when
    that overlap is positive, the first one of largest frequency otherwise. *)
Definition first_choice (overlap frequency : list nat) (c : nat) : Prop :=
  ∃ m v, first_max overlap m ∧ overlap !! m = Some v
         ∧ if v =? 0 then first_max frequency c else c = m.

End word_graph_spec.

Module search_spec.
Import word_graph.

(** The words of a list of nodes, [word, tag = node[0].split(sep)]. *)
Definition words_of (ns : list node) : result (list (string * string)) :=
  mapM (λ n : node, split2 sep n.1) ns.

(** The compression of a path: its weight and the words between the two
    sentinels. *)
Definition compression_of (p : list node * Q) : result (Q * list (string * string)) :=
  sentence ← words_of (inner p.1); Ok (p.2, sentence).

(** The effect of a word on the counter of parentheses. *)
Definition paren_value (w : string) : Z :=
  if decide (w = "(") then (-1)%Z else if decide (w = ")") then 1%Z else 0%Z.

(** Balanced nesting, as a running depth: every ")" closes an earlier "("
    and no "(" is left open. *)
Fixpoint nesting (depth : nat) (ws : list string) : bool :=
  match ws with
  | [] => depth =? 0
  | w :: ws' =>
      if decide (w = "(") then nesting (S depth) ws'
      else if decide (w = ")")
           then match depth with
                | O => false
                | S depth' => nesting depth' ws'
                end
           else nesting depth ws'
  end.

Definition balanced (ws : list string) : bool := nesting 0 ws.

Section spec.
Context `{Re}.
Variable verbs : gset string.
Variable nb_words : Z.

(** The checks every accepted path went through: it is the reversal of a
    frontier path that started at [start_], extended by [end_], and the
    counters of the scan satisfy the constraints. *)
Definition valid_path (start_ end_ : node) (p : list node) : Prop :=
  ∃ shortestpath stats,
    p = reverse (end_ :: shortestpath)
    ∧ last shortestpath = Some start_
    ∧ scan_path verbs shortestpath = Ok stats
    ∧ 0 < nb_verbs stats
    ∧ (nb_words ≤ Z.of_nat (path_length stats))%Z
    ∧ paired_parentheses stats = 0%Z
    ∧ quotation_mark_number stats mod 2 = 0.

(** The invariant of the search. *)
Definition search_invariant (start_ end_ : node) (st : search_state) : Prop :=
  (∀ x p, (x, p) ∈ paths st → last p = Some start_)
  ∧ (∀ p w, (p, w) ∈ kshortestpaths st → valid_path start_ end_ p).

End spec.

(** Ascending order of the cumulative weights. *)
Definition by_weight {A} (a b : Q * A) : Prop := (a.1 <= b.1)%Q.

End search_spec.

(** ** Further specifications *)

Module path_spec.
Import word_graph.

Section spec.
Context `{Re}.
Variable verbs : gset string.
Variable graph_weight : node → node → result Q.

(** The cumulative weight of a walk that leaves [u] with [acc] and follows
    the nodes of [p]. *)
Fixpoint cost_from (acc : Q) (u : node) (p : list node) : result Q :=
  match p with
  | [] => Ok acc
  | v :: p' => e ← graph_weight u v; cost_from (acc + e)%Q v p'
  end.

(** The sum of the weights of the edges of a path. *)
Definition path_cost (p : list node) : result Q :=
  match p with
  | [] => Ok 0%Q
  | u :: p' => cost_from 0 u p'
  end.

(** The sentence a returned path spells for the test of redundancy: the
    words of its nodes, the start and the end apart, from the last one
    back to the first. *)
Definition spelled (p : list node) : result string :=
  stats ← scan_path verbs (reverse (removelast p)); Ok (strip (raw_sentence stats)).

(** Invariants of the search.  No path repeats a node. *)
Definition simple (st : search_state) : Prop :=
  (∀ x p, (x, p) ∈ paths st → NoDup p)
  ∧ (∀ p w, (p, w) ∈ kshortestpaths st → NoDup p).

(** A frontier path starts (read backwards) at the node of its label and
    costs the weight of its label; an accepted path costs its weight. *)
Definition costed (st : search_state) : Prop :=
  (∀ x p, (x, p) ∈ paths st →
     ∃ rest c, p = x.1.2 :: rest
               ∧ path_cost (reverse p) = Ok c ∧ (c == x.1.1)%Q)
  ∧ (∀ p w, (p, w) ∈ kshortestpaths st →
       ∃ c, path_cost p = Ok c ∧ (c == w)%Q).

(** While the neighbours of one label are visited, at most one path is
    accepted: once it is, its sentence is in the container. *)
Definition one_more (n0 : nat) (shortestpath : list node) (st : search_state) : Prop :=
  length (kshortestpaths st) = n0
  ∨ (length (kshortestpaths st) = S n0
     ∧ ∀ stats, scan_path verbs shortestpath = Ok stats →
         strip (raw_sentence stats) ∈ sentence_container st).

(** The accepted paths spell pairwise different sentences, all of them in
    the container. *)
Definition spelled_apart (st : search_state) : Prop :=
  ∃ raws, mapM spelled (kshortestpaths st).*1 = Ok raws
          ∧ NoDup raws ∧ ∀ r, r ∈ raws → r ∈ sentence_container st.

End spec.
End path_spec.

Module graph_spec.
Import word_graph.

(** How a pass settles the token [t] at position [j] of sentence [i]: it
    creates the first free variant of the key of [t], or it adds the
    occurrence to a variant without occurrence from sentence [i]. *)
Inductive settles (i : nat) (s : list token) (j : nat) :
    DiGraph * list (option node) → DiGraph * list (option node) → Prop :=
  | settles_new g mapping t :
      s !! j = Some t →
      settles i s j (g, mapping)
              (add_node g (key_of t, ambiguous_nodes g (key_of t)) [(i, j)] (lower t.1.1),
               <[j := Some (key_of t, ambiguous_nodes g (key_of t))]> mapping)
  | settles_old g mapping t l a :
      s !! j = Some t →
      nodes g !! (key_of t, l) = Some a →
      i ∉ (info a).*1 →
      settles i s j (g, mapping)
              (info_append g (key_of t, l) (i, j), <[j := Some (key_of t, l)]> mapping).

Section spec.
Variable sentence : list (list token).

(** The token at position [p] of sentence [s]. *)
Definition token_at (s p : nat) : option token := sentence !! s ≫= (.!! p).

(** Every node holds an occurrence, its label is the word of the first
    one, and every occurrence it holds is a token of the key of the node. *)
Definition consistent (ns : gmap node attrs) : Prop :=
  ∀ key l a, ns !! (key, l) = Some a →
    (∃ s p t rest, info a = (s, p) :: rest ∧ token_at s p = Some t
                   ∧ label a = lower t.1.1)
    ∧ ∀ s p, (s, p) ∈ info a → ∃ t, token_at s p = Some t ∧ key_of t = key.

(** The variants of a key are numbered without a gap. *)
Definition contiguous (ns : gmap node attrs) : Prop :=
  ∀ key l, is_Some (ns !! (key, S l)) → is_Some (ns !! (key, l)).

(** [g'] has the nodes of [g], with their occurrences and possibly more,
    and the edges of [g]. *)
Definition grows (g g' : DiGraph) : Prop :=
  (∀ e, is_Some (edges g !! e) → is_Some (edges g' !! e))
  ∧ ∀ n a, nodes g !! n = Some a → ∃ a', nodes g' !! n = Some a' ∧ info a ⊆ info a'.

(** The nodes [p] hold the positions of sentence [i], one after the other,
    and every node is joined to the next one. *)
Definition spells (g : DiGraph) (i : nat) (s : list token) (p : list node) : Prop :=
  length p = length s
  ∧ (∀ j n, p !! j = Some n → ∃ a, nodes g !! n = Some a ∧ (i, j) ∈ info a)
  ∧ (∀ j u v, p !! j = Some u → p !! S j = Some v → is_Some (edges g !! (u, v))).

End spec.
End graph_spec.

Module total_spec.
Import word_graph word_graph_spec graph_spec.

(** The token that closes a pre-processed sentence, and its key. *)
Definition last_token : token := (stop, stop, stop).
Definition stop_key : string := key_of last_token.

(** The sentences as [pre_process_sentences] leaves them, as far as the
    construction depends on it: every sentence ends with the end token and
    no other token has its key. *)
Definition closed_sentences (sentence : list (list token)) : Prop :=
  ∀ s, s ∈ sentence →
    ∃ body, s = body ++ [last_token] ∧ Forall (λ t, key_of t ≠ stop_key) body.

(** While sentence [i] is mapped, the occurrences in the graph come from
    the sentences before [i] or from the positions of [i] that are mapped. *)
Definition recorded (i : nat) (st : DiGraph * list (option node)) : Prop :=
  ∀ n a s p, nodes st.1 !! n = Some a → (s, p) ∈ info a →
    s < i ∨ (s = i ∧ mapped st.2 p).

Section spec.
Context `{Re}.
Variable stopwords : gset string.
Variable sentence : list (list token).

(** The invariant of the four passes over sentence [i]. *)
Definition sound (i : nat) (s : list token) (st : DiGraph * list (option node)) : Prop :=
  consistent sentence (nodes st.1)
  ∧ nodes st.1 !! (stop_key, 1) = None
  ∧ recorded i st
  ∧ length st.2 = length s.

(** The positions before [j] that pass 1 left for pass 2 have a variant 0. *)
Definition waiting (s : list token) (j : nat) (st : DiGraph * list (option node)) : Prop :=
  ∀ j' t, j' < j → s !! j' = Some t → st.2 !! j' = Some None →
    (is_stopword stopwords t.1.1 || is_punct t.1.1) = false →
    is_Some (nodes st.1 !! (key_of t, 0)).

(** The invariant of the loop over the sentences. *)
Definition sound_graph (i : nat) (g : DiGraph) : Prop :=
  consistent sentence (nodes g)
  ∧ nodes g !! (stop_key, 1) = None
  ∧ ∀ n a s p, nodes g !! n = Some a → (s, p) ∈ info a → s < i.

End spec.
End total_spec.

Module partition_spec.
Import word_graph word_graph_spec graph_spec total_spec.

(** No occurrence is held by two nodes. *)
Definition one_node (g : DiGraph) : Prop :=
  ∀ n1 n2 a1 a2 o,
    nodes g !! n1 = Some a1 → nodes g !! n2 = Some a2 →
    o ∈ info a1 → o ∈ info a2 → n1 = n2.

(** While sentence [i] is mapped, [mapping] knows the node of every
    occurrence of the sentence. *)
Definition tracked (i : nat) (st : DiGraph * list (option node)) : Prop :=
  ∀ n a p, nodes st.1 !! n = Some a → (i, p) ∈ info a → st.2 !! p = Some (Some n).

(** The invariant of the passes over sentence [i]. *)
Definition apart (i : nat) (s : list token) (st : DiGraph * list (option node)) : Prop :=
  one_node st.1 ∧ tracked i st ∧ recorded i st ∧ length st.2 = length s.

End partition_spec.

Module statistics_spec.
Import word_graph.

(** The keys of the tokens of all the sentences, in order. *)
Definition keys_of (sentence : list (list token)) : list string :=
  key_of <$> concat sentence.

(** The weights of the tokens of key [key], the sentinels apart. *)
Definition weights_for (key : string) (tokens : list token) : list string :=
  (λ t : token, t.2)
    <$> filter (λ t : token, key_of t = key ∧ t.2 ≠ start ∧ t.2 ≠ stop) tokens.

(** The dictionaries [terms] and [weights] after the tokens [done]. *)
Definition counted (done : list token)
    (st : gmap string (list nat) * gmap string (list Q)) : Prop :=
  (∀ key, length <$> st.1 !! key
          = if decide (key ∈ key_of <$> done)
            then Some (count key (key_of <$> done)) else None)
  ∧ (∀ key, ∃ ws, mapM float_of_string (weights_for key done) = Ok ws
                  ∧ st.2 !! key = if decide (ws = []) then None else Some ws).

(** A token whose weight [compute_statistics] can read: a sentinel, or a
    string [float] accepts. *)
Definition parses (t : token) : Prop :=
  t.2 = start ∨ t.2 = stop ∨ is_Ok (float_of_string t.2).

End statistics_spec.

Module reranker_spec.
Import keyphrase_reranker.

Section spec.
Context `{Re}.
Variable syntactic_filter : list string.
Variable syntactic_patterns : list string.

(** [c] is a largest run of words of the syntactic categories in
    [sentence]: the word before it and the word after it, if any, are of
    another category. *)
Definition maximal_run (sentence c : list wnode) : Prop :=
  c ≠ []
  ∧ Forall (λ t : wnode, in_filter syntactic_filter t.2 = true) c
  ∧ ∃ pre post,
      sentence = pre ++ c ++ post
      ∧ (∀ t, last pre = Some t → in_filter syntactic_filter t.2 = false)
      ∧ (∀ t, head post = Some t → in_filter syntactic_filter t.2 = false).

(** An entry of [keyphrase_candidates]. *)
Definition candidate_of (sentences : list (list wnode)) (e : string * list wnode) : Prop :=
  e.1 = surface e.2
  ∧ is_a_candidate syntactic_patterns e.2 = true
  ∧ ∃ sentence, sentence ∈ sentences ∧ maximal_run sentence e.2.

End spec.

(** The sum of the scores of the words of a candidate. *)
Definition word_total (word_scores : gmap wnode Q) (candidate : list wnode) : result Q :=
  foldM (λ keyphrase_score word_pos_tuple,
           w ← word_scores !! word_pos_tuple ?! KeyError;
           Ok (keyphrase_score + w)%Q) candidate 0%Q.

(** [total_keyphrase_score] of the compression of a path. *)
Definition keyphrase_total (self : object) (path : list wnode) : result Q :=
  foldM (λ total '(keyphrase, _),
           if is_substring keyphrase (String.concat " " path.*1)
           then s ← dict_get (self_keyphrase_scores self) keyphrase; Ok (total + s)%Q
           else Ok total)
        (self_keyphrase_candidates self) 1%Q.

End reranker_spec.

Module cooccurrence_spec.
Import keyphrase_reranker.

(** The graph is a simple undirected graph as [nx.Graph] keeps it: every
    node has its list of neighbours, [v] is a neighbour of [u] exactly when
    the edge has a weight, and the weight, at least 1, is the same in both
    directions and joins two nodes. *)
Definition well_formed (g : Graph) : Prop :=
  NoDup (nodes g)
  ∧ (∀ n, is_Some (adj g !! n) ↔ n ∈ nodes g)
  ∧ (∀ u v, v ∈ default [] (adj g !! u) ↔ is_Some (weights g !! (u, v)))
  ∧ (∀ u v w, weights g !! (u, v) = Some w →
       1 ≤ w ∧ weights g !! (v, u) = Some w ∧ u ∈ nodes g ∧ v ∈ nodes g).

(** The pairs of words of a sentence that [build_graph] looks at: the
    word at [j] with each of the words at [j+1], ..., before
    [j + max_window], to the end of the sentence. *)
Definition pairs_from (window : Z) (sentence : list wnode) (j : nat) :
    list (wnode * wnode) :=
  let len := Z.of_nat (length sentence) in
  let max_window := if (window <? 1)%Z then len else window in
  range (Z.of_nat j + 1) (Z.min len (Z.of_nat j + max_window)) ≫= λ k,
    match sentence !! j, sentence !! k with
    | Some a, Some b => [(a, b)]
    | _, _ => []
    end.

Definition window_pairs (window : Z) (sentence : list wnode) : list (wnode * wnode) :=
  seq 0 (length sentence) ≫= pairs_from window sentence.

(** The number of pairs that join [u] and [v], in either order. *)
Definition joins (u v : wnode) (pairs : list (wnode * wnode)) : nat :=
  length (filter (λ p, p = (u, v) ∨ p = (v, u)) pairs).

Definition cooccurrences (window : Z) (sentences : list (list wnode)) (u v : wnode) : nat :=
  joins u v (sentences ≫= window_pairs window).

(** The graph after the words [toks] and the pairs [pairs]: its nodes are
    the words of a syntactic category of the filter, and the weight of an
    edge is the number of pairs that join its two nodes. *)
Definition tallied (syntactic_filter : list string) (toks : list wnode)
    (pairs : list (wnode * wnode)) (g : Graph) : Prop :=
  well_formed g
  ∧ (∀ n, n ∈ nodes g ↔ in_filter syntactic_filter n.2 = true ∧ n ∈ toks)
  ∧ (∀ a b, (a, b) ∈ pairs → a ∈ toks ∧ b ∈ toks)
  ∧ (∀ u v, default 0 (weights g !! (u, v))
            = if in_filter syntactic_filter u.2 && in_filter syntactic_filter v.2
              then joins u v pairs else 0).

End cooccurrence_spec.

Module constructor_spec.
Import keyphrase_reranker.

(** [self.syntactic_filter] and [self.syntactic_patterns] of the
    constructor. *)
Definition syntactic_filter_of (lang : string) : list string :=
  if bool_decide (lang = "fr") then ["NPP"; "NC"; "ADJ"] else ["JJ"; "NNP"; "NNS"; "NN"; "NNPS"].

Definition syntactic_patterns_of (lang : string) (patterns : list string) : list string :=
  (if bool_decide (lang = "fr") then ["^(ADJ)*(NC|NPP)+(ADJ)*$"] else ["^(JJ)*(NNP|NNS|NN)+$"])
  ++ patterns.

End constructor_spec.

Module reranker_examples.
Import keyphrase_reranker constructor_spec examples AsciiRe.

(** Two tagged sentences, "the big cat sat" and "a big cat", and two
    compressions. *)
Definition big_cat_sentences : list string :=
  ["the/DT big/JJ cat/NN sat/VB"; "a/DT big/JJ cat/NN"].

Definition big_cat_nbest : list (Q * list wnode) :=
  [ (1%Q, [("big", "JJ"); ("cat", "NN"); ("sat", "VB")]);
    ((1 # 2)%Q, [("the", "DT"); ("cat", "NN")]) ].

Definition big_cat_copied : heap :=
  Eval vm_compute in
    match list_copy (heap_of big_cat_sentences) 1 with
    | Ok r => r.1
    | Raise _ => ∅
    end.

Definition big_cat : heap * object :=
  Eval vm_compute in
    match init 5 (heap_of big_cat_sentences) 1 big_cat_nbest "en" [] ["the"] "/" with
    | Ok r => r
    | Raise _ => (∅, Object 1 [] empty_graph [] ∅ [])
    end.

(** An object with two keyphrases and their scores. *)
Definition two_keyphrases : object :=
  Object 1 big_cat_nbest empty_graph
         [("big cat", [("big", "JJ"); ("cat", "NN")]); ("cat", [("cat", "NN")])]
         ∅
         [("big cat", (2 # 3)%Q); ("cat", (1 # 2)%Q)].

End reranker_examples.

(** * Properties *)

(** ** Results and loops *)

Lemma bind_Ok {A B} (m : result A) (f : A → result B) (b : B) :
  m ≫= f = Ok b ↔ ∃ a, m = Ok a ∧ f a = Ok b.
Proof.
  destruct m as [a|e]; simpl; split.
  - intros H. exists a. auto.
  - intros (a' & Ha & H). congruence.
  - intros H. discriminate.
  - intros (a' & Ha & _). discriminate.
Qed.

Lemma or_raise_Ok {A} (o : option A) (e : exn) (a : A) :
  o ?! e = Ok a ↔ o = Some a.
Proof. destruct o; simpl; split; congruence. Qed.

(** Decompose hypotheses of the shape [(x ← m; k) = Ok v]. *)
Ltac inv_result :=
  repeat match goal with
  | H : Ok _ = Ok _ |- _ => injection H as H; try subst
  | H : Raise _ = Ok _ |- _ => discriminate H
  | H : mret _ = Ok _ |- _ => injection H as H; try subst
  | H : _ ?! _ = Ok _ |- _ => apply or_raise_Ok in H
  | H : _ ≫= _ = Ok _ |- _ =>
      let a := fresh "a" in
      let Ha := fresh "Ha" in
      apply bind_Ok in H; destruct H as (a & Ha & H)
  end.

Lemma foldM_app {A S} (f : S → A → result S) (l1 l2 : list A) (s : S) :
  foldM f (l1 ++ l2) s = s' ← foldM f l1 s; foldM f l2 s'.
Proof.
  revert s. induction l1 as [|x l1 IH]; intros s; simpl; [done|].
  destruct (f s x); simpl; auto.
Qed.

(** An invariant of the body of a loop is an invariant of the loop. *)
Lemma foldM_invariant {A S} (P : S → Prop) (f : S → A → result S) (l : list A) :
  (∀ s x s', x ∈ l → P s → f s x = Ok s' → P s') →
  ∀ s s', P s → foldM f l s = Ok s' → P s'.
Proof.
  induction l as [|x l IH]; intros Hf s s' Hs H; simpl in H.
  - by inv_result.
  - inv_result. eapply IH; [| |exact H].
    + intros. eapply Hf; eauto. by right.
    + eapply Hf; eauto. by left.
Qed.


(** ** The word graph *)

Module word_graph_facts.
Import word_graph word_graph_spec.

Lemma ambiguous_nodes_loop_spec fuel g node k :
  let r := ambiguous_nodes_loop fuel g node k in
  k ≤ r ≤ k + fuel
  ∧ (∀ l, k ≤ l < r → is_Some (nodes g !! (node, l)))
  ∧ (r < k + fuel → nodes g !! (node, r) = None).
Proof.
  revert k. induction fuel as [|fuel IH]; intros k; simpl.
  - split; [lia|]. split; intros; lia.
  - unfold has_node. case_bool_decide as Hk.
    + destruct (IH (S k)) as (Hr & Hin & Hout).
      split; [lia|]. split.
      * intros l Hl. destruct (decide (l = k)) as [->|]; [done|]. apply Hin. lia.
      * intros Hlt. apply Hout. lia.
    + split; [lia|]. split; [intros; lia|].
      intros _. by apply eq_None_not_Some.
Qed.

(** The nodes [(node, 0)], ..., [(node, n - 1)] cannot all be in a graph of
    fewer than [n] nodes. *)
Lemma variants_bounded (g : DiGraph) (node : string) (n : nat) :
  (∀ l, l < n → is_Some (nodes g !! (node, l))) → n ≤ size (nodes g).
Proof.
  intros Hall.
  set (vs := (λ l : nat, (node, l)) <$> seq 0 n).
  assert (NoDup vs) as Hnd.
  { apply NoDup_fmap_2; [|apply NoDup_seq]. intros ?? [=]. done. }
  assert ((list_to_set vs : gset (string * nat)) ⊆ dom (nodes g)) as Hsub.
  { intros x Hx. apply elem_of_list_to_set in Hx.
    apply list_elem_of_fmap in Hx as (l & -> & Hl).
    apply elem_of_seq in Hl. apply elem_of_dom. apply Hall. lia. }
  apply subseteq_size in Hsub.
  rewrite size_list_to_set in Hsub by done.
  rewrite size_dom in Hsub. unfold vs in Hsub.
  by rewrite length_fmap, length_seq in Hsub.
Qed.

(** [ambiguous_nodes] returns the first free variant index. *)
Lemma ambiguous_nodes_below g node l :
  l < ambiguous_nodes g node → is_Some (nodes g !! (node, l)).
Proof.
  unfold ambiguous_nodes. intros Hl.
  destruct (ambiguous_nodes_loop_spec (S (size (nodes g))) g node 0) as (_ & Hin & _).
  apply Hin. lia.
Qed.

Lemma ambiguous_nodes_fresh g node :
  nodes g !! (node, ambiguous_nodes g node) = None.
Proof.
  unfold ambiguous_nodes.
  destruct (ambiguous_nodes_loop_spec (S (size (nodes g))) g node 0) as (Hr & Hin & Hout).
  cbv zeta in *. apply Hout.
  set (r := ambiguous_nodes_loop (S (size (nodes g))) g node 0) in *.
  assert (r ≤ size (nodes g)); [|lia].
  apply (variants_bounded g node). intros l Hl. apply Hin. lia.
Qed.


Section passes.
Context `{Re}.
Variable stopwords : gset string.
Variable sentence : list (list token).

Lemma ids_of_Ok g n ids :
  ids_of g n = Ok ids ↔ ∃ a, nodes g !! n = Some a ∧ ids = (info a).*1.
Proof.
  unfold ids_of, graph_info. split.
  - intros Hi. inv_result. eauto.
  - intros (a & -> & ->). done.
Qed.

Lemma pass1_assigns i s st j st' :
  pass1 stopwords i s st j = Ok st' → st' = st ∨ assigns i j st st'.
Proof.
  unfold pass1. destruct st as [g mapping]. intros Hp.
  inv_result. destruct a as [[token pos] weight].
  destruct (is_stopword stopwords token || is_punct token); [inv_result; by left|].
  set (node := lower token +:+ sep +:+ pos) in *.
  destruct (ambiguous_nodes g node =? 0) eqn:Hk0.
  { inv_result. right. apply assigns_new.
    apply Nat.eqb_eq in Hk0. rewrite <- Hk0. apply ambiguous_nodes_fresh. }
  destruct (ambiguous_nodes g node =? 1) eqn:Hk1; [|inv_result; by left].
  apply Nat.eqb_eq in Hk1. inv_result.
  match goal with
  | Hs : ids_of _ _ = Ok _ |- _ => apply ids_of_Ok in Hs as (na & Hn & ->)
  end.
  case_bool_decide; inv_result; right.
  - by eapply assigns_old.
  - apply assigns_new. rewrite <- Hk1. apply ambiguous_nodes_fresh.
Qed.

(** A candidate the loop of pass 2 returns as found has no occurrence from
    the current sentence. *)
Lemma select_candidate_found fuel g node i overlap frequency selected :
  select_candidate fuel g node i overlap frequency = Ok (true, selected) →
  ∃ a, nodes g !! (node, selected) = Some a ∧ i ∉ (info a).*1.
Proof.
  revert overlap frequency.
  induction fuel as [|fuel IH]; intros overlap frequency Hs; simpl in Hs; [done|].
  inv_result.
  match goal with
  | Hs : ids_of _ _ = Ok _ |- _ => apply ids_of_Ok in Hs as (na & Hn & ->)
  end.
  case_bool_decide as Hi.
  - inv_result. eauto.
  - inv_result. destruct (length (del a1 overlap) =? 0); [done|]. eauto.
Qed.

Lemma pass2_assigns i s st j st' :
  pass2 stopwords sentence i s st j = Ok st' → st' = st ∨ assigns i j st st'.
Proof.
  unfold pass2. destruct st as [g mapping]. intros Hp.
  inv_result. destruct a as [[token pos] weight].
  destruct (is_stopword stopwords token || is_punct token); [inv_result; by left|].
  inv_result. destruct a as [m|]; [inv_result; by left|].
  set (node := lower token +:+ sep +:+ pos) in *.
  inv_result. destruct a3 as [found selected].
  destruct found; inv_result; right.
  - match goal with
    | Hs : select_candidate _ _ _ _ _ _ = Ok _ |- _ =>
        apply select_candidate_found in Hs as (na & Hn & Hi)
    end.
    by eapply assigns_old.
  - apply assigns_new, ambiguous_nodes_fresh.
Qed.

Lemma pass_context_assigns non_pos threshold i s st j token pos st' :
  pass_context stopwords sentence non_pos threshold i s st j token pos = Ok st' →
  assigns i j st st'.
Proof.
  unfold pass_context. destruct st as [g mapping]. intros Hp.
  set (node := lower token +:+ sep +:+ pos) in *.
  destruct (ambiguous_nodes g node =? 0) eqn:Hk0.
  { inv_result. apply assigns_new.
    apply Nat.eqb_eq in Hk0. rewrite <- Hk0. apply ambiguous_nodes_fresh. }
  inv_result.
  match goal with
  | Hs : ids_of _ _ = Ok _ |- _ => apply ids_of_Ok in Hs as (na & Hn & ->)
  end.
  destruct (bool_decide _ && _) eqn:Hc; inv_result.
  - apply andb_true_iff in Hc as [Hi _]. apply bool_decide_eq_true in Hi.
    by eapply assigns_old.
  - apply assigns_new, ambiguous_nodes_fresh.
Qed.

Lemma pass3_assigns i s st j st' :
  pass3 stopwords sentence i s st j = Ok st' → st' = st ∨ assigns i j st st'.
Proof.
  unfold pass3. intros Hp. inv_result. destruct a as [[token pos] weight].
  destruct (negb _); [inv_result; by left|].
  right. by eapply pass_context_assigns.
Qed.

Lemma pass4_assigns i s st j st' :
  pass4 stopwords sentence i s st j = Ok st' → st' = st ∨ assigns i j st st'.
Proof.
  unfold pass4. intros Hp. inv_result. destruct a as [[token pos] weight].
  destruct (negb _); [inv_result; by left|].
  right. by eapply pass_context_assigns.
Qed.

(** *** Same-sentence exclusion *)

Lemma assigns_distinct i j st st' :
  assigns i j st st' → distinct_sentences st.1 → distinct_sentences st'.1.
Proof.
  intros Ha Hd. destruct Ha as [g mapping n lbl Hn|g mapping n a Hn Hi];
    unfold distinct_sentences in *; simpl in *.
  - intros n' a'. rewrite lookup_insert. case_decide.
    + intros [= <-]. simpl. apply NoDup_singleton.
    + apply Hd.
  - intros n' a'. rewrite lookup_alter. case_decide as Hnn.
    + subst n'. rewrite Hn. simpl. intros [= <-]. simpl.
      rewrite fmap_app. simpl. apply NoDup_app. split; [by eapply Hd|].
      split; [|apply NoDup_singleton].
      intros x Hx Hx'. apply list_elem_of_singleton in Hx'. by subst.
    + apply Hd.
Qed.

Lemma connect_nodes mapping g j g' :
  connect mapping g j = Ok g' → nodes g' = nodes g.
Proof. unfold connect. intros Hc. by inv_result. Qed.

Lemma map_sentence_distinct g i s st' :
  distinct_sentences g →
  map_sentence stopwords sentence g i s = Ok st' → distinct_sentences st'.1.
Proof.
  unfold map_sentence. intros Hd Hm. inv_result.
  assert (∀ (pass : DiGraph * list (option node) → nat → result (DiGraph * list (option node)))
            l st st',
            (∀ st j st', pass st j = Ok st' → st' = st ∨ assigns i j st st') →
            distinct_sentences st.1 → foldM pass l st = Ok st' →
            distinct_sentences st'.1) as Hpass.
  { intros pass l st0 st0' Hstep. apply (foldM_invariant (λ st, distinct_sentences st.1)).
    intros st1 x st1' _ Hd1 Hp. destruct (Hstep _ _ _ Hp) as [->|Has]; [done|].
    by eapply assigns_distinct. }
  eapply Hpass; [apply pass4_assigns| |exact Hm].
  eapply Hpass; [apply pass3_assigns| |exact Ha1].
  eapply Hpass; [apply pass2_assigns| |exact Ha0].
  eapply Hpass; [apply pass1_assigns| |exact Ha]. done.
Qed.

Lemma add_sentence_distinct g i g' :
  distinct_sentences g →
  add_sentence stopwords sentence g i = Ok g' → distinct_sentences g'.
Proof.
  unfold add_sentence. intros Hd Ha. inv_result. destruct a0 as [g1 mapping].
  apply map_sentence_distinct in Ha1; [|done]. simpl in Ha1.
  revert Ha. apply (foldM_invariant distinct_sentences); [|done].
  intros g2 j g2' _ Hd2 Hc. apply connect_nodes in Hc.
  unfold distinct_sentences. by rewrite Hc.
Qed.

Lemma build_nodes_and_edges_distinct g :
  build_nodes_and_edges stopwords sentence = Ok g → distinct_sentences g.
Proof.
  unfold build_nodes_and_edges.
  apply (foldM_invariant distinct_sentences).
  - intros g1 i g1' _. apply add_sentence_distinct.
  - intros n a. simpl. by rewrite lookup_empty.
Qed.

Lemma weigh_edges_nodes term_weight g g' :
  weigh_edges sentence term_weight g = Ok g' → nodes g' = nodes g.
Proof. unfold weigh_edges. intros Hw. by inv_result. Qed.

(** C7: after [build_graph], the sentence indices recorded in the
    occurrence list of every node of the word graph are pairwise distinct:
    no node records two positions from the same sentence, whichever of the
    four passes attached them. *)
Theorem build_graph_distinct_sentences term_weight g :
  build_graph stopwords sentence term_weight = Ok g →
  ∀ n a, nodes g !! n = Some a → NoDup (info a).*1.
Proof.
  unfold build_graph. intros Hb. inv_result.
  apply weigh_edges_nodes in Hb. rewrite Hb.
  by apply build_nodes_and_edges_distinct.
Qed.

End passes.
End word_graph_facts.

Module word_graph_witnesses.
Import word_graph word_graph_spec word_graph_facts examples AsciiRe.

Lemma build_graph_distinct_sentences_witness :
  build_graph ∅ two_sentences two_weights = Ok two_graph
  ∧ ∀ n a, nodes two_graph !! n = Some a → NoDup (info a).*1.
Proof.
  assert (build_graph ∅ two_sentences two_weights = Ok two_graph) as Hb
    by (vm_compute; reflexivity).
  split; [exact Hb|].
  exact (build_graph_distinct_sentences ∅ two_sentences two_weights two_graph Hb).
Defined.

End word_graph_witnesses.

Module edge_weight_facts.
Import word_graph word_graph_spec.

Lemma mapM_total {A B} (f : A → result B) (l : list A) :
  (∀ x, x ∈ l → ∃ y, f x = Ok y) → ∃ ys, mapM f l = Ok ys.
Proof.
  induction l as [|x l IH]; intros Hf; simpl; [by eexists|].
  destruct (Hf x) as [y Hy]; [by left|]. rewrite Hy. simpl.
  destruct IH as [ys Hys]; [intros; apply Hf; by right|].
  rewrite Hys. simpl. by eexists.
Qed.

Lemma mapM_Forall {A B} (P : B → Prop) (f : A → result B) (l : list A) ys :
  (∀ x y, x ∈ l → f x = Ok y → P y) → mapM f l = Ok ys → Forall P ys.
Proof.
  revert ys. induction l as [|x l IH]; intros ys Hf Hm; simpl in Hm.
  - inv_result. constructor.
  - inv_result. constructor.
    + eapply Hf; [by left|done].
    + apply IH; [|done]. intros. eapply Hf; [by right|done].
Qed.

Lemma qdiv_Ok a b : ¬ (b == 0)%Q → qdiv a b = Ok (a / b)%Q.
Proof.
  intros Hb. unfold qdiv. destruct (Qeq_bool b 0) eqn:He; [|done].
  by apply Qeq_bool_iff in He.
Qed.

Lemma qdiv_zero a b : (b == 0)%Q → qdiv a b = Raise ZeroDivisionError.
Proof. intros Hb. unfold qdiv. apply Qeq_bool_iff in Hb. by rewrite Hb. Qed.

(** Only the couples where [i] comes before [j] give a distance, and the
    distance is positive. *)
Lemma all_diff_pos_positive pos_i pos_j q :
  q ∈ all_diff_pos pos_i pos_j → (0 < q)%Q.
Proof.
  unfold all_diff_pos. intros Hq.
  apply list_elem_of_bind in Hq as (x & Hq & _).
  apply list_elem_of_bind in Hq as (y & Hq & _).
  destruct (Z.ltb_spec (Z.of_nat x - Z.of_nat y) 0) as [Hlt|]; [|by inversion Hq].
  apply list_elem_of_singleton in Hq as ->.
  unfold Qlt, Qmult, inject_Z. simpl. lia.
Qed.

Lemma min_list_positive d ds :
  (0 < d)%Q → Forall (λ q, 0 < q)%Q ds → (0 < min_list d ds)%Q.
Proof.
  unfold min_list. revert d. induction ds as [|q ds IH]; intros d Hd Hds; simpl; [done|].
  inversion Hds; subst. apply IH; [|done]. by apply Q.min_glb_lt.
Qed.

(** The entries of [diff] are computed without failure and are not negative. *)
Lemma diff_entry_Ok info1 info2 s :
  ∃ q, diff_entry info1 info2 s = Ok q ∧ (0 <= q)%Q.
Proof.
  unfold diff_entry.
  destruct (all_diff_pos _ _) as [|d ds] eqn:Hd.
  - exists 0%Q. split; [done|]. apply Qle_refl.
  - assert (0 < min_list d ds)%Q as Hm.
    { apply min_list_positive.
      - apply (all_diff_pos_positive (positions_in info1 s) (positions_in info2 s)).
        rewrite Hd. by left.
      - apply Forall_forall. intros q Hq.
        apply (all_diff_pos_positive (positions_in info1 s) (positions_in info2 s)).
        rewrite Hd. by right. }
    exists (1 / min_list d ds)%Q. split.
    + apply qdiv_Ok. intros He. rewrite He in Hm. by apply Qlt_irrefl in Hm.
    + apply Qlt_le_weak. apply Qlt_shift_div_l; [done|]. by rewrite Qmult_0_l.
Qed.

Lemma diff_list_Ok n info1 info2 :
  ∃ diff, diff_list n info1 info2 = Ok diff ∧ Forall (λ q, 0 <= q)%Q diff.
Proof.
  unfold diff_list.
  destruct (mapM_total (diff_entry info1 info2) (seq 0 n)) as [diff Hd].
  { intros s _. destruct (diff_entry_Ok info1 info2 s) as (q & Hq & _). eauto. }
  exists diff. split; [done|].
  eapply mapM_Forall; [|exact Hd].
  intros s q _ Hq. destruct (diff_entry_Ok info1 info2 s) as (q' & Hq' & Hpos).
  congruence.
Qed.

Section weights.
Context `{Re}.
Variable sentence : list (list token).
Variable term_weight : gmap string Q.

(** The two outcomes of [get_edge_weight] on nodes whose term weights are
    not zero: the formula, or the failure of the division by [diff_sum]. *)
Lemma get_edge_weight_cases g node1 node2 info1 info2 :
  graph_info g node1 = Ok info1 →
  graph_info g node2 = Ok info2 →
  ¬ (weight_of term_weight node1.1 == 0)%Q →
  ¬ (weight_of term_weight node2.1 == 0)%Q →
  ∃ diff,
    diff_list (length sentence) info1 info2 = Ok diff
    ∧ (¬ (sum diff == 0)%Q →
       get_edge_weight sentence term_weight g node1 node2
       = Ok ((weight_of term_weight node1.1 + weight_of term_weight node2.1)
             / sum diff
             / (weight_of term_weight node1.1 * weight_of term_weight node2.1))%Q)
    ∧ ((sum diff == 0)%Q →
       get_edge_weight sentence term_weight g node1 node2 = Raise ZeroDivisionError).
Proof.
  intros H1 H2 Hw1 Hw2.
  destruct (diff_list_Ok (length sentence) info1 info2) as (diff & Hd & _).
  exists diff. split; [done|].
  unfold get_edge_weight. rewrite H1, H2. simpl.
  destruct (Qeq_bool (weight_of term_weight node1.1) 0) eqn:He1;
    [by apply Qeq_bool_iff in He1|].
  destruct (Qeq_bool (weight_of term_weight node2.1) 0) eqn:He2;
    [by apply Qeq_bool_iff in He2|].
  simpl. rewrite Hd. simpl. split.
  - intros Hs. rewrite (qdiv_Ok _ _ Hs). simpl. apply qdiv_Ok.
    intros Hm. apply Qmult_integral in Hm. tauto.
  - intros Hs. by rewrite (qdiv_zero _ _ Hs).
Qed.

End weights.
End edge_weight_facts.

Module edge_weight_witnesses.
Import word_graph word_graph_spec edge_weight_facts examples AsciiRe.


End edge_weight_witnesses.

Module selection_facts.
Import word_graph word_graph_spec word_graph_facts.

(** [max_index_loop] continues a scan: [pre] is the part of the list already
    seen, [max_val] its largest element and [max_ind] the first position of
    [max_val]. *)
Lemma max_index_loop_spec (l pre : list nat) (max_val max_ind : nat) :
  pre !! max_ind = Some max_val →
  (∀ z y, pre !! z = Some y → y ≤ max_val) →
  (∀ z y, z < max_ind → pre !! z = Some y → y < max_val) →
  first_max (pre ++ l) (max_index_loop l (length pre) max_val max_ind).
Proof.
  revert pre max_val max_ind.
  induction l as [|x l IH]; intros pre max_val max_ind Hm Hle Hlt; simpl.
  - rewrite app_nil_r. exists max_val. auto.
  - replace (pre ++ x :: l) with ((pre ++ [x]) ++ l) by (by rewrite <- app_assoc).
    replace (S (length pre)) with (length (pre ++ [x]))
      by (rewrite length_app; simpl; lia).
    destruct (Nat.ltb_spec max_val x) as [Hx|Hx]; apply IH.
    + rewrite lookup_app_r by lia. by rewrite Nat.sub_diag.
    + intros z y Hz. apply lookup_app_Some in Hz as [Hz|[_ Hz]].
      * apply Hle in Hz. lia.
      * apply list_lookup_singleton_Some in Hz as [_ <-]. lia.
    + intros z y Hzl Hz. rewrite lookup_app_l in Hz by done.
      apply Hle in Hz. lia.
    + rewrite lookup_app_l; [done|]. by eapply lookup_lt_Some.
    + intros z y Hz. apply lookup_app_Some in Hz as [Hz|[_ Hz]].
      * by eapply Hle.
      * apply list_lookup_singleton_Some in Hz as [_ <-]. lia.
    + intros z y Hzl Hz. apply lookup_lt_Some in Hm.
      rewrite lookup_app_l in Hz by lia. by eapply Hlt.
Qed.

Lemma max_index_spec l m : max_index l = Ok m → first_max l m.
Proof.
  destruct l as [|x l]; [done|].
  assert (Ok (max_index_loop l 1 x 0) = Ok m → first_max (x :: l) m) as Hgen.
  { intros [= <-]. apply (max_index_loop_spec l [x] x 0); [done| |intros; lia].
    intros z y Hz. apply list_lookup_singleton_Some in Hz as [_ <-]. lia. }
  destruct l as [|y l]; [|exact Hgen]. exact Hgen.
Qed.

Section selection.
Context `{Re}.
Variable stopwords : gset string.
Variable sentence : list (list token).

(** C4 (amended): in pass 2 the variant tried first is the first variant of
    largest context overlap when that overlap is positive, and the first
    variant of largest occurrence count when every overlap is zero; it
    receives the occurrence when it has no occurrence from the current
    sentence.  In every case the occurrence joins an existing variant only
    if that variant has no occurrence from the current sentence, and
    otherwise a new variant, of index [k], is created. *)
Theorem pass2_selection i s g mapping j token pos weight st' :
  s !! j = Some (token, pos, weight) →
  (is_stopword stopwords token || is_punct token) = false →
  mapping !! j = Some None →
  pass2 stopwords sentence i s (g, mapping) j = Ok st' →
  let node := lower token +:+ sep +:+ pos in
  let k := ambiguous_nodes g node in
  ∃ p n overlap frequency c,
    py_index s (Z.of_nat j - 1) = Ok p
    ∧ py_index s (Z.of_nat j + 1) = Ok n
    ∧ mapM (context_overlap stopwords sentence g node false (key_of p) (key_of n))
           (seq 0 k) = Ok overlap
    ∧ mapM (λ l, inf ← graph_info g (node, l); Ok (length inf)) (seq 0 k) = Ok frequency
    ∧ first_choice overlap frequency c
    ∧ (∀ a, nodes g !! (node, c) = Some a → i ∉ (info a).*1 →
         st' = (info_append g (node, c) (i, j), <[j := Some (node, c)]> mapping))
    ∧ ((∃ selected a,
          nodes g !! (node, selected) = Some a ∧ (i ∉ (info a).*1)
          ∧ st' = (info_append g (node, selected) (i, j),
                   <[j := Some (node, selected)]> mapping))
       ∨ (nodes g !! (node, k) = None
          ∧ st' = (add_node g (node, k) [(i, j)] (lower token),
                   <[j := Some (node, k)]> mapping))).
Proof.
  intros Hj Hw Hm Hp node k. unfold pass2 in Hp.
  rewrite Hj in Hp. simpl in Hp. rewrite Hw, Hm in Hp. simpl in Hp.
  fold node in Hp. fold k in Hp.
  apply bind_Ok in Hp as (p & Hprev & Hp).
  apply bind_Ok in Hp as (n & Hnext & Hp).
  apply bind_Ok in Hp as (overlap & Hov & Hp).
  apply bind_Ok in Hp as (frequency & Hfr & Hp).
  apply bind_Ok in Hp as ([found selected] & Hsel & Hp).
  simpl in Hsel.
  apply bind_Ok in Hsel as (m & Hmax & Hsel).
  apply bind_Ok in Hsel as (v & Hv & Hsel). apply or_raise_Ok in Hv.
  apply bind_Ok in Hsel as (c & Hc & Hsel).
  apply bind_Ok in Hsel as (ids & Hids & Hsel).
  apply ids_of_Ok in Hids as (ac & Hac & ->).
  exists p, n, overlap, frequency, c.
  do 4 (split; [done|]).
  split.
  { exists m, v. split; [by apply max_index_spec|]. split; [done|].
    destruct (v =? 0); [by apply max_index_spec|]. by injection Hc as <-. }
  split.
  { intros a Ha Hi. rewrite Hac in Ha. injection Ha as <-.
    rewrite bool_decide_eq_true_2 in Hsel by done.
    injection Hsel as <- <-. by injection Hp as <-. }
  destruct found.
  - left.
    assert (select_candidate (S (length overlap)) g node i overlap frequency
            = Ok (true, selected)) as Hs.
    { simpl. rewrite Hmax. simpl. rewrite Hv. simpl. rewrite Hc. simpl.
      unfold ids_of, graph_info. rewrite Hac. simpl. exact Hsel. }
    apply select_candidate_found in Hs as (a & Ha & Hi).
    exists selected, a. by injection Hp as <-.
  - right. split; [apply ambiguous_nodes_fresh|]. by injection Hp as <-.
Qed.

End selection.
End selection_facts.

Module selection_witnesses.
Import word_graph word_graph_spec word_graph_facts selection_facts examples AsciiRe.

(** Both variants of "x" overlap once with the neighbours "a" and "c" of the
    third sentence and neither has an occurrence from it; the occurrence
    joins variant 0, of frequency 1, although variant 1 has frequency 2. *)
Lemma pass2_tie_not_broken_by_frequency :
  mapM (context_overlap ∅ three_sentences tie_state.1 "x/-/N" false "a/-/N" "c/-/N")
       [0; 1] = Ok [1; 1]
  ∧ graph_info tie_state.1 ("x/-/N", 0) = Ok [(0, 2)]
  ∧ graph_info tie_state.1 ("x/-/N", 1) = Ok [(0, 4); (1, 2)]
  ∧ pass2 ∅ three_sentences 2 third_sentence tie_state 2
    = Ok (info_append tie_state.1 ("x/-/N", 0) (2, 2),
          <[2 := Some ("x/-/N", 0)]> tie_state.2).
Proof. repeat split; vm_compute; reflexivity. Qed.

Lemma pass2_selection_witness :
  ∃ overlap frequency c, first_choice overlap frequency c.
Proof.
  assert (third_sentence !! 2 = Some ("x", "N", "1")) as H1 by reflexivity.
  assert ((is_stopword ∅ "x" || is_punct "x") = false) as H2 by (vm_compute; reflexivity).
  assert (tie_state.2 !! 2 = Some None) as H3 by (vm_compute; reflexivity).
  assert (pass2 ∅ three_sentences 2 third_sentence (tie_state.1, tie_state.2) 2
          = Ok (info_append tie_state.1 ("x/-/N", 0) (2, 2),
                <[2 := Some ("x/-/N", 0)]> tie_state.2)) as H4
    by (vm_compute; reflexivity).
  destruct (pass2_selection ∅ three_sentences 2 third_sentence tie_state.1 tie_state.2 2
              "x" "N" "1" _ H1 H2 H3 H4)
    as (p & n & overlap & frequency & c & _ & _ & _ & _ & Hc & _).
  by exists overlap, frequency, c.
Defined.

(** The retry of pass 2 reads the positions of the shortened lists as
    variant indices.  Here the second "x" of the second sentence has
    overlaps [0; 2; 1] with the three variants; variant 1 already holds the
    first "x" of the sentence, and the occurrence ends on variant 0 although
    variant 2 is free and overlaps more. *)
Example pass2_retry_shifts_indices :
  build_nodes_and_edges ∅ retry_sentences = Ok retry_graph
  ∧ graph_info retry_graph ("x/-/N", 0) = Ok [(0, 2); (1, 6)]
  ∧ graph_info retry_graph ("x/-/N", 1) = Ok [(0, 4); (1, 2)]
  ∧ graph_info retry_graph ("x/-/N", 2) = Ok [(0, 6)].
Proof. repeat split; vm_compute; reflexivity. Qed.

End selection_witnesses.

(** ** [bisect.insort] keeps a list in ascending order of weight *)

Module bisect_facts.
Import search_spec.

Section insort.
Context {A : Type}.
Variable less : Q * A → Q * A → bool.
(** The comparison looks at the weights first. *)
Hypothesis less_weight : ∀ x y, less x y = true → (x.1 <= y.1)%Q.
Hypothesis not_less_weight : ∀ x y, less x y = false → (y.1 <= x.1)%Q.

Lemma sorted_lookup (a : list (Q * A)) i j x y :
  StronglySorted by_weight a → i ≤ j → a !! i = Some x → a !! j = Some y →
  (x.1 <= y.1)%Q.
Proof.
  intros Hs Hij Hi Hj.
  destruct (decide (i = j)) as [->|Hne].
  { rewrite Hi in Hj. injection Hj as <-. apply Qle_refl. }
  rewrite <- (take_drop j a) in Hs.
  eapply (StronglySorted_app_1_elem_of _ _ _ x y) in Hs; [done| |].
  - apply elem_of_take. exists i. split; [done|lia].
  - apply list_elem_of_lookup. exists 0. rewrite lookup_drop. by rewrite Nat.add_0_r.
Qed.

Lemma bisect_right_spec (a : list (Q * A)) x fuel lo hi :
  StronglySorted by_weight a →
  lo ≤ hi → hi ≤ length a → hi - lo ≤ fuel →
  (∀ i y, i < lo → a !! i = Some y → (y.1 <= x.1)%Q) →
  (∀ i y, hi ≤ i → a !! i = Some y → (x.1 <= y.1)%Q) →
  let r := bisect_right less fuel a x lo hi in
  r ≤ length a
  ∧ (∀ i y, i < r → a !! i = Some y → (y.1 <= x.1)%Q)
  ∧ (∀ i y, r ≤ i → a !! i = Some y → (x.1 <= y.1)%Q).
Proof.
  intros Hs. revert lo hi.
  induction fuel as [|fuel IH]; intros lo hi Hlh Hhi Hfuel Hlo Hup;
    cbv zeta; cbn [bisect_right].
  { assert (lo = hi) as -> by lia. split; [lia|]. split; assumption. }
  destruct (Nat.ltb_spec lo hi) as [Hlt|Hge].
  2:{ assert (lo = hi) as -> by lia. split; [lia|]. split; assumption. }
  assert (lo ≤ (lo + hi) / 2 ∧ (lo + hi) / 2 < hi) as [Hm1 Hm2].
  { split.
    - apply Nat.div_le_lower_bound; lia.
    - apply Nat.Div0.div_lt_upper_bound; lia. }
  destruct (a !! ((lo + hi) / 2)) as [ym|] eqn:Hmid.
  2:{ apply lookup_ge_None in Hmid. lia. }
  destruct (less x ym) eqn:Hc.
  - apply IH; [lia|lia|lia|done|].
    intros i y Hi Hy. apply less_weight in Hc.
    eapply Qle_trans; [exact Hc|]. by eapply (sorted_lookup a ((lo + hi) / 2) i).
  - apply IH; [lia|lia|lia| |done].
    intros i y Hi Hy. apply not_less_weight in Hc.
    eapply Qle_trans; [|exact Hc]. eapply (sorted_lookup a i ((lo + hi) / 2)); [done|lia|done..].
Qed.

Lemma insort_Permutation (a : list (Q * A)) x : insort less a x ≡ₚ x :: a.
Proof.
  unfold insort. rewrite <- Permutation_middle. by rewrite take_drop.
Qed.

Lemma insort_sorted (a : list (Q * A)) x :
  StronglySorted by_weight a → StronglySorted by_weight (insort less a x).
Proof.
  intros Hs. unfold insort.
  destruct (bisect_right_spec a x (length a) 0 (length a) Hs) as (Hr & Hlow & Hup);
    [lia|lia|lia|intros; lia| |].
  { intros i y Hi Hy. apply lookup_lt_Some in Hy. lia. }
  set (r := bisect_right less (length a) a x 0 (length a)) in *.
  rewrite <- (take_drop r a) in Hs.
  apply StronglySorted_app in Hs as (Hcross & Hs1 & Hs2).
  apply StronglySorted_app_2.
  - intros y z Hy Hz. apply elem_of_take in Hy as (i & Hy & Hi).
    apply elem_of_cons in Hz as [->|Hz].
    + by eapply Hlow.
    + apply Hcross; [|done]. apply elem_of_take. eauto.
  - done.
  - constructor; [done|]. apply Forall_forall. intros z Hz.
    apply list_elem_of_lookup in Hz as (i & Hz). rewrite lookup_drop in Hz.
    eapply (Hup (r + i)); [lia|done].
Qed.

End insort.

Lemma fusion_lt_weight (x y : Q * list (string * string)) :
  fusion_lt x y = true → (x.1 <= y.1)%Q.
Proof.
  unfold fusion_lt, Qlt_bool. intros Hc. apply orb_true_iff in Hc as [Hc|Hc].
  - apply negb_true_iff in Hc.
    destruct (Qlt_le_dec x.1 y.1) as [Hlt|Hle]; [by apply Qlt_le_weak|].
    apply Qle_bool_iff in Hle. congruence.
  - apply andb_true_iff in Hc as [Hc _]. apply Qeq_bool_iff in Hc.
    rewrite Hc. apply Qle_refl.
Qed.

Lemma fusion_not_lt_weight (x y : Q * list (string * string)) :
  fusion_lt x y = false → (y.1 <= x.1)%Q.
Proof.
  unfold fusion_lt, Qlt_bool. intros Hc. apply orb_false_iff in Hc as [Hc _].
  apply negb_false_iff in Hc. by apply Qle_bool_iff.
Qed.

End bisect_facts.

(** ** The path search *)

Module search_facts.
Import word_graph search_spec.

Lemma paths_get_elem paths x p :
  paths_get paths x = Ok p → ∃ x', (x', p) ∈ paths.
Proof.
  unfold paths_get. destruct (list_find _ paths) as [[i [x' p']]|] eqn:Hf; [|done].
  intros [= <-]. apply list_find_Some in Hf as (Hi & _).
  exists x'. by eapply list_elem_of_lookup_2.
Qed.

Lemma paths_del_elem paths x e : e ∈ paths_del paths x → e ∈ paths.
Proof. unfold paths_del. intros He. by apply list_elem_of_filter in He as [_ He]. Qed.

Lemma last_cons_nonempty {A} (x : A) (l : list A) (y : A) :
  last l = Some y → last (x :: l) = Some y.
Proof. destruct l; [done|]. done. Qed.

Lemma mapM_app {A B} (f : A → result B) (l1 l2 : list A) ys1 ys2 :
  mapM f l1 = Ok ys1 → mapM f l2 = Ok ys2 → mapM f (l1 ++ l2) = Ok (ys1 ++ ys2).
Proof.
  revert ys1. induction l1 as [|x l1 IH]; intros ys1 H1 H2; simpl in *.
  - by injection H1 as <-.
  - apply bind_Ok in H1 as (y & Hy & H1). apply bind_Ok in H1 as (ys & Hys & H1).
    injection H1 as <-. rewrite Hy. simpl. by rewrite (IH ys Hys H2).
Qed.

Lemma mapM_reverse {A B} (f : A → result B) (l : list A) ys :
  mapM f l = Ok ys → mapM f (reverse l) = Ok (reverse ys).
Proof.
  revert ys. induction l as [|x l IH]; intros ys Hm; simpl in Hm.
  - by injection Hm as <-.
  - apply bind_Ok in Hm as (y & Hy & Hm). apply bind_Ok in Hm as (ys' & Hys & Hm).
    injection Hm as <-. rewrite !reverse_cons.
    apply mapM_app; [by apply IH|]. simpl. by rewrite Hy.
Qed.

Lemma count_reverse `{EqDecision A} (x : A) (l : list A) :
  count x (reverse l) = count x l.
Proof. unfold count. by rewrite reverse_Permutation. Qed.

(** Stripping both ends of a returned path gives the scanned part of the
    frontier path, in the order of the sentence. *)
Lemma inner_reverse (end_ : node) (shortestpath : list node) :
  inner (reverse (end_ :: shortestpath)) = reverse (scanned shortestpath).
Proof.
  induction shortestpath as [|y l0 _] using rev_ind; [done|].
  unfold inner, scanned. rewrite reverse_cons, reverse_snoc. simpl.
  rewrite !length_app, length_reverse. simpl.
  replace (length l0 + 1 - 1) with (length l0) by lia.
  rewrite drop_0, take_app_length.
  apply take_app_length'. by rewrite length_reverse.
Qed.

(** A returned path starts at the start node and stops at the end node. *)
Lemma reverse_path_ends (start_ end_ : node) (shortestpath : list node) :
  last shortestpath = Some start_ →
  reverse (end_ :: shortestpath)
  = start_ :: inner (reverse (end_ :: shortestpath)) ++ [end_].
Proof.
  intros Hl. rewrite inner_reverse. apply last_Some in Hl as [l ->].
  unfold scanned. rewrite length_app. simpl.
  replace (length l + 1 - 1) with (length l) by lia.
  rewrite take_app_length, reverse_cons, reverse_snoc. done.
Qed.

Lemma paren_value_sum (ws : list string) :
  foldr (λ w z, paren_value w + z)%Z 0%Z ws
  = (Z.of_nat (count ")" ws) - Z.of_nat (count "(" ws))%Z.
Proof.
  unfold count. induction ws as [|w ws IH]; simpl; [done|].
  rewrite IH. unfold paren_value. rewrite !filter_cons.
  destruct (decide (w = "(")) as [->|]; [simpl; lia|].
  destruct (decide (w = ")")) as [->|]; simpl; lia.
Qed.

Section search.
Context `{Re}.
Variable verbs : gset string.
Variable nb_words : Z.
Variable graph_neighbors : node → result (list node).
Variable graph_weight : node → node → result Q.
Variables start_ end_ : node.

Lemma accepted_checks container stats :
  accepted nb_words container stats = true →
  0 < nb_verbs stats
  ∧ (nb_words ≤ Z.of_nat (path_length stats))%Z
  ∧ paired_parentheses stats = 0%Z
  ∧ quotation_mark_number stats mod 2 = 0.
Proof.
  unfold accepted. intros Ha.
  repeat (apply andb_true_iff in Ha as [Ha ?]).
  split; [by apply Nat.ltb_lt|]. split; [by apply Z.leb_le|].
  split; [by apply Z.eqb_eq|]. by apply Nat.eqb_eq.
Qed.

Lemma visit_invariant shortest shortestpath st node st' :
  last shortestpath = Some start_ →
  search_invariant verbs nb_words start_ end_ st →
  visit verbs nb_words graph_weight end_ shortest shortestpath st node = Ok st' →
  search_invariant verbs nb_words start_ end_ st'.
Proof.
  intros Hlast [Hpaths Hacc] Hv. unfold visit in Hv.
  case_bool_decide; [by inv_result|].
  apply bind_Ok in Hv as (e & He & Hv).
  case_bool_decide as Hend.
  - apply bind_Ok in Hv as (stats & Hscan & Hv).
    destruct (accepted _ _ stats) eqn:Hok; [|by inv_result].
    injection Hv as <-. split; [exact Hpaths|]. simpl.
    intros p w Hp. apply elem_of_app in Hp as [Hp|Hp]; [by eapply Hacc|].
    apply list_elem_of_singleton in Hp. injection Hp as -> ->.
    exists shortestpath, stats. subst node.
    split; [done|]. split; [done|]. split; [done|].
    by eapply accepted_checks.
  - injection Hv as <-. split; [|exact Hacc]. simpl.
    intros x p Hp. unfold paths_set in Hp.
    apply elem_of_app in Hp as [Hp|Hp].
    + apply paths_del_elem in Hp. by eapply Hpaths.
    + apply list_elem_of_singleton in Hp. injection Hp as -> ->.
      by apply last_cons_nonempty.
Qed.

Lemma expand_invariant st st' :
  search_invariant verbs nb_words start_ end_ st →
  expand verbs nb_words graph_neighbors graph_weight end_ st = Ok st' →
  search_invariant verbs nb_words start_ end_ st'.
Proof.
  intros [Hpaths Hacc] He. unfold expand in He.
  destruct (orderedX st) as [|shortest rest]; [done|].
  apply bind_Ok in He as (shortestpath & Hget & He).
  apply bind_Ok in He as (ns & Hns & He).
  apply paths_get_elem in Hget as [x' Hx'].
  revert He. apply foldM_invariant.
  - intros s n s' _. apply visit_invariant. by eapply Hpaths.
  - split; [|exact Hacc]. simpl. intros x p Hp.
    apply paths_del_elem in Hp. by eapply Hpaths.
Qed.

Lemma search_loop_invariant fuel k st st' :
  search_invariant verbs nb_words start_ end_ st →
  search_loop verbs nb_words graph_neighbors graph_weight fuel end_ k st = Ok st' →
  search_invariant verbs nb_words start_ end_ st'.
Proof.
  revert st. induction fuel as [|fuel IH]; intros st Hinv Hs; simpl in Hs.
  - destruct (searching k st); [done|]. by injection Hs as <-.
  - destruct (searching k st); [|by injection Hs as <-].
    apply bind_Ok in Hs as (st1 & He & Hs).
    eapply IH; [|exact Hs]. by eapply expand_invariant.
Qed.

Lemma initial_invariant :
  search_invariant verbs nb_words start_ end_ (initial start_).
Proof.
  split; simpl.
  - intros x p Hp. apply list_elem_of_singleton in Hp. by injection Hp as -> ->.
  - intros p w Hp. by apply elem_of_nil in Hp.
Qed.

(** Path validity: every path the search returns passed the four checks
    on its counters. *)
Lemma k_shortest_paths_valid fuel k ps :
  k_shortest_paths verbs nb_words graph_neighbors graph_weight fuel start_ end_ k = Ok ps →
  ∀ p w, (p, w) ∈ ps → valid_path verbs nb_words start_ end_ p.
Proof.
  unfold k_shortest_paths. intros Hk.
  apply bind_Ok in Hk as (st & Hs & Hk). injection Hk as <-.
  apply search_loop_invariant in Hs as [_ Hacc]; [done|].
  apply initial_invariant.
Qed.

Hypothesis open_is_punct : re_search nonword_pattern "(" = true.
Hypothesis close_is_punct : re_search nonword_pattern ")" = true.

Lemma scan_node_parentheses st n st' :
  scan_node verbs st n = Ok st' →
  ∃ wt, split2 sep n.1 = Ok wt
        ∧ paired_parentheses st' = (paired_parentheses st + paren_value wt.1)%Z.
Proof.
  unfold scan_node. intros Hs. apply bind_Ok in Hs as ([word tag] & Hw & Hs).
  exists (word, tag). split; [done|]. injection Hs as <-. simpl.
  unfold paren_value.
  destruct (decide (word = "(")) as [->|Hno].
  { rewrite open_is_punct. simpl. by destruct (bool_decide _). }
  destruct (decide (word = ")")) as [->|Hnc].
  { rewrite close_is_punct. simpl. by destruct (bool_decide _). }
  destruct (bool_decide _), (re_search _ word), (decide (word = quotation_mark));
    simpl; lia.
Qed.

Lemma scan_nodes_parentheses l st st' :
  foldM (scan_node verbs) l st = Ok st' →
  ∃ ws, words_of l = Ok ws
        ∧ paired_parentheses st'
          = (paired_parentheses st
             + (Z.of_nat (count ")" ws.*1) - Z.of_nat (count "(" ws.*1)))%Z.
Proof.
  intros Hs.
  assert (∃ ws, words_of l = Ok ws
                ∧ paired_parentheses st'
                  = (paired_parentheses st
                     + foldr (λ w z, paren_value w + z) 0 ws.*1)%Z) as (ws & Hws & Hp).
  { revert st Hs. induction l as [|n l IH]; intros st Hs; simpl in Hs.
    - injection Hs as <-. exists []. split; [done|]. simpl. lia.
    - apply bind_Ok in Hs as (st1 & Hn & Hs).
      apply scan_node_parentheses in Hn as (wt & Hwt & Hp1).
      apply IH in Hs as (ws & Hws & Hp).
      exists (wt :: ws). split.
      + unfold words_of in *. simpl. rewrite Hwt. simpl. by rewrite Hws.
      + rewrite Hp, Hp1, fmap_cons. cbn [foldr]. lia. }
  exists ws. split; [done|]. by rewrite <- paren_value_sum.
Qed.


End search.
End search_facts.

(** ** The compression candidates *)

Module compression_facts.
Import word_graph search_spec search_facts bisect_facts.

Lemma fuse_all l acc fusions :
  foldM fuse l acc = Ok fusions →
  StronglySorted by_weight acc →
  StronglySorted by_weight fusions
  ∧ ∃ entries, mapM compression_of l = Ok entries ∧ fusions ≡ₚ acc ++ entries.
Proof.
  revert acc. induction l as [|p l IH]; intros acc Hf Hs; simpl in Hf.
  - injection Hf as <-. split; [done|]. exists []. by rewrite app_nil_r.
  - apply bind_Ok in Hf as (acc1 & Hp & Hf). unfold fuse in Hp.
    apply bind_Ok in Hp as (sentence & Hw & Hp). injection Hp as <-.
    apply IH in Hf as (Hsorted & entries & He & Hperm).
    2:{ apply insort_sorted; [apply fusion_lt_weight|apply fusion_not_lt_weight|done]. }
    split; [done|]. exists ((p.2, sentence) :: entries). split.
    + assert (compression_of p = Ok (p.2, sentence)) as Hc.
      { unfold compression_of, words_of. by rewrite Hw. }
      cbn [mapM]. rewrite Hc. simpl. by rewrite He.
    + rewrite Hperm, insort_Permutation. simpl. apply Permutation_middle.
Qed.

Section compression.
Context `{Re}.
Variable verbs : gset string.
Variable nb_words : Z.
Variable graph_neighbors : node → result (list node).
Variable graph_weight : node → node → result Q.

Let start_ : node := (start +:+ sep +:+ start, 0).
Let end_ : node := (stop +:+ sep +:+ stop, 0).


End compression.
End compression_facts.

Module search_witnesses.
Import word_graph search_spec search_facts compression_facts examples AsciiRe.



(** The raw output of the search need not be in order of weight: the path
    through "run" is completed first, at weight 11, before the path through
    "go", at weight 3. *)
Example raw_paths_unsorted :
  k_shortest_paths english_verbs 1 (neighbors fork_graph) (edge_weight fork_graph)
                   10 fork_start fork_end 50
  = Ok [([fork_start; ("run/-/VB", 0); fork_end], 11%Q);
        ([fork_start; ("go/-/VB", 0); fork_end], 3%Q)]
  ∧ get_compression english_verbs 1 (neighbors fork_graph) (edge_weight fork_graph) 10 50
    = Ok [(3%Q, [("go", "VB")]); (11%Q, [("run", "VB")])].
Proof. split; vm_compute; reflexivity. Qed.


End search_witnesses.

(** ** The empty sentence list *)

Module empty_list_facts.
Import word_graph search_spec.

Section empty.
Context `{Re}.

Lemma xlabel_eqb_refl (x : xlabel) : xlabel_eqb x x = true.
Proof.
  unfold xlabel_eqb. rewrite bool_decide_eq_true_2 by done.
  rewrite Nat.eqb_refl, andb_true_r, andb_true_r. apply Qeq_bool_iff, Qeq_refl.
Qed.

(** The search raises as soon as it asks for the neighbours of a start node
    that is not in the graph. *)
Lemma search_without_start verbs nb_words g fuel start_ end_ k :
  nodes g !! start_ = None →
  (1 ≤ k)%Z →
  k_shortest_paths verbs nb_words (neighbors g) (edge_weight g) (S fuel) start_ end_ k
  = Raise NetworkXError.
Proof.
  intros Hs Hk. unfold k_shortest_paths. cbn [search_loop].
  assert (searching k (initial start_) = true) as ->.
  { unfold searching. cbn [initial kshortestpaths orderedX length].
    apply andb_true_iff. split; [apply Z.ltb_lt; simpl; lia|done]. }
  unfold expand. cbn [initial orderedX paths].
  unfold paths_get. cbn [list_find]. rewrite decide_True by apply xlabel_eqb_refl.
  cbn. unfold neighbors, has_node. rewrite Hs.
  rewrite bool_decide_eq_false_2; [done|]. by intros [? ?].
Qed.

Lemma search_nothing_asked verbs nb_words neighbors_ weight_ fuel start_ end_ k :
  (k ≤ 0)%Z →
  k_shortest_paths verbs nb_words neighbors_ weight_ fuel start_ end_ k = Ok [].
Proof.
  intros Hk. unfold k_shortest_paths.
  assert (searching k (initial start_) = false) as Hs.
  { unfold searching. cbn [initial kshortestpaths orderedX length].
    apply andb_false_iff. left. apply Z.ltb_ge. simpl. lia. }
  destruct fuel; simpl; by rewrite Hs.
Qed.

(** The constructor on an empty list of sentences. *)
Lemma init_empty (h : heap) l nb_words lang stopwords pos_separator :
  h !! l = Some [] →
  ∃ self,
    init h l nb_words lang stopwords pos_separator
    = Ok (<[fresh (dom h) := []]> h, self)
    ∧ self_graph self = Graph ∅ ∅.
Proof.
  intros Hl. unfold init, list_copy, list_len. rewrite Hl. cbn.
  assert (fresh (dom h) ≠ l) as Hne.
  { intros <-. apply (is_fresh (dom h)). apply elem_of_dom. by rewrite Hl. }
  rewrite lookup_insert_ne by done. rewrite Hl. cbn.
  unfold compute_statistics. cbn. rewrite !fmap_empty.
  unfold build_graph, build_nodes_and_edges, weigh_edges. cbn.
  rewrite map_to_list_empty. cbn. by eexists.
Qed.

(** C2: on a [word_graph] made from an empty sentence list,
    [get_compression] raises the error of networkx for a node that is not
    in the graph whenever one candidate or more is asked for; it returns
    the empty list only when none is asked for. *)
Theorem empty_sentence_list_raises (h : heap) l nb_words lang stopwords pos_separator :
  h !! l = Some [] →
  ∃ h' self,
    init h l nb_words lang stopwords pos_separator = Ok (h', self)
    ∧ (∀ fuel nb_candidates, (1 ≤ nb_candidates)%Z →
         compress (S fuel) self nb_candidates = Raise NetworkXError)
    ∧ (∀ fuel nb_candidates, (nb_candidates ≤ 0)%Z →
         compress fuel self nb_candidates = Ok []).
Proof.
  intros Hl. destruct (init_empty h l nb_words lang stopwords pos_separator Hl)
    as (self & Hi & Hg).
  exists (<[fresh (dom h) := []]> h), self. split; [done|].
  unfold compress, get_compression. rewrite Hg. split.
  - intros fuel k Hk. by rewrite search_without_start.
  - intros fuel k Hk. by rewrite search_nothing_asked.
Qed.

End empty.
End empty_list_facts.

Module empty_list_witnesses.
Import word_graph empty_list_facts examples AsciiRe.

Lemma empty_sentence_list_raises_witness :
  ∃ h' self,
    init (heap_of []) 1 8 "en" ∅ "/" = Ok (h', self)
    ∧ (∀ fuel nb_candidates, (1 ≤ nb_candidates)%Z →
         compress (S fuel) self nb_candidates = Raise NetworkXError)
    ∧ (∀ fuel nb_candidates, (nb_candidates ≤ 0)%Z →
         compress fuel self nb_candidates = Ok []).
Proof.
  apply (empty_sentence_list_raises (heap_of []) 1 8 "en" ∅ "/").
  reflexivity.
Defined.

(** [word_graph([]).get_compression(50)] *)
Example empty_sentence_list_default :
  (r ← init (heap_of []) 1 8 "en" ∅ "/"; compress 100 r.2 50) = Raise NetworkXError.
Proof. vm_compute. reflexivity. Qed.

End empty_list_witnesses.

(** ** The constructors leave the list of the caller alone *)

Module frame_facts.

Lemma store_other (h h' : heap) l i v l0 :
  store h l i v = Ok h' → l0 ≠ l → h' !! l0 = h !! l0.
Proof.
  unfold store. intros Hs Hne. apply bind_Ok in Hs as (xs & Hx & Hs).
  destruct (i <? length xs); [|done]. injection Hs as <-.
  by rewrite lookup_insert_ne.
Qed.

Lemma list_copy_fresh (h h' : heap) l l' :
  list_copy h l = Ok (h', l') →
  l' ≠ l ∧ h !! l' = None ∧ h' !! l' = h !! l ∧ ∀ l0, l0 ≠ l' → h' !! l0 = h !! l0.
Proof.
  unfold list_copy. intros Hc. apply bind_Ok in Hc as (xs & Hx & Hc).
  apply or_raise_Ok in Hx. injection Hc as <- <-.
  assert (h !! fresh (dom h) = None) as Hf.
  { apply not_elem_of_dom. apply is_fresh. }
  split; [intros Heq; rewrite Heq in Hf; congruence|].
  split; [done|]. split; [by rewrite lookup_insert_eq|].
  intros l0 Hne. by rewrite lookup_insert_ne.
Qed.

Section frames.
Context `{Re}.

Lemma pre_process_sentences_other pos_separator self_sentence n (h h' : heap) l0 :
  word_graph.pre_process_sentences pos_separator self_sentence n h = Ok h' →
  l0 ≠ self_sentence → h' !! l0 = h !! l0.
Proof.
  unfold word_graph.pre_process_sentences. intros Hp Hne. revert Hp.
  apply (foldM_invariant (λ h1 : heap, h1 !! l0 = h !! l0)); [|done].
  intros h1 i h2 _ Hh1 Hs. unfold word_graph.pre_process_sentence in Hs.
  apply bind_Ok in Hs as (s1 & _ & Hs). apply bind_Ok in Hs as (ha & Ha & Hs).
  apply bind_Ok in Hs as (s2 & _ & Hs). apply bind_Ok in Hs as (hb & Hb & Hs).
  apply bind_Ok in Hs as (s3 & _ & Hs). apply bind_Ok in Hs as (container & _ & Hs).
  rewrite (store_other _ _ _ _ _ _ Hs Hne), (store_other _ _ _ _ _ _ Hb Hne),
    (store_other _ _ _ _ _ _ Ha Hne).
  done.
Qed.

Lemma build_graph_other stopwords syntactic_filter pos_separator window self_sentences
    (h h' : heap) g g' l0 :
  keyphrase_reranker.build_graph stopwords syntactic_filter pos_separator window
    self_sentences h g = Ok (h', g') →
  l0 ≠ self_sentences → h' !! l0 = h !! l0.
Proof.
  unfold keyphrase_reranker.build_graph. intros Hb Hne.
  apply bind_Ok in Hb as (n & _ & Hb).
  change (h' !! l0 = h !! l0)
    with ((λ st : heap * keyphrase_reranker.Graph, st.1 !! l0 = h !! l0) (h', g')).
  revert Hb. apply foldM_invariant; [|done].
  intros [h1 g1] i [h2 g2] _ Hh1 Hs. simpl in Hh1. simpl.
  unfold keyphrase_reranker.build_sentence in Hs.
  apply bind_Ok in Hs as (s1 & _ & Hs). apply bind_Ok in Hs as (ha & Ha & Hs).
  apply bind_Ok in Hs as (s2 & _ & Hs). apply bind_Ok in Hs as ([g3 sent] & _ & Hs).
  apply bind_Ok in Hs as (g4 & _ & Hs). apply bind_Ok in Hs as (hb & Hb & Hs).
  injection Hs as <- <-.
  by rewrite (store_other _ _ _ _ _ _ Hb Hne), (store_other _ _ _ _ _ _ Ha Hne).
Qed.

(** C10: constructing a [word_graph] or a [keyphrase_reranker] does not
    mutate the list the caller passes: the constructor works on a copy, a
    list object of its own, and every object that existed before the call,
    the caller's list included, is unchanged when it returns. *)
Theorem constructors_keep_sentence_list (h : heap) (sentence_list : loc) :
  (∀ nb_words lang stopwords pos_separator h' self,
     word_graph.init h sentence_list nb_words lang stopwords pos_separator = Ok (h', self) →
     h' !! sentence_list = h !! sentence_list
     ∧ word_graph.self_sentence self ≠ sentence_list
     ∧ h !! word_graph.self_sentence self = None
     ∧ ∀ l, l ≠ word_graph.self_sentence self → h' !! l = h !! l)
  ∧ (∀ fuel nbest lang patterns stopwords pos_separator h' self,
       keyphrase_reranker.init fuel h sentence_list nbest lang patterns stopwords
         pos_separator = Ok (h', self) →
       h' !! sentence_list = h !! sentence_list
       ∧ keyphrase_reranker.self_sentences self ≠ sentence_list
       ∧ h !! keyphrase_reranker.self_sentences self = None
       ∧ ∀ l, l ≠ keyphrase_reranker.self_sentences self → h' !! l = h !! l).
Proof.
  split.
  - intros nb_words lang stopwords pos_separator h' self Hi.
    unfold word_graph.init in Hi.
    apply bind_Ok in Hi as ([h1 l'] & Hc & Hi).
    apply bind_Ok in Hi as (n & _ & Hi).
    apply bind_Ok in Hi as (h2 & Hp & Hi).
    apply bind_Ok in Hi as (sents & _ & Hi).
    apply bind_Ok in Hi as ([tf tw] & _ & Hi).
    apply bind_Ok in Hi as (g & _ & Hi).
    injection Hi as <- <-. simpl.
    apply list_copy_fresh in Hc as (Hne & Hnew & _ & Hold).
    assert (∀ l, l ≠ l' → h2 !! l = h !! l) as Hframe.
    { intros l Hl. rewrite (pre_process_sentences_other _ _ _ _ _ _ Hp Hl). by apply Hold. }
    split; [apply Hframe; congruence|]. done.
  - intros fuel nbest lang patterns stopwords pos_separator h' self Hi.
    unfold keyphrase_reranker.init in Hi.
    apply bind_Ok in Hi as ([h1 l'] & Hc & Hi).
    apply bind_Ok in Hi as ([h2 g] & Hb & Hi).
    apply bind_Ok in Hi as (n & _ & Hi).
    apply bind_Ok in Hi as (tagged & _ & Hi).
    apply bind_Ok in Hi as (scores & _ & Hi).
    apply bind_Ok in Hi as (kscores & _ & Hi).
    apply bind_Ok in Hi as ([kc ks] & _ & Hi).
    injection Hi as <- <-. simpl.
    apply list_copy_fresh in Hc as (Hne & Hnew & _ & Hold).
    assert (∀ l, l ≠ l' → h2 !! l = h !! l) as Hframe.
    { intros l Hl. rewrite (build_graph_other _ _ _ _ _ _ _ _ _ _ Hb Hl). by apply Hold. }
    split; [apply Hframe; congruence|]. done.
Qed.

End frames.
End frame_facts.

Module frame_witnesses.
Import frame_facts examples more_examples AsciiRe.

(** Both constructors return on a list of one sentence, and the list still
    holds the string. *)
Lemma constructors_keep_sentence_list_witness :
  cat_word_graph.1 !! 1%positive = Some [VStr "the/DT/1 cat/NN/2 sat/VB/1"]
  ∧ cat_reranker.1 !! 1%positive = Some [VStr "the/DT cat/NN sat/VB"].
Proof.
  assert (word_graph.init (heap_of ["the/DT/1 cat/NN/2 sat/VB/1"]) 1 8 "en" {["the"]} "/"
          = Ok (cat_word_graph.1, cat_word_graph.2)) as H1 by (vm_compute; reflexivity).
  assert (keyphrase_reranker.init 5 (heap_of ["the/DT cat/NN sat/VB"]) 1 [] "en" []
            ["the"] "/" = Ok (cat_reranker.1, cat_reranker.2)) as H2
    by (vm_compute; reflexivity).
  destruct (constructors_keep_sentence_list (heap_of ["the/DT/1 cat/NN/2 sat/VB/1"]) 1)
    as [Hw _].
  destruct (constructors_keep_sentence_list (heap_of ["the/DT cat/NN sat/VB"]) 1)
    as [_ Hk].
  destruct (Hw _ _ _ _ _ _ H1) as (Hw1 & _).
  destruct (Hk _ _ _ _ _ _ _ _ H2) as (Hk1 & _).
  split; [exact Hw1|exact Hk1].
Defined.

(** The copy holds the pre-processed sentence. *)
Example word_graph_copy_preprocessed :
  cat_word_graph.1 !! word_graph.self_sentence cat_word_graph.2
  = Some [VSentence [("-start-", "-start-", "-start-"); ("the", "DT", "1");
                     ("cat", "NN", "2"); ("sat", "VB", "1");
                     ("-end-", "-end-", "-end-")]].
Proof. vm_compute. reflexivity. Qed.

End frame_witnesses.

(** ** TextRank *)

Module textrank_facts.
Import keyphrase_reranker.

Section TextRank.
Variable graph_nodes : list wnode.
Variable graph_neighbors : wnode → result (list wnode).
Variable graph_weight : wnode → wnode → result Q.
Variable d : Q.
Variable f_conv : Q.

Abbreviation sweep := (sweep graph_nodes graph_neighbors graph_weight d).
Abbreviation sweeps := (sweeps graph_nodes graph_neighbors graph_weight d).
Abbreviation rank_loop := (rank_loop graph_nodes graph_neighbors graph_weight d f_conv).
Abbreviation update_node := (update_node graph_neighbors graph_weight d).

(** The loop runs whole rounds, and at least one from an unstable state. *)
Lemma rank_loop_sweeps fuel st st' :
  rank_loop fuel st = Ok st' →
  ∃ k, sweeps k st = Ok st' ∧ (unstable f_conv st = true → 0 < k).
Proof.
  revert st. induction fuel as [|fuel IH]; intros st Hr; simpl in Hr.
  - destruct (unstable f_conv st); [done|]. injection Hr as <-.
    exists 0. split; [done|]. done.
  - destruct (unstable f_conv st) eqn:Hu.
    + apply bind_Ok in Hr as (st1 & Hs & Hr). apply IH in Hr as (k & Hk & _).
      exists (S k). split; [|lia]. simpl. by rewrite Hs.
    + injection Hr as <-. exists 0. split; [done|]. done.
Qed.

Lemma initially_unstable : unstable f_conv (initial_scores graph_nodes, f_conv) = true.
Proof. unfold unstable. simpl. apply Qle_bool_iff, Qle_refl. Qed.

Lemma initial_scores_lookup n :
  n ∈ graph_nodes → initial_scores graph_nodes !! n = Some 1%Q.
Proof.
  unfold initial_scores. intros Hn.
  assert (∀ (l : list wnode) (m : gmap wnode Q),
            n ∈ l ∨ m !! n = Some 1%Q →
            foldl (λ word_scores node, <[node := 1%Q]> word_scores) m l !! n = Some 1%Q)
    as Hgen.
  { induction l as [|x l IH]; intros m Hm; simpl.
    - destruct Hm as [Hm|Hm]; [by apply elem_of_nil in Hm|done].
    - apply IH. destruct (decide (x = n)) as [->|Hne].
      + right. apply lookup_insert_eq.
      + destruct Hm as [Hm|Hm].
        * apply elem_of_cons in Hm as [->|Hm]; [done|by left].
        * right. by rewrite lookup_insert_ne. }
  apply Hgen. by left.
Qed.

Section isolated.
Variable n : wnode.
Hypothesis n_in_graph : n ∈ graph_nodes.
Hypothesis n_isolated : graph_neighbors n = Ok [].

(** The score a round gives to a node without neighbours. *)
Abbreviation isolated_score := ((1 - d) + (d * 0))%Q.

Lemma update_node_isolated current st node_i st' :
  update_node current st node_i = Ok st' →
  (node_i = n ∨ st.1 !! n = Some isolated_score) →
  st'.1 !! n = Some isolated_score.
Proof.
  unfold keyphrase_reranker.update_node. intros Hu Hn.
  apply bind_Ok in Hu as (js & Hjs & Hu).
  apply bind_Ok in Hu as (sum_Vj & Hsum & Hu).
  apply bind_Ok in Hu as (new & _ & Hu).
  apply bind_Ok in Hu as (old & _ & Hu).
  injection Hu as <-. simpl.
  destruct (decide (node_i = n)) as [->|Hne].
  - rewrite n_isolated in Hjs. injection Hjs as <-. simpl in Hsum.
    injection Hsum as <-. by rewrite lookup_insert_eq.
  - rewrite lookup_insert_ne by done. by destruct Hn.
Qed.

Lemma sweep_isolated st st' :
  sweep st = Ok st' → st'.1 !! n = Some isolated_score.
Proof.
  unfold keyphrase_reranker.sweep.
  assert (∀ l current st st',
            foldM (update_node current) l st = Ok st' →
            n ∈ l ∨ st.1 !! n = Some isolated_score →
            st'.1 !! n = Some isolated_score) as Hgen.
  { induction l as [|x l IH]; intros current st0 st0' Hf Hn; simpl in Hf.
    - injection Hf as <-. destruct Hn as [Hn|Hn]; [by apply elem_of_nil in Hn|done].
    - apply bind_Ok in Hf as (st1 & Hx & Hf). eapply IH; [exact Hf|].
      destruct Hn as [Hn|Hn].
      + apply elem_of_cons in Hn as [Heq|Hn]; [|by left].
        right. eapply update_node_isolated; [exact Hx|by left].
      + right. eapply update_node_isolated; [exact Hx|by right]. }
  intros Hs. eapply Hgen; [exact Hs|]. by left.
Qed.

Lemma sweeps_isolated k st st' :
  sweeps (S k) st = Ok st' → st'.1 !! n = Some isolated_score.
Proof.
  revert st. induction k as [|k IH]; intros st Hs.
  - simpl in Hs. apply bind_Ok in Hs as (st1 & Hs1 & Hs). injection Hs as <-.
    by eapply sweep_isolated.
  - change (sweeps (S (S k)) st) with (st1 ← sweep st; sweeps (S k) st1) in Hs.
    apply bind_Ok in Hs as (st1 & _ & Hs). by eapply IH.
Qed.

(** C3 (amended): the score of an isolated node is 1.0 only before the
    first sweep; after every sweep, and when the algorithm terminates, it
    is [(1 - d) + d * 0], that is [1 - d] (0.15 for the default damping
    factor). *)
Theorem isolated_node_score :
  initial_scores graph_nodes !! n = Some 1%Q
  ∧ (∀ k st', sweeps (S k) (initial_scores graph_nodes, f_conv) = Ok st' →
       st'.1 !! n = Some ((1 - d) + (d * 0))%Q)
  ∧ (∀ fuel word_scores,
       undirected_TextRank graph_nodes graph_neighbors graph_weight d f_conv fuel
       = Ok word_scores →
       word_scores !! n = Some ((1 - d) + (d * 0))%Q).
Proof.
  split; [by apply initial_scores_lookup|]. split.
  - intros k st'. apply sweeps_isolated.
  - intros fuel word_scores Hr. unfold undirected_TextRank in Hr.
    apply bind_Ok in Hr as (st & Hl & Hr). injection Hr as <-.
    apply rank_loop_sweeps in Hl as (k & Hk & Hpos).
    destruct k as [|k]; [specialize (Hpos initially_unstable); lia|].
    by eapply sweeps_isolated.
Qed.

End isolated.
End TextRank.

(** On a graph without nodes a sweep changes nothing, and the loop never
    leaves. *)
Lemma rank_loop_empty nbrs wt d f_conv fuel st :
  unstable f_conv st = true →
  rank_loop [] nbrs wt d f_conv fuel st = Raise OutOfFuel.
Proof.
  intros Hu. induction fuel as [|fuel IH]; simpl; rewrite Hu; [done|].
  exact IH.
Qed.

Lemma textrank_empty nbrs wt d f_conv fuel :
  undirected_TextRank [] nbrs wt d f_conv fuel = Raise OutOfFuel.
Proof.
  unfold undirected_TextRank. rewrite rank_loop_empty; [done|].
  apply initially_unstable.
Qed.

Section constructor.
Context `{Re}.

(** C9: on a co-occurrence graph without nodes [undirected_TextRank] never
    terminates, whatever the number of rounds it is given: the difference
    stays at its initial value, the threshold.  So the algorithm returns
    only on a graph with at least one node, and the constructor, which runs
    it on the graph [build_graph] made, returns only if that graph has a
    node. *)
Theorem empty_graph_never_converges :
  (∀ nbrs wt d f_conv fuel,
     undirected_TextRank [] nbrs wt d f_conv fuel = Raise OutOfFuel)
  ∧ (∀ graph_nodes nbrs wt d f_conv fuel word_scores,
       undirected_TextRank graph_nodes nbrs wt d f_conv fuel = Ok word_scores →
       graph_nodes ≠ [])
  ∧ (∀ fuel h sentence_list nbest lang patterns stopwords pos_separator h' self,
       init fuel h sentence_list nbest lang patterns stopwords pos_separator
       = Ok (h', self) →
       nodes (self_graph self) ≠ []
       ∧ ∃ h1 l' h2,
           list_copy h sentence_list = Ok (h1, l')
           ∧ build_graph (list_to_set stopwords)
               (if bool_decide (lang = "fr") then ["NPP"; "NC"; "ADJ"]
                else ["JJ"; "NNP"; "NNS"; "NN"; "NNPS"])
               pos_separator 0 l' h1 empty_graph
             = Ok (h2, self_graph self)).
Proof.
  split; [apply textrank_empty|]. split.
  - intros graph_nodes nbrs wt d f_conv fuel word_scores Hr ->.
    by rewrite textrank_empty in Hr.
  - intros fuel h sentence_list nbest lang patterns stopwords pos_separator h' self Hi.
    unfold init in Hi.
    apply bind_Ok in Hi as ([h1 l'] & Hc & Hi).
    apply bind_Ok in Hi as ([h2 g] & Hb & Hi).
    apply bind_Ok in Hi as (n & _ & Hi).
    apply bind_Ok in Hi as (tagged & _ & Hi).
    apply bind_Ok in Hi as (scores & Hr & Hi).
    apply bind_Ok in Hi as (kscores & _ & Hi).
    apply bind_Ok in Hi as ([kc ks] & _ & Hi).
    injection Hi as <- <-. simpl. split.
    + intros Hn. rewrite Hn in Hr. by rewrite textrank_empty in Hr.
    + by eexists _, _, _.
Qed.

End constructor.
End textrank_facts.

Module textrank_witnesses.
Import keyphrase_reranker textrank_facts examples more_examples AsciiRe.

(** In "the cat sat" only "cat" passes the filter: its node has no
    neighbour, and its final score is 0.15. *)
Lemma isolated_node_score_not_one :
  init 5 (heap_of ["the/DT cat/NN sat/VB"]) 1 [] "en" [] ["the"] "/"
  = Ok (cat_reranker.1, cat_reranker.2)
  ∧ nodes (self_graph cat_reranker.2) = [("cat", "NN")]
  ∧ neighbors (self_graph cat_reranker.2) ("cat", "NN") = Ok []
  ∧ self_word_scores cat_reranker.2 !! ("cat", "NN") = Some (1500 # 10000)%Q
  ∧ ¬ (1500 # 10000 == 1)%Q.
Proof. repeat split; vm_compute; (reflexivity || discriminate). Qed.

Lemma isolated_node_score_witness :
  self_word_scores cat_reranker.2 !! ("cat", "NN")
  = Some ((1 - (85 # 100)) + ((85 # 100) * 0))%Q.
Proof.
  assert (("cat", "NN") ∈ nodes (self_graph cat_reranker.2)) as Hin
    by (vm_compute; apply list_elem_of_here).
  assert (neighbors (self_graph cat_reranker.2) ("cat", "NN") = Ok []) as Hiso
    by (vm_compute; reflexivity).
  destruct (isolated_node_score (nodes (self_graph cat_reranker.2))
              (neighbors (self_graph cat_reranker.2))
              (edge_weight (self_graph cat_reranker.2))
              (85 # 100) (1 # 10000) ("cat", "NN") Hin Hiso) as (_ & _ & Hfinal).
  apply (Hfinal 5). vm_compute. reflexivity.
Defined.

Lemma empty_graph_never_converges_witness :
  init 5 (heap_of ["the/DT cat/NN sat/VB"]) 1 [] "en" [] ["the"] "/"
  = Ok (cat_reranker.1, cat_reranker.2)
  ∧ nodes (self_graph cat_reranker.2) ≠ [].
Proof.
  destruct (empty_graph_never_converges (H := ascii_re)) as (_ & _ & Hinit).
  assert (init 5 (heap_of ["the/DT cat/NN sat/VB"]) 1 [] "en" [] ["the"] "/"
          = Ok (cat_reranker.1, cat_reranker.2)) as Hi by (vm_compute; reflexivity).
  split; [exact Hi|]. exact (proj1 (Hinit _ _ _ _ _ _ _ _ _ _ Hi)).
Defined.

(** No token of "run fast" passes the syntactic filter: the constructor
    does not return, whatever the number of rounds. *)
Example no_filtered_token_diverges fuel r :
  init fuel (heap_of ["run/VB fast/RB"]) 1 [] "en" [] [] "/" ≠ Ok r.
Proof.
  destruct r as [h' self]. intros Hi.
  destruct (empty_graph_never_converges (H := ascii_re)) as (_ & _ & Hinit).
  destruct (Hinit _ _ _ _ _ _ _ _ _ _ Hi) as (Hne & h1 & l' & h2 & Hc & Hb).
  remember (self_graph self) as g eqn:Hg. clear Hg Hi.
  vm_compute in Hc. injection Hc as <- <-.
  vm_compute in Hb. injection Hb as _ <-.
  by apply Hne.
Qed.

End textrank_witnesses.

(** ** Clusters of keyphrases *)

Module cluster_facts.
Import keyphrase_reranker.

Lemma covers_refl c : covers c c = true.
Proof.
  unfold covers. rewrite difference_diag_L, size_empty. done.
Qed.

Lemma join_clusters_spec keyphrase clusters :
  join_clusters keyphrase clusters
  = ((λ e, (e.1, if covers e.1 keyphrase then e.2 ++ [keyphrase] else e.2)) <$> clusters,
     existsb (λ e, covers e.1 keyphrase) clusters).
Proof.
  induction clusters as [|[cluster members] rest IH]; simpl; [done|].
  rewrite IH. by destruct (covers cluster keyphrase).
Qed.

Lemma dict_set_fresh {V} (d : list (string * V)) k v :
  k ∉ d.*1 → dict_set d k v = d ++ [(k, v)].
Proof.
  induction d as [|[k' v'] d IH]; intros Hk; simpl; [done|].
  rewrite fmap_cons in Hk. apply not_elem_of_cons in Hk as [Hne Hk].
  rewrite decide_False by (simpl in Hne; congruence). by rewrite IH.
Qed.

Lemma not_covered_not_key keyphrase (clusters : list (string * list string)) :
  existsb (λ e, covers e.1 keyphrase) clusters = false → keyphrase ∉ clusters.*1.
Proof.
  intros He Hk. apply list_elem_of_fmap in Hk as ([c m] & -> & Hin).
  assert (existsb (λ e : string * list string, covers e.1 c) clusters = true) as Ht.
  { apply existsb_exists. exists (c, m). split; [by apply list_elem_of_In|].
    apply covers_refl. }
  simpl in He. congruence.
Qed.

(** The keyphrases are taken by decreasing number of words. *)
Lemma insert_desc_spec {A} (key : A → nat) (x : A) (l : list A) :
  StronglySorted (λ a b, key b ≤ key a) l →
  insert_desc Nat.leb key x l ≡ₚ x :: l
  ∧ StronglySorted (λ a b, key b ≤ key a) (insert_desc Nat.leb key x l).
Proof.
  induction l as [|y l IH]; intros Hs; simpl.
  - split; [done|]. repeat constructor.
  - inversion Hs as [|? ? Hl Hy]; subst.
    destruct (Nat.leb_spec (key y) (key x)) as [Hle|Hgt].
    + split; [done|]. constructor; [done|]. constructor; [done|].
      eapply Forall_impl; [exact Hy|]. simpl. intros z Hz. lia.
    + destruct (IH Hl) as [Hp Hs']. split.
      * rewrite Hp. apply perm_swap.
      * constructor; [done|]. rewrite Hp. constructor; [lia|done].
Qed.

Lemma sorted_desc_spec {A} (key : A → nat) (l : list A) :
  sorted_desc Nat.leb key l ≡ₚ l
  ∧ StronglySorted (λ a b, key b ≤ key a) (sorted_desc Nat.leb key l).
Proof.
  unfold sorted_desc. induction l as [|x l [Hp Hs]]; simpl.
  - split; [done|constructor].
  - destruct (insert_desc_spec key x _ Hs) as [Hp' Hs']. split; [|done].
    by rewrite Hp', Hp.
Qed.

(** C5 (amended): the candidates are processed in order of descending
    word count, and each one is placed into every existing cluster whose
    representative's word set is a superset of its word set, one cluster
    or several; when no existing cluster covers it, it starts a new
    cluster keyed by itself. *)
Theorem cluster_placement :
  (∀ keyphrase_candidates : list (string * list wnode),
     ∃ sorted,
       descending keyphrase_candidates = sorted.*1
       ∧ sorted ≡ₚ keyphrase_candidates
       ∧ StronglySorted (λ a b : string * list wnode, length b.2 ≤ length a.2) sorted)
  ∧ (∀ clusters keyphrase,
       existsb (λ e, covers e.1 keyphrase) clusters = true →
       place clusters keyphrase
       = (λ e, (e.1, if covers e.1 keyphrase then e.2 ++ [keyphrase] else e.2)) <$> clusters)
  ∧ (∀ clusters keyphrase,
       existsb (λ e, covers e.1 keyphrase) clusters = false →
       place clusters keyphrase = clusters ++ [(keyphrase, [keyphrase])]).
Proof.
  split; [|split].
  - intros kc. unfold descending.
    destruct (sorted_desc_spec (λ e : string * list wnode, length e.2) kc) as [Hp Hs].
    by eexists.
  - intros clusters keyphrase He. unfold place.
    rewrite join_clusters_spec, He. done.
  - intros clusters keyphrase He. unfold place.
    rewrite join_clusters_spec, He.
    assert ((λ e : string * list string,
               (e.1, if covers e.1 keyphrase then e.2 ++ [keyphrase] else e.2)) <$> clusters
            = clusters) as ->.
    { clear -He. induction clusters as [|[c m] clusters IH]; [done|].
      simpl in He. apply orb_false_iff in He as [Hc He].
      rewrite fmap_cons. simpl. rewrite Hc, IH; done. }
    apply dict_set_fresh. by apply not_covered_not_key.
Qed.

End cluster_facts.

Module cluster_witnesses.
Import keyphrase_reranker cluster_facts.

(** "a b" is covered by the two clusters made before it and joins both. *)
Lemma keyphrase_in_two_clusters :
  make_clusters [ ("a b c", [("a", "NN"); ("b", "NN"); ("c", "NN")]);
                  ("a b d", [("a", "NN"); ("b", "NN"); ("d", "NN")]);
                  ("a b", [("a", "NN"); ("b", "NN")]) ]
  = [ ("a b c", ["a b c"; "a b"]); ("a b d", ["a b d"; "a b"]) ].
Proof. vm_compute. reflexivity. Qed.

Lemma cluster_placement_witness :
  place [("a b c", ["a b c"]); ("a b d", ["a b d"])] "a b"
  = [("a b c", ["a b c"; "a b"]); ("a b d", ["a b d"; "a b"])]
  ∧ place [("a b c", ["a b c"])] "a b d"
    = [("a b c", ["a b c"]); ("a b d", ["a b d"])].
Proof.
  destruct cluster_placement as (_ & Hjoin & Hnew). split.
  - rewrite Hjoin by (vm_compute; reflexivity). vm_compute. reflexivity.
  - rewrite Hnew by (vm_compute; reflexivity). reflexivity.
Defined.

End cluster_witnesses.

(** ** The edges of the word graph *)

Module build_facts.
Import word_graph word_graph_spec word_graph_facts.

Lemma extends_refl g : extends g g.
Proof. split; [done|]. intros n a Hn. by exists a. Qed.

Lemma extends_trans g1 g2 g3 : extends g1 g2 → extends g2 g3 → extends g1 g3.
Proof.
  intros [He1 Hn1] [He2 Hn2]. split; [congruence|].
  intros n a Hn. apply Hn1 in Hn as (a' & Hn' & Hsub).
  apply Hn2 in Hn' as (a'' & Hn'' & Hsub'). exists a''. split; [done|].
  by etrans.
Qed.

Lemma assigns_extends i j st st' : assigns i j st st' → extends st.1 st'.1.
Proof.
  intros [g mapping n lbl Hn|g mapping n a Hn Hi]; simpl; (split; [done|]).
  - intros n' a' Hn'. exists a'. simpl. split; [|done].
    rewrite lookup_insert_ne; [done|]. intros ->. congruence.
  - intros n' a' Hn'. simpl. rewrite lookup_alter.
    destruct (decide (n = n')) as [->|Hne].
    + rewrite Hn'. simpl. eexists. split; [done|]. simpl.
      intros x Hx. apply elem_of_app. by left.
    + by exists a'.
Qed.

Lemma extends_located i g g' mapping :
  extends g g' → located i (g, mapping) → located i (g', mapping).
Proof.
  intros [_ Hext] Hloc j n Hj. simpl in *.
  destruct (Hloc j n Hj) as (a & Ha & Hin).
  destruct (Hext n a Ha) as (a' & Ha' & Hsub). exists a'. split; [done|]. by apply Hsub.
Qed.

Lemma assigns_located i j st st' :
  assigns i j st st' → located i st → located i st'.
Proof.
  intros Has Hloc j' n' Hj'.
  pose proof (assigns_extends _ _ _ _ Has) as Hext.
  destruct Has as [g mapping n lbl Hn|g mapping n a Hn Hi]; simpl in *.
  - apply list_lookup_insert_Some in Hj' as [(<- & [= <-] & _)|(Hne & Hj')].
    + eexists. rewrite lookup_insert_eq. split; [done|]. simpl. by left.
    + by apply (extends_located i g _ mapping Hext Hloc).
  - apply list_lookup_insert_Some in Hj' as [(<- & [= <-] & _)|(Hne & Hj')].
    + eexists. rewrite lookup_alter, decide_True by done. rewrite Hn. simpl.
      split; [done|]. simpl. apply elem_of_app. right. by left.
    + by apply (extends_located i g _ mapping Hext Hloc).
Qed.

Lemma assigns_mapped i j st st' :
  assigns i j st st' →
  length st'.2 = length st.2
  ∧ (j < length st.2 → mapped st'.2 j)
  ∧ ∀ j', mapped st.2 j' → mapped st'.2 j'.
Proof.
  assert (∀ (mapping : list (option node)) n,
            length (<[j := Some n]> mapping) = length mapping
            ∧ (j < length mapping → mapped (<[j := Some n]> mapping) j)
            ∧ ∀ j', mapped mapping j' → mapped (<[j := Some n]> mapping) j') as Hgen.
  { intros mapping n. split; [apply length_insert|]. split.
    - intros Hj. exists n. by apply list_lookup_insert_eq.
    - intros j' [n' Hn']. destruct (decide (j = j')) as [->|Hne].
      + exists n. apply list_lookup_insert_eq. by eapply lookup_lt_Some.
      + exists n'. by rewrite list_lookup_insert_ne. }
  intros [g mapping n lbl Hn|g mapping n a Hn Hi]; apply Hgen.
Qed.

Section passes.
Context `{Re}.
Variable stopwords : gset string.
Variable sentence : list (list token).

(** What a pass leaves behind: the graph is extended, the nodes of
    [mapping] hold their occurrences, positions that were mapped stay
    mapped, and the positions the pass is in charge of are mapped. *)
Lemma pass_loop i (pass : DiGraph * list (option node) → nat →
                          result (DiGraph * list (option node)))
    (target : nat → Prop) n st st' :
  (∀ st j st', pass st j = Ok st' → st' = st ∨ assigns i j st st') →
  (∀ st j st', pass st j = Ok st' → j < length st.2 → target j → mapped st'.2 j) →
  foldM pass (seq 0 n) st = Ok st' →
  n ≤ length st.2 →
  extends st.1 st'.1
  ∧ (located i st → located i st')
  ∧ length st'.2 = length st.2
  ∧ (∀ j, mapped st.2 j → mapped st'.2 j)
  ∧ (∀ j, j < n → target j → mapped st'.2 j).
Proof.
  intros Hstep Hcover. revert st'.
  induction n as [|n IH]; intros st' Hf Hn.
  - simpl in Hf. injection Hf as <-.
    split; [apply extends_refl|]. do 3 (split; [done|]). intros; lia.
  - rewrite seq_S, foldM_app in Hf. simpl in Hf.
    apply bind_Ok in Hf as (st1 & Hf & Hlast).
    apply bind_Ok in Hlast as (st2 & Hp & Hlast). injection Hlast as <-.
    destruct (IH st1 Hf) as (Hext & Hloc & Hlen & Hmono & Hcov); [lia|].
    assert (n < length st1.2) as Hn1 by lia.
    pose proof (Hcover _ _ _ Hp Hn1) as Hcn.
    destruct (Hstep _ _ _ Hp) as [->|Has].
    + do 4 (split; [done|]). intros j Hj Ht.
      destruct (decide (j = n)) as [->|]; [by apply Hcn|]. apply Hcov; [lia|done].
    + destruct (assigns_mapped _ _ _ _ Has) as (Hlen2 & _ & Hmono2).
      split; [eapply extends_trans; [exact Hext|by eapply assigns_extends]|].
      split; [intros Hl; eapply assigns_located; [exact Has|by apply Hloc]|].
      split; [lia|]. split; [intros j Hj; by apply Hmono2, Hmono|].
      intros j Hj Ht. destruct (decide (j = n)) as [->|]; [by apply Hcn|].
      apply Hmono2, Hcov; [lia|done].
Qed.

Lemma pass2_covers i s st j st' :
  pass2 stopwords sentence i s st j = Ok st' →
  j < length st.2 → content_word stopwords s j → mapped st'.2 j.
Proof.
  intros Hp Hj ([[token pos] weight] & Hs & Hc). simpl in Hc.
  unfold pass2 in Hp. destruct st as [g mapping].
  rewrite Hs in Hp. simpl in Hp. rewrite Hc in Hp.
  apply bind_Ok in Hp as (m & Hm & Hp). apply or_raise_Ok in Hm.
  destruct m as [n|].
  - injection Hp as <-. by exists n.
  - apply bind_Ok in Hp as (? & _ & Hp). apply bind_Ok in Hp as (? & _ & Hp).
    apply bind_Ok in Hp as (? & _ & Hp). apply bind_Ok in Hp as (? & _ & Hp).
    apply bind_Ok in Hp as ([found selected] & _ & Hp).
    destruct found; injection Hp as <-; simpl; eexists; by apply list_lookup_insert_eq.
Qed.

Lemma pass3_covers i s st j st' :
  pass3 stopwords sentence i s st j = Ok st' →
  j < length st.2 → stop_word stopwords s j → mapped st'.2 j.
Proof.
  intros Hp Hj ([[token pos] weight] & Hs & Hc). simpl in Hc.
  unfold pass3 in Hp. rewrite Hs in Hp. simpl in Hp. rewrite Hc in Hp. simpl in Hp.
  apply pass_context_assigns in Hp.
  destruct (assigns_mapped _ _ _ _ Hp) as (_ & Hmj & _). by apply Hmj.
Qed.

Lemma pass4_covers i s st j st' :
  pass4 stopwords sentence i s st j = Ok st' →
  j < length st.2 → punctuation s j → mapped st'.2 j.
Proof.
  intros Hp Hj ([[token pos] weight] & Hs & Hc). simpl in Hc.
  unfold pass4 in Hp. rewrite Hs in Hp. simpl in Hp. rewrite Hc in Hp. simpl in Hp.
  apply pass_context_assigns in Hp.
  destruct (assigns_mapped _ _ _ _ Hp) as (_ & Hmj & _). by apply Hmj.
Qed.

(** After the four passes every position of the sentence is mapped to a
    node that holds it: [mapping] has no 0 left. *)
Lemma map_sentence_complete g i s g' mapping :
  map_sentence stopwords sentence g i s = Ok (g', mapping) →
  extends g g'
  ∧ located i (g', mapping)
  ∧ length mapping = length s
  ∧ ∀ j, j < length s → mapped mapping j.
Proof.
  unfold map_sentence. intros Hm.
  apply bind_Ok in Hm as (st1 & H1 & Hm). apply bind_Ok in Hm as (st2 & H2 & Hm).
  apply bind_Ok in Hm as (st3 & H3 & H4).
  apply (pass_loop i _ (λ _, False)) in H1
    as (He1 & Hl1 & Hn1 & _ & _);
    [|apply pass1_assigns|by intros ????? []|simpl; by rewrite length_replicate].
  simpl in Hn1. rewrite length_replicate in Hn1.
  apply (pass_loop i _ (content_word stopwords s)) in H2
    as (He2 & Hl2 & Hn2 & _ & Hc2);
    [|apply pass2_assigns|apply pass2_covers|lia].
  apply (pass_loop i _ (stop_word stopwords s)) in H3
    as (He3 & Hl3 & Hn3 & Hm3 & Hc3);
    [|apply pass3_assigns|apply pass3_covers|lia].
  apply (pass_loop i _ (punctuation s)) in H4
    as (He4 & Hl4 & Hn4 & Hm4 & Hc4);
    [|apply pass4_assigns|apply pass4_covers|lia].
  simpl in *.
  split; [eauto using extends_trans|]. split.
  { apply Hl4, Hl3, Hl2, Hl1. intros j n Hj. simpl in Hj.
    apply lookup_replicate in Hj as [? _]. done. }
  split; [lia|].
  intros j Hj. destruct (lookup_lt_is_Some_2 s j Hj) as [t Ht].
  destruct (is_stopword stopwords t.1.1) eqn:Hst.
  { apply Hm4, Hc3; [done|]. by exists t. }
  destruct (is_punct t.1.1) eqn:Hpu.
  { apply Hc4; [done|]. by exists t. }
  apply Hm4, Hm3, Hc2; [done|]. exists t. by rewrite Hst, Hpu.
Qed.

Lemma extends_adjacent len g g' :
  extends g g' → adjacent_edges len g → adjacent_edges len g'.
Proof.
  intros [He Hn] Hadj u v w Hw. rewrite He in Hw.
  destruct (Hadj u v w Hw) as (s & p & au & av & Hs & Hu & Hv & Hpu & Hpv).
  destruct (Hn u au Hu) as (au' & Hu' & Hsu). destruct (Hn v av Hv) as (av' & Hv' & Hsv).
  exists s, p, au', av'. split; [done|]. split; [done|]. split; [done|].
  split; [by apply Hsu|by apply Hsv].
Qed.

(** [connect] joins two nodes that are in the graph already and hold
    consecutive positions of sentence [i]. *)
Lemma connect_adjacent len i mapping g j g' :
  located i (g, mapping) → adjacent_edges len g → i < len → 1 ≤ j →
  connect mapping g j = Ok g' →
  adjacent_edges len g' ∧ located i (g', mapping).
Proof.
  intros Hloc Hadj Hi Hj Hc. unfold connect in Hc.
  apply bind_Ok in Hc as (ou & Hu & Hc). apply bind_Ok in Hc as (ov & Hv & Hc).
  apply bind_Ok in Hc as (u & Hou & Hc). apply bind_Ok in Hc as (v & Hov & Hc).
  apply or_raise_Ok in Hu, Hv, Hou, Hov. subst ou ov. injection Hc as <-.
  destruct (Hloc _ _ Hu) as (au & Hau & Hpu). destruct (Hloc _ _ Hv) as (av & Hav & Hpv).
  simpl in *. split; [|done].
  intros u' v' w Hw. unfold add_edge in Hw. simpl in Hw.
  destruct (edges g !! (u, v)) eqn:He; [by apply Hadj in Hw|].
  apply lookup_insert_Some in Hw as [[[= <- <-] _]|[_ Hw]]; [|by apply Hadj in Hw].
  exists i, (j - 1), au, av. replace (S (j - 1)) with j by lia. done.
Qed.

Lemma connect_Ok mapping g j :
  1 ≤ j → j < length mapping → (∀ j', j' < length mapping → mapped mapping j') →
  ∃ g', connect mapping g j = Ok g'.
Proof.
  intros Hj Hlen Hall. unfold connect.
  destruct (Hall (j - 1)) as [u Hu]; [lia|]. destruct (Hall j) as [v Hv]; [lia|].
  rewrite Hu, Hv. simpl. by eexists.
Qed.

Lemma add_sentence_adjacent g i g' :
  adjacent_edges (length sentence) g →
  add_sentence stopwords sentence g i = Ok g' →
  adjacent_edges (length sentence) g'.
Proof.
  intros Hadj Ha. unfold add_sentence in Ha.
  apply bind_Ok in Ha as (s & Hs & Ha). apply or_raise_Ok in Hs.
  apply bind_Ok in Ha as ([g1 mapping] & Hm & Ha).
  apply map_sentence_complete in Hm as (Hext & Hloc & Hlen & Hall).
  apply lookup_lt_Some in Hs.
  assert (adjacent_edges (length sentence) g1) as Hadj1 by by eapply extends_adjacent.
  assert (∀ l g0 g0',
            (∀ j, j ∈ l → 1 ≤ j) →
            adjacent_edges (length sentence) g0 ∧ located i (g0, mapping) →
            foldM (connect mapping) l g0 = Ok g0' →
            adjacent_edges (length sentence) g0' ∧ located i (g0', mapping)) as Hloop.
  { intros l g0 g0' Hl Hinv Hf. revert Hinv Hf.
    apply (foldM_invariant
             (λ g0, adjacent_edges (length sentence) g0 ∧ located i (g0, mapping))).
    intros g2 j g2' Hjl [Hadj2 Hloc2] Hc.
    by eapply connect_adjacent; [..|exact Hc]; [| | |apply Hl]. }
  eapply Hloop; [|split; [exact Hadj1|exact Hloc]|exact Ha].
  intros j Hj. apply elem_of_seq in Hj. lia.
Qed.

Lemma build_nodes_and_edges_adjacent g :
  build_nodes_and_edges stopwords sentence = Ok g →
  adjacent_edges (length sentence) g.
Proof.
  unfold build_nodes_and_edges. apply foldM_invariant.
  - intros g1 i g1' _. apply add_sentence_adjacent.
  - intros u v w Hw. simpl in Hw. by rewrite lookup_empty in Hw.
Qed.

End passes.
End build_facts.

(** ** The weight of the edges of the word graph *)

Module edge_facts.
Import word_graph word_graph_spec word_graph_facts edge_weight_facts build_facts.

Lemma positions_in_elem (inf : list occ) s p :
  (s, p) ∈ inf → p ∈ positions_in inf s.
Proof.
  unfold positions_in. intros Hin. apply list_elem_of_omap.
  exists (s, p). split; [done|]. simpl. by rewrite Nat.eqb_refl.
Qed.

Lemma all_diff_pos_adjacent pos_i pos_j p :
  p ∈ pos_i → S p ∈ pos_j → all_diff_pos pos_i pos_j ≠ [].
Proof.
  intros Hi Hj Hnil.
  assert ((-1 * inject_Z (Z.of_nat p - Z.of_nat (S p)))%Q ∈ all_diff_pos pos_i pos_j) as Hin.
  { unfold all_diff_pos. apply list_elem_of_bind. exists p. split; [|done].
    apply list_elem_of_bind. exists (S p). split; [|done].
    destruct (Z.ltb_spec (Z.of_nat p - Z.of_nat (S p)) 0); [by left|lia]. }
  rewrite Hnil in Hin. by apply elem_of_nil in Hin.
Qed.

(** The entry of [diff] for a sentence where the first node comes right
    before the second is positive. *)
Lemma diff_entry_adjacent (info1 info2 : list occ) s p :
  (s, p) ∈ info1 → (s, S p) ∈ info2 →
  ∃ q, diff_entry info1 info2 s = Ok q ∧ (0 < q)%Q.
Proof.
  intros H1 H2. unfold diff_entry.
  pose proof (all_diff_pos_adjacent _ _ p (positions_in_elem _ _ _ H1)
                (positions_in_elem _ _ _ H2)) as Hne.
  destruct (all_diff_pos _ _) as [|d ds] eqn:Hd; [done|].
  assert (0 < min_list d ds)%Q as Hm.
  { apply min_list_positive.
    - apply (all_diff_pos_positive (positions_in info1 s) (positions_in info2 s)).
      rewrite Hd. by left.
    - apply Forall_forall. intros q Hq.
      apply (all_diff_pos_positive (positions_in info1 s) (positions_in info2 s)).
      rewrite Hd. by right. }
  exists (1 / min_list d ds)%Q. split.
  - apply qdiv_Ok. intros He. rewrite He in Hm. by apply Qlt_irrefl in Hm.
  - apply Qlt_shift_div_l; [done|]. by rewrite Qmult_0_l.
Qed.

Lemma mapM_lookup {A B} (f : A → result B) (l : list A) ys i x :
  mapM f l = Ok ys → l !! i = Some x → ∃ y, ys !! i = Some y ∧ f x = Ok y.
Proof.
  revert ys i. induction l as [|x0 l IH]; intros ys i Hm Hi; [done|].
  simpl in Hm. apply bind_Ok in Hm as (y0 & Hy0 & Hm).
  apply bind_Ok in Hm as (ys0 & Hys & Hm). injection Hm as <-.
  destruct i as [|i]; simpl in *.
  - injection Hi as <-. by exists y0.
  - by eapply IH.
Qed.

Lemma sum_from_le (l : list Q) (a : Q) :
  Forall (λ q, 0 <= q)%Q l → (a <= fold_left Qplus l a)%Q.
Proof.
  revert a. induction l as [|q l IH]; intros a Hl; simpl; [apply Qle_refl|].
  inversion Hl; subst. eapply Qle_trans; [|by apply IH].
  rewrite <- (Qplus_0_r a) at 1. by apply Qplus_le_r.
Qed.

Lemma sum_from_lt (l : list Q) (a q : Q) :
  Forall (λ q, 0 <= q)%Q l → q ∈ l → (0 < q)%Q → (a < fold_left Qplus l a)%Q.
Proof.
  revert a. induction l as [|q0 l IH]; intros a Hl Hq Hpos; simpl.
  { by apply elem_of_nil in Hq. }
  inversion Hl; subst. apply elem_of_cons in Hq as [->|Hq].
  - eapply Qlt_le_trans; [|by apply sum_from_le].
    rewrite <- (Qplus_0_r a) at 1. by apply Qplus_lt_r.
  - eapply Qle_lt_trans; [|by apply IH].
    rewrite <- (Qplus_0_r a) at 1. by apply Qplus_le_r.
Qed.

(** [diff_sum] is positive for two nodes that hold consecutive positions of
    one of the sentences. *)
Lemma diff_sum_adjacent len (info1 info2 : list occ) s p diff :
  s < len → (s, p) ∈ info1 → (s, S p) ∈ info2 →
  diff_list len info1 info2 = Ok diff → (0 < sum diff)%Q.
Proof.
  intros Hs H1 H2 Hd.
  destruct (diff_list_Ok len info1 info2) as (diff' & Hd' & Hnn).
  rewrite Hd in Hd'. injection Hd' as <-.
  destruct (diff_entry_adjacent info1 info2 s p H1 H2) as (q & Hq & Hpos).
  unfold diff_list in Hd.
  destruct (mapM_lookup _ _ _ s s Hd) as (q' & Hq' & Heq).
  { apply lookup_seq. lia. }
  rewrite Hq in Heq. injection Heq as <-.
  unfold sum. eapply sum_from_lt; [done| |done]. by eapply list_elem_of_lookup_2.
Qed.

End edge_facts.

(** ** The exceptions of [build_graph]

    [Unmapped] and [OutOfFuel] are never raised: the loops of the
    construction are given enough fuel, and [mapping] is complete when the
    edges are added. *)

Module exception_facts.
Import word_graph word_graph_spec word_graph_facts edge_weight_facts build_facts edge_facts.

Lemma raises_only_Ok {A} (P : exn → Prop) (a : A) : raises_only P (Ok a).
Proof. intros e He. discriminate. Qed.

Lemma raises_only_Raise {A} (P : exn → Prop) (e : exn) : P e → raises_only P (@Raise A e).
Proof. intros Hp e' [= <-]. done. Qed.

Lemma raises_only_bind {A B} (P : exn → Prop) (m : result A) (f : A → result B) :
  raises_only P m → (∀ a, m = Ok a → raises_only P (f a)) → raises_only P (m ≫= f).
Proof.
  intros Hm Hf e He. destruct m as [a|e']; simpl in He.
  - by eapply Hf.
  - injection He as <-. by apply Hm.
Qed.

Lemma raises_only_or_raise {A} (P : exn → Prop) (o : option A) e :
  P e → raises_only P (o ?! e).
Proof. intros Hp e' He. destruct o; simpl in He; [done|]. by injection He as <-. Qed.

Lemma raises_only_foldM {A S} (P : exn → Prop) (f : S → A → result S) l s :
  (∀ s x, x ∈ l → raises_only P (f s x)) → raises_only P (foldM f l s).
Proof.
  revert s. induction l as [|x l IH]; intros s Hf; simpl; [apply raises_only_Ok|].
  apply raises_only_bind; [apply Hf; by left|].
  intros s' _. apply IH. intros s0 x0 Hx0. apply Hf. by right.
Qed.

Lemma raises_only_mapM {A B} (P : exn → Prop) (f : A → result B) l :
  (∀ x, x ∈ l → raises_only P (f x)) → raises_only P (mapM f l).
Proof.
  induction l as [|x l IH]; intros Hf; simpl; [apply raises_only_Ok|].
  apply raises_only_bind; [apply Hf; by left|]. intros y _.
  apply raises_only_bind; [apply IH; intros; apply Hf; by right|].
  intros ys _. apply raises_only_Ok.
Qed.

Lemma raises_only_py_index {A} (P : exn → Prop) (l : list A) z :
  P IndexError → raises_only P (py_index l z).
Proof.
  intros Hp. unfold py_index.
  repeat case_match; first [by apply raises_only_or_raise|by apply raises_only_Raise].
Qed.

Lemma raises_only_qdiv (P : exn → Prop) a b :
  P ZeroDivisionError → raises_only P (qdiv a b).
Proof.
  intros Hp. unfold qdiv. case_match; [by apply raises_only_Raise|apply raises_only_Ok].
Qed.

Ltac python := split; discriminate.

(** Follow the structure of a computation, one construct at a time. *)
Create HintDb raises.

Ltac raises_step :=
  first
    [ solve [auto 1 with raises nocore]
    | apply raises_only_Ok
    | apply raises_only_Raise; python
    | apply raises_only_or_raise; python
    | apply raises_only_py_index; python
    | apply raises_only_qdiv; python
    | apply raises_only_bind; [|intros ? ?]
    | apply raises_only_foldM; intros ? ? ?
    | apply raises_only_mapM; intros ? ?
    | progress cbv beta
    | match goal with
      | |- raises_only _ (match ?x with _ => _ end) => destruct x eqn:?
      | |- raises_only _ ((match ?x with _ => _ end) _) => destruct x eqn:?
      end ].
Ltac raises := repeat raises_step.

Section exceptions.
Context `{Re}.
Variable stopwords : gset string.
Variable sentence : list (list token).
Variable term_weight : gmap string Q.

Lemma graph_info_raises g n : raises_only python_exn (graph_info g n).
Proof. unfold graph_info. raises. Qed.
#[local] Hint Resolve graph_info_raises : raises.

Lemma ids_of_raises g n : raises_only python_exn (ids_of g n).
Proof. unfold ids_of. raises. Qed.
#[local] Hint Resolve ids_of_raises : raises.

Lemma max_index_raises l : raises_only python_exn (max_index l).
Proof. unfold max_index. raises. Qed.
#[local] Hint Resolve max_index_raises : raises.

Lemma get_directed_context_raises g node k dir non_pos :
  raises_only python_exn (get_directed_context stopwords sentence g node k dir non_pos).
Proof. unfold get_directed_context. raises. Qed.
#[local] Hint Resolve get_directed_context_raises : raises.

Lemma context_overlap_raises g node non_pos prev_node next_node l :
  raises_only python_exn
    (context_overlap stopwords sentence g node non_pos prev_node next_node l).
Proof. unfold context_overlap. raises. Qed.
#[local] Hint Resolve context_overlap_raises : raises.

(** The fuel of the loop of pass 2 is never used up. *)
Lemma select_candidate_fuel fuel g node i overlap frequency :
  length overlap < fuel →
  raises_only python_exn (select_candidate fuel g node i overlap frequency).
Proof.
  revert overlap frequency.
  induction fuel as [|fuel IH]; intros overlap frequency Hlen; [lia|]. simpl.
  apply raises_only_bind; [apply max_index_raises|]. intros selected _.
  apply raises_only_bind; [raises|]. intros v _.
  apply raises_only_bind; [destruct (v =? 0); [apply max_index_raises|raises]|].
  intros selected' _.
  apply raises_only_bind; [apply ids_of_raises|]. intros ids _.
  destruct (bool_decide (i ∉ ids)); [raises|].
  apply raises_only_bind; [raises|]. intros x Hx. apply or_raise_Ok in Hx.
  apply raises_only_bind; [raises|]. intros y _.
  destruct (length (del selected' overlap) =? 0); [raises|].
  apply IH. unfold del. rewrite length_delete by by eexists.
  apply lookup_lt_Some in Hx. lia.
Qed.

Lemma pass1_raises i s st j : raises_only python_exn (pass1 stopwords i s st j).
Proof. unfold pass1. raises. Qed.
#[local] Hint Resolve pass1_raises : raises.

Lemma pass2_raises i s st j : raises_only python_exn (pass2 stopwords sentence i s st j).
Proof.
  unfold pass2. destruct st as [g mapping].
  apply raises_only_bind; [raises|]. intros [[token pos] weight] _.
  destruct (is_stopword stopwords token || is_punct token); [raises|].
  apply raises_only_bind; [raises|]. intros [m|] _; [raises|].
  apply raises_only_bind; [raises|]. intros p _.
  apply raises_only_bind; [raises|]. intros n _.
  apply raises_only_bind; [raises|]. intros overlap _.
  apply raises_only_bind; [raises|]. intros frequency _.
  apply raises_only_bind; [apply select_candidate_fuel; lia|].
  intros [[] selected] _; raises.
Qed.
#[local] Hint Resolve pass2_raises : raises.

Lemma pass_context_raises non_pos threshold i s st j token pos :
  raises_only python_exn
    (pass_context stopwords sentence non_pos threshold i s st j token pos).
Proof.
  unfold pass_context. raises.
Qed.
#[local] Hint Resolve pass_context_raises : raises.

Lemma pass3_raises i s st j : raises_only python_exn (pass3 stopwords sentence i s st j).
Proof. unfold pass3. raises. Qed.
#[local] Hint Resolve pass3_raises : raises.

Lemma pass4_raises i s st j : raises_only python_exn (pass4 stopwords sentence i s st j).
Proof. unfold pass4. raises. Qed.
#[local] Hint Resolve pass4_raises : raises.

Lemma map_sentence_raises g i s :
  raises_only python_exn (map_sentence stopwords sentence g i s).
Proof.
  unfold map_sentence. raises.
Qed.
#[local] Hint Resolve map_sentence_raises : raises.

Lemma add_sentence_raises g i :
  raises_only python_exn (add_sentence stopwords sentence g i).
Proof.
  unfold add_sentence. apply raises_only_bind; [raises|]. intros s _.
  apply raises_only_bind; [apply map_sentence_raises|]. intros [g1 mapping] Hm.
  apply map_sentence_complete in Hm as (_ & _ & Hlen & Hall).
  apply raises_only_foldM. intros g2 j Hj. apply elem_of_seq in Hj.
  destruct (connect_Ok mapping g2 j) as [g3 ->]; [lia|lia|intros; apply Hall; lia|].
  apply raises_only_Ok.
Qed.

Lemma build_nodes_and_edges_raises :
  raises_only python_exn (build_nodes_and_edges stopwords sentence).
Proof.
  unfold build_nodes_and_edges. apply raises_only_foldM. intros. apply add_sentence_raises.
Qed.

(** On the edges of the graph [get_edge_weight] does not fail. *)
Lemma get_edge_weight_Ok g u v w :
  adjacent_edges (length sentence) g → edges g !! (u, v) = Some w →
  ∃ q, get_edge_weight sentence term_weight g u v = Ok q.
Proof.
  intros Hadj Hw.
  destruct (Hadj u v w Hw) as (s & p & au & av & Hs & Hu & Hv & Hpu & Hpv).
  unfold get_edge_weight, graph_info. rewrite Hu, Hv. simpl.
  destruct (Qeq_bool (weight_of term_weight u.1) 0) eqn:H1; [by eexists|].
  destruct (Qeq_bool (weight_of term_weight v.1) 0) eqn:H2; [by eexists|]. simpl.
  destruct (diff_list_Ok (length sentence) (info au) (info av)) as (diff & Hd & _).
  rewrite Hd. simpl.
  pose proof (diff_sum_adjacent _ _ _ _ _ _ Hs Hpu Hpv Hd) as Hpos.
  rewrite qdiv_Ok.
  2:{ intros He. rewrite He in Hpos. by apply Qlt_irrefl in Hpos. }
  simpl. rewrite qdiv_Ok; [by eexists|].
  intros He. apply Qmult_integral in He as [He|He]; apply Qeq_bool_iff in He; congruence.
Qed.

Lemma weigh_edges_Ok g :
  adjacent_edges (length sentence) g →
  ∃ g', weigh_edges sentence term_weight g = Ok g'.
Proof.
  intros Hadj. unfold weigh_edges.
  assert (∀ l es,
            (∀ e, e ∈ l → is_Some (edges g !! e)) →
            ∃ es', foldM (λ (es : gmap (node * node) (option Q)) (e : node * node),
                            edge_weight ← get_edge_weight sentence term_weight g e.1 e.2;
                            Ok (<[e := Some edge_weight]> es)) l es = Ok es') as Hloop.
  { induction l as [|[u v] l IH]; intros es Hl; simpl; [by eexists|].
    destruct (Hl (u, v)) as [w Hw]; [by left|].
    destruct (get_edge_weight_Ok g u v w Hadj Hw) as [q ->]. simpl.
    apply IH. intros e He. apply Hl. by right. }
  destruct (Hloop (map_to_list (edges g)).*1 (edges g)) as [es' ->]; [|by eexists].
  intros e He. apply list_elem_of_fmap in He as ([e' w] & -> & Hin).
  apply elem_of_map_to_list in Hin. by exists w.
Qed.

(** [build_graph] fails only where Python does, and never while it
    computes the weights. *)
Lemma build_graph_raises :
  raises_only python_exn (build_graph stopwords sentence term_weight)
  ∧ ∀ g, build_nodes_and_edges stopwords sentence = Ok g →
         ∃ g', build_graph stopwords sentence term_weight = Ok g'.
Proof.
  split.
  - unfold build_graph.
    apply raises_only_bind; [apply build_nodes_and_edges_raises|]. intros g Hg.
    apply build_nodes_and_edges_adjacent in Hg.
    destruct (weigh_edges_Ok g Hg) as [g' ->]. apply raises_only_Ok.
  - intros g Hg. unfold build_graph. rewrite Hg. simpl.
    apply build_nodes_and_edges_adjacent in Hg. by apply weigh_edges_Ok.
Qed.

End exceptions.
End exception_facts.

(** ** The weight of an edge *)

Module edge_claim.
Import word_graph word_graph_spec edge_weight_facts build_facts edge_facts.

Section edge_weight.
Context `{Re}.
Variable stopwords : gset string.
Variable sentence : list (list token).
Variable term_weight : gmap string Q.


End edge_weight.
End edge_claim.

Module edge_claim_witnesses.
Import word_graph word_graph_spec edge_claim examples AsciiRe.


End edge_claim_witnesses.

(** ** What the path search returns *)

Module path_facts.
Import word_graph search_spec path_spec search_facts.

Lemma paths_get_label paths x p :
  paths_get paths x = Ok p → ∃ x', (x', p) ∈ paths ∧ xlabel_eqb x' x = true.
Proof.
  unfold paths_get. destruct (list_find _ paths) as [[i [x' p']]|] eqn:Hf; [|done].
  intros [= <-]. apply list_find_Some in Hf as (Hi & Hx & _).
  exists x'. split; [by eapply list_elem_of_lookup_2|done].
Qed.

Lemma xlabel_eqb_true (a b : xlabel) :
  xlabel_eqb a b = true → (a.1.1 == b.1.1)%Q ∧ a.1.2 = b.1.2 ∧ a.2 = b.2.
Proof.
  unfold xlabel_eqb. intros Hx.
  apply andb_true_iff in Hx as [Hx Hid]. apply andb_true_iff in Hx as [Hw Hn].
  split; [by apply Qeq_bool_iff|]. split; [by apply bool_decide_eq_true in Hn|].
  by apply Nat.eqb_eq.
Qed.

Section search.
Context `{Re}.
Variable verbs : gset string.
Variable nb_words : Z.
Variable graph_neighbors : node → result (list node).
Variable graph_weight : node → node → result Q.
Variables start_ end_ : node.

(** An invariant of the frontier and of the accepted paths is an invariant
    of the search. *)
Lemma search_invariant_rule (P : search_state → Prop) fuel k st st' :
  (∀ st st', P st →
     expand verbs nb_words graph_neighbors graph_weight end_ st = Ok st' → P st') →
  P st →
  search_loop verbs nb_words graph_neighbors graph_weight fuel end_ k st = Ok st' →
  P st'.
Proof.
  intros Hstep. revert st. induction fuel as [|fuel IH]; intros st Hinv Hs; simpl in Hs.
  - destruct (searching k st); [done|]. by injection Hs as <-.
  - destruct (searching k st); [|by injection Hs as <-].
    apply bind_Ok in Hs as (st1 & He & Hs).
    eapply IH; [|exact Hs]. by eapply Hstep.
Qed.

(** *** Loop-free paths *)

Lemma visit_simple shortest shortestpath st node st' :
  NoDup shortestpath → simple st →
  visit verbs nb_words graph_weight end_ shortest shortestpath st node = Ok st' →
  simple st'.
Proof.
  intros Hnd [Hpaths Hacc] Hv. unfold visit in Hv.
  case_bool_decide as Hin; [by inv_result|].
  apply bind_Ok in Hv as (e & He & Hv).
  assert (NoDup (node :: shortestpath)) as Hnew by by constructor.
  case_bool_decide as Hend.
  - apply bind_Ok in Hv as (stats & Hscan & Hv).
    destruct (accepted _ _ stats); [|by inv_result].
    injection Hv as <-. split; [exact Hpaths|]. simpl.
    intros p w Hp. apply elem_of_app in Hp as [Hp|Hp]; [by eapply Hacc|].
    apply list_elem_of_singleton in Hp. injection Hp as -> ->.
    by rewrite reverse_Permutation.
  - injection Hv as <-. split; [|exact Hacc]. simpl.
    intros x p Hp. unfold paths_set in Hp.
    apply elem_of_app in Hp as [Hp|Hp].
    + apply paths_del_elem in Hp. by eapply Hpaths.
    + apply list_elem_of_singleton in Hp. by injection Hp as -> ->.
Qed.

Lemma expand_simple st st' :
  simple st →
  expand verbs nb_words graph_neighbors graph_weight end_ st = Ok st' → simple st'.
Proof.
  intros [Hpaths Hacc] He. unfold expand in He.
  destruct (orderedX st) as [|shortest rest]; [done|].
  apply bind_Ok in He as (shortestpath & Hget & He).
  apply bind_Ok in He as (ns & Hns & He).
  apply paths_get_elem in Hget as [x' Hx'].
  revert He. apply foldM_invariant.
  - intros s n s' _. apply visit_simple. by eapply Hpaths.
  - split; [|exact Hacc]. simpl. intros x p Hp.
    apply paths_del_elem in Hp. by eapply Hpaths.
Qed.

(** No path the search returns passes twice through a node. *)
Theorem k_shortest_paths_NoDup fuel k ps :
  k_shortest_paths verbs nb_words graph_neighbors graph_weight fuel start_ end_ k = Ok ps →
  ∀ p w, (p, w) ∈ ps → NoDup p.
Proof.
  unfold k_shortest_paths. intros Hk.
  apply bind_Ok in Hk as (st & Hs & Hk). injection Hk as <-.
  apply (search_invariant_rule simple) in Hs as [_ Hacc]; [done|apply expand_simple|].
  split; simpl.
  - intros x p Hp. apply list_elem_of_singleton in Hp. injection Hp as -> ->.
    apply NoDup_singleton.
  - intros p w Hp. by apply elem_of_nil in Hp.
Qed.

(** *** The weight of a path *)

Lemma cost_from_app acc u p v c :
  cost_from graph_weight acc u p = Ok c →
  cost_from graph_weight acc u (p ++ [v])
  = e ← graph_weight (default u (last p)) v; Ok (c + e)%Q.
Proof.
  revert acc u. induction p as [|x p IH]; intros acc u Hc; simpl in *.
  - injection Hc as <-. by destruct (graph_weight u v).
  - apply bind_Ok in Hc as (e & He & Hc). rewrite He. simpl.
    rewrite (IH _ _ Hc). destruct p as [|y p]; [done|].
    change (last (x :: y :: p)) with (last (y :: p)).
    destruct (last (y :: p)) eqn:Hl; [done|]. by apply last_None in Hl.
Qed.

(** The cost of the frontier path [node :: shortestpath], read from its
    last node to [node]. *)
Lemma path_cost_extend node u shortestpath c e :
  path_cost graph_weight (reverse (u :: shortestpath)) = Ok c →
  graph_weight u node = Ok e →
  path_cost graph_weight (reverse (node :: u :: shortestpath)) = Ok (c + e)%Q.
Proof.
  intros Hc He. rewrite (reverse_cons _ node).
  destruct (reverse (u :: shortestpath)) as [|x p] eqn:Hr.
  { apply (f_equal length) in Hr. rewrite length_reverse in Hr. done. }
  simpl in *. rewrite (cost_from_app _ _ _ _ _ Hc).
  assert (default x (last p) = u) as ->.
  { assert (last (x :: p) = Some u) as Hl.
    { rewrite <- Hr, reverse_cons. by rewrite last_snoc. }
    destruct p as [|y p]; [simpl in Hl; by injection Hl as ->|].
    change (last (x :: y :: p)) with (last (y :: p)) in Hl. by rewrite Hl. }
  by rewrite He.
Qed.

Lemma visit_costed shortest rest c st node st' :
  path_cost graph_weight (reverse (shortest.1.2 :: rest)) = Ok c →
  (c == shortest.1.1)%Q →
  costed graph_weight st →
  visit verbs nb_words graph_weight end_ shortest (shortest.1.2 :: rest) st node = Ok st' →
  costed graph_weight st'.
Proof.
  intros Hc Hcw [Hpaths Hacc] Hv. unfold visit in Hv.
  case_bool_decide as Hin; [by inv_result|].
  apply bind_Ok in Hv as (e & He & Hv).
  pose proof (path_cost_extend node _ _ _ _ Hc He) as Hnew.
  case_bool_decide as Hend.
  - apply bind_Ok in Hv as (stats & Hscan & Hv).
    destruct (accepted _ _ stats); [|by inv_result].
    injection Hv as <-. split; [exact Hpaths|]. simpl.
    intros p w Hp. apply elem_of_app in Hp as [Hp|Hp]; [by eapply Hacc|].
    apply list_elem_of_singleton in Hp. injection Hp as -> ->.
    exists (c + e)%Q. split; [done|]. by rewrite Hcw.
  - injection Hv as <-. split; [|exact Hacc]. simpl.
    intros x p Hp. unfold paths_set in Hp.
    apply elem_of_app in Hp as [Hp|Hp].
    + apply paths_del_elem in Hp. by eapply Hpaths.
    + apply list_elem_of_singleton in Hp. injection Hp as -> ->. simpl.
      exists (shortest.1.2 :: rest), (c + e)%Q. split; [done|]. split; [done|].
      by rewrite Hcw.
Qed.

Lemma expand_costed st st' :
  costed graph_weight st →
  expand verbs nb_words graph_neighbors graph_weight end_ st = Ok st' →
  costed graph_weight st'.
Proof.
  intros [Hpaths Hacc] He. unfold expand in He.
  destruct (orderedX st) as [|shortest rest]; [done|].
  apply bind_Ok in He as (shortestpath & Hget & He).
  apply bind_Ok in He as (ns & Hns & He).
  apply paths_get_label in Hget as (x' & Hx' & Heq).
  apply xlabel_eqb_true in Heq as (Hw & Hn & _).
  destruct (Hpaths _ _ Hx') as (tl & c & -> & Hc & Hcw).
  rewrite Hn in *.
  revert He. apply foldM_invariant.
  - intros s n s' _. apply (visit_costed _ _ c); [done|by rewrite Hcw].
  - split; [|exact Hacc]. simpl. intros x p Hp.
    apply paths_del_elem in Hp. by eapply Hpaths.
Qed.

(** The weight of a path the search returns is the sum of the weights of
    its edges, added from the start. *)
Theorem k_shortest_paths_costed fuel k ps :
  k_shortest_paths verbs nb_words graph_neighbors graph_weight fuel start_ end_ k = Ok ps →
  ∀ p w, (p, w) ∈ ps → ∃ c, path_cost graph_weight p = Ok c ∧ (c == w)%Q.
Proof.
  unfold k_shortest_paths. intros Hk.
  apply bind_Ok in Hk as (st & Hs & Hk). injection Hk as <-.
  apply (search_invariant_rule (costed graph_weight)) in Hs as [_ Hacc]; [done|apply expand_costed|].
  split; simpl.
  - intros x p Hp. apply list_elem_of_singleton in Hp. injection Hp as -> ->.
    exists [], 0%Q. done.
  - intros p w Hp. by apply elem_of_nil in Hp.
Qed.

(** *** At most [k] paths *)

Lemma visit_one_more n0 shortest shortestpath st node st' :
  one_more verbs n0 shortestpath st →
  visit verbs nb_words graph_weight end_ shortest shortestpath st node = Ok st' →
  one_more verbs n0 shortestpath st'.
Proof.
  intros Hone Hv. unfold visit in Hv.
  case_bool_decide as Hin; [by inv_result|].
  apply bind_Ok in Hv as (e & He & Hv).
  case_bool_decide as Hend; [|injection Hv as <-; exact Hone].
  apply bind_Ok in Hv as (stats & Hscan & Hv).
  destruct (accepted _ _ stats) eqn:Hok; [|by inv_result].
  injection Hv as <-.
  unfold accepted in Hok. apply andb_true_iff in Hok as [_ Hnew].
  apply bool_decide_eq_true in Hnew.
  destruct Hone as [Hlen|[_ Hin']]; [|by destruct Hnew; apply Hin'].
  right. simpl. split; [rewrite length_app; simpl; lia|].
  intros stats' Hscan'. rewrite Hscan in Hscan'. injection Hscan' as <-.
  set_solver.
Qed.

Lemma expand_one_more st st' :
  expand verbs nb_words graph_neighbors graph_weight end_ st = Ok st' →
  length (kshortestpaths st') ≤ S (length (kshortestpaths st)).
Proof.
  intros He. unfold expand in He.
  destruct (orderedX st) as [|shortest rest]; [done|].
  apply bind_Ok in He as (shortestpath & Hget & He).
  apply bind_Ok in He as (ns & Hns & He).
  apply (foldM_invariant (one_more verbs (length (kshortestpaths st)) shortestpath)) in He.
  - destruct He as [->|[-> _]]; lia.
  - intros s n s' _. apply visit_one_more.
  - by left.
Qed.

Lemma search_loop_bounded fuel k st st' :
  (Z.of_nat (length (kshortestpaths st)) ≤ Z.max 0 k)%Z →
  search_loop verbs nb_words graph_neighbors graph_weight fuel end_ k st = Ok st' →
  (Z.of_nat (length (kshortestpaths st')) ≤ Z.max 0 k)%Z.
Proof.
  revert st. induction fuel as [|fuel IH]; intros st Hinv Hs; simpl in Hs.
  - destruct (searching k st); [done|]. by injection Hs as <-.
  - destruct (searching k st) eqn:Hgo; [|by injection Hs as <-].
    apply bind_Ok in Hs as (st1 & He & Hs).
    eapply IH; [|exact Hs]. apply expand_one_more in He.
    unfold searching in Hgo. apply andb_true_iff in Hgo as [Hlt _].
    apply Z.ltb_lt in Hlt. lia.
Qed.

(** The search returns at most [k] paths, and none when [k] is not
    positive. *)
Theorem k_shortest_paths_bounded fuel k ps :
  k_shortest_paths verbs nb_words graph_neighbors graph_weight fuel start_ end_ k = Ok ps →
  (Z.of_nat (length ps) ≤ Z.max 0 k)%Z.
Proof.
  unfold k_shortest_paths. intros Hk.
  apply bind_Ok in Hk as (st & Hs & Hk). injection Hk as <-.
  apply search_loop_bounded in Hs; [done|]. simpl. lia.
Qed.

(** *** No sentence twice *)

Lemma spelled_reverse node shortestpath stats :
  scan_path verbs shortestpath = Ok stats →
  spelled verbs (reverse (node :: shortestpath)) = Ok (strip (raw_sentence stats)).
Proof.
  intros Hs. unfold spelled.
  rewrite reverse_cons, removelast_last, reverse_involutive. by rewrite Hs.
Qed.

Lemma visit_spelled_apart shortest shortestpath st node st' :
  spelled_apart verbs st →
  visit verbs nb_words graph_weight end_ shortest shortestpath st node = Ok st' →
  spelled_apart verbs st'.
Proof.
  intros Hsp Hv. unfold visit in Hv.
  case_bool_decide as Hin; [by inv_result|].
  apply bind_Ok in Hv as (e & He & Hv).
  case_bool_decide as Hend; [|injection Hv as <-; exact Hsp].
  apply bind_Ok in Hv as (stats & Hscan & Hv).
  destruct (accepted _ _ stats) eqn:Hok; [|by inv_result].
  injection Hv as <-.
  unfold accepted in Hok. apply andb_true_iff in Hok as [_ Hnew].
  apply bool_decide_eq_true in Hnew.
  destruct Hsp as (raws & Hraws & Hnd & Hsub).
  exists (raws ++ [strip (raw_sentence stats)]). simpl. split.
  - rewrite fmap_app. apply mapM_app; [done|]. simpl.
    by rewrite (spelled_reverse _ _ _ Hscan).
  - split.
    + apply NoDup_app. split; [done|]. split; [|apply NoDup_singleton].
      intros r Hr Hr'. apply list_elem_of_singleton in Hr'. subst r.
      apply Hnew. by apply Hsub.
    + intros r Hr. apply elem_of_app in Hr as [Hr|Hr]; [set_solver|].
      apply list_elem_of_singleton in Hr. set_solver.
Qed.

Lemma expand_spelled_apart st st' :
  spelled_apart verbs st →
  expand verbs nb_words graph_neighbors graph_weight end_ st = Ok st' →
  spelled_apart verbs st'.
Proof.
  intros Hsp He. unfold expand in He.
  destruct (orderedX st) as [|shortest rest]; [done|].
  apply bind_Ok in He as (shortestpath & Hget & He).
  apply bind_Ok in He as (ns & Hns & He).
  revert He. apply foldM_invariant; [|exact Hsp].
  intros s n s' _. apply visit_spelled_apart.
Qed.

(** No two paths the search returns spell the same sentence. *)
Theorem k_shortest_paths_spelled_apart fuel k ps :
  k_shortest_paths verbs nb_words graph_neighbors graph_weight fuel start_ end_ k = Ok ps →
  ∃ raws, mapM (spelled verbs) ps.*1 = Ok raws ∧ NoDup raws.
Proof.
  unfold k_shortest_paths. intros Hk.
  apply bind_Ok in Hk as (st & Hs & Hk). injection Hk as <-.
  apply (search_invariant_rule (spelled_apart verbs)) in Hs
    as (raws & Hraws & Hnd & _); [by exists raws|apply expand_spelled_apart|].
  exists []. split; [done|]. split; [apply NoDup_nil_2|]. intros r Hr.
  by apply elem_of_nil in Hr.
Qed.

End search.
End path_facts.

(** ** The nodes of the word graph *)

Module graph_facts.
Import word_graph word_graph_spec graph_spec word_graph_facts build_facts.

Lemma settles_assigns i s j st st' : settles i s j st st' → assigns i j st st'.
Proof.
  intros [g mapping t Ht|g mapping t l a Ht Hn Hi].
  - apply assigns_new, ambiguous_nodes_fresh.
  - by eapply assigns_old.
Qed.

Section passes.
Context `{Re}.
Variable stopwords : gset string.
Variable sentence : list (list token).

Lemma pass1_settles i s st j st' :
  pass1 stopwords i s st j = Ok st' → st' = st ∨ settles i s j st st'.
Proof.
  unfold pass1. destruct st as [g mapping]. intros Hp.
  apply bind_Ok in Hp as ([[token pos] weight] & Ht & Hp). apply or_raise_Ok in Ht.
  destruct (is_stopword stopwords token || is_punct token); [inv_result; by left|].
  change (lower token +:+ sep +:+ pos) with (key_of (token, pos, weight)) in Hp.
  destruct (ambiguous_nodes g _ =? 0) eqn:Hk0.
  { injection Hp as <-. right. apply Nat.eqb_eq in Hk0. rewrite <- Hk0.
    by apply (settles_new i s j g mapping (token, pos, weight)). }
  destruct (ambiguous_nodes g _ =? 1) eqn:Hk1; [|inv_result; by left].
  apply Nat.eqb_eq in Hk1.
  apply bind_Ok in Hp as (ids & Hids & Hp).
  apply ids_of_Ok in Hids as (na & Hn & ->).
  case_bool_decide; injection Hp as <-; right.
  - by apply (settles_old i s j g mapping (token, pos, weight) 0 na).
  - rewrite <- Hk1. by apply (settles_new i s j g mapping (token, pos, weight)).
Qed.

Lemma pass2_settles i s st j st' :
  pass2 stopwords sentence i s st j = Ok st' → st' = st ∨ settles i s j st st'.
Proof.
  unfold pass2. destruct st as [g mapping]. intros Hp.
  apply bind_Ok in Hp as ([[token pos] weight] & Ht & Hp). apply or_raise_Ok in Ht.
  destruct (is_stopword stopwords token || is_punct token); [inv_result; by left|].
  apply bind_Ok in Hp as (m & Hm & Hp).
  destruct m as [m|]; [inv_result; by left|].
  change (lower token +:+ sep +:+ pos) with (key_of (token, pos, weight)) in Hp.
  apply bind_Ok in Hp as (p & _ & Hp). apply bind_Ok in Hp as (n & _ & Hp).
  apply bind_Ok in Hp as (overlap & _ & Hp). apply bind_Ok in Hp as (frequency & _ & Hp).
  apply bind_Ok in Hp as ([found selected] & Hsel & Hp).
  destruct found; injection Hp as <-; right.
  - apply select_candidate_found in Hsel as (na & Hn & Hi).
    by apply (settles_old i s j g mapping (token, pos, weight) selected na).
  - by apply (settles_new i s j g mapping (token, pos, weight)).
Qed.

Lemma pass_context_settles non_pos threshold i s st j token pos weight st' :
  s !! j = Some (token, pos, weight) →
  pass_context stopwords sentence non_pos threshold i s st j token pos = Ok st' →
  settles i s j st st'.
Proof.
  unfold pass_context. destruct st as [g mapping]. intros Ht Hp.
  change (lower token +:+ sep +:+ pos) with (key_of (token, pos, weight)) in Hp.
  destruct (ambiguous_nodes g _ =? 0) eqn:Hk0.
  { injection Hp as <-. apply Nat.eqb_eq in Hk0. rewrite <- Hk0.
    by apply (settles_new i s j g mapping (token, pos, weight)). }
  apply bind_Ok in Hp as (p & _ & Hp). apply bind_Ok in Hp as (n & _ & Hp).
  apply bind_Ok in Hp as (overlap & _ & Hp). apply bind_Ok in Hp as (selected & _ & Hp).
  apply bind_Ok in Hp as (ids & Hids & Hp). apply bind_Ok in Hp as (v & _ & Hp).
  apply ids_of_Ok in Hids as (na & Hn & ->).
  destruct (bool_decide _ && _) eqn:Hc; injection Hp as <-.
  - apply andb_true_iff in Hc as [Hi _]. apply bool_decide_eq_true in Hi.
    by apply (settles_old i s j g mapping (token, pos, weight) selected na).
  - by apply (settles_new i s j g mapping (token, pos, weight)).
Qed.

Lemma pass3_settles i s st j st' :
  pass3 stopwords sentence i s st j = Ok st' → st' = st ∨ settles i s j st st'.
Proof.
  unfold pass3. intros Hp.
  apply bind_Ok in Hp as ([[token pos] weight] & Ht & Hp). apply or_raise_Ok in Ht.
  destruct (negb _); [inv_result; by left|].
  right. by eapply pass_context_settles.
Qed.

Lemma pass4_settles i s st j st' :
  pass4 stopwords sentence i s st j = Ok st' → st' = st ∨ settles i s j st st'.
Proof.
  unfold pass4. intros Hp.
  apply bind_Ok in Hp as ([[token pos] weight] & Ht & Hp). apply or_raise_Ok in Ht.
  destruct (negb _); [inv_result; by left|].
  right. by eapply pass_context_settles.
Qed.

(** A property of the nodes that every settled token keeps holds of the
    graph [build_graph] makes. *)
Lemma build_graph_nodes_rule (P : gmap node attrs → Prop) term_weight g :
  P ∅ →
  (∀ i s j st st', sentence !! i = Some s → j < length s →
     settles i s j st st' → P (nodes st.1) → P (nodes st'.1)) →
  build_graph stopwords sentence term_weight = Ok g → P (nodes g).
Proof.
  intros Hempty Hstep Hb. unfold build_graph in Hb.
  apply bind_Ok in Hb as (g0 & Hg0 & Hw). apply weigh_edges_nodes in Hw. rewrite Hw.
  revert Hg0. unfold build_nodes_and_edges.
  apply (foldM_invariant (λ g, P (nodes g))); [|done].
  intros g1 i g2 _ Hg1 Ha. unfold add_sentence in Ha.
  apply bind_Ok in Ha as (s & Hs & Ha). apply or_raise_Ok in Hs.
  apply bind_Ok in Ha as ([g3 mapping] & Hm & Ha).
  assert (P (nodes g3)) as Hg3.
  { unfold map_sentence in Hm.
    apply bind_Ok in Hm as (st1 & H1 & Hm). apply bind_Ok in Hm as (st2 & H2 & Hm).
    apply bind_Ok in Hm as (st3 & H3 & H4).
    assert (∀ (pass : DiGraph * list (option node) → nat →
                      result (DiGraph * list (option node))) st st',
              (∀ st j st', pass st j = Ok st' → st' = st ∨ settles i s j st st') →
              P (nodes st.1) → foldM pass (seq 0 (length s)) st = Ok st' →
              P (nodes st'.1)) as Hpass.
    { intros pass st0 st0' Hsettles.
      apply (foldM_invariant (λ st, P (nodes st.1))).
      intros st4 j st5 Hj Hst4 Hp. apply elem_of_seq in Hj.
      destruct (Hsettles _ _ _ Hp) as [->|Hset]; [done|].
      apply (Hstep i s j st4 st5); [exact Hs|lia|exact Hset|done]. }
    apply (Hpass _ _ _ (pass4_settles i s)) in H4; [done|].
    apply (Hpass _ _ _ (pass3_settles i s)) in H3; [done|].
    apply (Hpass _ _ _ (pass2_settles i s)) in H2; [done|].
    apply (Hpass _ _ _ (pass1_settles i s)) in H1; done. }
  revert Ha. apply (foldM_invariant (λ g, P (nodes g))); [|done].
  intros g4 j g5 _ Hg4 Hc. apply connect_nodes in Hc. by rewrite Hc.
Qed.

Lemma settles_contiguous i s j st st' :
  settles i s j st st' → contiguous (nodes st.1) → contiguous (nodes st'.1).
Proof.
  intros [g mapping t Ht|g mapping t l a Ht Hn Hi] Hc key l'; simpl.
  - rewrite !lookup_insert_is_Some. intros [[= <- Hl]|[_ Hin]].
    + right. assert (l' < ambiguous_nodes g (key_of t)) as Hlt by lia.
      split; [intros [= ?]; lia|]. by apply ambiguous_nodes_below.
    + destruct (decide ((key_of t, ambiguous_nodes g (key_of t)) = (key, l')));
        [by left|]. right. split; [done|]. by apply Hc.
  - rewrite !lookup_alter_is_Some. apply Hc.
Qed.

Lemma settles_consistent i s j st st' :
  sentence !! i = Some s →
  settles i s j st st' →
  consistent sentence (nodes st.1) → consistent sentence (nodes st'.1).
Proof.
  intros Hs Hset Hc.
  assert (∀ t, s !! j = Some t → token_at sentence i j = Some t) as Htok.
  { intros t Ht. unfold token_at. rewrite Hs. done. }
  destruct Hset as [g mapping t Ht|g mapping t l a Ht Hn Hi]; intros key l' a'; simpl.
  - intros Hl. apply lookup_insert_Some in Hl as [[[= <- <-] <-]|[_ Hl]];
      [|by apply (Hc key l')].
    simpl. split.
    + exists i, j, t, []. auto.
    + intros s0 p0 Hin. apply list_elem_of_singleton in Hin. injection Hin as -> ->.
      exists t. auto.
  - rewrite lookup_alter. case_decide as Heq; [|by apply (Hc key l')].
    injection Heq as <- <-. rewrite Hn. simpl. intros [= <-]. simpl.
    destruct (Hc _ _ _ Hn) as [(s0 & p0 & t0 & rest & Hinfo & Ht0 & Hlbl) Hall].
    split.
    + exists s0, p0, t0, (rest ++ [(i, j)]). rewrite Hinfo. auto.
    + intros s1 p1 Hin. apply elem_of_app in Hin as [Hin|Hin]; [by apply Hall|].
      apply list_elem_of_singleton in Hin. injection Hin as -> ->. exists t. auto.
Qed.

End passes.
End graph_facts.

(** ** The sentences as paths of the word graph *)

Module sentence_path_facts.
Import word_graph word_graph_spec graph_spec word_graph_facts build_facts graph_facts
       edge_weight_facts edge_facts exception_facts.

Lemma contiguous_below (ns : gmap node attrs) key l l' :
  contiguous ns → is_Some (ns !! (key, l)) → l' ≤ l → is_Some (ns !! (key, l')).
Proof.
  intros Hc Hl Hle. induction l as [|l IH].
  - by replace l' with 0 by lia.
  - destruct (decide (l' = S l)) as [->|]; [done|]. apply IH; [by apply Hc|lia].
Qed.

Lemma grows_refl g : grows g g.
Proof. split; [done|]. intros n a Hn. by exists a. Qed.

Lemma grows_trans g1 g2 g3 : grows g1 g2 → grows g2 g3 → grows g1 g3.
Proof.
  intros [He1 Hn1] [He2 Hn2]. split; [auto|].
  intros n a Hn. apply Hn1 in Hn as (a' & Hn' & Hsub).
  apply Hn2 in Hn' as (a'' & Hn'' & Hsub'). exists a''. split; [done|]. by etrans.
Qed.

Lemma extends_grows g g' : extends g g' → grows g g'.
Proof. intros [He Hn]. split; [by rewrite He|done]. Qed.

Lemma grows_spells g g' i s p : grows g g' → spells g i s p → spells g' i s p.
Proof.
  intros [He Hn] (Hlen & Hocc & Hedge). split; [done|]. split.
  - intros j n Hj. destruct (Hocc j n Hj) as (a & Ha & Hin).
    destruct (Hn n a Ha) as (a' & Ha' & Hsub). exists a'. split; [done|]. by apply Hsub.
  - intros j u v Hu Hv. apply He. by eapply Hedge.
Qed.

Lemma add_edge_grows g u v : grows g (add_edge g u v) ∧ is_Some (edges (add_edge g u v) !! (u, v)).
Proof.
  unfold add_edge. destruct (edges g !! (u, v)) eqn:He; simpl.
  - split; [|by rewrite He]. split; simpl; [done|]. intros n a Hn. by exists a.
  - split; [|by rewrite lookup_insert_eq]. split; simpl.
    + intros e [w Hw]. destruct (decide (e = (u, v))) as [->|Hne]; [congruence|].
      rewrite lookup_insert_ne by done. by exists w.
    + intros n a Hn. by exists a.
Qed.

(** A complete [mapping] is a list of nodes. *)
Lemma mapped_nodes (mapping : list (option node)) :
  (∀ j, j < length mapping → mapped mapping j) → ∃ p, mapping = Some <$> p.
Proof.
  induction mapping as [|m mapping IH]; intros Hall; [by exists []|].
  destruct (Hall 0) as [n Hn]; [simpl; lia|]. simpl in Hn. injection Hn as ->.
  destruct IH as [p ->].
  { intros j Hj. destruct (Hall (S j)) as [n' Hn']; [simpl; lia|]. by exists n'. }
  by exists (n :: p).
Qed.

Lemma connect_loop (p : list node) l g g' :
  (∀ j, j ∈ l → 1 ≤ j < length p) →
  foldM (connect (Some <$> p)) l g = Ok g' →
  grows g g'
  ∧ ∀ j u v, j ∈ l → p !! (j - 1) = Some u → p !! j = Some v →
      is_Some (edges g' !! (u, v)).
Proof.
  revert g. induction l as [|j l IH]; intros g Hl Hf; simpl in Hf.
  - injection Hf as <-. split; [apply grows_refl|]. intros j u v Hj.
    by apply elem_of_nil in Hj.
  - apply bind_Ok in Hf as (g1 & Hc & Hf).
    apply IH in Hf as [Hgrow Hedges]; [|intros; apply Hl; by right].
    unfold connect in Hc. rewrite !list_lookup_fmap in Hc.
    apply bind_Ok in Hc as (ou & Hu & Hc). apply bind_Ok in Hc as (ov & Hv & Hc).
    apply bind_Ok in Hc as (u & Hou & Hc). apply bind_Ok in Hc as (v & Hov & Hc).
    apply or_raise_Ok in Hu, Hv, Hou, Hov. subst ou ov. injection Hc as <-.
    apply fmap_Some in Hu as (u' & Hu & [= <-]). apply fmap_Some in Hv as (v' & Hv & [= <-]).
    destruct (add_edge_grows g u v) as [Hg1 He1].
    split; [by eapply grows_trans|].
    intros j' u0 v0 Hj' Hu0 Hv0. apply elem_of_cons in Hj' as [->|Hj']; [|by eapply Hedges].
    rewrite Hu in Hu0. rewrite Hv in Hv0. injection Hu0 as <-. injection Hv0 as <-.
    by apply Hgrow.
Qed.

Section passes.
Context `{Re}.
Variable stopwords : gset string.
Variable sentence : list (list token).
Variable term_weight : gmap string Q.

Lemma add_sentence_spells g i s g' :
  sentence !! i = Some s →
  add_sentence stopwords sentence g i = Ok g' →
  grows g g' ∧ ∃ p, spells g' i s p.
Proof.
  intros Hs Ha. unfold add_sentence in Ha. rewrite Hs in Ha. simpl in Ha.
  apply bind_Ok in Ha as ([g1 mapping] & Hm & Ha).
  apply map_sentence_complete in Hm as (Hext & Hloc & Hlen & Hall).
  destruct (mapped_nodes mapping) as [p ->]; [intros j Hj; apply Hall; lia|].
  rewrite length_fmap in Hlen, Ha.
  apply connect_loop in Ha as [Hgrow Hedges].
  2:{ intros j Hj. apply elem_of_seq in Hj. lia. }
  split; [eapply grows_trans; [by apply extends_grows|done]|].
  exists p. split; [done|]. split.
  - intros j n Hj. destruct (Hloc j n) as (a & Ha & Hin).
    { simpl. by rewrite list_lookup_fmap, Hj. }
    destruct Hgrow as [_ Hn]. destruct (Hn n a Ha) as (a' & Ha' & Hsub).
    exists a'. split; [done|]. by apply Hsub.
  - intros j u v Hu Hv. apply (Hedges (S j)).
    + apply elem_of_seq. apply lookup_lt_Some in Hv. lia.
    + by replace (S j - 1) with j by lia.
    + done.
Qed.

(** The loop over the edges stores on every edge the value of
    [get_edge_weight]. *)
Lemma weigh_edges_spec g g' :
  weigh_edges sentence term_weight g = Ok g' →
  nodes g' = nodes g
  ∧ (∀ e, edges g !! e = None → edges g' !! e = None)
  ∧ (∀ e w, edges g !! e = Some w →
       ∃ q, get_edge_weight sentence term_weight g e.1 e.2 = Ok q
            ∧ edges g' !! e = Some (Some q)).
Proof.
  unfold weigh_edges. intros Hw. apply bind_Ok in Hw as (es' & Hf & Hw).
  injection Hw as <-. simpl. split; [done|].
  assert (∀ l es es',
            foldM (λ (es : gmap (node * node) (option Q)) (e : node * node),
                     edge_weight ← get_edge_weight sentence term_weight g e.1 e.2;
                     Ok (<[e := Some edge_weight]> es)) l es = Ok es' →
            (∀ e, e ∉ l → es' !! e = es !! e)
            ∧ (∀ e, e ∈ l →
                 ∃ q, get_edge_weight sentence term_weight g e.1 e.2 = Ok q
                      ∧ es' !! e = Some (Some q))) as Hloop.
  { induction l as [|e0 l IH]; intros es es0 Hl; simpl in Hl.
    - injection Hl as <-. split; [done|]. intros e He. by apply elem_of_nil in He.
    - apply bind_Ok in Hl as (es1 & H1 & Hl). apply bind_Ok in H1 as (q0 & Hq0 & H1).
      injection H1 as <-. apply IH in Hl as [Hout Hin]. split.
      + intros e He. apply not_elem_of_cons in He as [Hne He].
        rewrite (Hout e He). by rewrite lookup_insert_ne.
      + intros e He. destruct (decide (e ∈ l)) as [Hel|Hel]; [by apply Hin|].
        apply elem_of_cons in He as [->|He]; [|done].
        exists q0. split; [done|]. rewrite (Hout e0 Hel). by rewrite lookup_insert_eq. }
  apply Hloop in Hf as [Hout Hin]. split.
  - intros e He. rewrite Hout; [done|]. intros Hel.
    apply list_elem_of_fmap in Hel as ([e' w] & -> & Hel).
    apply elem_of_map_to_list in Hel. simpl in He. congruence.
  - intros e w He. apply Hin. apply list_elem_of_fmap. exists (e, w). split; [done|].
    by apply elem_of_map_to_list.
Qed.

Lemma get_edge_weight_nodes g g' u v :
  nodes g' = nodes g →
  get_edge_weight sentence term_weight g' u v = get_edge_weight sentence term_weight g u v.
Proof. intros Hn. unfold get_edge_weight, graph_info. by rewrite Hn. Qed.

Lemma build_nodes_and_edges_spells g :
  build_nodes_and_edges stopwords sentence = Ok g →
  ∀ i s, sentence !! i = Some s → ∃ p, spells g i s p.
Proof.
  unfold build_nodes_and_edges.
  assert (∀ n g0 g,
            n ≤ length sentence →
            foldM (add_sentence stopwords sentence) (seq 0 n) g0 = Ok g →
            grows g0 g
            ∧ ∀ i s, i < n → sentence !! i = Some s → ∃ p, spells g i s p) as Hloop.
  { induction n as [|n IH]; intros g0 g1 Hn Hf.
    - injection Hf as <-. split; [apply grows_refl|]. intros; lia.
    - rewrite seq_S, foldM_app in Hf. simpl in Hf.
      apply bind_Ok in Hf as (g2 & Hf & Hlast).
      apply bind_Ok in Hlast as (g3 & Ha & Hlast). injection Hlast as <-.
      apply IH in Hf as [Hgrow Hsp]; [|lia].
      destruct (lookup_lt_is_Some_2 sentence n) as [sn Hsn]; [lia|].
      destruct (add_sentence_spells _ _ _ _ Hsn Ha) as [Hgrow' [pn Hpn]].
      split; [by eapply grows_trans|].
      intros i s Hi Hs. destruct (decide (i = n)) as [->|Hne].
      + rewrite Hsn in Hs. injection Hs as <-. by exists pn.
      + destruct (Hsp i s) as [p Hp]; [lia|done|]. exists p. by eapply grows_spells. }
  intros Hf i s Hs. apply Hloop in Hf as [_ Hsp]; [|done].
  apply (Hsp i s); [|done]. by eapply lookup_lt_Some.
Qed.

End passes.
End sentence_path_facts.

Module graph_theorems.
Import word_graph word_graph_spec graph_spec word_graph_facts build_facts graph_facts
       edge_weight_facts edge_facts exception_facts sentence_path_facts.

Section built.
Context `{Re}.
Variable stopwords : gset string.
Variable sentence : list (list token).
Variable term_weight : gmap string Q.

Lemma build_graph_consistent g :
  build_graph stopwords sentence term_weight = Ok g → consistent sentence (nodes g).
Proof.
  apply (build_graph_nodes_rule stopwords sentence (consistent sentence)).
  - intros key l a Hl. by rewrite lookup_empty in Hl.
  - intros i s j st st' Hs _. by apply settles_consistent.
Qed.

(** Every sentence can be read back from the graph: its positions are
    held, in order, by nodes of the keys of its tokens, and each of these
    nodes is joined to the next one by an edge that carries a weight. *)
Theorem build_graph_sentence_paths g :
  build_graph stopwords sentence term_weight = Ok g →
  ∀ i s, sentence !! i = Some s →
    ∃ p, length p = length s
         ∧ (∀ j n, p !! j = Some n →
              ∃ a t, nodes g !! n = Some a ∧ (i, j) ∈ info a
                     ∧ s !! j = Some t ∧ n.1 = key_of t)
         ∧ (∀ j u v, p !! j = Some u → p !! S j = Some v →
              ∃ q, edge_weight g u v = Ok q).
Proof.
  intros Hb i s Hs. pose proof (build_graph_consistent g Hb) as Hcons.
  unfold build_graph in Hb. apply bind_Ok in Hb as (g0 & Hg0 & Hw).
  destruct (build_nodes_and_edges_spells _ _ _ Hg0 i s Hs) as (p & Hlen & Hocc & Hedge).
  apply weigh_edges_spec in Hw as (Hn & _ & Hsome).
  exists p. split; [done|]. split.
  - intros j [key l] Hj. destruct (Hocc j _ Hj) as (a & Ha & Hin).
    rewrite <- Hn in Ha. destruct (Hcons key l a Ha) as [_ Hall].
    destruct (Hall i j Hin) as (t & Ht & Hkey).
    unfold token_at in Ht. rewrite Hs in Ht. simpl in Ht. by exists a, t.
  - intros j u v Hu Hv. destruct (Hedge j u v Hu Hv) as [w Hw].
    destruct (Hsome _ _ Hw) as (q & _ & Hq). exists q.
    unfold edge_weight. by rewrite Hq.
Qed.

(** Every edge of the graph joins two nodes that hold consecutive positions
    of one sentence, and carries the value of [get_edge_weight] for its two
    ends. *)
Theorem build_graph_edges g :
  build_graph stopwords sentence term_weight = Ok g →
  ∀ u v w, edges g !! (u, v) = Some w →
    (∃ q, w = Some q ∧ get_edge_weight sentence term_weight g u v = Ok q)
    ∧ ∃ s p au av,
        s < length sentence ∧ nodes g !! u = Some au ∧ nodes g !! v = Some av
        ∧ (s, p) ∈ info au ∧ (s, S p) ∈ info av.
Proof.
  unfold build_graph. intros Hb u v w Hw.
  apply bind_Ok in Hb as (g0 & Hg0 & Hwe).
  apply build_nodes_and_edges_adjacent in Hg0.
  apply weigh_edges_spec in Hwe as (Hn & Hnone & Hsome).
  destruct (edges g0 !! (u, v)) as [w0|] eqn:Hw0.
  2:{ apply Hnone in Hw0. congruence. }
  destruct (Hsome _ _ Hw0) as (q & Hq & Hw'). simpl in Hq. split.
  - exists q. split; [congruence|]. by rewrite (get_edge_weight_nodes _ _ g0 g).
  - rewrite Hn. by eapply Hg0.
Qed.

(** An edge with a weight joins two nodes of the graph that hold
    consecutive positions of a sentence. *)
Lemma weighted_edge g u v q :
  build_graph stopwords sentence term_weight = Ok g →
  edge_weight g u v = Ok q →
  get_edge_weight sentence term_weight g u v = Ok q
  ∧ ∃ s p au av,
      s < length sentence ∧ nodes g !! u = Some au ∧ nodes g !! v = Some av
      ∧ (s, p) ∈ info au ∧ (s, S p) ∈ info av.
Proof.
  unfold build_graph, edge_weight. intros Hb Hq.
  apply bind_Ok in Hq as (w & Hw & Hq). apply or_raise_Ok in Hw, Hq. subst w.
  apply bind_Ok in Hb as (g0 & Hg0 & Hwe).
  apply build_nodes_and_edges_adjacent in Hg0.
  apply weigh_edges_spec in Hwe as (Hn & Hnone & Hsome).
  destruct (edges g0 !! (u, v)) as [w0|] eqn:Hw0.
  2:{ apply Hnone in Hw0. congruence. }
  destruct (Hsome _ _ Hw0) as (q' & Hq' & Hw'). simpl in Hq'.
  assert (q' = q) as -> by congruence. split.
  - by rewrite (get_edge_weight_nodes _ _ g0 g).
  - rewrite Hn. by eapply Hg0.
Qed.

(** The weight of an edge is not negative when no term weight is, and it
    is zero exactly when one of its ends has no term weight. *)
Lemma built_edges_sign g :
  (∀ key w, term_weight !! key = Some w → (0 <= w)%Q) →
  build_graph stopwords sentence term_weight = Ok g →
  ∀ u v q, edge_weight g u v = Ok q →
    (0 <= q)%Q
    ∧ ((q == 0)%Q ↔ (weight_of term_weight u.1 == 0)%Q
                     ∨ (weight_of term_weight v.1 == 0)%Q).
Proof.
  intros Hpos Hb u v q Hq.
  destruct (weighted_edge g u v q Hb Hq)
    as [Hg (s & p & au & av & Hs & Hu & Hv & Hpu & Hpv)].
  assert (∀ key, 0 <= weight_of term_weight key)%Q as Hnn.
  { intros key. unfold weight_of. destruct (term_weight !! key) as [w|] eqn:Hk; simpl.
    - by eapply Hpos.
    - apply Qle_refl. }
  unfold get_edge_weight, graph_info in Hg. rewrite Hu, Hv in Hg. simpl in Hg.
  destruct (Qeq_bool (weight_of term_weight u.1) 0) eqn:H1.
  { injection Hg as <-. split; [apply Qle_refl|]. split; [|done].
    intros _. left. by apply Qeq_bool_iff. }
  destruct (Qeq_bool (weight_of term_weight v.1) 0) eqn:H2.
  { injection Hg as <-. split; [apply Qle_refl|]. split; [|done].
    intros _. right. by apply Qeq_bool_iff. }
  simpl in Hg. apply Qeq_bool_neq in H1, H2.
  assert (0 < weight_of term_weight u.1)%Q as Hw1.
  { destruct (proj1 (Qle_lteq _ _) (Hnn u.1)) as [?|He]; [done|]. by symmetry in He. }
  assert (0 < weight_of term_weight v.1)%Q as Hw2.
  { destruct (proj1 (Qle_lteq _ _) (Hnn v.1)) as [?|He]; [done|]. by symmetry in He. }
  apply bind_Ok in Hg as (diff & Hd & Hg).
  pose proof (diff_sum_adjacent _ _ _ _ _ _ Hs Hpu Hpv Hd) as Hsum.
  rewrite qdiv_Ok in Hg.
  2:{ intros He. rewrite He in Hsum. by apply Qlt_irrefl in Hsum. }
  simpl in Hg. rewrite qdiv_Ok in Hg.
  2:{ intros He. apply Qmult_integral in He. tauto. }
  injection Hg as <-.
  assert (0 < (weight_of term_weight u.1 + weight_of term_weight v.1) / sum diff
              / (weight_of term_weight u.1 * weight_of term_weight v.1))%Q as Hqpos.
  { apply Qlt_shift_div_l.
    - rewrite <- (Qmult_0_l (weight_of term_weight v.1)). by apply Qmult_lt_compat_r.
    - rewrite Qmult_0_l. apply Qlt_shift_div_l; [done|]. rewrite Qmult_0_l.
      rewrite <- (Qplus_0_r 0). by apply Qplus_lt_le_compat; [|apply Qlt_le_weak]. }
  split; [by apply Qlt_le_weak|]. split.
  - intros He. rewrite He in Hqpos. by apply Qlt_irrefl in Hqpos.
  - intros [He|He]; done.
Qed.

(** The variants of a key are numbered from 0 without a gap:
    [ambiguous_nodes] counts them. *)
Theorem build_graph_variants_numbered g :
  build_graph stopwords sentence term_weight = Ok g →
  ∀ key l, is_Some (nodes g !! (key, l)) ↔ l < ambiguous_nodes g key.
Proof.
  intros Hb key l.
  assert (contiguous (nodes g)) as Hc.
  { revert Hb. apply (build_graph_nodes_rule stopwords sentence contiguous).
    - intros k l' [a Ha]. by rewrite lookup_empty in Ha.
    - intros i s j st st' _ _. apply settles_contiguous. }
  split; [|apply ambiguous_nodes_below].
  intros Hl. destruct (decide (l < ambiguous_nodes g key)) as [|Hge]; [done|].
  pose proof (contiguous_below _ key l (ambiguous_nodes g key) Hc Hl) as [a Ha]; [lia|].
  by rewrite ambiguous_nodes_fresh in Ha.
Qed.

(** A node holds at least one occurrence; every occurrence it holds is a
    position of a token with the word and the POS of the node, and its
    label is the word of its first occurrence. *)
Theorem build_graph_nodes_hold_their_word g :
  build_graph stopwords sentence term_weight = Ok g →
  ∀ key l a, nodes g !! (key, l) = Some a →
    (∃ i j s t rest, info a = (i, j) :: rest ∧ sentence !! i = Some s ∧ s !! j = Some t
                     ∧ label a = lower t.1.1)
    ∧ ∀ i j, (i, j) ∈ info a →
        ∃ s t, sentence !! i = Some s ∧ s !! j = Some t
               ∧ lower t.1.1 +:+ sep +:+ t.1.2 = key.
Proof.
  intros Hb key l a Ha.
  destruct (build_graph_consistent g Hb key l a Ha)
    as [(i & j & t & rest & Hinfo & Ht & Hlbl) Hall].
  assert (∀ i j t, token_at sentence i j = Some t →
            ∃ s, sentence !! i = Some s ∧ s !! j = Some t) as Htok.
  { intros i0 j0 t0. unfold token_at. destruct (sentence !! i0) as [s|]; [|done].
    simpl. intros Ht0. by exists s. }
  split.
  - destruct (Htok _ _ _ Ht) as (s & Hs & Hj). by exists i, j, s, t, rest.
  - intros i0 j0 Hin. destruct (Hall i0 j0 Hin) as (t0 & Ht0 & Hkey).
    destruct (Htok _ _ _ Ht0) as (s & Hs & Hj). by exists s, t0.
Qed.

End built.
End graph_theorems.

(** ** [build_graph] on closed sentences *)

Module total_facts.
Import word_graph word_graph_spec graph_spec total_spec word_graph_facts build_facts
       graph_facts edge_weight_facts selection_facts exception_facts sentence_path_facts.

Lemma py_index_Ok {A} (l : list A) z :
  (- Z.of_nat (length l) ≤ z < Z.of_nat (length l))%Z → ∃ x, py_index l z = Ok x.
Proof.
  intros Hz. unfold py_index.
  destruct (Z.leb_spec 0 z).
  - destruct (lookup_lt_is_Some_2 l (Z.to_nat z)) as [x ->]; [lia|]. by exists x.
  - destruct (Z.leb_spec (- Z.of_nat (length l)) z); [|lia].
    destruct (lookup_lt_is_Some_2 l (Z.to_nat (Z.of_nat (length l) + z))) as [x ->]; [lia|].
    by exists x.
Qed.

Lemma foldM_total {A S} (f : S → A → result S) (l : list A) (s : S) :
  (∀ s x, x ∈ l → ∃ s', f s x = Ok s') → ∃ s', foldM f l s = Ok s'.
Proof.
  revert s. induction l as [|x l IH]; intros s Hf; simpl; [by eexists|].
  destruct (Hf s x) as [s1 ->]; [by left|]. simpl. apply IH.
  intros s0 x0 Hx0. apply Hf. by right.
Qed.

(** A loop over [range(n)] whose body keeps an invariant that may depend on
    the index runs to its end. *)
Lemma foldM_progress {S} (P : nat → S → Prop) (f : S → nat → result S) n s :
  (∀ j s, j < n → P j s → ∃ s', f s j = Ok s' ∧ P (Datatypes.S j) s') →
  P 0 s → ∃ s', foldM f (seq 0 n) s = Ok s' ∧ P n s'.
Proof.
  intros Hstep H0. induction n as [|n IH].
  - exists s. done.
  - destruct IH as (s1 & Hf & Hn); [intros; apply Hstep; [lia|done]|].
    destruct (Hstep n s1) as (s2 & Hs2 & Hn2); [lia|done|].
    exists s2. split; [|done]. rewrite seq_S, foldM_app, Hf. simpl. by rewrite Hs2.
Qed.

Lemma mapM_length {A B} (f : A → result B) (l : list A) ys :
  mapM f l = Ok ys → length ys = length l.
Proof.
  revert ys. induction l as [|x l IH]; intros ys Hm; simpl in Hm.
  - by injection Hm as <-.
  - apply bind_Ok in Hm as (y & _ & Hm). apply bind_Ok in Hm as (ys' & Hys & Hm).
    injection Hm as <-. simpl. by rewrite (IH ys').
Qed.

Lemma max_index_Ok l : 0 < length l → ∃ m, max_index l = Ok m ∧ m < length l.
Proof.
  intros Hl.
  assert (∃ m, max_index l = Ok m) as [m Hm].
  { destruct l as [|x [|y l]]; simpl in *; [lia|by eexists..]. }
  exists m. split; [done|].
  apply max_index_spec in Hm as (v & Hv & _). by eapply lookup_lt_Some.
Qed.

Lemma select_candidate_Ok fuel g key i k overlap frequency :
  (∀ l, l < k → is_Some (nodes g !! (key, l))) →
  length overlap = length frequency → 0 < length overlap → length overlap ≤ k →
  length overlap < fuel →
  ∃ r, select_candidate fuel g key i overlap frequency = Ok r.
Proof.
  intros Hnodes. revert overlap frequency.
  induction fuel as [|fuel IH]; intros overlap frequency Hlen Hpos Hk Hfuel; [lia|].
  simpl.
  destruct (max_index_Ok overlap Hpos) as (m & -> & Hm). simpl.
  destruct (lookup_lt_is_Some_2 overlap m Hm) as [v Hv]. rewrite Hv. simpl.
  assert (∃ m', (if v =? 0 then max_index frequency else Ok m) = Ok m'
                ∧ m' < length overlap) as (m' & -> & Hm').
  { destruct (v =? 0); [|by exists m].
    destruct (max_index_Ok frequency) as (m' & Hm' & Hlt); [lia|].
    exists m'. split; [done|lia]. }
  simpl. destruct (Hnodes m') as [a Ha]; [lia|].
  unfold ids_of, graph_info. rewrite Ha. simpl.
  case_bool_decide; [by eexists|].
  destruct (lookup_lt_is_Some_2 overlap m' Hm') as [x ->]. simpl.
  destruct (lookup_lt_is_Some_2 frequency m') as [y ->]; [lia|]. simpl.
  destruct (length (del m' overlap) =? 0) eqn:Hz; [by eexists|].
  apply Nat.eqb_neq in Hz. unfold del in *.
  assert (length (delete m' overlap) = length overlap - 1) as Hd1.
  { rewrite length_delete; [lia|]. by apply lookup_lt_is_Some_2. }
  assert (length (delete m' frequency) = length frequency - 1) as Hd2.
  { rewrite length_delete; [lia|]. apply lookup_lt_is_Some_2. lia. }
  apply IH; lia.
Qed.

Section total.
Context `{Re}.
Variable stopwords : gset string.
Variable sentence : list (list token).
Hypothesis sentences_closed : closed_sentences sentence.
Hypothesis stop_no_stopword : is_stopword stopwords stop = false.
Hypothesis stop_no_punct : is_punct stop = false.

Lemma closed_position i s :
  sentence !! i = Some s →
  ∃ body, s = body ++ [last_token]
          ∧ ∀ j t, s !! j = Some t →
              (j = length body ∧ t = last_token)
              ∨ (j < length body ∧ key_of t ≠ stop_key).
Proof.
  intros Hs. destruct (sentences_closed s) as (body & -> & Hbody).
  { by eapply list_elem_of_lookup_2. }
  exists body. split; [done|]. intros j t Hj.
  apply lookup_app_Some in Hj as [Hj|[Hge Hj]].
  - right. split; [by eapply lookup_lt_Some|].
    eapply Forall_forall in Hbody; [exact Hbody|]. by eapply list_elem_of_lookup_2.
  - left. apply list_lookup_singleton_Some in Hj as [Hj <-]. split; [lia|done].
Qed.

(** A node of a key other than the end key holds inner positions only. *)
Lemma occurrence_inner g key l a sid off :
  consistent sentence (nodes g) → key ≠ stop_key →
  nodes g !! (key, l) = Some a → (sid, off) ∈ info a →
  ∃ sent, sentence !! sid = Some sent ∧ off + 1 < length sent.
Proof.
  intros Hcons Hkey Ha Hin.
  destruct (Hcons key l a Ha) as [_ Hall].
  destruct (Hall sid off Hin) as (t & Ht & Hk).
  unfold token_at in Ht. destruct (sentence !! sid) as [sent|] eqn:Hs; [|done].
  simpl in Ht. exists sent. split; [done|].
  destruct (closed_position sid sent Hs) as (body & -> & Hpos).
  destruct (Hpos off t Ht) as [[_ ->]|[Hlt _]]; [done|].
  rewrite length_app. simpl. lia.
Qed.

Lemma get_directed_context_Ok g key l dir non_pos :
  consistent sentence (nodes g) → key ≠ stop_key →
  is_Some (nodes g !! (key, l)) →
  ∃ c, get_directed_context stopwords sentence g key l dir non_pos = Ok c.
Proof.
  intros Hcons Hkey [a Ha]. unfold get_directed_context, graph_info.
  rewrite Ha. simpl.
  match goal with
  | |- ∃ c, (foldM ?f _ _ ≫= _) = _ =>
      destruct (foldM_total f (info a) ([], [])) as [[lc rc] ->]
  end.
  - intros [lc rc] [sid off] Hin.
    destruct (occurrence_inner g key l a sid off Hcons Hkey Ha Hin) as (sent & -> & Hoff).
    simpl.
    destruct (py_index_Ok sent (Z.of_nat off - 1)) as [p ->]; [lia|].
    destruct (py_index_Ok sent (Z.of_nat off + 1)) as [n ->]; [lia|].
    simpl. destruct non_pos; by eexists.
  - simpl. by eexists.
Qed.

Lemma overlaps_Ok g key non_pos prev_node next_node k :
  consistent sentence (nodes g) → key ≠ stop_key →
  (∀ l, l < k → is_Some (nodes g !! (key, l))) →
  ∃ overlap,
    mapM (context_overlap stopwords sentence g key non_pos prev_node next_node) (seq 0 k)
    = Ok overlap
    ∧ length overlap = k.
Proof.
  intros Hcons Hkey Hnodes.
  destruct (mapM_total
              (context_overlap stopwords sentence g key non_pos prev_node next_node)
              (seq 0 k)) as [overlap Ho].
  { intros l Hl. apply elem_of_seq in Hl. unfold context_overlap.
    destruct (get_directed_context_Ok g key l dir_left non_pos) as [lc ->];
      [done|done|apply Hnodes; lia|].
    destruct (get_directed_context_Ok g key l dir_right non_pos) as [rc ->];
      [done|done|apply Hnodes; lia|].
    simpl. by eexists. }
  exists overlap. split; [done|]. apply mapM_length in Ho. by rewrite length_seq in Ho.
Qed.

Section one_sentence.
Variable i : nat.
Variable s : list token.
Hypothesis sentence_i : sentence !! i = Some s.

Lemma settles_cases j g mapping st' t :
  settles i s j (g, mapping) st' → s !! j = Some t →
  st' = (add_node g (key_of t, ambiguous_nodes g (key_of t)) [(i, j)] (lower t.1.1),
         <[j := Some (key_of t, ambiguous_nodes g (key_of t))]> mapping)
  ∨ ∃ l a, nodes g !! (key_of t, l) = Some a ∧ (i ∉ (info a).*1)
           ∧ st' = (info_append g (key_of t, l) (i, j),
                    <[j := Some (key_of t, l)]> mapping).
Proof.
  intros Hset Ht.
  inversion Hset as [g0 m0 t0 Ht0|g0 m0 t0 l a Ht0 Hn Hi]; subst;
    rewrite Ht in Ht0; injection Ht0 as <-; [by left|right; eauto].
Qed.

Lemma settles_mapping j st st' :
  settles i s j st st' → j < length st.2 →
  length st'.2 = length st.2
  ∧ mapped st'.2 j
  ∧ (∀ j', j' ≠ j → st'.2 !! j' = st.2 !! j')
  ∧ (∀ j', mapped st.2 j' → mapped st'.2 j').
Proof.
  intros Hset Hj. pose proof (settles_assigns _ _ _ _ _ Hset) as Has.
  destruct (assigns_mapped _ _ _ _ Has) as (Hlen & Hm & Hmono).
  split; [done|]. split; [by apply Hm|]. split; [|done].
  intros j' Hne. destruct Hset; simpl; by rewrite list_lookup_insert_ne.
Qed.

Lemma settles_recorded j st st' :
  settles i s j st st' → j < length st.2 → recorded i st → recorded i st'.
Proof.
  intros Hset Hj Hrec.
  destruct (settles_mapping _ _ _ Hset Hj) as (_ & Hmj & _ & Hmono).
  destruct Hset as [g mapping t Ht|g mapping t l a Ht Hn Hi]; intros n' a' s0 p0; simpl in *.
  - intros Hl Hin. apply lookup_insert_Some in Hl as [[<- <-]|[_ Hl]].
    + simpl in Hin. apply list_elem_of_singleton in Hin. injection Hin as -> ->.
      right. done.
    + destruct (Hrec n' a' s0 p0 Hl Hin) as [?|[-> Hm]]; [by left|right].
      split; [done|]. by apply Hmono.
  - rewrite lookup_alter. case_decide as Heq.
    + subst n'. rewrite Hn. simpl. intros [= <-] Hin. simpl in Hin.
      apply elem_of_app in Hin as [Hin|Hin].
      * destruct (Hrec _ a s0 p0 Hn Hin) as [?|[-> Hm]]; [by left|right].
        split; [done|]. by apply Hmono.
      * apply list_elem_of_singleton in Hin. injection Hin as -> ->. right. done.
    + intros Hl Hin. destruct (Hrec n' a' s0 p0 Hl Hin) as [?|[-> Hm]]; [by left|right].
      split; [done|]. by apply Hmono.
Qed.

Lemma settles_sound j st st' :
  settles i s j st st' → j < length s → sound sentence i s st →
  nodes st'.1 !! (stop_key, 1) = None → sound sentence i s st'.
Proof.
  intros Hset Hj (Hcons & _ & Hrec & Hlen) Hstop.
  assert (j < length st.2) as Hj' by lia.
  destruct (settles_mapping _ _ _ Hset Hj') as (Hlen' & _).
  split; [by eapply settles_consistent|]. split; [done|].
  split; [by eapply settles_recorded|]. lia.
Qed.

Lemma settles_stop_other j st st' t :
  settles i s j st st' → s !! j = Some t → key_of t ≠ stop_key →
  nodes st.1 !! (stop_key, 1) = None → nodes st'.1 !! (stop_key, 1) = None.
Proof.
  intros Hset Ht Hkey Hstop.
  destruct Hset as [g mapping t' Ht'|g mapping t' l a Ht' Hn Hi]; simpl in *;
    rewrite Ht in Ht'; injection Ht' as <-.
  - rewrite lookup_insert_ne; [done|]. intros [= ? ?]. done.
  - apply eq_None_not_Some. rewrite lookup_alter_is_Some. by rewrite Hstop.
Qed.

Lemma settles_waiting j st st' n :
  settles i s j st st' → j < length st.2 →
  waiting stopwords s n st → waiting stopwords s n st'.
Proof.
  intros Hset Hj Hwait j' t Hj' Ht Hnone Hcontent.
  destruct (settles_mapping _ _ _ Hset Hj) as (_ & [m Hm] & Hother & _).
  destruct (decide (j' = j)) as [->|Hne]; [congruence|].
  rewrite Hother in Hnone by done.
  destruct (Hwait j' t Hj' Ht Hnone Hcontent) as [a Ha].
  destruct (assigns_extends _ _ _ _ (settles_assigns _ _ _ _ _ Hset)) as [_ Hext].
  destruct (Hext _ _ Ha) as (a' & Ha' & _). by exists a'.
Qed.

(** *** Pass 1 *)

Lemma pass1_Ok st j : j < length s → ∃ st', pass1 stopwords i s st j = Ok st'.
Proof.
  intros Hj. destruct (lookup_lt_is_Some_2 s j Hj) as [[[token pos] weight] Ht].
  unfold pass1. destruct st as [g mapping]. rewrite Ht. simpl.
  destruct (is_stopword stopwords token || is_punct token); [by eexists|].
  destruct (ambiguous_nodes g _ =? 0); [by eexists|].
  destruct (ambiguous_nodes g _ =? 1) eqn:Hk; [|by eexists].
  apply Nat.eqb_eq in Hk.
  destruct (ambiguous_nodes_below g (lower token +:+ sep +:+ pos) 0) as [a Ha]; [lia|].
  unfold ids_of, graph_info. rewrite Ha. simpl. case_bool_decide; by eexists.
Qed.

(** What pass 1 does with a word that is neither a stopword nor a
    punctuation mark. *)
Lemma pass1_shape g mapping j t st' :
  pass1 stopwords i s (g, mapping) j = Ok st' →
  s !! j = Some t →
  (is_stopword stopwords t.1.1 || is_punct t.1.1) = false →
  (2 ≤ ambiguous_nodes g (key_of t) ∧ st' = (g, mapping))
  ∨ (ambiguous_nodes g (key_of t) < 2 ∧ settles i s j (g, mapping) st'
     ∧ (nodes g !! (key_of t, 0) = None
        ∨ ∃ a, nodes g !! (key_of t, 0) = Some a
               ∧ (i ∈ (info a).*1 ∨ nodes st'.1 !! (key_of t, 1) = None))).
Proof.
  intros Hp Ht Hcontent. destruct t as [[token pos] weight]. simpl in Hcontent.
  pose proof Hp as Hp'. apply pass1_settles in Hp'.
  unfold pass1 in Hp. rewrite Ht in Hp. simpl in Hp. rewrite Hcontent in Hp.
  change (lower token +:+ sep +:+ pos) with (key_of (token, pos, weight)) in Hp.
  set (key := key_of (token, pos, weight)) in *.
  pose proof (ambiguous_nodes_fresh g key) as Hfresh.
  destruct (ambiguous_nodes g key =? 0) eqn:Hk0.
  { apply Nat.eqb_eq in Hk0. right. split; [lia|].
    injection Hp as <-. rewrite Hk0 in Hfresh. split; [|by left].
    rewrite <- Hk0. by apply (settles_new i s j g mapping (token, pos, weight)). }
  destruct (ambiguous_nodes g key =? 1) eqn:Hk1.
  2:{ apply Nat.eqb_neq in Hk0, Hk1. left. split; [lia|]. by injection Hp as <-. }
  apply Nat.eqb_eq in Hk1. right. split; [lia|].
  apply bind_Ok in Hp as (ids & Hids & Hp).
  apply ids_of_Ok in Hids as (a & Ha & ->).
  case_bool_decide as Hi; injection Hp as <-.
  - split; [by apply (settles_old i s j g mapping (token, pos, weight) 0 a)|].
    right. exists a. split; [done|]. right. simpl.
    apply eq_None_not_Some. rewrite lookup_alter_is_Some.
    rewrite Hk1 in Hfresh. by rewrite Hfresh.
  - split.
    + rewrite <- Hk1. by apply (settles_new i s j g mapping (token, pos, weight)).
    + right. exists a. split; [done|]. by left.
Qed.

Lemma pass1_step (body : list token) j st :
  s = body ++ [last_token] →
  (∀ j t, s !! j = Some t →
     (j = length body ∧ t = last_token) ∨ (j < length body ∧ key_of t ≠ stop_key)) →
  j < length s →
  sound sentence i s st →
  (∀ j', j ≤ j' → j' < length s → st.2 !! j' = Some None) →
  (length body < j → mapped st.2 (length body)) →
  waiting stopwords s j st →
  ∃ st', pass1 stopwords i s st j = Ok st'
         ∧ sound sentence i s st'
         ∧ (∀ j', S j ≤ j' → j' < length s → st'.2 !! j' = Some None)
         ∧ (length body < S j → mapped st'.2 (length body))
         ∧ waiting stopwords s (S j) st'.
Proof.
  intros Hbody Hpos Hj Hsound Hfree Hlast Hwait.
  destruct (pass1_Ok st j Hj) as [st' Hp]. exists st'. split; [done|].
  destruct (lookup_lt_is_Some_2 s j Hj) as [t Ht].
  destruct st as [g mapping].
  pose proof Hsound as (Hcons & Hstop & Hrec & Hlen). simpl in *.
  assert (j < length mapping) as Hjm by lia.
  destruct (is_stopword stopwords t.1.1 || is_punct t.1.1) eqn:Hcontent.
  { (* the pass leaves stopwords and punctuation marks alone *)
    assert (st' = (g, mapping)) as ->.
    { destruct t as [[token pos] weight]. unfold pass1 in Hp.
      rewrite Ht in Hp. simpl in Hp, Hcontent. rewrite Hcontent in Hp. by injection Hp. }
    split; [done|]. split; [intros; apply Hfree; lia|]. split.
    - intros Hlt. destruct (Hpos j t Ht) as [[-> ->]|[Hjb _]]; [|lia].
      unfold last_token in Hcontent. simpl in Hcontent.
      by rewrite stop_no_stopword, stop_no_punct in Hcontent.
    - intros j' t' Hj' Ht' Hnone Hc'. destruct (decide (j' = j)) as [->|Hne].
      + rewrite Ht in Ht'. injection Ht' as <-. congruence.
      + apply (Hwait j' t'); [lia|done..]. }
  destruct (pass1_shape g mapping j t st' Hp Ht Hcontent)
    as [[Hk ->]|(Hk & Hset & Hvar)].
  { (* left for pass 2 *)
    split; [done|]. split; [intros; apply Hfree; lia|]. split.
    - intros Hlt. destruct (Hpos j t Ht) as [[-> ->]|[Hjb _]]; [|lia].
      destruct (ambiguous_nodes_below g stop_key 1) as [a Ha]; [done|].
      simpl in Hstop. congruence.
    - intros j' t' Hj' Ht' Hnone Hc'. destruct (decide (j' = j)) as [->|Hne].
      + rewrite Ht in Ht'. injection Ht' as <-. simpl.
        apply ambiguous_nodes_below. lia.
      + apply (Hwait j' t'); [lia|done..]. }
  destruct (settles_mapping _ _ _ Hset Hjm) as (Hlen' & Hmj & Hother & Hmono).
  assert (nodes st'.1 !! (stop_key, 1) = None) as Hstop'.
  { destruct (Hpos j t Ht) as [[-> ->]|[Hjb Hkey]];
      [|by eapply settles_stop_other].
    change (key_of last_token) with stop_key in *.
    destruct Hvar as [Hnone|(a & Ha & [Hi|Hnone])]; [| |done].
    - destruct (settles_cases _ _ _ _ _ Hset Ht) as [->|(l & a0 & Hn & Hi0 & ->)];
        simpl; change (key_of last_token) with stop_key in *.
      + assert (ambiguous_nodes g stop_key = 0) as ->.
        { destruct (ambiguous_nodes g stop_key) as [|k] eqn:Hk0; [done|].
          destruct (ambiguous_nodes_below g stop_key 0) as [a Ha]; [lia|]. congruence. }
        rewrite lookup_insert_ne; [done|]. intros [= ?].
      + apply eq_None_not_Some. rewrite lookup_alter_is_Some. by rewrite Hstop.
    - (* an occurrence of the end key from this sentence would be the
         position itself, which is not mapped yet *)
      exfalso. apply list_elem_of_fmap in Hi as ([s0 p0] & Hs0 & Hin). simpl in Hs0.
      subst s0. destruct (Hrec _ _ _ _ Ha Hin) as [?|[_ [n Hn]]]; [lia|].
      destruct (Hcons _ _ _ Ha) as [_ Hall].
      destruct (Hall i p0 Hin) as (t0 & Ht0 & Hk0).
      unfold token_at in Ht0. rewrite sentence_i in Ht0. simpl in Ht0.
      destruct (Hpos p0 t0 Ht0) as [[-> _]|[_ Hne]]; [|done].
      rewrite Hfree in Hn; [done|lia|lia]. }
  split; [by eapply settles_sound|]. split.
  { intros j' Hj1 Hj2. rewrite Hother by lia. apply Hfree; lia. }
  split.
  { intros Hlt. destruct (decide (j = length body)) as [<-|Hne]; [done|].
    apply Hmono, Hlast. lia. }
  intros j' t' Hj' Ht' Hnone Hc'. destruct (decide (j' = j)) as [->|Hne].
  { destruct Hmj as [n Hn]. congruence. }
  pose proof (settles_waiting j (g, mapping) st' j Hset Hjm Hwait) as Hwait'.
  apply (Hwait' j' t'); [lia|done..].
Qed.

(** *** Passes 2, 3 and 4 *)

Variable body : list token.
Hypothesis sentence_body : s = body ++ [last_token].
Hypothesis positions :
  ∀ j t, s !! j = Some t →
    (j = length body ∧ t = last_token) ∨ (j < length body ∧ key_of t ≠ stop_key).

Lemma length_sentence : length s = S (length body).
Proof. rewrite sentence_body, length_app. simpl. lia. Qed.

Lemma neighbours_Ok j :
  j < length body →
  ∃ p n, py_index s (Z.of_nat j - 1) = Ok p ∧ py_index s (Z.of_nat j + 1) = Ok n.
Proof.
  intros Hj. pose proof length_sentence as Hlen.
  destruct (py_index_Ok s (Z.of_nat j - 1)) as [p Hp]; [lia|].
  destruct (py_index_Ok s (Z.of_nat j + 1)) as [n Hn]; [lia|].
  by exists p, n.
Qed.

(** A token settled at an inner position keeps the invariant. *)
Lemma settles_inner j st st' :
  settles i s j st st' → j < length body →
  sound sentence i s st → mapped st.2 (length body) →
  sound sentence i s st' ∧ mapped st'.2 (length body).
Proof.
  intros Hset Hj Hsound Hlast. pose proof length_sentence as Hlen.
  pose proof Hsound as (_ & Hstop & _ & Hlenm).
  destruct (lookup_lt_is_Some_2 s j) as [t Ht]; [lia|].
  destruct (positions j t Ht) as [[-> _]|[_ Hkey]]; [lia|].
  destruct (settles_mapping _ _ _ Hset) as (_ & _ & _ & Hmono); [lia|].
  split; [|by apply Hmono].
  eapply settles_sound; [done|lia|done|]. by eapply settles_stop_other.
Qed.

Lemma pass2_step j st :
  j < length s →
  sound sentence i s st → mapped st.2 (length body) →
  waiting stopwords s (length s) st →
  ∃ st', pass2 stopwords sentence i s st j = Ok st'
         ∧ sound sentence i s st' ∧ mapped st'.2 (length body)
         ∧ waiting stopwords s (length s) st'.
Proof.
  intros Hj Hsound Hlast Hwait. pose proof length_sentence as Hlen.
  destruct (lookup_lt_is_Some_2 s j Hj) as [t Ht].
  pose proof Hsound as (Hcons & Hstop & Hrec & Hlenm).
  assert (∀ st', pass2 stopwords sentence i s st j = Ok st' → j < length body →
            sound sentence i s st' ∧ mapped st'.2 (length body)
            ∧ waiting stopwords s (length s) st') as Hkeep.
  { intros st' Hp Hjb. destruct (pass2_settles _ _ _ _ _ _ _ Hp) as [->|Hset]; [done|].
    destruct (settles_inner j st st' Hset Hjb Hsound Hlast) as [Hs' Hl'].
    split; [done|]. split; [done|]. eapply settles_waiting; [done|lia|done]. }
  destruct st as [g mapping]. simpl in *.
  destruct t as [[token pos] weight].
  destruct (is_stopword stopwords token || is_punct token) eqn:Hcontent.
  { exists (g, mapping). split; [|done]. unfold pass2. rewrite Ht. simpl.
    by rewrite Hcontent. }
  destruct (lookup_lt_is_Some_2 mapping j) as [m Hm]; [lia|].
  destruct m as [m|].
  { exists (g, mapping). split; [|done]. unfold pass2. rewrite Ht. simpl.
    rewrite Hcontent, Hm. done. }
  assert (j < length body) as Hjb.
  { destruct (positions j _ Ht) as [[-> _]|[? _]]; [|done].
    destruct Hlast as [n Hn]. congruence. }
  destruct (positions j _ Ht) as [[? _]|[_ Hkey]]; [lia|].
  set (key := key_of (token, pos, weight)) in *.
  assert (0 < ambiguous_nodes g key) as Hk.
  { destruct (Hwait j (token, pos, weight)) as [a Ha]; [lia|done..|].
    destruct (ambiguous_nodes g key) eqn:Hk0; [|lia].
    pose proof (ambiguous_nodes_fresh g key) as Hf. rewrite Hk0 in Hf.
    simpl in Ha. fold key in Ha. congruence. }
  destruct (neighbours_Ok j Hjb) as (p & n & Hp & Hn).
  destruct (overlaps_Ok g key false (key_of p) (key_of n) (ambiguous_nodes g key))
    as (overlap & Ho & Holen); [done|done|apply ambiguous_nodes_below|].
  destruct (mapM_total (λ l, inf ← graph_info g (key, l); Ok (length inf))
              (seq 0 (ambiguous_nodes g key))) as [frequency Hf].
  { intros l Hl. apply elem_of_seq in Hl.
    destruct (ambiguous_nodes_below g key l) as [a Ha]; [lia|].
    unfold graph_info. rewrite Ha. simpl. by eexists. }
  pose proof (mapM_length _ _ _ Hf) as Hflen. rewrite length_seq in Hflen.
  destruct (select_candidate_Ok (S (length overlap)) g key i (ambiguous_nodes g key)
              overlap frequency) as [[found selected] Hsel];
    [apply ambiguous_nodes_below|lia|lia|lia|lia|].
  assert (∃ st', pass2 stopwords sentence i s (g, mapping) j = Ok st') as [st' Hst'].
  { unfold pass2. rewrite Ht. cbn [mbind result_bind or_raise].
    rewrite Hcontent, Hm. cbn [mbind result_bind or_raise].
    rewrite Hp, Hn. cbn [mbind result_bind or_raise].
    change (lower token +:+ sep +:+ pos) with key.
    rewrite Ho. cbn [mbind result_bind]. rewrite Hf. cbn [mbind result_bind].
    rewrite Hsel. cbn [mbind result_bind].
    destruct found; by eexists. }
  exists st'. split; [done|]. by apply Hkeep.
Qed.

Lemma pass_context_Ok non_pos threshold st j token pos :
  j < length body → sound sentence i s st →
  lower token +:+ sep +:+ pos ≠ stop_key →
  ∃ st', pass_context stopwords sentence non_pos threshold i s st j token pos = Ok st'.
Proof.
  intros Hj (Hcons & _) Hkey. destruct st as [g mapping]. simpl in *.
  unfold pass_context. set (key := lower token +:+ sep +:+ pos) in *.
  destruct (ambiguous_nodes g key =? 0) eqn:Hk0; [by eexists|].
  apply Nat.eqb_neq in Hk0.
  destruct (neighbours_Ok j Hj) as (p & n & -> & ->). simpl.
  destruct (overlaps_Ok g key non_pos (key_of p) (key_of n) (ambiguous_nodes g key))
    as (overlap & -> & Holen); [done|done|apply ambiguous_nodes_below|].
  simpl. destruct (max_index_Ok overlap) as (selected & -> & Hsel); [lia|]. simpl.
  destruct (ambiguous_nodes_below g key selected) as [a Ha]; [lia|].
  unfold ids_of, graph_info. rewrite Ha. simpl.
  destruct (lookup_lt_is_Some_2 overlap selected Hsel) as [v ->]. simpl.
  destruct (_ && _); by eexists.
Qed.

Lemma pass3_step j st :
  j < length s →
  sound sentence i s st → mapped st.2 (length body) →
  ∃ st', pass3 stopwords sentence i s st j = Ok st'
         ∧ sound sentence i s st' ∧ mapped st'.2 (length body).
Proof.
  intros Hj Hsound Hlast.
  destruct (lookup_lt_is_Some_2 s j Hj) as [[[token pos] weight] Ht].
  destruct (is_stopword stopwords token) eqn:Hstopword.
  2:{ exists st. split; [|done]. unfold pass3. rewrite Ht. simpl. by rewrite Hstopword. }
  destruct (positions j _ Ht) as [[_ [= -> _ _]]|[Hjb Hkey]]; [congruence|].
  destruct (pass_context_Ok true 0 st j token pos Hjb Hsound Hkey) as [st' Hp].
  assert (pass3 stopwords sentence i s st j = Ok st') as Hp3.
  { unfold pass3. rewrite Ht. simpl. by rewrite Hstopword. }
  exists st'. split; [done|].
  destruct (pass3_settles _ _ _ _ _ _ _ Hp3) as [->|Hset]; [done|].
  by eapply settles_inner.
Qed.

Lemma pass4_step j st :
  j < length s →
  sound sentence i s st → mapped st.2 (length body) →
  ∃ st', pass4 stopwords sentence i s st j = Ok st'
         ∧ sound sentence i s st' ∧ mapped st'.2 (length body).
Proof.
  intros Hj Hsound Hlast.
  destruct (lookup_lt_is_Some_2 s j Hj) as [[[token pos] weight] Ht].
  destruct (is_punct token) eqn:Hpunct.
  2:{ exists st. split; [|done]. unfold pass4. rewrite Ht. simpl. by rewrite Hpunct. }
  destruct (positions j _ Ht) as [[_ [= -> _ _]]|[Hjb Hkey]]; [congruence|].
  destruct (pass_context_Ok false 1 st j token pos Hjb Hsound Hkey) as [st' Hp].
  assert (pass4 stopwords sentence i s st j = Ok st') as Hp4.
  { unfold pass4. rewrite Ht. simpl. by rewrite Hpunct. }
  exists st'. split; [done|].
  destruct (pass4_settles _ _ _ _ _ _ _ Hp4) as [->|Hset]; [done|].
  by eapply settles_inner.
Qed.

Lemma map_sentence_Ok g :
  sound_graph sentence i g →
  ∃ st', map_sentence stopwords sentence g i s = Ok st' ∧ sound sentence i s st'.
Proof.
  intros (Hcons & Hstop & Hbefore). pose proof length_sentence as Hlen.
  unfold map_sentence.
  destruct (foldM_progress
              (λ j st, sound sentence i s st
                       ∧ (∀ j', j ≤ j' → j' < length s → st.2 !! j' = Some None)
                       ∧ (length body < j → mapped st.2 (length body))
                       ∧ waiting stopwords s j st)
              (pass1 stopwords i s) (length s) (g, replicate (length s) None))
    as (st1 & -> & Hs1 & _ & Hl1 & Hw1).
  { intros j st Hj (Hs0 & Hfree & Hl0 & Hw0).
    by apply (pass1_step body). }
  { split.
    - split; [done|]. split; [done|]. split; [|simpl; by rewrite length_replicate].
      intros n a s0 p0 Hn Hin. left. by eapply Hbefore.
    - split; [|split; [lia|intros j' t Hj'; lia]].
      intros j' _ Hj'. simpl. by apply lookup_replicate_2. }
  simpl.
  destruct (foldM_progress
              (λ _ st, sound sentence i s st ∧ mapped st.2 (length body)
                       ∧ waiting stopwords s (length s) st)
              (pass2 stopwords sentence i s) (length s) st1)
    as (st2 & -> & Hs2 & Hl2 & _).
  { intros j st Hj (Hs0 & Hl0 & Hw0). by apply pass2_step. }
  { split; [done|]. split; [apply Hl1; lia|done]. }
  simpl.
  destruct (foldM_progress
              (λ _ st, sound sentence i s st ∧ mapped st.2 (length body))
              (pass3 stopwords sentence i s) (length s) st2)
    as (st3 & -> & Hs3 & Hl3).
  { intros j st Hj (Hs0 & Hl0). by apply pass3_step. }
  { done. }
  simpl.
  destruct (foldM_progress
              (λ _ st, sound sentence i s st ∧ mapped st.2 (length body))
              (pass4 stopwords sentence i s) (length s) st3)
    as (st4 & -> & Hs4 & Hl4).
  { intros j st Hj (Hs0 & Hl0). by apply pass4_step. }
  { done. }
  by exists st4.
Qed.

End one_sentence.

Lemma add_sentence_Ok g i :
  i < length sentence → sound_graph sentence i g →
  ∃ g', add_sentence stopwords sentence g i = Ok g' ∧ sound_graph sentence (S i) g'.
Proof.
  intros Hi Hsound. destruct (lookup_lt_is_Some_2 sentence i Hi) as [s Hs].
  destruct (closed_position i s Hs) as (body & Hbody & Hpos).
  destruct (map_sentence_Ok i s Hs body Hbody Hpos g Hsound)
    as ([g1 mapping] & Hm & Hcons & Hstop & Hrec & Hlen).
  unfold add_sentence. rewrite Hs. simpl. rewrite Hm. simpl.
  apply map_sentence_complete in Hm as (_ & _ & Hlenm & Hall).
  destruct (foldM_total (connect mapping) (seq 1 (length mapping - 1)) g1) as [g' Hg'].
  { intros g2 j Hj. apply elem_of_seq in Hj.
    apply connect_Ok; [lia|lia|]. intros j' Hj'. apply Hall. lia. }
  exists g'. split; [done|].
  assert (nodes g' = nodes g1) as Hn.
  { revert Hg'. apply (foldM_invariant (λ g2, nodes g2 = nodes g1)); [|done].
    intros g2 j g3 _ Hg2 Hc. apply connect_nodes in Hc. congruence. }
  unfold sound_graph. rewrite Hn. simpl in *. split; [done|]. split; [done|].
  intros n a s0 p0 Ha Hin. destruct (Hrec n a s0 p0 Ha Hin) as [?|[-> _]]; lia.
Qed.

Lemma build_nodes_and_edges_Ok :
  ∃ g, build_nodes_and_edges stopwords sentence = Ok g.
Proof.
  unfold build_nodes_and_edges.
  destruct (foldM_progress (sound_graph sentence) (add_sentence stopwords sentence)
              (length sentence) empty_graph) as (g & Hg & _).
  - intros i g Hi Hsound. by apply add_sentence_Ok.
  - split; [|split; [done|]].
    + intros key l a Ha. simpl in Ha. by rewrite lookup_empty in Ha.
    + intros n a s0 p0 Ha. simpl in Ha. by rewrite lookup_empty in Ha.
  - by exists g.
Qed.

Variable term_weight : gmap string Q.


End total.
End total_facts.

(** ** [compute_statistics] *)

Module statistics_facts.
Import word_graph statistics_spec search_facts edge_weight_facts edge_facts.

Lemma count_app `{EqDecision A} (x : A) (l1 l2 : list A) :
  count x (l1 ++ l2) = count x l1 + count x l2.
Proof. unfold count. by rewrite filter_app, length_app. Qed.

Lemma count_pos `{EqDecision A} (x : A) (l : list A) : x ∈ l → 0 < count x l.
Proof.
  unfold count. intros Hx.
  assert (x ∈ filter (λ y, y = x) l) as Hin by by apply list_elem_of_filter.
  destruct (filter _ l); [by apply elem_of_nil in Hin|simpl; lia].
Qed.

Lemma count_token_counted i done st t st' :
  count_token i st t = Ok st' → counted done st → counted (done ++ [t]) st'.
Proof.
  destruct st as [terms weights]. destruct t as [[token pos] weight].
  unfold count_token. intros Hc [Hterms Hweights]. cbn [fst snd] in Hterms, Hweights.
  change (lower token +:+ sep +:+ pos) with (key_of (token, pos, weight)) in Hc.
  set (t := (token, pos, weight)) in *. set (node := key_of t) in *.
  assert (∀ key, length <$> <[node := default [] (terms !! node) ++ [i]]> terms !! key
                 = if decide (key ∈ key_of <$> done ++ [t])
                   then Some (count key (key_of <$> done ++ [t])) else None) as Hterms'.
  { intros key. rewrite fmap_app. change (key_of <$> [t]) with [node]. rewrite count_app.
    destruct (decide (key = node)) as [->|Hne].
    - rewrite lookup_insert_eq. cbn [fmap option_fmap option_map].
      rewrite length_app. cbn [length].
      rewrite decide_True by (apply elem_of_app; right; by left).
      f_equal. specialize (Hterms node).
      assert (count node [node] = 1) as ->.
      { unfold count. rewrite filter_cons, decide_True by done. done. }
      f_equal. destruct (terms !! node) as [ids|] eqn:Hl; rewrite ?Hl in Hterms; simpl in *.
      + case_decide; [by injection Hterms|done].
      + case_decide as Hin; [done|]. unfold count.
        destruct (filter _ _) as [|x l] eqn:Hf; [done|].
        exfalso. apply Hin. assert (x ∈ x :: l) as Hx by by left.
        rewrite <- Hf in Hx. apply list_elem_of_filter in Hx as [-> Hx]. done.
    - rewrite lookup_insert_ne by done. rewrite Hterms.
      assert (count key [node] = 0) as ->.
      { unfold count. rewrite filter_cons, decide_False by done. done. }
      rewrite Nat.add_0_r.
      destruct (decide (key ∈ key_of <$> done)) as [Hin|Hin].
      + rewrite decide_True; [done|]. apply elem_of_app. by left.
      + rewrite decide_False; [done|]. intros Hin'. apply elem_of_app in Hin' as [?|Hin'];
          [done|]. apply list_elem_of_singleton in Hin'. done. }
  assert (∀ key, key ≠ node ∨ weight = start ∨ weight = stop →
            weights_for key (done ++ [t]) = weights_for key done) as Hsame.
  { intros key Hkey. unfold weights_for. rewrite filter_app, fmap_app.
    rewrite filter_cons, decide_False; [by rewrite filter_nil, app_nil_r|].
    intros (Hk & Hs1 & Hs2). simpl in *. fold node in Hk.
    destruct Hkey as [?|[?|?]]; congruence. }
  destruct (bool_decide (weight = start) || bool_decide (weight = stop)) eqn:Hsent.
  - injection Hc as <-. split; [done|]. simpl. intros key.
    rewrite Hsame; [apply Hweights|]. right.
    apply orb_true_iff in Hsent as [Hs|Hs]; apply bool_decide_eq_true in Hs; auto.
  - apply bind_Ok in Hc as (w & Hw & Hc). injection Hc as <-.
    split; [done|]. simpl. intros key.
    apply orb_false_iff in Hsent as [Hs1 Hs2].
    apply bool_decide_eq_false in Hs1, Hs2.
    destruct (decide (key = node)) as [->|Hne].
    + destruct (Hweights node) as (ws & Hws & Hlook). exists (ws ++ [w]). split.
      * unfold weights_for. rewrite filter_app, fmap_app.
        rewrite filter_cons, decide_True by done. rewrite filter_nil.
        apply mapM_app; [done|]. simpl. by rewrite Hw.
      * rewrite lookup_insert_eq, Hlook.
        rewrite (decide_False (P := ws ++ [w] = [])) by (by destruct ws).
        by destruct (decide (ws = [])) as [->|].
    + rewrite lookup_insert_ne by done. rewrite Hsame by auto. apply Hweights.
Qed.

Lemma count_tokens_counted i ts done st st' :
  foldM (count_token i) ts st = Ok st' → counted done st → counted (done ++ ts) st'.
Proof.
  revert done st. induction ts as [|t ts IH]; intros done st Hf Hc; simpl in Hf.
  - injection Hf as <-. by rewrite app_nil_r.
  - apply bind_Ok in Hf as (st1 & Ht & Hf).
    replace (done ++ t :: ts) with ((done ++ [t]) ++ ts) by by rewrite <- app_assoc.
    eapply IH; [done|]. by eapply count_token_counted.
Qed.

Lemma count_sentences_counted (f : nat → list token → nat * list token) l done st st' :
  (∀ n x, (f n x).2 = x) →
  foldM (λ st (e : nat * list token), foldM (count_token e.1) e.2 st) (imap f l) st = Ok st' →
  counted done st → counted (done ++ concat l) st'.
Proof.
  revert f done st. induction l as [|s l IH]; intros f done st Hsnd Hf Hc; simpl in Hf.
  - injection Hf as <-. simpl. by rewrite app_nil_r.
  - apply bind_Ok in Hf as (st1 & Hs & Hf). rewrite Hsnd in Hs.
    simpl. rewrite app_assoc. eapply (IH (f ∘ S)); [|done|].
    + intros n x. apply Hsnd.
    + by eapply count_tokens_counted.
Qed.

Lemma compute_statistics_counted sentence term_freq term_weight :
  compute_statistics sentence = Ok (term_freq, term_weight) →
  ∃ st, counted (concat sentence) st
        ∧ term_freq = length <$> st.1
        ∧ term_weight = (λ ws, fold_left Qplus ws 0%Q) <$> st.2.
Proof.
  unfold compute_statistics. intros Hc. apply bind_Ok in Hc as (st & Hf & Hc).
  injection Hc as <- <-. exists st. split; [|done].
  apply (count_sentences_counted pair sentence [] (∅, ∅)) in Hf; [done|done|].
  split; simpl.
  - intros key. by rewrite lookup_empty.
  - intros key. exists []. split; [done|]. by rewrite lookup_empty.
Qed.

Lemma float_of_string_nonneg s q : float_of_string s = Ok q → (0 <= q)%Q.
Proof.
  unfold float_of_string. intros Hf.
  assert (∀ n : nat, 0 <= inject_Z (Z.of_nat n))%Q as Hn.
  { intros n. unfold Qle, inject_Z. simpl. lia. }
  destruct (split "." s) as [|a [|b [|c l]]]; [done| | |done].
  - case_decide; [done|]. apply bind_Ok in Hf as (n & _ & Hf). injection Hf as <-.
    apply Hn.
  - case_decide; [done|]. apply bind_Ok in Hf as (n & _ & Hf).
    apply bind_Ok in Hf as (m & _ & Hf). injection Hf as <-.
    rewrite <- (Qplus_0_r 0). apply Qplus_le_compat; [apply Hn|].
    unfold Qle. simpl. lia.
Qed.

End statistics_facts.

Module statistics_theorems.
Import word_graph word_graph_spec statistics_spec
       statistics_facts exception_facts graph_theorems.

Lemma foldM_Ok_iff {A S} (P : A → Prop) (f : S → A → result S) (l : list A) (s : S) :
  (∀ s x, is_Ok (f s x) ↔ P x) → is_Ok (foldM f l s) ↔ Forall P l.
Proof.
  intros Hf. revert s. induction l as [|x l IH]; intros s; simpl.
  - split; [constructor|by eexists].
  - rewrite Forall_cons. rewrite <- (Hf s x). split.
    + intros [s' Hs']. apply bind_Ok in Hs' as (s1 & H1 & Hs').
      split; [by eexists|]. apply (IH s1). by eexists.
    + intros [[s1 H1] Hl]. rewrite H1. simpl. by apply IH.
Qed.

Lemma float_of_string_raises s : raises_only (λ e, e = ValueError) (float_of_string s).
Proof.
  unfold float_of_string.
  destruct (split "." s) as [|a [|b [|c l]]]; try by apply raises_only_Raise.
  - case_decide; [by apply raises_only_Raise|].
    apply raises_only_bind; [by apply raises_only_or_raise|]. intros; apply raises_only_Ok.
  - case_decide; [by apply raises_only_Raise|].
    apply raises_only_bind; [by apply raises_only_or_raise|]. intros n _.
    apply raises_only_bind; [by apply raises_only_or_raise|]. intros; apply raises_only_Ok.
Qed.

Lemma count_token_raises i st t : raises_only (λ e, e = ValueError) (count_token i st t).
Proof.
  destruct st as [terms weights]. destruct t as [[token pos] weight]. unfold count_token.
  destruct (_ || _); [apply raises_only_Ok|].
  apply raises_only_bind; [apply float_of_string_raises|]. intros; apply raises_only_Ok.
Qed.

Lemma count_token_Ok i st t : is_Ok (count_token i st t) ↔ parses t.
Proof.
  destruct st as [terms weights]. destruct t as [[token pos] weight].
  unfold count_token, parses. simpl.
  destruct (bool_decide (weight = start)) eqn:H1.
  { apply bool_decide_eq_true in H1. simpl. split; [auto|by eexists]. }
  destruct (bool_decide (weight = stop)) eqn:H2.
  { apply bool_decide_eq_true in H2. simpl. split; [auto|by eexists]. }
  apply bool_decide_eq_false in H1, H2. simpl. split.
  - intros [st' Hs]. apply bind_Ok in Hs as (w & Hw & _). right. right. by exists w.
  - intros [?|[?|[w Hw]]]; [done|done|]. rewrite Hw. simpl. by eexists.
Qed.

Lemma count_sentences_Ok (f : nat → list token → nat * list token) l st :
  (∀ n x, (f n x).2 = x) →
  is_Ok (foldM (λ st (e : nat * list token), foldM (count_token e.1) e.2 st) (imap f l) st)
  ↔ Forall parses (concat l).
Proof.
  intros Hsnd.
  rewrite (foldM_Ok_iff (λ e : nat * list token, Forall parses e.2)).
  2:{ intros st0 e. apply foldM_Ok_iff. intros. apply count_token_Ok. }
  revert f Hsnd. induction l as [|s l IH]; intros f Hsnd; simpl.
  - split; constructor.
  - rewrite Forall_cons, Forall_app, Hsnd. rewrite (IH (f ∘ S)); [done|].
    intros n x. apply Hsnd.
Qed.

(** [compute_statistics] fails exactly when a weight is not a string
    [float] reads, and then with [ValueError]. *)
Theorem compute_statistics_errors sentence :
  (is_Ok (compute_statistics sentence) ↔ Forall parses (concat sentence))
  ∧ raises_only (λ e, e = ValueError) (compute_statistics sentence).
Proof.
  split.
  - rewrite <- (count_sentences_Ok pair sentence (∅, ∅)) by done.
    unfold compute_statistics. split.
    + intros [r Hr]. apply bind_Ok in Hr as (st & Hst & _). by exists st.
    + intros [st Hst]. rewrite Hst. simpl. by eexists.
  - unfold compute_statistics. apply raises_only_bind; [|intros; apply raises_only_Ok].
    apply raises_only_foldM. intros st e _. apply raises_only_foldM. intros st0 t _.
    apply count_token_raises.
Qed.

(** [term_freq] counts, for every key, the tokens of that key in all the
    sentences, the sentinels included. *)
Theorem compute_statistics_frequency sentence term_freq term_weight :
  compute_statistics sentence = Ok (term_freq, term_weight) →
  ∀ key, term_freq !! key
         = if decide (key ∈ keys_of sentence)
           then Some (count key (keys_of sentence)) else None.
Proof.
  intros Hc key.
  apply compute_statistics_counted in Hc as (st & [Hterms _] & -> & _).
  rewrite lookup_fmap. apply Hterms.
Qed.

(** [term_weight] holds, for every key, the sum of the weights of the
    tokens of that key, the sentinels apart; no weight is negative. *)
Theorem compute_statistics_weight sentence term_freq term_weight :
  compute_statistics sentence = Ok (term_freq, term_weight) →
  ∀ key, ∃ ws,
    mapM float_of_string (weights_for key (concat sentence)) = Ok ws
    ∧ Forall (λ w, 0 <= w)%Q ws
    ∧ term_weight !! key = if decide (ws = []) then None else Some (sum ws).
Proof.
  intros Hc key.
  apply compute_statistics_counted in Hc as (st & [_ Hweights] & _ & ->).
  destruct (Hweights key) as (ws & Hws & Hlook). exists ws. split; [done|]. split.
  - eapply edge_weight_facts.mapM_Forall; [|exact Hws].
    intros s q _. apply float_of_string_nonneg.
  - rewrite lookup_fmap, Hlook. by case_decide.
Qed.

Lemma term_weight_nonneg sentence term_freq term_weight :
  compute_statistics sentence = Ok (term_freq, term_weight) →
  ∀ key w, term_weight !! key = Some w → (0 <= w)%Q.
Proof.
  intros Hc key w Hw.
  apply compute_statistics_counted in Hc as (st & [_ Hweights] & _ & ->).
  destruct (Hweights key) as (ws & Hws & Hlook).
  rewrite lookup_fmap, Hlook in Hw. case_decide; [done|]. injection Hw as <-.
  eapply Qle_trans; [|apply edge_facts.sum_from_le]; [apply Qle_refl|].
  eapply edge_weight_facts.mapM_Forall; [|exact Hws].
  intros s q _. apply float_of_string_nonneg.
Qed.

Section constructor.
Context `{Re}.

Lemma init_parts h sentence_list nb_words lang loaded_stopwords pos_separator h' self :
  init h sentence_list nb_words lang loaded_stopwords pos_separator = Ok (h', self) →
  ∃ sentences,
    read_sentences h' (self_sentence self) (self_length self) = Ok sentences
    ∧ compute_statistics sentences = Ok (self_term_freq self, self_term_weight self)
    ∧ build_graph loaded_stopwords sentences (self_term_weight self) = Ok (self_graph self)
    ∧ self_stopwords self = loaded_stopwords.
Proof.
  unfold init. intros Hi.
  apply bind_Ok in Hi as ([h1 l1] & _ & Hi). apply bind_Ok in Hi as (n & _ & Hi).
  apply bind_Ok in Hi as (h2 & _ & Hi). apply bind_Ok in Hi as (sentences & Hr & Hi).
  apply bind_Ok in Hi as ([tf tw] & Hc & Hi). apply bind_Ok in Hi as (g & Hg & Hi).
  injection Hi as <- <-. simpl. by exists sentences.
Qed.


End constructor.
End statistics_theorems.

(** ** [pre_process_sentences] *)

Module preprocess_facts.
Import word_graph.

Lemma foldM_seq_invariant {S} (P : nat → S → Prop) (f : S → nat → result S) n s s' :
  (∀ j s s', j < n → P j s → f s j = Ok s' → P (Datatypes.S j) s') →
  P 0 s → foldM f (seq 0 n) s = Ok s' → P n s'.
Proof.
  intros Hstep H0. revert s'. induction n as [|n IH]; intros s' Hf.
  - by injection Hf as <-.
  - rewrite seq_S, foldM_app in Hf. simpl in Hf.
    apply bind_Ok in Hf as (s1 & Hf & Hlast).
    apply bind_Ok in Hlast as (s2 & Hs2 & Hlast). injection Hlast as <-.
    eapply Hstep; [| |exact Hs2]; [lia|]. apply IH; [|done].
    intros j s0 s0' Hj. apply Hstep. lia.
Qed.

Lemma lower_ascii_idemp c : lower_ascii (lower_ascii c) = lower_ascii c.
Proof.
  unfold lower_ascii.
  destruct ((65 <=? Ascii.nat_of_ascii c) && (Ascii.nat_of_ascii c <=? 90)) eqn:Hc.
  - apply andb_true_iff in Hc as [H1 H2]. apply Nat.leb_le in H1, H2.
    rewrite Ascii.nat_ascii_embedding by lia.
    destruct (Nat.leb_spec (Ascii.nat_of_ascii c + 32) 90); [lia|].
    by rewrite andb_false_r.
  - by rewrite Hc.
Qed.

Lemma lower_idemp s : lower (lower s) = lower s.
Proof. induction s as [|c s IH]; simpl; [done|]. by rewrite lower_ascii_idemp, IH. Qed.

Lemma split_go_nonempty sep s skip cur : split_go sep s skip cur ≠ [].
Proof.
  revert skip cur. induction s as [|c s IH]; intros skip cur; simpl; [done|].
  destruct skip; [|apply IH]. case_match; [done|apply IH].
Qed.

Lemma split_nonempty sep s : split sep s ≠ [].
Proof. apply split_go_nonempty. Qed.

Lemma load_Ok (h : heap) l i v :
  load h l i = Ok v ↔ ∃ xs, h !! l = Some xs ∧ xs !! i = Some v.
Proof.
  unfold load. split.
  - intros Hl. apply bind_Ok in Hl as (xs & Hxs & Hl). apply or_raise_Ok in Hxs, Hl. eauto.
  - intros (xs & -> & Hi). simpl. by rewrite Hi.
Qed.

Lemma store_Ok (h h' : heap) l i v :
  store h l i v = Ok h' ↔ ∃ xs, h !! l = Some xs ∧ i < length xs ∧ h' = <[l := <[i := v]> xs]> h.
Proof.
  unfold store. split.
  - intros Hs. apply bind_Ok in Hs as (xs & Hxs & Hs). apply or_raise_Ok in Hxs.
    destruct (Nat.ltb_spec i (length xs)); [|done]. injection Hs as <-. eauto.
  - intros (xs & -> & Hi & ->). simpl. apply Nat.ltb_lt in Hi. by rewrite Hi.
Qed.

Section words.
Context `{Re}.

Lemma parse_words pos_separator words container container' :
  foldM (parse_word pos_separator) words container = Ok container' →
  ∃ tokens, container' = container ++ tokens
            ∧ length tokens = length words
            ∧ Forall (λ t : token, lower t.1.1 = t.1.1) tokens.
Proof.
  revert container. induction words as [|w words IH]; intros container Hf; simpl in Hf.
  - injection Hf as <-. exists []. by rewrite app_nil_r.
  - apply bind_Ok in Hf as (c1 & Hw & Hf). unfold parse_word in Hw.
    apply bind_Ok in Hw as (m & _ & Hw). apply bind_Ok in Hw as (token & _ & Hw).
    apply bind_Ok in Hw as (pos & _ & Hw). apply bind_Ok in Hw as (weight & _ & Hw).
    injection Hw as <-. apply IH in Hf as (tokens & -> & Hlen & Hlow).
    exists ((lower token, pos, weight) :: tokens). split; [by rewrite <- app_assoc|].
    split; [simpl; lia|]. constructor; [apply lower_idemp|done].
Qed.

(** One sentence: the string at position [i] is replaced by its tokens
    between the two sentinels. *)
Lemma pre_process_sentence_spec pos_separator self_sentence (h h' : heap) i :
  pre_process_sentence pos_separator self_sentence h i = Ok h' →
  ∃ xs raw tokens,
    h !! self_sentence = Some xs ∧ xs !! i = Some (VStr raw)
    ∧ h' = <[self_sentence :=
               <[i := VSentence ((start, start, start) :: tokens ++ [(stop, stop, stop)])]> xs]> h
    ∧ length tokens = length (split " " (strip (re_sub " +" " " raw)))
    ∧ Forall (λ t : token, lower t.1.1 = t.1.1) tokens.
Proof.
  unfold pre_process_sentence. intros Hp.
  apply bind_Ok in Hp as (raw & Hraw & Hp).
  apply bind_Ok in Hraw as (v & Hv & Hraw). destruct v as [raw'| |]; try done.
  injection Hraw as ->. apply load_Ok in Hv as (xs & Hxs & Hi).
  assert (i < length xs) as Hlt by by eapply lookup_lt_Some.
  apply bind_Ok in Hp as (h1 & H1 & Hp).
  apply store_Ok in H1 as (xs1 & Hxs1 & _ & ->). rewrite Hxs in Hxs1. injection Hxs1 as <-.
  apply bind_Ok in Hp as (s1 & Hs1 & Hp).
  apply bind_Ok in Hs1 as (v & Hv & Hs1). apply load_Ok in Hv as (ys & Hys & Hv).
  rewrite lookup_insert_eq in Hys. injection Hys as <-.
  rewrite list_lookup_insert_eq in Hv by done. injection Hv as <-. injection Hs1 as <-.
  apply bind_Ok in Hp as (h2 & H2 & Hp).
  apply store_Ok in H2 as (ys & Hys & _ & ->).
  rewrite lookup_insert_eq in Hys. injection Hys as <-.
  rewrite insert_insert_eq, list_insert_insert_eq in Hp.
  apply bind_Ok in Hp as (s2 & Hs2 & Hp).
  apply bind_Ok in Hs2 as (v & Hv & Hs2). apply load_Ok in Hv as (ys & Hys & Hv).
  rewrite lookup_insert_eq in Hys. injection Hys as <-.
  rewrite list_lookup_insert_eq in Hv by done. injection Hv as <-. injection Hs2 as <-.
  apply bind_Ok in Hp as (container & Hc & Hp).
  apply parse_words in Hc as (tokens & -> & Hlen & Hlow).
  apply store_Ok in Hp as (ys & Hys & _ & ->).
  rewrite lookup_insert_eq in Hys. injection Hys as <-.
  rewrite insert_insert_eq, list_insert_insert_eq.
  exists xs, raw, tokens. done.
Qed.

(** After [pre_process_sentences] every sentence is its tokens between the
    start and the end sentinel: one token for every piece the split on
    spaces gives, at least one, with its word in lower case. *)
Theorem pre_process_sentences_shape pos_separator self_sentence self_length (h h' : heap) :
  pre_process_sentences pos_separator self_sentence self_length h = Ok h' →
  ∀ i, i < self_length →
    ∃ raw tokens,
      load h self_sentence i = Ok (VStr raw)
      ∧ load h' self_sentence i
        = Ok (VSentence ((start, start, start) :: tokens ++ [(stop, stop, stop)]))
      ∧ tokens ≠ []
      ∧ length tokens = length (split " " (strip (re_sub " +" " " raw)))
      ∧ Forall (λ t : token, lower t.1.1 = t.1.1) tokens.
Proof.
  unfold pre_process_sentences. intros Hp i Hi.
  set (done := λ (xs ys : list pyval) (k : nat),
         ∃ raw tokens,
           xs !! k = Some (VStr raw)
           ∧ ys !! k
             = Some (VSentence ((start, start, start) :: tokens ++ [(stop, stop, stop)]))
           ∧ length tokens = length (split " " (strip (re_sub " +" " " raw)))
           ∧ Forall (λ t : token, lower t.1.1 = t.1.1) tokens).
  assert (∃ xs ys, h !! self_sentence = Some xs ∧ h' !! self_sentence = Some ys
                   ∧ ∀ k, k < self_length → done xs ys k) as (xs & ys & Hxs & Hys & Hall).
  { destruct (h !! self_sentence) as [xs|] eqn:Hxs.
    2:{ destruct self_length as [|n]; [lia|]. simpl in Hp.
        apply bind_Ok in Hp as (h1 & H1 & _).
        apply pre_process_sentence_spec in H1 as (xs & _ & _ & Hxs' & _). congruence. }
    exists xs.
    apply (foldM_seq_invariant
             (λ j hj, ∃ ys, hj !! self_sentence = Some ys
                            ∧ (∀ k, j ≤ k → ys !! k = xs !! k)
                            ∧ ∀ k, k < j → done xs ys k)) in Hp.
    - destruct Hp as (ys & Hys & _ & Hdone). by exists ys.
    - intros j hj hj' Hj (ys & Hys & Hrest & Hdone) Hstep.
      apply pre_process_sentence_spec in Hstep
        as (ys' & raw & tokens & Hys' & Hraw & -> & Hlen & Hlow).
      rewrite Hys in Hys'. injection Hys' as <-.
      eexists. split; [by rewrite lookup_insert_eq|]. split.
      + intros k Hk. rewrite list_lookup_insert_ne by lia. apply Hrest. lia.
      + intros k Hk. destruct (decide (k = j)) as [->|Hne].
        * exists raw, tokens. rewrite <- Hrest by lia. split; [done|].
          split; [|done]. apply list_lookup_insert_eq. by eapply lookup_lt_Some.
        * destruct (Hdone k) as (raw' & tokens' & H1 & H2 & H3); [lia|].
          exists raw', tokens'. split; [done|]. split; [|done].
          by rewrite list_lookup_insert_ne.
    - exists xs. split; [done|]. split; [done|]. intros; lia. }
  destruct (Hall i Hi) as (raw & tokens & Hraw & Htok & Hlen & Hlow).
  exists raw, tokens. split; [apply load_Ok; eauto|]. split; [apply load_Ok; eauto|].
  split; [|done]. intros ->. simpl in Hlen. symmetry in Hlen.
  apply length_zero_iff_nil in Hlen. by apply split_nonempty in Hlen.
Qed.

End words.
End preprocess_facts.

(** ** The compressions and the sentences *)

Module bigram_facts.
Import word_graph word_graph_spec search_spec path_spec graph_spec path_facts graph_facts
       graph_theorems.

Lemma cost_from_edges (graph_weight : node → node → result Q) acc u p c :
  cost_from graph_weight acc u p = Ok c →
  ∀ j a b, (u :: p) !! j = Some a → (u :: p) !! S j = Some b →
    ∃ e, graph_weight a b = Ok e.
Proof.
  revert acc u. induction p as [|v p IH]; intros acc u Hc j a b Ha Hb.
  - destruct j; simpl in Hb; done.
  - simpl in Hc. apply bind_Ok in Hc as (e & He & Hc).
    destruct j as [|j]; simpl in Ha, Hb.
    + injection Ha as <-. injection Hb as <-. by exists e.
    + by eapply (IH _ _ Hc j).
Qed.

Lemma path_cost_edges (graph_weight : node → node → result Q) p c :
  path_cost graph_weight p = Ok c →
  ∀ j a b, p !! j = Some a → p !! S j = Some b → ∃ e, graph_weight a b = Ok e.
Proof.
  destruct p as [|u p]; [intros _ j a b Ha; done|]. simpl. apply cost_from_edges.
Qed.

Section compressions.
Context `{Re}.
Variable stopwords : gset string.
Variable sentence : list (list token).
Variable term_weight : gmap string Q.
Variable verbs : gset string.
Variable nb_words : Z.

(** Two nodes that follow each other on a path of the search stand for two
    tokens that follow each other in one of the sentences: a compression
    has no pair of adjacent words that the input does not have. *)
Theorem compressions_follow_sentences g fuel start_ end_ k ps :
  build_graph stopwords sentence term_weight = Ok g →
  k_shortest_paths verbs nb_words (neighbors g) (edge_weight g) fuel start_ end_ k = Ok ps →
  ∀ p w, (p, w) ∈ ps →
    ∀ j u v, p !! j = Some u → p !! S j = Some v →
      ∃ i s pos t1 t2,
        sentence !! i = Some s ∧ s !! pos = Some t1 ∧ s !! S pos = Some t2
        ∧ key_of t1 = u.1 ∧ key_of t2 = v.1.
Proof.
  intros Hb Hk p w Hp j u v Hu Hv.
  assert (∃ c, path_cost (edge_weight g) p = Ok c) as [c Hc].
  { unfold k_shortest_paths in Hk. apply bind_Ok in Hk as (st & Hs & Hk).
    injection Hk as <-.
    apply (search_invariant_rule verbs nb_words (neighbors g) (edge_weight g) end_
             (costed (edge_weight g))) in Hs as [_ Hacc].
    - destruct (Hacc p w Hp) as (c & Hc & _). by exists c.
    - apply expand_costed.
    - split; simpl.
      + intros x q Hq. apply list_elem_of_singleton in Hq. injection Hq as -> ->.
        exists [], 0%Q. done.
      + intros q w' Hq. by apply elem_of_nil in Hq. }
  destruct (path_cost_edges _ _ _ Hc j u v Hu Hv) as [e He].
  destruct (weighted_edge stopwords sentence term_weight g u v e Hb He)
    as [_ (i & pos & au & av & Hi & Hau & Hav & Hpu & Hpv)].
  pose proof (build_graph_consistent stopwords sentence term_weight g Hb) as Hcons.
  destruct u as [ku lu], v as [kv lv].
  destruct (Hcons ku lu au Hau) as [_ Hallu]. destruct (Hcons kv lv av Hav) as [_ Hallv].
  destruct (Hallu i pos Hpu) as (t1 & Ht1 & Hk1).
  destruct (Hallv i (S pos) Hpv) as (t2 & Ht2 & Hk2).
  unfold token_at in Ht1, Ht2. destruct (sentence !! i) as [s|] eqn:Hs; [|done].
  simpl in Ht1, Ht2. by exists i, s, pos, t1, t2.
Qed.

End compressions.
End bigram_facts.

(** ** One node for every occurrence *)

Module partition_facts.
Import word_graph word_graph_spec graph_spec total_spec partition_spec word_graph_facts
       build_facts graph_facts total_facts preprocess_facts.

(** What a settled token adds to the occurrences of the graph. *)
Lemma settles_holds i s j st st' :
  settles i s j st st' →
  ∃ n, st'.2 = <[j := Some n]> st.2
       ∧ ∀ n' a' o, nodes st'.1 !! n' = Some a' → o ∈ info a' →
           (∃ a, nodes st.1 !! n' = Some a ∧ o ∈ info a) ∨ (n' = n ∧ o = (i, j)).
Proof.
  intros [g mapping t Ht|g mapping t l a Ht Hn Hi]; simpl.
  - eexists. split; [done|]. intros n' a' o Hl Hin.
    apply lookup_insert_Some in Hl as [[<- <-]|[_ Hl]].
    + right. simpl in Hin. apply list_elem_of_singleton in Hin. done.
    + left. eauto.
  - eexists. split; [done|]. intros n' a' o. rewrite lookup_alter. case_decide as Heq.
    + subst n'. rewrite Hn. simpl. intros [= <-] Hin. simpl in Hin.
      apply elem_of_app in Hin as [Hin|Hin]; [left; eauto|].
      right. apply list_elem_of_singleton in Hin. done.
    + intros Hl Hin. left. eauto.
Qed.

Lemma settles_apart i s j st st' :
  settles i s j st st' → st.2 !! j = Some None → apart i s st → apart i s st'.
Proof.
  intros Hset Hfree (Hone & Htrack & Hrec & Hlen).
  assert (j < length st.2) as Hj by by eapply lookup_lt_Some.
  destruct (settles_holds _ _ _ _ _ Hset) as (n & Hmap & Hholds).
  split; [|split; [|split]].
  - intros n1 n2 a1 a2 o H1 H2 Ho1 Ho2.
    destruct (Hholds _ _ _ H1 Ho1) as [(b1 & Hb1 & Hob1)|[-> ->]];
      destruct (Hholds _ _ _ H2 Ho2) as [(b2 & Hb2 & Hob2)|[-> Heq]].
    + by eapply Hone.
    + subst o. rewrite (Htrack _ _ _ Hb1 Hob1) in Hfree. done.
    + rewrite (Htrack _ _ _ Hb2 Hob2) in Hfree. done.
    + done.
  - intros n' a' p Hl Hin. rewrite Hmap.
    destruct (Hholds _ _ _ Hl Hin) as [(b & Hb & Hob)|[-> [= ->]]].
    + pose proof (Htrack _ _ _ Hb Hob) as Hp.
      rewrite list_lookup_insert_ne; [done|]. intros ->. congruence.
    + by apply list_lookup_insert_eq.
  - by eapply settles_recorded.
  - rewrite Hmap, length_insert. done.
Qed.

Section passes.
Context `{Re}.
Variable stopwords : gset string.
Variable sentence : list (list token).
(** No token is a stopword and a punctuation mark at once. *)
Hypothesis one_class :
  ∀ s t, s ∈ sentence → t ∈ s →
    is_stopword stopwords t.1.1 = true → is_punct t.1.1 = false.

Lemma pass1_skips i s st j t st' :
  s !! j = Some t → (is_stopword stopwords t.1.1 || is_punct t.1.1) = true →
  pass1 stopwords i s st j = Ok st' → st' = st.
Proof.
  intros Ht Hc Hp. destruct t as [[token pos] weight]. destruct st as [g mapping].
  unfold pass1 in Hp. rewrite Ht in Hp. simpl in Hp, Hc. rewrite Hc in Hp.
  by injection Hp.
Qed.

Lemma pass2_skips i s st j t st' :
  s !! j = Some t →
  (is_stopword stopwords t.1.1 || is_punct t.1.1) = true ∨ (∃ m, st.2 !! j = Some (Some m)) →
  pass2 stopwords sentence i s st j = Ok st' → st' = st.
Proof.
  intros Ht Hc Hp. destruct t as [[token pos] weight]. destruct st as [g mapping].
  unfold pass2 in Hp. rewrite Ht in Hp. simpl in Hp, Hc.
  destruct (is_stopword stopwords token || is_punct token); [by injection Hp|].
  destruct Hc as [?|[m Hm]]; [done|]. rewrite Hm in Hp. simpl in Hp. by injection Hp.
Qed.

Lemma pass3_skips i s st j t st' :
  s !! j = Some t → is_stopword stopwords t.1.1 = false →
  pass3 stopwords sentence i s st j = Ok st' → st' = st.
Proof.
  intros Ht Hc Hp. destruct t as [[token pos] weight].
  unfold pass3 in Hp. rewrite Ht in Hp. simpl in Hp, Hc. rewrite Hc in Hp.
  by injection Hp.
Qed.

Lemma pass4_skips i s st j t st' :
  s !! j = Some t → is_punct t.1.1 = false →
  pass4 stopwords sentence i s st j = Ok st' → st' = st.
Proof.
  intros Ht Hc Hp. destruct t as [[token pos] weight].
  unfold pass4 in Hp. rewrite Ht in Hp. simpl in Hp, Hc. rewrite Hc in Hp.
  by injection Hp.
Qed.

Lemma map_sentence_apart g i s st' :
  s ∈ sentence →
  apart i s (g, replicate (length s) None) →
  map_sentence stopwords sentence g i s = Ok st' → apart i s st'.
Proof.
  intros Hs Hinit Hm. unfold map_sentence in Hm.
  apply bind_Ok in Hm as (st1 & H1 & Hm). apply bind_Ok in Hm as (st2 & H2 & Hm).
  apply bind_Ok in Hm as (st3 & H3 & H4).
  assert (∀ j, j < length s → ∃ t, s !! j = Some t ∧ t ∈ s) as Htok.
  { intros j Hj. destruct (lookup_lt_is_Some_2 s j Hj) as [t Ht].
    exists t. split; [done|]. by eapply list_elem_of_lookup_2. }
  (* pass 1 *)
  apply (foldM_seq_invariant
           (λ j st, apart i s st
                    ∧ ∀ j' t, s !! j' = Some t →
                        j ≤ j' ∨ (is_stopword stopwords t.1.1 || is_punct t.1.1) = true →
                        st.2 !! j' = Some None)) in H1.
  2:{ intros j st st0 Hj [Hap Hfree] Hp. destruct (Htok j Hj) as (t & Ht & _).
      destruct (is_stopword stopwords t.1.1 || is_punct t.1.1) eqn:Hc.
      { apply (pass1_skips _ _ _ _ t) in Hp as ->; [|done..].
        split; [done|]. intros j' t' Ht' [?|?]; apply (Hfree j' t'); auto. lia. }
      destruct (pass1_settles _ _ _ _ _ _ Hp) as [->|Hset].
      { split; [done|]. intros j' t' Ht' [?|?]; apply (Hfree j' t'); auto. lia. }
      split; [eapply settles_apart; [done| |done]; apply (Hfree j t); auto|].
      destruct (settles_holds _ _ _ _ _ Hset) as (n & -> & _).
      intros j' t' Ht' Hj'. rewrite list_lookup_insert_ne.
      - apply (Hfree j' t'); [done|]. destruct Hj'; [left; lia|by right].
      - intros <-. rewrite Ht in Ht'. injection Ht' as <-.
        destruct Hj' as [?|?]; [lia|congruence]. }
  2:{ split; [done|]. intros j' t Ht _. simpl. apply lookup_replicate_2.
      by eapply lookup_lt_Some. }
  destruct H1 as [Hap1 Hfree1].
  (* pass 2 *)
  apply (foldM_seq_invariant
           (λ _ st, apart i s st
                    ∧ ∀ j' t, s !! j' = Some t →
                        (is_stopword stopwords t.1.1 || is_punct t.1.1) = true →
                        st.2 !! j' = Some None)) in H2.
  2:{ intros j st st0 Hj [Hap Hfree] Hp. destruct (Htok j Hj) as (t & Ht & _).
      destruct (is_stopword stopwords t.1.1 || is_punct t.1.1) eqn:Hc.
      { apply (pass2_skips _ _ _ _ t) in Hp as ->; [done|done|by left]. }
      destruct Hap as (Hone & Htrack & Hrec & Hlen).
      destruct (lookup_lt_is_Some_2 st.2 j) as [m Hm]; [lia|].
      destruct m as [m|].
      { apply (pass2_skips _ _ _ _ t) in Hp as ->; [done|done|right; by exists m]. }
      destruct (pass2_settles _ _ _ _ _ _ _ Hp) as [->|Hset]; [done|].
      split; [by eapply settles_apart|].
      destruct (settles_holds _ _ _ _ _ Hset) as (n & -> & _).
      intros j' t' Ht' Hj'. rewrite list_lookup_insert_ne; [by apply (Hfree j' t')|].
      intros <-. rewrite Ht in Ht'. injection Ht' as <-. congruence. }
  2:{ split; [done|]. intros j' t Ht Hc. apply (Hfree1 j' t); auto. }
  destruct H2 as [Hap2 Hfree2].
  (* pass 3 *)
  apply (foldM_seq_invariant
           (λ j st, apart i s st
                    ∧ ∀ j' t, s !! j' = Some t →
                        (is_stopword stopwords t.1.1 = true ∧ j ≤ j')
                        ∨ (is_stopword stopwords t.1.1 = false ∧ is_punct t.1.1 = true) →
                        st.2 !! j' = Some None)) in H3.
  2:{ intros j st st0 Hj [Hap Hfree] Hp. destruct (Htok j Hj) as (t & Ht & _).
      destruct (is_stopword stopwords t.1.1) eqn:Hc.
      2:{ apply (pass3_skips _ _ _ _ t) in Hp as ->; [|done..].
          split; [done|]. intros j' t' Ht' [[? ?]|?]; apply (Hfree j' t'); auto.
          left. split; [done|lia]. }
      destruct (pass3_settles _ _ _ _ _ _ _ Hp) as [->|Hset].
      { split; [done|]. intros j' t' Ht' [[? ?]|?]; apply (Hfree j' t'); auto.
        left. split; [done|lia]. }
      split; [eapply settles_apart; [done| |done]; apply (Hfree j t); auto|].
      destruct (settles_holds _ _ _ _ _ Hset) as (n & -> & _).
      intros j' t' Ht' Hj'. rewrite list_lookup_insert_ne.
      - apply (Hfree j' t'); [done|]. destruct Hj' as [[? ?]|?]; [left|by right].
        split; [done|lia].
      - intros <-. rewrite Ht in Ht'. injection Ht' as <-.
        destruct Hj' as [[? ?]|[? ?]]; [lia|congruence]. }
  2:{ split; [done|]. intros j' t Ht Hc. apply (Hfree2 j' t); [done|].
      destruct Hc as [[-> _]|[_ ->]]; [done|]. apply orb_true_r. }
  destruct H3 as [Hap3 Hfree3].
  (* pass 4 *)
  apply (foldM_seq_invariant
           (λ j st, apart i s st
                    ∧ ∀ j' t, s !! j' = Some t →
                        is_stopword stopwords t.1.1 = false → is_punct t.1.1 = true →
                        j ≤ j' → st.2 !! j' = Some None)) in H4.
  - by destruct H4.
  - intros j st st0 Hj [Hap Hfree] Hp. destruct (Htok j Hj) as (t & Ht & Hin).
    destruct (is_punct t.1.1) eqn:Hc.
    2:{ apply (pass4_skips _ _ _ _ t) in Hp as ->; [|done..].
        split; [done|]. intros j' t' Ht' ? ? ?. apply (Hfree j' t'); auto. lia. }
    assert (is_stopword stopwords t.1.1 = false) as Hns.
    { destruct (is_stopword stopwords t.1.1) eqn:Hst; [|done].
      rewrite (one_class s t Hs Hin Hst) in Hc. done. }
    destruct (pass4_settles _ _ _ _ _ _ _ Hp) as [->|Hset].
    { split; [done|]. intros j' t' Ht' ? ? ?. apply (Hfree j' t'); auto. lia. }
    split; [eapply settles_apart; [done| |done]; apply (Hfree j t); auto|].
    destruct (settles_holds _ _ _ _ _ Hset) as (n & -> & _).
    intros j' t' Ht' Hs' Hp' Hj'. rewrite list_lookup_insert_ne.
    + apply (Hfree j' t'); [done..|lia].
    + intros <-. lia.
  - split; [done|]. intros j' t Ht Hns Hp _. apply (Hfree3 j' t); auto.
Qed.

(** Every occurrence is held by one node only, provided no token is both a
    stopword and a punctuation mark (such a token is mapped by pass 3 and
    again by pass 4). *)
Theorem build_graph_one_node term_weight g :
  build_graph stopwords sentence term_weight = Ok g →
  ∀ n1 n2 a1 a2 i j,
    nodes g !! n1 = Some a1 → nodes g !! n2 = Some a2 →
    (i, j) ∈ info a1 → (i, j) ∈ info a2 → n1 = n2.
Proof.
  intros Hb. unfold build_graph in Hb. apply bind_Ok in Hb as (g0 & Hg0 & Hw).
  apply weigh_edges_nodes in Hw. rewrite Hw.
  assert (one_node g0) as Hone; [|intros n1 n2 a1 a2 i j; by apply Hone].
  unfold build_nodes_and_edges in Hg0.
  apply (foldM_seq_invariant
           (λ i g, one_node g
                   ∧ ∀ n a s p, nodes g !! n = Some a → (s, p) ∈ info a → s < i)) in Hg0.
  - by destruct Hg0.
  - intros i g1 g2 Hi [Hone Hbefore] Ha. unfold add_sentence in Ha.
    apply bind_Ok in Ha as (s & Hs & Ha). apply or_raise_Ok in Hs.
    apply bind_Ok in Ha as ([g3 mapping] & Hm & Ha).
    apply map_sentence_apart in Hm as (Hone3 & _ & Hrec3 & _).
    + assert (nodes g2 = nodes g3) as Hn.
      { revert Ha. apply (foldM_invariant (λ g, nodes g = nodes g3)); [|done].
        intros g4 j g5 _ Hg4 Hc. apply connect_nodes in Hc. congruence. }
      unfold one_node. rewrite Hn. split; [done|].
      intros n a s0 p Hl Hin. destruct (Hrec3 n a s0 p Hl Hin) as [?|[-> _]]; lia.
    + by eapply list_elem_of_lookup_2.
    + split; [done|]. split; [|split; [|simpl; by rewrite length_replicate]].
      * intros n a p Hl Hin. pose proof (Hbefore n a i p Hl Hin). lia.
      * intros n a s0 p Hl Hin. left. by eapply Hbefore.
  - split.
    + intros n1 n2 a1 a2 o H1. simpl in H1. by rewrite lookup_empty in H1.
    + intros n a s p Hl. simpl in Hl. by rewrite lookup_empty in Hl.
Qed.

End passes.
End partition_facts.

(** ** The keyphrase candidates *)

Module reranker_facts.
Import keyphrase_reranker reranker_spec cluster_facts exception_facts.

Lemma dict_set_elem {V} (d : list (string * V)) k v e :
  e ∈ dict_set d k v → e = (k, v) ∨ e ∈ d.
Proof.
  induction d as [|[k' v'] d IH]; simpl.
  - intros He. apply list_elem_of_singleton in He. by left.
  - case_decide.
    + intros He. apply elem_of_cons in He as [->|He]; [by left|]. right. by right.
    + intros He. apply elem_of_cons in He as [->|He]; [right; by left|].
      destruct (IH He); [by left|]. right. by right.
Qed.

Lemma dict_set_keys {V} (d : list (string * V)) k v k' :
  k' ∈ (dict_set d k v).*1 ↔ k' = k ∨ k' ∈ d.*1.
Proof.
  induction d as [|[k0 v0] d IH]; simpl.
  - rewrite list_elem_of_singleton. split; [by left|]. intros [?|Hn]; [done|].
    by apply elem_of_nil in Hn.
  - case_decide as Hk; simpl.
    + subst k0. rewrite !elem_of_cons. tauto.
    + rewrite !elem_of_cons, IH. tauto.
Qed.

Lemma suffix_run_unique {A} (F : A → Prop) (p c p' c' : list A) :
  p ++ c = p' ++ c' → Forall F c → Forall F c' →
  (∀ t, last p = Some t → ¬ F t) → (∀ t, last p' = Some t → ¬ F t) → c = c'.
Proof.
  intros Heq Hc Hc' Hp Hp'.
  apply app_eq_inv in Heq as [(k & -> & ->)|(k & -> & ->)].
  - destruct k as [|x k _] using rev_ind; [done|]. exfalso.
    apply (Hp x); [by rewrite app_assoc, last_snoc|].
    eapply Forall_forall; [exact Hc'|]. apply elem_of_app. left. apply elem_of_app.
    right. by left.
  - destruct k as [|x k _] using rev_ind; [done|]. exfalso.
    apply (Hp' x); [by rewrite app_assoc, last_snoc|].
    eapply Forall_forall; [exact Hc|]. apply elem_of_app. left. apply elem_of_app.
    right. by left.
Qed.

Section candidates.
Context `{Re}.
Variable syntactic_filter : list string.
Variable syntactic_patterns : list string.

Let F (t : wnode) : Prop := in_filter syntactic_filter t.2 = true.
Let flushed (cand : list wnode) : bool :=
  (0 <? length cand) && is_a_candidate syntactic_patterns cand.

(** The scan of the words [done] of a sentence, from the candidates [kc0]:
    the buffer is the run of filtered words that ends [done]; the new
    entries are largest runs of the sentence; the largest runs closed so
    far that match the patterns have their entry. *)
Lemma scan_tokens_spec kc0 done :
  let r := foldl (scan_token syntactic_filter syntactic_patterns) (kc0, []) done in
  (∃ p, done = p ++ r.2 ∧ ∀ t, last p = Some t → ¬ F t)
  ∧ Forall F r.2
  ∧ (∀ e, e ∈ r.1 →
       e ∈ kc0
       ∨ (e.1 = surface e.2 ∧ is_a_candidate syntactic_patterns e.2 = true
          ∧ e.2 ≠ [] ∧ Forall F e.2
          ∧ ∃ pre post, done = pre ++ e.2 ++ post ∧ post ≠ []
              ∧ (∀ t, last pre = Some t → ¬ F t) ∧ (∀ t, head post = Some t → ¬ F t)))
  ∧ (∀ k, k ∈ kc0.*1 → k ∈ r.1.*1)
  ∧ (∀ c pre post,
       done = pre ++ c ++ post → post ≠ [] → c ≠ [] → Forall F c →
       (∀ t, last pre = Some t → ¬ F t) → (∀ t, head post = Some t → ¬ F t) →
       is_a_candidate syntactic_patterns c = true → surface c ∈ r.1.*1).
Proof.
  induction done as [|t done IH] using rev_ind; cbv zeta.
  { simpl. split; [exists []; split; [done|]; intros t Ht; done|].
    split; [constructor|]. split; [by left|]. split; [done|].
    intros c pre post Heq Hpost. destruct pre, c, post; done. }
  rewrite foldl_snoc.
  destruct (foldl _ (kc0, []) done) as [kc cand]. cbv zeta in IH. simpl in IH.
  destruct IH as ((p & Hdone & Hp) & Hcand & Hsound & Hkeys & Hcompl).
  assert (∀ c pre post,
            done ++ [t] = pre ++ c ++ post → post ≠ [] →
            ∃ post0, post = post0 ++ [t] ∧ done = pre ++ c ++ post0) as Hsplit.
  { intros c pre post Heq Hpost.
    destruct post as [|x post _] using rev_ind; [done|].
    rewrite !app_assoc in Heq. apply app_inj_tail in Heq as [Heq ->].
    exists post. split; [done|]. by rewrite <- app_assoc in Heq. }
  assert (∀ e : string * list wnode,
            (e.1 = surface e.2 ∧ is_a_candidate syntactic_patterns e.2 = true
             ∧ e.2 ≠ [] ∧ Forall F e.2
             ∧ ∃ pre post, done = pre ++ e.2 ++ post ∧ post ≠ []
                 ∧ (∀ t, last pre = Some t → ¬ F t) ∧ (∀ t, head post = Some t → ¬ F t)) →
            (e.1 = surface e.2 ∧ is_a_candidate syntactic_patterns e.2 = true
             ∧ e.2 ≠ [] ∧ Forall F e.2
             ∧ ∃ pre post, done ++ [t] = pre ++ e.2 ++ post ∧ post ≠ []
                 ∧ (∀ t, last pre = Some t → ¬ F t) ∧ (∀ t, head post = Some t → ¬ F t)))
    as Holder.
  { intros e (H1 & H2 & H3 & H4 & pre & post & Heq & Hpost & Hpre & Hhead).
    do 4 (split; [done|]). exists pre, (post ++ [t]).
    split; [by rewrite Heq, <- !app_assoc|]. split; [by destruct post|].
    split; [done|]. intros t0 Ht0. apply Hhead. by destruct post. }
  unfold scan_token.
  destruct (in_filter syntactic_filter t.2) eqn:Ht; simpl.
  - (* the word joins the buffer *)
    split; [exists p; split; [by rewrite Hdone, <- app_assoc|done]|].
    split; [apply Forall_app; split; [done|by repeat constructor]|].
    split; [intros e He; destruct (Hsound e He) as [?|Hold]; [by left|right; by apply Holder]|].
    split; [done|].
    intros c pre post Heq Hpost Hc HFc Hpre Hhead Hcan.
    destruct (Hsplit c pre post Heq Hpost) as (post0 & -> & Heq0).
    destruct post0 as [|x post0].
    + exfalso. apply (Hhead t); done.
    + apply (Hcompl c pre (x :: post0)); done.
  - (* the word closes the buffer *)
    assert (¬ F t) as HnF by (unfold F; congruence).
    assert (∃ p', done ++ [t] = p' ++ [] ∧ ∀ t0, last p' = Some t0 → ¬ F t0) as Hbuf.
    { exists (done ++ [t]). split; [by rewrite app_nil_r|].
      intros t0. rewrite last_snoc. by intros [= <-]. }
    fold (flushed cand). destruct (flushed cand) eqn:Hfl; simpl.
    + apply andb_true_iff in Hfl as [Hlen Hcan]. apply Nat.ltb_lt in Hlen.
      split; [done|]. split; [constructor|]. split; [|split].
      * intros e He. apply dict_set_elem in He as [->|He].
        -- right. simpl. split; [done|]. split; [done|].
           split; [destruct cand; [simpl in Hlen; lia|done]|]. split; [done|].
           exists p, [t]. split; [by rewrite Hdone, <- app_assoc|]. split; [done|].
           split; [done|]. by intros t0 [= <-].
        -- destruct (Hsound e He) as [?|Hold]; [by left|right; by apply Holder].
      * intros k Hk. apply dict_set_keys. right. by apply Hkeys.
      * intros c pre post Heq Hpost Hc HFc Hpre Hhead Hcanc.
        destruct (Hsplit c pre post Heq Hpost) as (post0 & -> & Heq0).
        apply dict_set_keys. destruct post0 as [|x post0].
        -- left. f_equal. rewrite app_nil_r in Heq0.
           apply (suffix_run_unique F pre c p cand); [congruence|done..].
        -- right. apply (Hcompl c pre (x :: post0)); done.
    + split; [done|]. split; [constructor|]. split; [|split; [done|]].
      * intros e He. destruct (Hsound e He) as [?|Hold]; [by left|right; by apply Holder].
      * intros c pre post Heq Hpost Hc HFc Hpre Hhead Hcanc.
        destruct (Hsplit c pre post Heq Hpost) as (post0 & -> & Heq0).
        destruct post0 as [|x post0].
        -- exfalso. rewrite app_nil_r in Heq0.
           assert (c = cand) as -> by
             (apply (suffix_run_unique F pre c p cand); [congruence|done..]).
           unfold flushed in Hfl. rewrite Hcanc, andb_true_r in Hfl.
           apply Nat.ltb_ge in Hfl. destruct cand; [done|simpl in Hfl; lia].
        -- apply (Hcompl c pre (x :: post0)); done.
Qed.

Lemma scan_sentence_spec kc0 sentence :
  let kc := scan_sentence syntactic_filter syntactic_patterns kc0 sentence in
  (∀ e, e ∈ kc →
     e ∈ kc0
     ∨ (e.1 = surface e.2 ∧ is_a_candidate syntactic_patterns e.2 = true
        ∧ maximal_run syntactic_filter sentence e.2))
  ∧ (∀ k, k ∈ kc0.*1 → k ∈ kc.*1)
  ∧ (∀ c, maximal_run syntactic_filter sentence c →
       is_a_candidate syntactic_patterns c = true → surface c ∈ kc.*1).
Proof.
  cbv zeta. unfold scan_sentence.
  pose proof (scan_tokens_spec kc0 sentence) as Hscan. cbv zeta in Hscan.
  destruct (foldl _ (kc0, []) sentence) as [kc cand]. simpl in Hscan.
  destruct Hscan as ((p & Hdone & Hp) & Hcand & Hsound & Hkeys & Hcompl).
  assert (∀ e : string * list wnode,
            (e.1 = surface e.2 ∧ is_a_candidate syntactic_patterns e.2 = true
             ∧ e.2 ≠ [] ∧ Forall F e.2
             ∧ ∃ pre post, sentence = pre ++ e.2 ++ post ∧ post ≠ []
                 ∧ (∀ t, last pre = Some t → ¬ F t) ∧ (∀ t, head post = Some t → ¬ F t)) →
            e.1 = surface e.2 ∧ is_a_candidate syntactic_patterns e.2 = true
            ∧ maximal_run syntactic_filter sentence e.2) as Hrun.
  { intros e (H1 & H2 & H3 & H4 & pre & post & Heq & _ & Hpre & Hhead).
    split; [done|]. split; [done|]. split; [done|]. split; [done|].
    exists pre, post. split; [done|]. split.
    - intros t Ht. specialize (Hpre t Ht). unfold F in Hpre.
      by destruct (in_filter syntactic_filter t.2).
    - intros t Ht. specialize (Hhead t Ht). unfold F in Hhead.
      by destruct (in_filter syntactic_filter t.2). }
  assert (∀ c, maximal_run syntactic_filter sentence c →
            is_a_candidate syntactic_patterns c = true →
            surface c ∈ kc.*1 ∨ c = cand) as Hcases.
  { intros c (Hc & HFc & pre & post & Heq & Hpre & Hhead) Hcan.
    assert (∀ t, last pre = Some t → ¬ F t) as Hpre'.
    { intros t Ht. unfold F. rewrite (Hpre t Ht). done. }
    destruct post as [|x post].
    - right. rewrite app_nil_r in Heq.
      apply (suffix_run_unique F pre c p cand); [congruence|done..].
    - left. apply (Hcompl c pre (x :: post)); try done.
      intros t Ht. unfold F. rewrite (Hhead t Ht). done. }
  fold (flushed cand). destruct (flushed cand) eqn:Hfl.
  - apply andb_true_iff in Hfl as [Hlen Hcan]. apply Nat.ltb_lt in Hlen.
    split; [|split].
    + intros e He. apply dict_set_elem in He as [->|He].
      * right. simpl. split; [done|]. split; [done|]. split; [destruct cand; [simpl in Hlen; lia|done]|].
        split; [done|]. exists p, []. split; [by rewrite app_nil_r|]. split.
        -- intros t Ht. specialize (Hp t Ht). unfold F in Hp.
           by destruct (in_filter syntactic_filter t.2).
        -- done.
      * destruct (Hsound e He) as [?|Hold]; [by left|right; by apply Hrun].
    + intros k Hk. apply dict_set_keys. right. by apply Hkeys.
    + intros c Hc Hcan'. apply dict_set_keys.
      destruct (Hcases c Hc Hcan') as [?| ->]; [by right|by left].
  - split; [|split; [done|]].
    + intros e He. destruct (Hsound e He) as [?|Hold]; [by left|right; by apply Hrun].
    + intros c Hc Hcan'. destruct (Hcases c Hc Hcan') as [?| ->]; [done|].
      exfalso. unfold flushed in Hfl. rewrite Hcan', andb_true_r in Hfl.
      apply Nat.ltb_ge in Hfl. destruct Hc as [Hne _]. destruct cand; [done|simpl in Hfl; lia].
Qed.

Lemma generate_candidates_sound sentences e :
  e ∈ generate_candidates syntactic_filter syntactic_patterns sentences →
  candidate_of syntactic_filter syntactic_patterns sentences e.
Proof.
  unfold generate_candidates. revert e.
  induction sentences as [|s sentences IH] using rev_ind; intros e He.
  { by apply elem_of_nil in He. }
  rewrite foldl_snoc in He.
  destruct (scan_sentence_spec
              (foldl (scan_sentence syntactic_filter syntactic_patterns) [] sentences) s)
    as (Hs1 & _ & _).
  destruct (Hs1 e He) as [Hold|(H1 & H2 & H3)].
  - destruct (IH e Hold) as (H1 & H2 & s0 & Hs0 & Hrun).
    split; [done|]. split; [done|]. exists s0. split; [|done].
    apply elem_of_app. by left.
  - split; [done|]. split; [done|]. exists s. split; [|done].
    apply elem_of_app. right. by left.
Qed.

(** The keyphrase candidates are the largest runs of words of the
    syntactic categories, in any sentence, that match every pattern: every
    entry is one, under the key that joins its words, and every such run
    has its key in the dictionary. *)
Theorem generate_candidates_maximal_runs sentences :
  (∀ e, e ∈ generate_candidates syntactic_filter syntactic_patterns sentences →
     candidate_of syntactic_filter syntactic_patterns sentences e)
  ∧ (∀ sentence c,
       sentence ∈ sentences → maximal_run syntactic_filter sentence c →
       is_a_candidate syntactic_patterns c = true →
       surface c ∈ (generate_candidates syntactic_filter syntactic_patterns sentences).*1).
Proof.
  split; [intros e; apply generate_candidates_sound|].
  unfold generate_candidates.
  induction sentences as [|s sentences IH] using rev_ind.
  { intros s c Hs. by apply elem_of_nil in Hs. }
  rewrite foldl_snoc.
  destruct (scan_sentence_spec
              (foldl (scan_sentence syntactic_filter syntactic_patterns) [] sentences) s)
    as (_ & Hs2 & Hs3).
  intros s0 c Hs0 Hrun Hcan. apply elem_of_app in Hs0 as [Hs0|Hs0].
  - apply Hs2. by eapply IH.
  - apply list_elem_of_singleton in Hs0 as ->. by apply Hs3.
Qed.

End candidates.
End reranker_facts.

(** ** The co-occurrence graph *)

Module cooccurrence_facts.
Import keyphrase_reranker reranker_spec cooccurrence_spec.

Lemma joins_snoc u v pairs a b :
  joins u v (pairs ++ [(a, b)])
  = joins u v pairs + (if decide ((u, v) = (a, b) ∨ (u, v) = (b, a)) then 1 else 0).
Proof.
  unfold joins. rewrite filter_app, length_app. f_equal.
  rewrite filter_cons, filter_nil.
  destruct (decide ((a, b) = (u, v) ∨ (a, b) = (v, u))) as [Hp|Hp];
    destruct (decide ((u, v) = (a, b) ∨ (u, v) = (b, a))) as [Hq|Hq]; try done; exfalso.
  - apply Hq. destruct Hp as [[= -> ->]|[= -> ->]]; [by left|by right].
  - apply Hp. destruct Hq as [[= -> ->]|[= -> ->]]; [by left|by right].
Qed.

Lemma bind_snoc {A B} (f : A → list B) (l : list A) (x : A) :
  (l ++ [x]) ≫= f = (l ≫= f) ++ f x.
Proof. rewrite bind_app. simpl. by rewrite app_nil_r. Qed.

Lemma joins_sym u v pairs : joins u v pairs = joins v u pairs.
Proof.
  unfold joins. f_equal. apply list_filter_iff. intros p. tauto.
Qed.

(** A loop whose body keeps an invariant of the elements it has seen. *)
Lemma foldM_ghost {A S} (I : list A → S → Prop) (f : S → A → result S) (l : list A) s s' :
  (∀ seen x s s', x ∈ l → I seen s → f s x = Ok s' → I (seen ++ [x]) s') →
  I [] s → foldM f l s = Ok s' → I l s'.
Proof.
  intros Hstep. revert s'. induction l as [|x l IH] using rev_ind; intros s' H0 Hf.
  - simpl in Hf. by injection Hf as <-.
  - rewrite foldM_app in Hf. apply bind_Ok in Hf as (s1 & Hl & Hx). simpl in Hx.
    apply bind_Ok in Hx as (s2 & Hx & Hr). injection Hr as ->.
    eapply Hstep; [|apply IH; [|done|done]|done].
    + apply elem_of_app. right. by left.
    + intros seen y t t' Hy. apply Hstep. apply elem_of_app. by left.
Qed.

(** *** The operations on the graph *)

Lemma sym_insert_lookup (m : gmap (wnode * wnode) nat) (a b u v : wnode) (w : nat) :
  <[(b, a) := w]> (<[(a, b) := w]> m) !! (u, v)
  = if decide ((u, v) = (a, b) ∨ (u, v) = (b, a)) then Some w else m !! (u, v).
Proof.
  destruct (decide ((u, v) = (b, a))) as [->|Hne1].
  { rewrite lookup_insert_eq. rewrite decide_True; [done|by right]. }
  rewrite lookup_insert_ne by done.
  destruct (decide ((u, v) = (a, b))) as [->|Hne2].
  { rewrite lookup_insert_eq. rewrite decide_True; [done|by left]. }
  rewrite lookup_insert_ne by done. rewrite decide_False; [done|]. tauto.
Qed.

Lemma add_node_well_formed g n :
  well_formed g → n ∉ nodes g → well_formed (add_node g n).
Proof.
  intros (Hnd & Hadj & Hedge & Hw) Hn. unfold add_node. split; [|split; [|split]]; simpl.
  - apply NoDup_app. split; [done|]. split; [|apply NoDup_singleton].
    intros x Hx Hx'. apply list_elem_of_singleton in Hx' as ->. done.
  - intros m. rewrite elem_of_app, list_elem_of_singleton.
    destruct (decide (m = n)) as [->|Hne].
    + rewrite lookup_insert_eq. split; [by right|by eexists].
    + rewrite lookup_insert_ne by done. rewrite Hadj. tauto.
  - intros u v. destruct (decide (u = n)) as [->|Hne].
    + rewrite lookup_insert_eq. simpl. split; [intros Hv; by apply elem_of_nil in Hv|].
      intros [w Hv]. destruct (Hw _ _ _ Hv) as (_ & _ & Hin & _). done.
    + rewrite lookup_insert_ne by done. apply Hedge.
  - intros u v w Hv. destruct (Hw _ _ _ Hv) as (H1 & H2 & H3 & H4).
    split; [done|]. split; [done|]. split; apply elem_of_app; by left.
Qed.

Lemma add_edge_adj g a b u :
  default [] (adj (add_edge g a b) !! u)
  = default [] (adj g !! u)
    ++ (if decide (u = a) then [b] else [])
    ++ (if decide (u = b ∧ a ≠ b) then [a] else []).
Proof.
  unfold add_edge. simpl. destruct (decide (a = b)) as [->|Hab].
  - rewrite (decide_False (P := u = b ∧ b ≠ b)) by tauto. rewrite app_nil_r.
    destruct (decide (u = b)) as [->|Hu].
    + by rewrite lookup_insert_eq.
    + rewrite lookup_insert_ne by done. by rewrite app_nil_r.
  - destruct (decide (u = b)) as [->|Hub].
    + rewrite lookup_insert_eq. rewrite lookup_insert_ne by done.
      rewrite decide_False by (intros ->; done). rewrite decide_True by done. done.
    + rewrite lookup_insert_ne by done.
      rewrite (decide_False (P := u = b ∧ a ≠ b)) by tauto. rewrite app_nil_r.
      destruct (decide (u = a)) as [->|Hua].
      * by rewrite lookup_insert_eq.
      * rewrite lookup_insert_ne by done. by rewrite app_nil_r.
Qed.

Lemma add_edge_keys g a b n :
  a ∈ nodes g → b ∈ nodes g → (∀ n, is_Some (adj g !! n) ↔ n ∈ nodes g) →
  is_Some (adj (add_edge g a b) !! n) ↔ n ∈ nodes g.
Proof.
  intros Ha Hb Hadj. unfold add_edge. simpl.
  assert (is_Some (<[a := default [] (adj g !! a) ++ [b]]> (adj g) !! n) ↔ n ∈ nodes g) as H1.
  { destruct (decide (n = a)) as [->|Hne].
    - rewrite lookup_insert_eq. split; [done|by eexists].
    - rewrite lookup_insert_ne by done. apply Hadj. }
  destruct (decide (a = b)); [done|].
  destruct (decide (n = b)) as [->|Hne].
  - rewrite lookup_insert_eq. split; [done|by eexists].
  - rewrite lookup_insert_ne by done. done.
Qed.

Lemma add_edge_well_formed g a b :
  well_formed g → a ∈ nodes g → b ∈ nodes g → weights g !! (a, b) = None →
  well_formed (add_edge g a b).
Proof.
  intros (Hnd & Hadj & Hedge & Hw) Ha Hb Hnone.
  split; [done|]. split; [intros n; exact (add_edge_keys g a b n Ha Hb Hadj)|]. split.
  - intros u v. rewrite add_edge_adj. unfold add_edge. simpl. rewrite sym_insert_lookup.
    rewrite !elem_of_app, Hedge.
    destruct (decide ((u, v) = (a, b) ∨ (u, v) = (b, a))) as [Heq|Hne].
    + split; [by eexists|]. intros _.
      destruct Heq as [[= -> ->]|[= -> ->]].
      * right. left. rewrite decide_True by done. by left.
      * destruct (decide (a = b)) as [->|Hab].
        -- right. left. rewrite decide_True by done. by left.
        -- right. right. rewrite decide_True by done. by left.
    + split; [|by left]. intros [Hold|[Hnew|Hnew]]; [done|..]; exfalso.
      * destruct (decide (u = a)) as [->|]; [|by apply elem_of_nil in Hnew].
        apply list_elem_of_singleton in Hnew as ->. apply Hne. by left.
      * destruct (decide (u = b ∧ a ≠ b)) as [[-> _]|]; [|by apply elem_of_nil in Hnew].
        apply list_elem_of_singleton in Hnew as ->. apply Hne. by right.
  - intros u v w. unfold add_edge. simpl. rewrite !sym_insert_lookup.
    destruct (decide ((u, v) = (a, b) ∨ (u, v) = (b, a))) as [Heq|Hne].
    + intros [= <-]. split; [done|]. split.
      * rewrite decide_True; [done|]. destruct Heq as [[= -> ->]|[= -> ->]]; [by right|by left].
      * destruct Heq as [[= -> ->]|[= -> ->]]; done.
    + intros Hv. destruct (Hw _ _ _ Hv) as (H1 & H2 & H3 & H4). split; [done|].
      split; [|done]. rewrite decide_False; [done|].
      intros [[= -> ->]|[= -> ->]]; apply Hne; [by right|by left].
Qed.

Lemma increment_well_formed g a b w :
  well_formed g → weights g !! (a, b) = Some w →
  well_formed (MkGraph (nodes g) (adj g) (<[(b, a) := S w]> (<[(a, b) := S w]> (weights g)))).
Proof.
  intros (Hnd & Hadj & Hedge & Hw) Hab.
  destruct (Hw _ _ _ Hab) as (_ & Hba & Ha & Hb).
  split; [done|]. split; [done|]. split; simpl.
  - intros u v. rewrite sym_insert_lookup, Hedge.
    destruct (decide ((u, v) = (a, b) ∨ (u, v) = (b, a))) as [Heq|Hne]; [|done].
    split; [by eexists|]. intros _.
    destruct Heq as [[= -> ->]|[= -> ->]]; by eexists.
  - intros u v w'. rewrite !sym_insert_lookup.
    destruct (decide ((u, v) = (a, b) ∨ (u, v) = (b, a))) as [Heq|Hne].
    + intros [= <-]. split; [lia|]. split.
      * rewrite decide_True; [done|]. destruct Heq as [[= -> ->]|[= -> ->]]; [by right|by left].
      * destruct Heq as [[= -> ->]|[= -> ->]]; done.
    + intros Hv. destruct (Hw _ _ _ Hv) as (H1 & H2 & H3 & H4). split; [done|].
      split; [|done]. rewrite decide_False; [done|].
      intros [[= -> ->]|[= -> ->]]; apply Hne; [by right|by left].
Qed.

End cooccurrence_facts.

Module cooccurrence_theorems.
Import keyphrase_reranker reranker_spec cooccurrence_spec cooccurrence_facts preprocess_facts.

Section built.
Context `{Re}.
Variable stopwords : gset string.
Variable syntactic_filter : list string.
Variable pos_separator : string.
Variable window : Z.

(** The body of the innermost loop of [build_graph]. *)
Lemma cooccur_tallied toks pairs g a b :
  tallied syntactic_filter toks pairs g → a ∈ toks → b ∈ toks →
  ∃ g',
    (if has_node g a && has_node g b
     then (if negb (has_edge g a b) then Ok (add_edge g a b) else increment g a b)
     else Ok g) = Ok g'
    ∧ tallied syntactic_filter toks (pairs ++ [(a, b)]) g'.
Proof.
  intros (Hwf & Hnodes & Hpairs & Hweights) Ha Hb.
  assert (∀ a' b', (a', b') ∈ pairs ++ [(a, b)] → a' ∈ toks ∧ b' ∈ toks) as Hpairs'.
  { intros a' b' Hin. apply elem_of_app in Hin as [Hin|Hin]; [by apply Hpairs|].
    by apply list_elem_of_singleton in Hin as [= -> ->]. }
  unfold has_node, has_edge.
  destruct (decide (a ∈ nodes g ∧ b ∈ nodes g)) as [[Han Hbn]|Hnot].
  - rewrite !bool_decide_eq_true_2 by done. simpl.
    destruct (proj1 (Hnodes a) Han) as [Hfa _]. destruct (proj1 (Hnodes b) Hbn) as [Hfb _].
    pose proof Hwf as (_ & _ & _ & Hsym).
    assert (∀ u v, (u, v) = (a, b) ∨ (u, v) = (b, a) →
              in_filter syntactic_filter u.2 && in_filter syntactic_filter v.2 = true
              ∧ weights g !! (u, v) = weights g !! (a, b)) as Hsame.
    { intros u v [[= -> ->]|[= -> ->]]; (split; [by rewrite Hfa, Hfb|]); [done|].
      destruct (weights g !! (b, a)) as [w|] eqn:Hba.
      - by destruct (Hsym _ _ _ Hba) as (_ & -> & _).
      - destruct (weights g !! (a, b)) as [w|] eqn:Hab; [|done].
        destruct (Hsym _ _ _ Hab) as (_ & Hba' & _). congruence. }
    destruct (weights g !! (a, b)) as [w|] eqn:Hab.
    + rewrite bool_decide_eq_true_2 by (by eexists). simpl. unfold increment.
      rewrite Hab. simpl. eexists. split; [done|].
      split; [by apply increment_well_formed|]. split; [done|]. split; [done|].
      intros u v. simpl. rewrite sym_insert_lookup, joins_snoc.
      destruct (decide ((u, v) = (a, b) ∨ (u, v) = (b, a))) as [Heq|Hne].
      * destruct (Hsame u v Heq) as [Hf Hw]. specialize (Hweights u v).
        rewrite Hf in Hweights |- *. rewrite Hw in Hweights. simpl in *. lia.
      * rewrite Hweights. destruct (_ && _); [lia|done].
    + rewrite bool_decide_eq_false_2 by (by intros [? ?]). simpl.
      eexists. split; [done|].
      split; [by apply add_edge_well_formed|]. split; [done|]. split; [done|].
      intros u v. unfold add_edge. simpl. rewrite sym_insert_lookup, joins_snoc.
      destruct (decide ((u, v) = (a, b) ∨ (u, v) = (b, a))) as [Heq|Hne].
      * destruct (Hsame u v Heq) as [Hf Hw]. specialize (Hweights u v).
        rewrite Hf in Hweights |- *. rewrite Hw in Hweights. simpl in *. lia.
      * rewrite Hweights. destruct (_ && _); [lia|done].
  - assert (bool_decide (a ∈ nodes g) && bool_decide (b ∈ nodes g) = false) as ->.
    { apply andb_false_iff.
      destruct (decide (a ∈ nodes g)) as [Han|Han]; [right|left];
        apply bool_decide_eq_false_2; tauto. }
    exists g. split; [done|]. split; [done|]. split; [done|]. split; [done|].
    intros u v. rewrite Hweights, joins_snoc.
    destruct (in_filter syntactic_filter u.2 && in_filter syntactic_filter v.2) eqn:Hf; [|done].
    apply andb_true_iff in Hf as [Hfu Hfv].
    rewrite decide_False; [lia|]. intros Heq. apply Hnot.
    destruct Heq as [[= -> ->]|[= -> ->]]; split; apply Hnodes; done.
Qed.

Lemma link_tallied toks pairs sentence g j g' :
  tallied syntactic_filter toks pairs g → (∀ t, t ∈ sentence → t ∈ toks) →
  link window sentence g j = Ok g' →
  tallied syntactic_filter toks (pairs ++ pairs_from window sentence j) g'.
Proof.
  intros Ht Hsub Hlink. unfold link in Hlink.
  apply bind_Ok in Hlink as (a & Ha & Hlink). apply or_raise_Ok in Ha.
  unfold pairs_from. cbv zeta.
  set (ks := range _ _) in *.
  pose (pair := λ k, match sentence !! j, sentence !! k with
                     | Some a, Some b => [(a, b)]
                     | _, _ => []
                     end).
  change (tallied syntactic_filter toks (pairs ++ (ks ≫= pair)) g').
  refine (foldM_ghost (λ seen g, tallied syntactic_filter toks (pairs ++ (seen ≫= pair)) g)
            _ ks g g' _ _ Hlink).
  - intros seen k g1 g2 _ Hg1 Hstep.
    apply bind_Ok in Hstep as (b & Hb & Hstep). apply or_raise_Ok in Hb.
    destruct (cooccur_tallied toks _ g1 a b Hg1) as (g3 & Hg3 & Ht3).
    { apply Hsub. by eapply list_elem_of_lookup_2. }
    { apply Hsub. by eapply list_elem_of_lookup_2. }
    rewrite Hg3 in Hstep. injection Hstep as <-.
    rewrite bind_snoc, app_assoc.
    unfold pair at 2. by rewrite Ha, Hb.
  - simpl. by rewrite app_nil_r.
Qed.

Lemma links_tallied toks pairs sentence g g' :
  tallied syntactic_filter toks pairs g → (∀ t, t ∈ sentence → t ∈ toks) →
  foldM (link window sentence) (seq 0 (length sentence)) g = Ok g' →
  tallied syntactic_filter toks (pairs ++ window_pairs window sentence) g'.
Proof.
  intros Ht Hsub Hlinks. unfold window_pairs.
  refine (foldM_ghost (λ seen g, tallied syntactic_filter toks
                                   (pairs ++ (seen ≫= pairs_from window sentence)) g)
            _ _ g g' _ _ Hlinks).
  - intros seen j g1 g2 _ Hg1 Hstep.
    rewrite bind_snoc, app_assoc.
    by eapply link_tallied.
  - simpl. by rewrite app_nil_r.
Qed.

Lemma tag_word_tallied toks pairs st w st' :
  tallied syntactic_filter (toks ++ st.2) pairs st.1 →
  tag_word stopwords syntactic_filter pos_separator st w = Ok st' →
  tallied syntactic_filter (toks ++ st'.2) pairs st'.1.
Proof.
  destruct st as [g sentence]. simpl. intros (Hwf & Hnodes & Hpairs & Hweights) Htag.
  unfold tag_word in Htag. apply bind_Ok in Htag as ([word pos] & _ & Htag).
  injection Htag as <-. cbn [fst snd].
  set (t := if bool_decide (lower word ∈ stopwords)
            then (lower word, "STOPWORD") else (lower word, pos)).
  assert (∀ a b, (a, b) ∈ pairs → a ∈ toks ++ sentence ++ [t] ∧ b ∈ toks ++ sentence ++ [t])
    as Hpairs'.
  { intros a b Hin. destruct (Hpairs a b Hin). rewrite !app_assoc.
    split; apply elem_of_app; by left. }
  destruct (in_filter syntactic_filter t.2 && negb (has_node g t)) eqn:Hc.
  - apply andb_true_iff in Hc as [Hf Hn]. apply negb_true_iff in Hn.
    apply bool_decide_eq_false in Hn.
    split; [by apply add_node_well_formed|]. split; [|split; [done|done]].
    intros n. simpl. rewrite app_assoc, !elem_of_app, list_elem_of_singleton, Hnodes.
    rewrite elem_of_app. split; [|tauto]. intros [?| ->]; tauto.
  - split; [done|]. split; [|split; [done|done]].
    intros n. rewrite app_assoc, (elem_of_app _ [t]), list_elem_of_singleton, Hnodes.
    split; [tauto|]. intros [Hf [Hin| ->]]; [done|].
    rewrite Hf in Hc. simpl in Hc. apply negb_false_iff in Hc.
    apply bool_decide_eq_true in Hc. by apply Hnodes.
Qed.

(** One round of [build_graph]: the sentence at [i] becomes its tagged words. *)
Lemma build_sentence_tallied self_sentences h g i h' g' (done : list (list wnode)) rest :
  h !! self_sentences = Some ((VTagged <$> done) ++ rest) → length done = i →
  tallied syntactic_filter (mjoin done) (done ≫= window_pairs window) g →
  build_sentence stopwords syntactic_filter pos_separator window self_sentences (h, g) i
  = Ok (h', g') →
  ∃ sentence r rest',
    rest = r :: rest'
    ∧ h' !! self_sentences = Some ((VTagged <$> (done ++ [sentence])) ++ rest')
    ∧ tallied syntactic_filter (mjoin (done ++ [sentence]))
              ((done ++ [sentence]) ≫= window_pairs window) g'.
Proof.
  intros Hh Hlen Ht Hb. unfold build_sentence in Hb.
  apply bind_Ok in Hb as (s & Hs & Hb). apply bind_Ok in Hb as (h1 & Hh1 & Hb).
  apply bind_Ok in Hb as (s' & Hs' & Hb). apply bind_Ok in Hb as ([g1 sentence] & Htag & Hb).
  apply bind_Ok in Hb as (g2 & Hlinks & Hb). apply bind_Ok in Hb as (h2 & Hh2 & Hb).
  injection Hb as <- <-.
  apply store_Ok in Hh1 as (xs & Hxs & Hi & ->). rewrite Hh in Hxs. injection Hxs as <-.
  apply store_Ok in Hh2 as (xs & Hxs & _ & ->). rewrite lookup_insert_eq in Hxs.
  injection Hxs as <-. rewrite list_insert_insert_eq.
  destruct rest as [|r rest'].
  { rewrite app_nil_r, length_fmap in Hi. lia. }
  exists sentence, r, rest'. split; [done|]. split.
  - rewrite lookup_insert_eq. f_equal. rewrite fmap_app, <- app_assoc. simpl.
    rewrite <- Hlen, <- (length_fmap VTagged done).
    by rewrite (insert_app_r_alt _ _ _ _ (Nat.le_refl _)), Nat.sub_diag.
  - rewrite join_app, bind_snoc. simpl. rewrite app_nil_r.
    assert (tallied syntactic_filter (mjoin done ++ sentence)
                    (done ≫= window_pairs window) g1) as Ht1.
    { refine (foldM_invariant
                (λ st, tallied syntactic_filter (mjoin done ++ st.2)
                               (done ≫= window_pairs window) st.1)
                _ _ _ (g, []) (g1, sentence) _ Htag).
      - intros st w st' _. apply tag_word_tallied.
      - simpl. by rewrite app_nil_r. }
    eapply links_tallied; [exact Ht1| |exact Hlinks].
    intros t Hin. apply elem_of_app. by right.
Qed.

(** The graph and the sentences after [build_graph]. *)
Lemma build_graph_tallied self_sentences h h' g :
  build_graph stopwords syntactic_filter pos_separator window self_sentences h empty_graph
  = Ok (h', g) →
  ∃ sentences,
    h' !! self_sentences = Some (VTagged <$> sentences)
    ∧ tallied syntactic_filter (mjoin sentences) (sentences ≫= window_pairs window) g.
Proof.
  unfold build_graph. intros Hb. apply bind_Ok in Hb as (n & Hn & Hb).
  unfold list_len in Hn. apply bind_Ok in Hn as (xs & Hxs & Hn). apply or_raise_Ok in Hxs.
  injection Hn as <-.
  pose (P := λ (i : nat) (st : heap * Graph),
          ∃ (done : list (list wnode)) rest,
            st.1 !! self_sentences = Some ((VTagged <$> done) ++ rest)
            ∧ length done = i ∧ i + length rest = length xs
            ∧ tallied syntactic_filter (mjoin done) (done ≫= window_pairs window) st.2).
  assert (P (length xs) (h', g)) as (sentences & rest & Hh' & Hlen & Hrest & Ht).
  { refine (foldM_seq_invariant P _ (length xs) (h, empty_graph) (h', g) _ _ Hb).
    - intros i [h1 g1] [h2 g2] Hi (done & rest & Hh1 & Hlen & Hrest & Ht) Hstep.
      simpl in Hh1, Ht.
      destruct (build_sentence_tallied _ _ _ _ _ _ done rest Hh1 Hlen Ht Hstep)
        as (sentence & r & rest' & Hr & Hh2 & Ht2).
      exists (done ++ [sentence]), rest'. split; [done|].
      split; [rewrite length_app; simpl; lia|]. split; [|done].
      rewrite Hr in Hrest. simpl in Hrest. lia.
    - exists [], xs. split; [done|]. split; [done|]. split; [done|].
      split; [|split; [|split]].
      + split; [constructor|]. split; [|split].
        * intros n. simpl. rewrite lookup_empty, elem_of_nil. split; [by intros [? ?]|done].
        * intros u v. simpl. rewrite !lookup_empty. simpl. rewrite elem_of_nil.
          split; [done|by intros [? ?]].
        * intros u v w. simpl. by rewrite lookup_empty.
      + intros n. simpl. rewrite elem_of_nil. tauto.
      + intros a b Hin. by apply elem_of_nil in Hin.
      + intros u v. simpl. rewrite lookup_empty. simpl. by destruct (_ && _). }
  exists sentences. split; [|done].
  assert (rest = []) as -> by (destruct rest; [done|simpl in Hrest; lia]).
  by rewrite app_nil_r in Hh'.
Qed.

(** After [build_graph] the list of sentences holds the tagged sentences;
    the nodes of the graph are their words of a syntactic category of the
    filter, and the weight of an edge is the number of times its two words
    occur together in a window of a sentence; two words that never do have
    no edge. *)
Theorem build_graph_cooccurrences self_sentences h h' g :
  build_graph stopwords syntactic_filter pos_separator window self_sentences h empty_graph
  = Ok (h', g) →
  ∃ sentences,
    h' !! self_sentences = Some (VTagged <$> sentences)
    ∧ NoDup (nodes g)
    ∧ (∀ n, n ∈ nodes g ↔
            in_filter syntactic_filter n.2 = true ∧ ∃ s, s ∈ sentences ∧ n ∈ s)
    ∧ (∀ u v, u ∈ nodes g → v ∈ nodes g →
         weights g !! (u, v)
         = if decide (cooccurrences window sentences u v = 0) then None
           else Some (cooccurrences window sentences u v))
    ∧ (∀ u v, is_Some (weights g !! (u, v)) → u ∈ nodes g ∧ v ∈ nodes g).
Proof.
  intros Hb. destruct (build_graph_tallied _ _ _ _ Hb)
    as (sentences & Hh' & (Hnd & Hadj & Hedge & Hw) & Hnodes & _ & Hweights).
  exists sentences. split; [done|]. split; [done|]. split; [|split].
  - intros n. rewrite Hnodes, list_elem_of_join. split.
    + intros [Hf (s & Hn & Hs)]. eauto.
    + intros [Hf (s & Hs & Hn)]. eauto.
  - intros u v Hu Hv. specialize (Hweights u v).
    destruct (proj1 (Hnodes u) Hu) as [Hfu _]. destruct (proj1 (Hnodes v) Hv) as [Hfv _].
    rewrite Hfu, Hfv in Hweights. simpl in Hweights. unfold cooccurrences.
    destruct (weights g !! (u, v)) as [w|] eqn:Huv; simpl in Hweights.
    + destruct (Hw _ _ _ Huv) as (Hpos & _). rewrite <- Hweights.
      rewrite decide_False by lia. done.
    + rewrite <- Hweights. by rewrite decide_True.
  - intros u v [w Huv]. destruct (Hw _ _ _ Huv) as (_ & _ & Hu & Hv). done.
Qed.

End built.
End cooccurrence_theorems.

(** ** TextRank on the co-occurrence graph *)

Module textrank_theorems.
Import keyphrase_reranker reranker_spec cooccurrence_spec cooccurrence_facts
  cooccurrence_theorems.

Lemma joins_pos u v (pairs : list (wnode * wnode)) :
  0 < joins u v pairs ↔ ∃ p, p ∈ pairs ∧ (p = (u, v) ∨ p = (v, u)).
Proof.
  unfold joins. split.
  - intros Hlen. destruct (filter _ pairs) as [|p l] eqn:Hf; [simpl in Hlen; lia|].
    assert (p ∈ filter (λ p, p = (u, v) ∨ p = (v, u)) pairs) as Hin
      by (rewrite Hf; by left).
    apply list_elem_of_filter in Hin as [Hm Hin]. by exists p.
  - intros (p & Hp & Hm).
    assert (p ∈ filter (λ p, p = (u, v) ∨ p = (v, u)) pairs) as Hin
      by (by apply list_elem_of_filter).
    destruct (filter _ pairs); [by apply elem_of_nil in Hin|simpl; lia].
Qed.

(** The pairs of a sentence are the words at two positions less than
    [max_window] apart. *)
Lemma window_pairs_elem (window : Z) (sentence : list wnode) a b :
  (a, b) ∈ window_pairs window sentence ↔
  ∃ j k, j < k
    ∧ (Z.of_nat k < Z.of_nat j
                    + (if (window <? 1)%Z then Z.of_nat (length sentence) else window))%Z
    ∧ sentence !! j = Some a ∧ sentence !! k = Some b.
Proof.
  unfold window_pairs, pairs_from, range. rewrite list_elem_of_bind. split.
  - intros (j & Hin & Hj). apply list_elem_of_bind in Hin as (k & Hin & Hk).
    apply elem_of_seq in Hj, Hk.
    destruct (sentence !! j) as [a'|] eqn:Ha; [|by apply elem_of_nil in Hin].
    destruct (sentence !! k) as [b'|] eqn:Hb; [|by apply elem_of_nil in Hin].
    apply list_elem_of_singleton in Hin as [= -> ->].
    exists j, k. split; [lia|]. split; [lia|done].
  - intros (j & k & Hjk & Hk & Ha & Hb). exists j.
    pose proof (lookup_lt_Some _ _ _ Ha). pose proof (lookup_lt_Some _ _ _ Hb).
    split; [|apply elem_of_seq; lia].
    apply list_elem_of_bind. exists k. rewrite Ha, Hb.
    split; [by left|]. apply elem_of_seq. lia.
Qed.

Section edges.
Context `{Re}.
Variable stopwords : gset string.
Variable syntactic_filter : list string.
Variable pos_separator : string.
Variable window : Z.

(** Two words are joined by an edge exactly when both are of a syntactic
    category of the filter and a sentence has them at two positions
    [j < k < j + max_window], where [max_window] is the length of the
    sentence when [window < 1]. *)
Theorem cooccurrence_edges_window self_sentences h h' g :
  build_graph stopwords syntactic_filter pos_separator window self_sentences h empty_graph
  = Ok (h', g) →
  ∃ sentences,
    h' !! self_sentences = Some (VTagged <$> sentences)
    ∧ ∀ u v,
        has_edge g u v = true ↔
        in_filter syntactic_filter u.2 = true ∧ in_filter syntactic_filter v.2 = true
        ∧ ∃ s j k,
            s ∈ sentences ∧ j < k
            ∧ (Z.of_nat k < Z.of_nat j
                            + (if (window <? 1)%Z then Z.of_nat (length s) else window))%Z
            ∧ ((s !! j = Some u ∧ s !! k = Some v) ∨ (s !! j = Some v ∧ s !! k = Some u)).
Proof.
  intros Hb. destruct (build_graph_tallied _ _ _ _ _ _ _ _ Hb)
    as (sentences & Hh' & (_ & _ & _ & Hw) & _ & _ & Hweights).
  exists sentences. split; [done|]. intros u v. unfold has_edge.
  rewrite bool_decide_eq_true. specialize (Hweights u v).
  assert (is_Some (weights g !! (u, v)) ↔
          in_filter syntactic_filter u.2 = true ∧ in_filter syntactic_filter v.2 = true
          ∧ 0 < joins u v (sentences ≫= window_pairs window)) as ->.
  { split.
    - intros [w Huv]. rewrite Huv in Hweights. simpl in Hweights.
      destruct (Hw _ _ _ Huv) as (Hpos & _).
      destruct (in_filter syntactic_filter u.2); [|simpl in Hweights; lia].
      destruct (in_filter syntactic_filter v.2); [|simpl in Hweights; lia].
      simpl in Hweights. split; [done|]. split; [done|]. lia.
    - intros (Hfu & Hfv & Hpos). rewrite Hfu, Hfv in Hweights. simpl in Hweights.
      destruct (weights g !! (u, v)); [done|]. simpl in Hweights. lia. }
  rewrite joins_pos. do 2 (apply and_iff_compat_l). split.
  - intros ([a b] & Hin & Hm). apply list_elem_of_bind in Hin as (s & Hin & Hs).
    apply window_pairs_elem in Hin as (j & k & Hjk & Hk & Ha & Hb').
    exists s, j, k. split; [done|]. split; [done|]. split; [done|].
    destruct Hm as [[= -> ->]|[= -> ->]]; [by left|by right].
  - intros (s & j & k & Hs & Hjk & Hk & Hm).
    destruct Hm as [[Ha Hb']|[Ha Hb']].
    + exists (u, v). split; [|by left]. apply list_elem_of_bind. exists s.
      split; [|done]. apply window_pairs_elem. by exists j, k.
    + exists (v, u). split; [|by right]. apply list_elem_of_bind. exists s.
      split; [|done]. apply window_pairs_elem. by exists j, k.
Qed.

End edges.

(** *** TextRank on the co-occurrence graph *)

Lemma foldM_progress_invariant {A S} (I : S → Prop) (f : S → A → result S)
    (l : list A) (s : S) :
  (∀ s x, x ∈ l → I s → ∃ s', f s x = Ok s' ∧ I s') →
  I s → ∃ s', foldM f l s = Ok s' ∧ I s'.
Proof.
  revert s. induction l as [|x l IH]; intros s Hstep Hs; simpl; [by exists s|].
  destruct (Hstep s x) as (s1 & -> & Hs1); [by left|done|]. simpl.
  apply IH; [|done]. intros s0 y Hy. apply Hstep. by right.
Qed.

Lemma initial_scores_spec (graph_nodes : list wnode) n :
  initial_scores graph_nodes !! n = if decide (n ∈ graph_nodes) then Some 1%Q else None.
Proof.
  unfold initial_scores.
  assert (∀ (l : list wnode) (m : gmap wnode Q),
            foldl (λ word_scores node, <[node := 1%Q]> word_scores) m l !! n
            = if decide (n ∈ l) then Some 1%Q else m !! n) as Hgen.
  { induction l as [|x l IH]; intros m; simpl; [done|]. rewrite IH.
    destruct (decide (n ∈ l)) as [Hin|Hin].
    - rewrite decide_True; [done|by right].
    - destruct (decide (n = x)) as [->|Hne].
      + rewrite lookup_insert_eq. rewrite decide_True; [done|by left].
      + rewrite lookup_insert_ne by done. rewrite decide_False; [done|].
        intros Hc. apply elem_of_cons in Hc as [?|?]; done. }
  rewrite Hgen. by destruct (decide _).
Qed.

Section TextRank.
Variable g : Graph.
Variable d : Q.
Variable f_conv : Q.
Hypothesis graph_well_formed : well_formed g.
Hypothesis d_nonneg : (0 <= d)%Q.
Hypothesis d_le_one : (d <= 1)%Q.

(** The scores of the nodes, and of them only, none below [1 - d]. *)
Let scored (word_scores : gmap wnode Q) : Prop :=
  ∀ n, (n ∈ nodes g ↔ is_Some (word_scores !! n))
       ∧ ∀ s, word_scores !! n = Some s → (1 - d <= s)%Q.

Lemma one_minus_d : (0 <= 1 - d)%Q.
Proof. unfold Qminus. rewrite <- (Qplus_opp_r d). apply Qplus_le_compat; [done|apply Qle_refl]. Qed.

Lemma weights_sum node_j ks a :
  (∀ k, k ∈ ks → is_Some (weights g !! (node_j, k))) →
  ∃ t, foldM (λ sum_wjk node_k, w ← edge_weight g node_j node_k; Ok (sum_wjk + w)%Q) ks a
       = Ok t
       ∧ (a + inject_Z (Z.of_nat (length ks)) <= t)%Q.
Proof.
  destruct graph_well_formed as (_ & _ & _ & Hw).
  revert a. induction ks as [|k ks IH]; intros a Hks; simpl.
  { exists a. split; [done|]. rewrite Qplus_0_r. apply Qle_refl. }
  destruct (Hks k) as [w Hk]; [by left|].
  assert (edge_weight g node_j k = Ok (inject_Z (Z.of_nat w))) as ->
    by (unfold edge_weight; by rewrite Hk).
  simpl.
  destruct (IH (a + inject_Z (Z.of_nat w))%Q) as (t & Ht & Hle).
  { intros k' Hk'. apply Hks. by right. }
  exists t. split; [done|]. eapply Qle_trans; [|exact Hle].
  destruct (Hw _ _ _ Hk) as (Hpos & _).
  rewrite <- Qplus_assoc. apply Qplus_le_compat; [apply Qle_refl|].
  rewrite <- inject_Z_plus. rewrite <- Zle_Qle. lia.
Qed.

Lemma add_vote_Ok current node_i sum_Vj node_j :
  scored current → node_j ∈ default [] (adj g !! node_i) → (0 <= sum_Vj)%Q →
  ∃ sum', add_vote (neighbors g) (edge_weight g) current node_i sum_Vj node_j = Ok sum'
          ∧ (0 <= sum')%Q.
Proof.
  intros Hcur Hj Hsum. pose proof graph_well_formed as (_ & Hadj & Hedge & Hw).
  apply Hedge in Hj as [w Hij]. destruct (Hw _ _ _ Hij) as (Hpos & Hji & Hi & Hjn).
  destruct (Hcur node_j) as [Hkey Hlow]. destruct (proj1 Hkey Hjn) as [s Hs].
  destruct (proj2 (Hadj node_j) Hjn) as [ks Hks].
  assert (edge_weight g node_j node_i = Ok (inject_Z (Z.of_nat w))) as Hwji
    by (unfold edge_weight; by rewrite Hji).
  assert (neighbors g node_j = Ok ks) as Hnb by (unfold neighbors; by rewrite Hks).
  unfold add_vote. rewrite Hwji, Hs, Hnb. simpl.
  destruct (weights_sum node_j ks 0) as (t & -> & Ht).
  { intros k Hk. apply Hedge. by rewrite Hks. }
  simpl. assert (1 <= t)%Q as Ht1.
  { eapply Qle_trans; [|exact Ht]. rewrite Qplus_0_l.
    assert (node_i ∈ ks) as Hin.
    { specialize (Hedge node_j node_i). rewrite Hks in Hedge. apply Hedge. by eexists. }
    change 1%Q with (inject_Z 1). rewrite <- Zle_Qle.
    destruct ks; [by apply elem_of_nil in Hin|simpl; lia]. }
  unfold qdiv. destruct (Qeq_bool t 0) eqn:Hz.
  { apply Qeq_bool_iff in Hz. rewrite Hz in Ht1. done. }
  simpl. eexists. split; [done|].
  rewrite <- (Qplus_0_r 0). apply Qplus_le_compat; [done|].
  apply Qle_shift_div_l; [eapply Qlt_le_trans; [|exact Ht1]; done|].
  rewrite Qmult_0_l. apply Qmult_le_0_compat.
  - change 0%Q with (inject_Z 0). rewrite <- Zle_Qle. lia.
  - eapply Qle_trans; [apply one_minus_d|]. by apply Hlow.
Qed.

Lemma update_node_Ok current st node_i :
  scored current → scored st.1 → node_i ∈ nodes g →
  ∃ st', update_node (neighbors g) (edge_weight g) d current st node_i = Ok st'
         ∧ scored st'.1.
Proof.
  intros Hcur Hst Hi. pose proof graph_well_formed as (_ & Hadj & _).
  destruct (proj2 (Hadj node_i) Hi) as [js Hjs].
  assert (neighbors g node_i = Ok js) as Hnb by (unfold neighbors; by rewrite Hjs).
  unfold update_node. rewrite Hnb. cbn [mbind result_bind].
  destruct (foldM_progress_invariant (λ s, (0 <= s)%Q)
              (add_vote (neighbors g) (edge_weight g) current node_i) js 0%Q)
    as (sum_Vj & -> & Hsum); [|done|].
  { intros s j Hj Hs. apply add_vote_Ok; [done| |done]. by rewrite Hjs. }
  cbn [mbind result_bind fst]. rewrite lookup_insert_eq. cbn [mbind result_bind or_raise].
  destruct (Hcur node_i) as [Hkey _]. destruct (proj1 Hkey Hi) as [old ->].
  cbn [mbind result_bind or_raise].
  eexists. split; [done|]. simpl. intros n. destruct (Hst n) as [Hkeys Hlow].
  destruct (decide (n = node_i)) as [->|Hne].
  - rewrite lookup_insert_eq. split; [split; [by eexists|done]|].
    intros s [= <-]. rewrite <- (Qplus_0_r (1 - d)) at 1.
    apply Qplus_le_compat; [apply Qle_refl|]. by apply Qmult_le_0_compat.
  - rewrite lookup_insert_ne by done. done.
Qed.

Lemma sweep_Ok st :
  scored st.1 →
  ∃ st', sweep (nodes g) (neighbors g) (edge_weight g) d st = Ok st' ∧ scored st'.1.
Proof.
  intros Hst. unfold sweep.
  apply (foldM_progress_invariant (λ s, scored s.1)); [|done].
  intros s n Hn Hs. by apply update_node_Ok.
Qed.

Lemma rank_loop_safe fuel st :
  scored st.1 →
  (∃ st', rank_loop (nodes g) (neighbors g) (edge_weight g) d f_conv fuel st = Ok st'
          ∧ scored st'.1)
  ∨ rank_loop (nodes g) (neighbors g) (edge_weight g) d f_conv fuel st = Raise OutOfFuel.
Proof.
  revert st. induction fuel as [|fuel IH]; intros st Hst; simpl.
  - destruct (unstable f_conv st); [by right|]. left. by exists st.
  - destruct (unstable f_conv st); [|left; by exists st].
    destruct (sweep_Ok st Hst) as (st1 & -> & Hst1). simpl. by apply IH.
Qed.

Lemma textrank_safe fuel :
  (∃ word_scores,
     undirected_TextRank (nodes g) (neighbors g) (edge_weight g) d f_conv fuel
     = Ok word_scores
     ∧ ∀ n, (n ∈ nodes g ↔ is_Some (word_scores !! n))
            ∧ ∀ s, word_scores !! n = Some s → (1 - d <= s)%Q)
  ∨ undirected_TextRank (nodes g) (neighbors g) (edge_weight g) d f_conv fuel
    = Raise OutOfFuel.
Proof.
  unfold undirected_TextRank.
  destruct (rank_loop_safe fuel (initial_scores (nodes g), f_conv))
    as [(st & -> & Hst)| ->]; [|left; by exists st.1|by right].
  intros n. simpl. rewrite initial_scores_spec. destruct (decide (n ∈ nodes g)).
  - split; [split; [by eexists|done]|]. intros s [= <-].
    rewrite <- (Qplus_0_r 1) at 2. apply Qplus_le_compat; [apply Qle_refl|].
    rewrite <- (Qopp_involutive 0). apply Qopp_le_compat. done.
  - split; [split; [done|by intros [? ?]]|done].
Qed.

End TextRank.

Section built.
Context `{Re}.
Variable stopwords : gset string.
Variable syntactic_filter : list string.
Variable pos_separator : string.
Variable window : Z.

(** On the graph [build_graph] makes, [undirected_TextRank] raises no
    exception of Python: no [KeyError], no [ZeroDivisionError].  When its
    loop ends every node of the graph has a score, no other word has one,
    and no score is below [1 - d]. *)
Theorem textrank_on_built_graph self_sentences h h' g d f_conv fuel :
  build_graph stopwords syntactic_filter pos_separator window self_sentences h empty_graph
  = Ok (h', g) →
  (0 <= d)%Q → (d <= 1)%Q →
  (∃ word_scores,
     undirected_TextRank (nodes g) (neighbors g) (edge_weight g) d f_conv fuel
     = Ok word_scores
     ∧ ∀ n, (n ∈ nodes g ↔ is_Some (word_scores !! n))
            ∧ ∀ s, word_scores !! n = Some s → (1 - d <= s)%Q)
  ∨ undirected_TextRank (nodes g) (neighbors g) (edge_weight g) d f_conv fuel
    = Raise OutOfFuel.
Proof.
  intros Hb Hd0 Hd1.
  destruct (build_graph_tallied _ _ _ _ _ _ _ _ Hb) as (sentences & _ & Hwf & _).
  by apply textrank_safe.
Qed.

End built.
End textrank_theorems.

(** ** Scores, clusters and redundancy *)

Module rerank_facts.
Import keyphrase_reranker reranker_spec cluster_facts exception_facts bisect_facts search_spec.

(** *** Sorting by score *)

Lemma insert_desc_score {A} (key : A → Q) (x : A) (l : list A) :
  StronglySorted (λ a b, (key b <= key a)%Q) l →
  insert_desc Qle_bool key x l ≡ₚ x :: l
  ∧ StronglySorted (λ a b, (key b <= key a)%Q) (insert_desc Qle_bool key x l).
Proof.
  induction l as [|y l IH]; intros Hs; simpl.
  - split; [done|]. repeat constructor.
  - inversion Hs as [|? ? Hl Hy]; subst.
    destruct (Qle_bool (key y) (key x)) eqn:Hle.
    + apply Qle_bool_iff in Hle. split; [done|]. constructor; [done|].
      constructor; [done|]. eapply Forall_impl; [exact Hy|]. simpl.
      intros z Hz. by eapply Qle_trans.
    + assert (key x <= key y)%Q as Hxy.
      { destruct (Qlt_le_dec (key x) (key y)) as [Hlt|Hge]; [by apply Qlt_le_weak|].
        apply Qle_bool_iff in Hge. congruence. }
      destruct (IH Hl) as [Hp Hs']. split.
      * rewrite Hp. apply perm_swap.
      * constructor; [done|]. rewrite Hp. by constructor.
Qed.

Lemma sorted_desc_score {A} (key : A → Q) (l : list A) :
  sorted_desc Qle_bool key l ≡ₚ l
  ∧ StronglySorted (λ a b, (key b <= key a)%Q) (sorted_desc Qle_bool key l).
Proof.
  unfold sorted_desc. induction l as [|x l [Hp Hs]]; simpl.
  - split; [done|constructor].
  - destruct (insert_desc_score key x _ Hs) as [Hp' Hs']. split; [|done].
    by rewrite Hp', Hp.
Qed.

Lemma StronglySorted_lookup_lt {A} (R : relation A) (l : list A) i j x y :
  StronglySorted R l → i < j → l !! i = Some x → l !! j = Some y → R x y.
Proof.
  intros Hs Hij Hi Hj. rewrite <- (take_drop j l) in Hs.
  eapply (StronglySorted_app_1_elem_of _ _ _ x y) in Hs; [done| |].
  - apply elem_of_take. exists i. by split.
  - apply list_elem_of_lookup. exists 0. rewrite lookup_drop. by rewrite Nat.add_0_r.
Qed.

(** The scores looked up for a list of keyphrases. *)
Lemma scored_spec (keyphrase_scores : list (string * Q)) (l : list string) scored :
  mapM (λ k, s ← dict_get keyphrase_scores k; Ok (k, s)) l = Ok scored →
  scored.*1 = l ∧ Forall (λ p, dict_get keyphrase_scores p.1 = Ok p.2) scored.
Proof.
  revert scored. induction l as [|k l IH]; intros scored Hm; simpl in Hm.
  - by inv_result.
  - inv_result. destruct (IH _ Ha0) as [<- Hall]. simpl. split; [done|].
    by constructor.
Qed.

Lemma dict_get_Ok {V} (d : list (string * V)) k :
  k ∈ d.*1 → ∃ v, dict_get d k = Ok v.
Proof.
  intros Hk. apply list_elem_of_fmap in Hk as ([k' v] & -> & Hin). unfold dict_get.
  destruct (list_find _ d) as [[i [k0 v0]]|] eqn:Hf; [by eexists|].
  exfalso. eapply list_find_None in Hf. eapply Forall_forall in Hf; [|exact Hin]. done.
Qed.

Lemma dict_get_elem {V} (d : list (string * V)) k v :
  dict_get d k = Ok v → (k, v) ∈ d.
Proof.
  unfold dict_get.
  destruct (list_find _ d) as [[i [k0 v0]]|] eqn:Hf; [|done].
  intros [= ->]. apply list_find_Some in Hf as (Hl & Hk & _). simpl in Hk. subst k0.
  by eapply list_elem_of_lookup_2.
Qed.

Lemma scored_Ok (keyphrase_scores : list (string * Q)) (l : list string) :
  (∀ k, k ∈ l → k ∈ keyphrase_scores.*1) →
  ∃ scored, mapM (λ k, s ← dict_get keyphrase_scores k; Ok (k, s)) l = Ok scored.
Proof.
  induction l as [|k l IH]; intros Hl; simpl; [by eexists|].
  destruct (dict_get_Ok keyphrase_scores k) as [v ->]; [apply Hl; by left|].
  destruct IH as [scored ->]; [intros; apply Hl; by right|]. simpl. by eexists.
Qed.

(** *** The substring test *)

Lemma prefix_refl (a : string) : String.prefix a a = true.
Proof.
  induction a as [|c a IH]; simpl; [done|]. by destruct (Ascii.ascii_dec c c).
Qed.

Lemma is_substring_refl (a : string) : is_substring a a = true.
Proof. destruct a; cbn [is_substring]; by rewrite prefix_refl. Qed.

(** *** The last loop of [cluster_keyphrase_candidates] *)

Lemma drop_redundant_snoc l k :
  drop_redundant (l ++ [k])
  = if existsb (is_substring k) (drop_redundant l)
    then drop_redundant l else drop_redundant l ++ [k].
Proof. unfold drop_redundant. by rewrite foldl_snoc. Qed.

Lemma drop_redundant_elem l a : a ∈ drop_redundant l → a ∈ l.
Proof.
  induction l as [|k l IH] using rev_ind; [done|].
  rewrite drop_redundant_snoc. destruct (existsb _ _).
  - intros Ha. apply elem_of_app. left. by apply IH.
  - intros Ha. apply elem_of_app in Ha as [Ha|Ha]; apply elem_of_app; [left|right]; auto.
Qed.

Lemma drop_redundant_head l : head (drop_redundant l) = head l.
Proof.
  induction l as [|k l IH] using rev_ind; [done|].
  rewrite drop_redundant_snoc. destruct l as [|x l].
  { done. }
  destruct (drop_redundant (x :: l)) as [|y dr] eqn:Hdr; [done|].
  simpl in *. by destruct (_ || _).
Qed.

Lemma existsb_substring k (l : list string) :
  existsb (is_substring k) l = true ↔ ∃ a, a ∈ l ∧ is_substring k a = true.
Proof.
  rewrite existsb_exists. split; intros (a & Ha & Hs); exists a; split; try done;
    by apply list_elem_of_In.
Qed.


(** A kept keyphrase that is contained in another kept one comes first. *)
Lemma drop_redundant_order l a b :
  a ∈ drop_redundant l → b ∈ drop_redundant l → a ≠ b → is_substring a b = true →
  ∃ i j, i < j ∧ l !! i = Some a ∧ l !! j = Some b.
Proof.
  induction l as [|k l IH] using rev_ind; [intros Ha; by apply elem_of_nil in Ha|].
  rewrite drop_redundant_snoc.
  assert (a ∈ drop_redundant l → b ∈ drop_redundant l → a ≠ b → is_substring a b = true →
          ∃ i j, i < j ∧ (l ++ [k]) !! i = Some a ∧ (l ++ [k]) !! j = Some b) as Hold.
  { intros Ha Hb Hne Hs. destruct (IH Ha Hb Hne Hs) as (i & j & Hij & Hi & Hj).
    exists i, j. split; [done|]. split; by apply lookup_app_l_Some. }
  destruct (existsb (is_substring k) (drop_redundant l)) eqn:He; [done|].
  intros Ha Hb Hne Hs.
  apply elem_of_app in Ha as [Ha|Ha]; apply elem_of_app in Hb as [Hb|Hb].
  - by apply Hold.
  - apply list_elem_of_singleton in Hb as ->.
    apply drop_redundant_elem in Ha. apply list_elem_of_lookup in Ha as [i Hi].
    exists i, (length l). split; [by apply lookup_lt_Some in Hi|].
    split; [by apply lookup_app_l_Some|]. by rewrite list_lookup_middle.
  - apply list_elem_of_singleton in Ha as ->. exfalso.
    assert (existsb (is_substring k) (drop_redundant l) = true) as Ht
      by (apply existsb_substring; by exists b).
    congruence.
  - apply list_elem_of_singleton in Ha as ->. by apply list_elem_of_singleton in Hb.
Qed.

(** *** The clusters *)

Lemma place_spec clusters keyphrase :
  place clusters keyphrase
  = ((λ e, (e.1, if covers e.1 keyphrase then e.2 ++ [keyphrase] else e.2)) <$> clusters)
    ++ (if existsb (λ e, covers e.1 keyphrase) clusters then []
        else [(keyphrase, [keyphrase])]).
Proof.
  unfold place. rewrite join_clusters_spec.
  destruct (existsb _ clusters) eqn:He; [by rewrite app_nil_r|].
  apply dict_set_fresh. apply not_covered_not_key in He.
  by rewrite <- list_fmap_compose.
Qed.

(** The clusters after the keyphrases [done]. *)
Lemma clusters_spec (done : list string) :
  let clusters := foldl place [] done in
  NoDup clusters.*1
  ∧ (∀ c ms, (c, ms) ∈ clusters →
       head ms = Some c ∧ c ∈ done ∧ ∀ m, m ∈ ms → m ∈ done ∧ covers c m = true)
  ∧ (∀ k, k ∈ done → ∃ c ms, (c, ms) ∈ clusters ∧ k ∈ ms).
Proof.
  induction done as [|k done IH] using rev_ind; cbv zeta.
  { simpl. split; [constructor|]. split; [intros c ms Hc; by apply elem_of_nil in Hc|].
    intros k Hk. by apply elem_of_nil in Hk. }
  rewrite foldl_snoc. cbv zeta in IH. destruct IH as (Hnd & Hmem & Hall).
  set (clusters := foldl place [] done) in *. rewrite place_spec.
  set (joined := (λ e : string * list string,
                    (e.1, if covers e.1 k then e.2 ++ [k] else e.2)) <$> clusters).
  assert (joined.*1 = clusters.*1) as Hkeys.
  { unfold joined. by rewrite <- list_fmap_compose. }
  assert (∀ c ms, (c, ms) ∈ joined →
            head ms = Some c ∧ c ∈ done ++ [k]
            ∧ ∀ m, m ∈ ms → m ∈ done ++ [k] ∧ covers c m = true) as Hjoined.
  { intros c ms Hc. apply list_elem_of_fmap in Hc as ([c0 ms0] & [= -> ->] & Hin).
    destruct (Hmem c0 ms0 Hin) as (Hhead & Hc0 & Hms). simpl.
    split; [|split; [apply elem_of_app; by left|]].
    - destruct (covers c0 k); [|done]. by destruct ms0.
    - intros m Hm. destruct (covers c0 k) eqn:Hcov.
      + apply elem_of_app in Hm as [Hm|Hm].
        * destruct (Hms m Hm). split; [apply elem_of_app; by left|done].
        * apply list_elem_of_singleton in Hm as ->.
          split; [apply elem_of_app; right; by left|done].
      + destruct (Hms m Hm). split; [apply elem_of_app; by left|done]. }
  assert (∀ k', k' ∈ done → ∃ c ms, (c, ms) ∈ joined ∧ k' ∈ ms) as Hold.
  { intros k' Hk'. destruct (Hall k' Hk') as (c & ms & Hin & Hm).
    exists c, (if covers c k then ms ++ [k] else ms). split.
    - apply list_elem_of_fmap. by exists (c, ms).
    - destruct (covers c k); [apply elem_of_app; by left|done]. }
  destruct (existsb (λ e : string * list string, covers e.1 k) clusters) eqn:He.
  - rewrite app_nil_r. split; [by rewrite Hkeys|]. split; [done|].
    intros k' Hk'. apply elem_of_app in Hk' as [Hk'|Hk']; [by apply Hold|].
    apply list_elem_of_singleton in Hk' as ->.
    apply existsb_exists in He as ([c ms] & Hin & Hcov). apply list_elem_of_In in Hin.
    simpl in Hcov. exists c, (ms ++ [k]). split.
    + apply list_elem_of_fmap. exists (c, ms). simpl. by rewrite Hcov.
    + apply elem_of_app. right. by left.
  - split; [|split].
    + rewrite fmap_app, Hkeys. apply NoDup_app. split; [done|]. split; [|by apply NoDup_singleton].
      intros x Hx Hx'. apply list_elem_of_singleton in Hx' as ->.
      by apply not_covered_not_key in He.
    + intros c ms Hc. apply elem_of_app in Hc as [Hc|Hc]; [by apply Hjoined|].
      apply list_elem_of_singleton in Hc as [= -> ->]. split; [done|].
      split; [apply elem_of_app; right; by left|].
      intros m Hm. apply list_elem_of_singleton in Hm as ->.
      split; [apply elem_of_app; right; by left|apply covers_refl].
    + intros k' Hk'. apply elem_of_app in Hk' as [Hk'|Hk'].
      * destruct (Hold k' Hk') as (c & ms & Hin & Hm). exists c, ms.
        split; [apply elem_of_app; by left|done].
      * apply list_elem_of_singleton in Hk' as ->. exists k, [k].
        split; [apply elem_of_app; right; by left|by left].
Qed.

Lemma descending_elem (keyphrase_candidates : list (string * list wnode)) k :
  k ∈ descending keyphrase_candidates ↔ k ∈ keyphrase_candidates.*1.
Proof.
  unfold descending.
  destruct (sorted_desc_spec (λ e : string * list wnode, length e.2) keyphrase_candidates)
    as [Hp _].
  by rewrite Hp.
Qed.

(** The clusters cover the candidates: the keys of the clusters are
    distinct candidates; the members of a cluster are candidates whose
    words are all words of its key, the key itself first; and every
    candidate is a member of a cluster. *)
Theorem make_clusters_cover (keyphrase_candidates : list (string * list wnode)) :
  NoDup (make_clusters keyphrase_candidates).*1
  ∧ (∀ c ms, (c, ms) ∈ make_clusters keyphrase_candidates →
       head ms = Some c ∧ c ∈ keyphrase_candidates.*1
       ∧ ∀ m, m ∈ ms → m ∈ keyphrase_candidates.*1 ∧ covers c m = true)
  ∧ (∀ k, k ∈ keyphrase_candidates.*1 →
       ∃ c ms, (c, ms) ∈ make_clusters keyphrase_candidates ∧ k ∈ ms).
Proof.
  unfold make_clusters.
  destruct (clusters_spec (descending keyphrase_candidates)) as (Hnd & Hmem & Hall).
  split; [done|]. split.
  - intros c ms Hc. destruct (Hmem c ms Hc) as (Hhead & Hkey & Hms).
    split; [done|]. split; [by apply descending_elem|].
    intros m Hm. destruct (Hms m Hm). split; [by apply descending_elem|done].
  - intros k Hk. apply Hall. by apply descending_elem.
Qed.

End rerank_facts.

Module cluster_theorems.
Import keyphrase_reranker reranker_spec cluster_facts exception_facts rerank_facts.

Lemma best_candidates_Ok (keyphrase_scores : list (string * Q))
    (clusters : list (string * list string)) :
  (∀ c ms, (c, ms) ∈ clusters → ms ≠ [] ∧ ∀ m, m ∈ ms → m ∈ keyphrase_scores.*1) →
  ∃ best, best_candidates keyphrase_scores clusters = Ok best
          ∧ Forall2 (λ e b, b ∈ e.2) clusters best.
Proof.
  unfold best_candidates.
  induction clusters as [|[c ms] clusters IH]; intros Hc; simpl.
  { exists []. split; [done|constructor]. }
  destruct (Hc c ms) as [Hne Hms]; [by left|].
  destruct (scored_Ok keyphrase_scores ms Hms) as [scored Hscored]. rewrite Hscored. simpl.
  destruct (scored_spec _ _ _ Hscored) as [Hfst _].
  destruct (sorted_desc_score snd scored) as [Hp _].
  destruct (sorted_desc Qle_bool snd scored) as [|[b sb] sorted] eqn:Hsd.
  { symmetry in Hp. apply Permutation_nil_r in Hp. subst scored. by destruct ms. }
  simpl. destruct IH as (best & -> & Hall).
  { intros c' ms' Hin. apply (Hc c' ms'). by right. }
  simpl. exists (b :: best). split; [done|]. constructor; [|done]. simpl.
  rewrite <- Hfst. apply list_elem_of_fmap. exists (b, sb). split; [done|].
  rewrite <- Hp. by left.
Qed.

Lemma filter_keys {V} (P : string → Prop) `{∀ k, Decision (P k)} (d : list (string * V)) :
  (filter (λ e : string * V, P e.1) d).*1 = filter P d.*1.
Proof.
  induction d as [|[k v] d IH]; [done|]. rewrite fmap_cons, !filter_cons. cbn [fst].
  destruct (decide (P k)); [rewrite fmap_cons|]; by rewrite IH.
Qed.

(** The steps of [cluster_keyphrase_candidates] when every candidate has
    a score. *)
Lemma cluster_Ok (keyphrase_candidates : list (string * list wnode))
    (keyphrase_scores : list (string * Q)) :
  (∀ k, k ∈ keyphrase_candidates.*1 → k ∈ keyphrase_scores.*1) →
  ∃ best scored,
    Forall2 (λ (e : string * list string) b, b ∈ e.2)
            (make_clusters keyphrase_candidates) best
    ∧ mapM (λ k, s ← dict_get keyphrase_scores k; Ok (k, s)) best = Ok scored
    ∧ cluster_keyphrase_candidates keyphrase_candidates keyphrase_scores
      = Ok (filter (λ e, e.1 ∈ drop_redundant (sorted_desc Qle_bool snd scored).*1)
                   keyphrase_candidates,
            filter (λ e, e.1 ∈ drop_redundant (sorted_desc Qle_bool snd scored).*1)
                   keyphrase_scores).
Proof.
  intros Hkeys. unfold cluster_keyphrase_candidates, make_clusters. cbv zeta.
  destruct (clusters_spec (descending keyphrase_candidates)) as (_ & Hmem & Hall).
  set (clusters := foldl place [] (descending keyphrase_candidates)) in *.
  destruct (best_candidates_Ok keyphrase_scores clusters) as (best & Hbest & Hin).
  { intros c ms Hc. destruct (Hmem c ms Hc) as (Hhead & _ & Hms).
    split; [by destruct ms|]. intros m Hm. destruct (Hms m Hm) as [Hd _].
    apply Hkeys. by apply descending_elem. }
  rewrite Hbest. simpl.
  destruct (scored_Ok keyphrase_scores best) as [scored Hscored].
  { intros k Hk. apply Hkeys. apply list_elem_of_lookup in Hk as [i Hb].
    destruct (Forall2_lookup_r _ _ _ _ _ Hin Hb) as ([c ms] & Hc & Hbm).
    apply list_elem_of_lookup_2 in Hc. destruct (Hmem c ms Hc) as (_ & _ & Hms).
    destruct (Hms k Hbm) as [Hd _]. by apply descending_elem. }
  rewrite Hscored. simpl. exists best, scored. split; [done|]. split; [done|].
  set (kept := drop_redundant (sorted_desc Qle_bool snd scored).*1).
  assert (forallb (λ e : string * list wnode,
                     bool_decide (e.1 ∈ kept)
                     || bool_decide (is_Some (list_find (λ s : string * Q, s.1 = e.1)
                                                        keyphrase_scores)))
                  keyphrase_candidates = true) as ->.
  { apply forallb_forall. intros e He. apply list_elem_of_In in He.
    apply orb_true_iff. right. apply bool_decide_eq_true.
    destruct (list_find _ keyphrase_scores) as [r|] eqn:Hf; [done|]. exfalso.
    assert (e.1 ∈ keyphrase_scores.*1) as Hk.
    { apply Hkeys. apply list_elem_of_fmap. by exists e. }
    apply list_elem_of_fmap in Hk as (s & Hs1 & Hs2).
    eapply list_find_None in Hf. eapply Forall_forall in Hf; [|exact Hs2]. done. }
  assert (∀ {V} (d : list (string * V)),
            filter (λ e : string * V, bool_decide (e.1 ∈ kept) = true) d
            = filter (λ e : string * V, e.1 ∈ kept) d) as Hfilter.
  { intros V d. apply list_filter_iff. intros e. apply bool_decide_eq_true. }
  by rewrite !Hfilter.
Qed.

(** Clustering keeps the keyphrases [kept] of the candidates and of the
    scores: at least one if there is a candidate, and a kept keyphrase that
    is contained in another kept one has a score at least as high. *)
Theorem cluster_keyphrase_candidates_keeps
    (keyphrase_candidates : list (string * list wnode))
    (keyphrase_scores : list (string * Q)) :
  keyphrase_scores.*1 = keyphrase_candidates.*1 →
  ∃ (kept : list string) candidates scores,
    cluster_keyphrase_candidates keyphrase_candidates keyphrase_scores
    = Ok (candidates, scores)
    ∧ candidates = filter (λ e, e.1 ∈ kept) keyphrase_candidates
    ∧ scores = filter (λ e, e.1 ∈ kept) keyphrase_scores
    ∧ scores.*1 = candidates.*1
    ∧ (keyphrase_candidates ≠ [] → candidates ≠ [])
    ∧ (∀ k, k ∈ kept → k ∈ keyphrase_candidates.*1)
    ∧ (∀ k1 k2 s1 s2,
         k1 ∈ kept → k2 ∈ kept → k1 ≠ k2 → is_substring k1 k2 = true →
         dict_get keyphrase_scores k1 = Ok s1 → dict_get keyphrase_scores k2 = Ok s2 →
         (s2 <= s1)%Q).
Proof.
  intros Hkeys.
  destruct (cluster_Ok keyphrase_candidates keyphrase_scores)
    as (best & scored & Hin & Hscored & Hcluster).
  { intros k Hk. by rewrite Hkeys. }
  unfold make_clusters in Hin.
  destruct (clusters_spec (descending keyphrase_candidates)) as (_ & Hmem & Hall).
  set (clusters := foldl place [] (descending keyphrase_candidates)) in *.
  assert (∀ b, b ∈ best → b ∈ keyphrase_candidates.*1) as Hbest_in.
  { intros b Hb. apply list_elem_of_lookup in Hb as [i Hb].
    destruct (Forall2_lookup_r _ _ _ _ _ Hin Hb) as ([c ms] & Hc & Hbm).
    apply list_elem_of_lookup_2 in Hc. destruct (Hmem c ms Hc) as (_ & _ & Hms).
    destruct (Hms b Hbm) as [Hd _]. by apply descending_elem. }
  destruct (scored_spec _ _ _ Hscored) as [Hfst Hscores].
  destruct (sorted_desc_score snd scored) as [Hp Hs].
  set (sorted := sorted_desc Qle_bool snd scored) in *.
  set (kept := drop_redundant sorted.*1) in *.
  assert (∀ k, k ∈ kept → k ∈ keyphrase_candidates.*1) as Hkept.
  { intros k Hk. apply drop_redundant_elem in Hk. apply Hbest_in.
    rewrite <- Hfst. by rewrite <- Hp. }
  exists kept, (filter (λ e : string * list wnode, e.1 ∈ kept) keyphrase_candidates),
    (filter (λ e : string * Q, e.1 ∈ kept) keyphrase_scores).
  split; [done|]. split; [done|]. split; [done|].
  split.
  { etrans; [exact (filter_keys (λ k, k ∈ kept) keyphrase_scores)|].
    rewrite Hkeys. symmetry. exact (filter_keys (λ k, k ∈ kept) keyphrase_candidates). }
  split; [|split; [done|]].
  - intros Hne Hnil.
    destruct keyphrase_candidates as [|e0 rest] eqn:Hkc; [done|]. rewrite <- Hkc in *.
    assert (e0.1 ∈ descending keyphrase_candidates) as He0.
    { apply descending_elem. rewrite Hkc. by left. }
    destruct (Hall _ He0) as (c & ms & Hc & _).
    apply list_elem_of_lookup in Hc as [i Hc].
    destruct (Forall2_lookup_l _ _ _ _ _ Hin Hc) as (b & Hb & _).
    assert (b ∈ sorted.*1) as Hbs.
    { rewrite Hp, Hfst. by eapply list_elem_of_lookup_2. }
    unfold kept in *. clearbody sorted.
    destruct (sorted.*1) as [|k1 ks1] eqn:Hsorted; [by apply elem_of_nil in Hbs|].
    assert (k1 ∈ drop_redundant (k1 :: ks1)) as Hk1.
    { pose proof (drop_redundant_head (k1 :: ks1)) as Hhead.
      destruct (drop_redundant (k1 :: ks1)) as [|k0 dr]; [done|].
      injection Hhead as ->. by left. }
    pose proof (Hkept k1 Hk1) as Hk1c.
    apply list_elem_of_fmap in Hk1c as (e1 & -> & He1).
    assert (e1 ∈ filter (λ e : string * list wnode, e.1 ∈ drop_redundant (e1.1 :: ks1))
                        keyphrase_candidates) as Hf.
    { by apply list_elem_of_filter. }
    rewrite Hnil in Hf. by apply elem_of_nil in Hf.
  - intros k1 k2 s1 s2 Hk1 Hk2 Hne Hsub Hs1 Hs2.
    destruct (drop_redundant_order _ _ _ Hk1 Hk2 Hne Hsub) as (i & j & Hij & Hi & Hj).
    rewrite list_lookup_fmap in Hi, Hj.
    destruct (sorted !! i) as [[k1' s1']|] eqn:Hi'; [|done].
    destruct (sorted !! j) as [[k2' s2']|] eqn:Hj'; [|done].
    simpl in Hi, Hj. injection Hi as ->. injection Hj as ->.
    assert (Forall (λ p : string * Q, dict_get keyphrase_scores p.1 = Ok p.2) sorted)
      as Hsc by (by rewrite Hp).
    pose proof (Forall_lookup_1 _ _ _ _ Hsc Hi') as H1.
    pose proof (Forall_lookup_1 _ _ _ _ Hsc Hj') as H2. simpl in H1, H2.
    assert (s1' = s1) as -> by congruence. assert (s2' = s2) as -> by congruence.
    apply (StronglySorted_lookup_lt _ _ _ _ _ _ Hs Hij Hi' Hj').
Qed.

End cluster_theorems.

Module score_theorems.
Import keyphrase_reranker reranker_spec cluster_facts exception_facts reranker_facts rerank_facts
  bisect_facts search_spec.

Lemma word_total_from (word_scores : gmap wnode Q) (candidate : list wnode) (a : Q) :
  (Forall (λ w, is_Some (word_scores !! w)) candidate
   ∧ ∃ t, foldM (λ keyphrase_score word_pos_tuple,
                   w ← word_scores !! word_pos_tuple ?! KeyError;
                   Ok (keyphrase_score + w)%Q) candidate a = Ok t)
  ∨ (Exists (λ w, word_scores !! w = None) candidate
     ∧ foldM (λ keyphrase_score word_pos_tuple,
                w ← word_scores !! word_pos_tuple ?! KeyError;
                Ok (keyphrase_score + w)%Q) candidate a = Raise KeyError).
Proof.
  revert a. induction candidate as [|w candidate IH]; intros a; simpl.
  { left. split; [constructor|by eexists]. }
  destruct (word_scores !! w) as [q|] eqn:Hw; simpl.
  - destruct (IH (a + q)%Q) as [[Hall Ht]|[Hex Hr]].
    + left. split; [by constructor|done].
    + right. split; [by apply Exists_cons_tl|done].
  - right. split; [by apply Exists_cons_hd|done].
Qed.

Lemma length_plus_one (n : nat) : Qeq_bool (inject_Z (Z.of_nat n) + 1) 0 = false.
Proof.
  destruct (Qeq_bool _ 0) eqn:He; [|done]. apply Qeq_bool_iff in He.
  unfold Qeq, Qplus, inject_Z in He. simpl in He. lia.
Qed.

(** The loop of [score_keyphrase_candidates] from the scores [acc]. *)
Lemma score_loop (word_scores : gmap wnode Q) (acc : list (string * Q))
    (keyphrase_candidates : list (string * list wnode)) :
  (Forall (λ e, Forall (λ w, is_Some (word_scores !! w)) e.2) keyphrase_candidates
   ∧ ∃ ks,
       foldM (λ keyphrase_scores '(keyphrase, candidate),
                keyphrase_score ← word_total word_scores candidate;
                q ← qdiv keyphrase_score (inject_Z (Z.of_nat (length candidate)) + 1);
                Ok (dict_set keyphrase_scores keyphrase q))
             keyphrase_candidates acc = Ok ks
       ∧ ∀ k, k ∈ ks.*1 ↔ k ∈ acc.*1 ∨ k ∈ keyphrase_candidates.*1)
  ∨ (Exists (λ e, Exists (λ w, word_scores !! w = None) e.2) keyphrase_candidates
     ∧ foldM (λ keyphrase_scores '(keyphrase, candidate),
                keyphrase_score ← word_total word_scores candidate;
                q ← qdiv keyphrase_score (inject_Z (Z.of_nat (length candidate)) + 1);
                Ok (dict_set keyphrase_scores keyphrase q))
             keyphrase_candidates acc = Raise KeyError).
Proof.
  revert acc. induction keyphrase_candidates as [|[k c] kc IH]; intros acc; simpl.
  { left. split; [constructor|]. exists acc. split; [done|]. intros k. rewrite elem_of_nil. tauto. }
  destruct (word_total_from word_scores c 0) as [[Hall [t Ht]]|[Hex Hr]].
  - unfold word_total. rewrite Ht. simpl. unfold qdiv. rewrite length_plus_one. simpl.
    destruct (IH (dict_set acc k (t / (inject_Z (Z.of_nat (length c)) + 1))%Q))
      as [[Hall' (ks & Hks & Hkeys)]|[Hex Hr]].
    + left. split; [by constructor|]. exists ks. split; [done|].
      intros k'. rewrite Hkeys, dict_set_keys, elem_of_cons. tauto.
    + right. split; [by apply Exists_cons_tl|done].
  - right. split; [by apply Exists_cons_hd|]. unfold word_total. by rewrite Hr.
Qed.

(** [score_keyphrase_candidates] returns, with a score for the key of every
    candidate and for no other key, when every word of every candidate
    has a word score; otherwise it raises [KeyError]. *)
Theorem score_keyphrase_candidates_errors (word_scores : gmap wnode Q)
    (keyphrase_candidates : list (string * list wnode)) :
  (Forall (λ e, Forall (λ w, is_Some (word_scores !! w)) e.2) keyphrase_candidates
   ∧ ∃ ks, score_keyphrase_candidates word_scores keyphrase_candidates = Ok ks
           ∧ ∀ k, k ∈ ks.*1 ↔ k ∈ keyphrase_candidates.*1)
  ∨ (Exists (λ e, Exists (λ w, word_scores !! w = None) e.2) keyphrase_candidates
     ∧ score_keyphrase_candidates word_scores keyphrase_candidates = Raise KeyError).
Proof.
  destruct (score_loop word_scores [] keyphrase_candidates)
    as [[Hall (ks & Hks & Hkeys)]|[Hex Hr]].
  - left. split; [done|]. exists ks. split; [exact Hks|].
    intros k. rewrite Hkeys, elem_of_nil. tauto.
  - right. split; [done|exact Hr].
Qed.

(** The score of a keyphrase is the sum of the scores of its words
    divided by their number plus one; the scores come in the order of the
    candidates. *)
Theorem score_keyphrase_candidates_normalised (word_scores : gmap wnode Q)
    (keyphrase_candidates : list (string * list wnode)) :
  NoDup keyphrase_candidates.*1 →
  Forall (λ e, Forall (λ w, is_Some (word_scores !! w)) e.2) keyphrase_candidates →
  ∃ ks, score_keyphrase_candidates word_scores keyphrase_candidates = Ok ks
    ∧ Forall2 (λ (e : string * list wnode) (s : string * Q),
                 s.1 = e.1
                 ∧ ∃ total, word_total word_scores e.2 = Ok total
                     ∧ s.2 = (total / (inject_Z (Z.of_nat (length e.2)) + 1))%Q)
              keyphrase_candidates ks.
Proof.
  unfold score_keyphrase_candidates.
  induction keyphrase_candidates as [|[k c] kc IH] using rev_ind; intros Hnd Hall.
  { exists []. split; [done|constructor]. }
  rewrite fmap_app in Hnd. apply NoDup_app in Hnd as (Hnd & Hfresh & _).
  apply Forall_app in Hall as [Hall Hc]. apply Forall_inv in Hc. simpl in Hc.
  destruct (IH Hnd Hall) as (ks & Hks & Hshape).
  rewrite foldM_app, Hks. simpl.
  destruct (word_total_from word_scores c 0) as [[_ [t Ht]]|[Hex _]].
  2:{ exfalso. apply Exists_exists in Hex as (w & Hw & Hnone).
      eapply Forall_forall in Hc; [|exact Hw]. rewrite Hnone in Hc. by destruct Hc. }
  rewrite Ht. simpl. unfold qdiv. rewrite length_plus_one. simpl.
  eexists. split; [done|].
  assert (ks.*1 = kc.*1) as Hkeys.
  { clear -Hshape. induction Hshape as [|e s kc ks [He _] _ IH]; [done|].
    rewrite !fmap_cons. by rewrite He, IH. }
  rewrite dict_set_fresh.
  2:{ rewrite Hkeys. intros Hk. apply (Hfresh k Hk). by left. }
  apply Forall2_app; [done|]. constructor; [|constructor]. simpl. split; [done|].
  exists t. split; [exact Ht|done].
Qed.

(** *** Reranking *)

Lemma keyphrase_total_from (self : object) (path : list wnode)
    (candidates : list (string * list wnode)) (a : Q) :
  (∀ e, e ∈ candidates →
     ∃ s, dict_get (self_keyphrase_scores self) e.1 = Ok s ∧ (0 <= s)%Q) →
  (1 <= a)%Q →
  ∃ total,
    foldM (λ total '(keyphrase, _),
             if is_substring keyphrase (String.concat " " path.*1)
             then s ← dict_get (self_keyphrase_scores self) keyphrase; Ok (total + s)%Q
             else Ok total)
          candidates a = Ok total
    ∧ (1 <= total)%Q.
Proof.
  revert a. induction candidates as [|[k c] candidates IH]; intros a Hsc Ha; simpl.
  { by exists a. }
  assert (∀ e, e ∈ candidates →
            ∃ s, dict_get (self_keyphrase_scores self) e.1 = Ok s ∧ (0 <= s)%Q) as Hrest.
  { intros e He. apply Hsc. by right. }
  destruct (is_substring k _).
  - destruct (Hsc (k, c)) as (s & Hs & Hpos); [by left|]. simpl in Hs. rewrite Hs. simpl.
    apply IH; [done|]. rewrite <- (Qplus_0_r 1). by apply Qplus_le_compat.
  - by apply IH.
Qed.

Lemma length_times_total (path : list wnode) (total : Q) :
  path ≠ [] → (1 <= total)%Q →
  Qeq_bool (inject_Z (Z.of_nat (length path)) * total) 0 = false.
Proof.
  intros Hp Ht. destruct (Qeq_bool _ 0) eqn:He; [|done]. apply Qeq_bool_iff in He.
  exfalso. apply (Qlt_not_eq 0 (inject_Z (Z.of_nat (length path)) * total)); [|by symmetry].
  apply Qmult_lt_0_compat.
  - destruct path; [done|]. unfold Qlt, inject_Z. simpl. lia.
  - eapply Qlt_le_trans; [|exact Ht]. done.
Qed.

Lemma rerank_loop (self : object) (l : list (Q * list wnode)) (acc : list (Q * list wnode)) :
  (∀ e, e ∈ self_keyphrase_candidates self →
     ∃ s, dict_get (self_keyphrase_scores self) e.1 = Ok s ∧ (0 <= s)%Q) →
  (∀ c, c ∈ l → c.2 ≠ []) →
  StronglySorted by_weight acc →
  ∃ reranked entries,
    foldM (λ reranked_compressions '(cummulative_score, path),
             total_keyphrase_score ← keyphrase_total self path;
             score ← qdiv cummulative_score
                          (inject_Z (Z.of_nat (length path)) * total_keyphrase_score);
             Ok (insort fusion_lt reranked_compressions (score, path)))
          l acc = Ok reranked
    ∧ StronglySorted by_weight reranked
    ∧ reranked ≡ₚ acc ++ entries
    ∧ Forall2 (λ (c e : Q * list wnode),
                 e.2 = c.2
                 ∧ ∃ total, keyphrase_total self c.2 = Ok total ∧ (1 <= total)%Q
                     ∧ e.1 = (c.1 / (inject_Z (Z.of_nat (length c.2)) * total))%Q)
              l entries.
Proof.
  intros Hsc. revert acc. induction l as [|[cum path] l IH]; intros acc Hne Hs; simpl.
  { exists acc, []. split; [done|]. split; [done|]. split; [by rewrite app_nil_r|constructor]. }
  destruct (keyphrase_total_from self path (self_keyphrase_candidates self) 1 Hsc)
    as (total & Ht & Hge); [done|].
  fold (keyphrase_total self path) in Ht. rewrite Ht. simpl.
  unfold qdiv. rewrite length_times_total; [|apply (Hne (cum, path)); by left|done]. simpl.
  set (score := (cum / (inject_Z (Z.of_nat (length path)) * total))%Q).
  destruct (IH (insort fusion_lt acc (score, path))) as (r & entries & Hr & Hsorted & Hp & Hall).
  { intros c Hc. apply Hne. by right. }
  { apply insort_sorted; [apply fusion_lt_weight|apply fusion_not_lt_weight|done]. }
  exists r, ((score, path) :: entries). split; [done|]. split; [done|]. split.
  - rewrite Hp, insort_Permutation. simpl. apply Permutation_middle.
  - constructor; [|done]. simpl. split; [done|]. by exists total.
Qed.


End score_theorems.

(** ** The stop criterion of TextRank *)

Module sweep_theorems.
Import keyphrase_reranker textrank_facts.

Section TextRank.
Variable graph_nodes : list wnode.
Variable graph_neighbors : wnode → result (list wnode).
Variable graph_weight : wnode → wnode → result Q.
Variable d : Q.
Variable f_conv : Q.

Lemma Qmax_same (x : Q) : Qmax x x = x.
Proof. unfold Qmax, GenericMinMax.gmax. by destruct (x ?= x)%Q. Qed.

(** After a round of the loop of [undirected_TextRank],
    [max_node_difference] is the move of the score of the last node of the
    graph, whatever the other nodes did: the loop goes on if and only if
    that move is at least [f_conv]. *)
Theorem sweep_last_node st st' n :
  sweep graph_nodes graph_neighbors graph_weight d st = Ok st' →
  last graph_nodes = Some n →
  ∃ new old,
    st'.1 !! n = Some new ∧ st.1 !! n = Some old
    ∧ st'.2 = Qabs (new - old)
    ∧ unstable f_conv st' = Qle_bool f_conv (Qabs (new - old)).
Proof.
  unfold sweep. intros Hsweep Hlast.
  apply last_Some in Hlast as [l ->].
  rewrite foldM_app in Hsweep. apply bind_Ok in Hsweep as (st1 & _ & Hlast).
  simpl in Hlast. apply bind_Ok in Hlast as (st2 & Hupd & Hret). injection Hret as ->.
  unfold update_node in Hupd.
  apply bind_Ok in Hupd as (js & _ & Hupd). apply bind_Ok in Hupd as (sum_Vj & _ & Hupd).
  apply bind_Ok in Hupd as (new & Hnew & Hupd). apply bind_Ok in Hupd as (old & Hold & Hupd).
  apply or_raise_Ok in Hnew, Hold. injection Hupd as <-. simpl.
  exists new, old. split; [done|]. split; [done|].
  rewrite Qmax_same. split; [done|]. done.
Qed.

End TextRank.
End sweep_theorems.

(** ** The constructor of [keyphrase_reranker] *)

Module constructor_theorems.
Import keyphrase_reranker reranker_spec cooccurrence_spec constructor_spec
  cooccurrence_facts cooccurrence_theorems textrank_theorems reranker_facts rerank_facts
  cluster_theorems score_theorems search_spec bisect_facts search_facts.

Lemma tagged_loads (h : heap) (l : loc) (sentences : list (list wnode)) :
  h !! l = Some (VTagged <$> sentences) →
  list_len h l = Ok (length sentences)
  ∧ mapM (λ i, load h l i ≫= as_tagged) (seq 0 (length sentences)) = Ok sentences.
Proof.
  intros Hh. split.
  { unfold list_len. rewrite Hh. simpl. by rewrite length_fmap. }
  assert (∀ n, n ≤ length sentences →
            mapM (λ i, load h l i ≫= as_tagged) (seq 0 n) = Ok (take n sentences)) as Hn.
  { induction n as [|n IH]; intros Hle; [done|].
    destruct (lookup_lt_is_Some_2 sentences n) as [s Hs]; [lia|].
    rewrite seq_S, (take_S_r _ _ s) by done. apply mapM_app; [apply IH; lia|].
    simpl. unfold load. rewrite Hh. simpl. rewrite list_lookup_fmap, Hs. done. }
  rewrite Hn by done. by rewrite firstn_all.
Qed.

Lemma scores_nonneg (word_scores : gmap wnode Q)
    (keyphrase_candidates : list (string * list wnode)) ks :
  (∀ n s, word_scores !! n = Some s → (0 <= s)%Q) →
  score_keyphrase_candidates word_scores keyphrase_candidates = Ok ks →
  ∀ e, e ∈ ks → (0 <= e.2)%Q.
Proof.
  intros Hws Hscore. unfold score_keyphrase_candidates in Hscore.
  refine (foldM_invariant (λ ks : list (string * Q), ∀ e, e ∈ ks → (0 <= e.2)%Q)
            _ _ _ [] ks _ Hscore).
  - intros acc [k c] acc' _ Hacc Hstep.
    apply bind_Ok in Hstep as (total & Htotal & Hstep).
    apply bind_Ok in Hstep as (q & Hq & Hstep). injection Hstep as <-.
    assert (0 <= total)%Q as Hpos.
    { refine (foldM_invariant (λ t : Q, (0 <= t)%Q) _ _ _ 0%Q total _ Htotal); [|done].
      intros t w t' _ Ht Hw. apply bind_Ok in Hw as (s & Hs & Hw).
      apply or_raise_Ok in Hs. injection Hw as <-.
      rewrite <- (Qplus_0_r 0). apply Qplus_le_compat; [done|by eapply Hws]. }
    unfold qdiv in Hq. rewrite length_plus_one in Hq. injection Hq as <-.
    intros e He. apply dict_set_elem in He as [->|He]; [|by apply Hacc]. simpl.
    apply Qle_shift_div_l; [|by rewrite Qmult_0_l].
    unfold Qlt, Qplus, inject_Z. simpl. lia.
  - intros e He. by apply elem_of_nil in He.
Qed.

Lemma kept_scored {V} (kc : list (string * V)) (ks : list (string * Q))
    (kept : list string) :
  (∀ k, k ∈ kc.*1 → k ∈ ks.*1) → (∀ e, e ∈ ks → (0 <= e.2)%Q) →
  ∀ e, e ∈ filter (λ e : string * V, e.1 ∈ kept) kc →
       ∃ s, dict_get (filter (λ e : string * Q, e.1 ∈ kept) ks) e.1 = Ok s ∧ (0 <= s)%Q.
Proof.
  intros Hkeys Hpos e He. apply list_elem_of_filter in He as [Hk He].
  assert (e.1 ∈ ks.*1) as Hin by (apply Hkeys, list_elem_of_fmap; by exists e).
  apply list_elem_of_fmap in Hin as (p & Hp1 & Hp2).
  destruct (dict_get_Ok (filter (λ e : string * Q, e.1 ∈ kept) ks) e.1) as [s Hs].
  { apply list_elem_of_fmap. exists p. split; [done|].
    apply list_elem_of_filter. split; [|done]. by rewrite <- Hp1. }
  exists s. split; [done|]. apply dict_get_elem in Hs.
  apply list_elem_of_filter in Hs as [_ Hs]. by apply (Hpos _ Hs).
Qed.

Lemma same_paths {A B} (P : A * B → A * B → Prop) (l entries : list (A * B)) :
  Forall2 (λ c e, e.2 = c.2 ∧ P c e) l entries → entries.*2 = l.*2.
Proof.
  induction 1 as [|c e cs es [He _] _ IH]; [done|]. rewrite !fmap_cons. by rewrite He, IH.
Qed.

Section constructor.
Context `{Re}.

(** The steps of the constructor after the graph and the word scores. *)
Lemma after_rank stopwords syntactic_filter syntactic_patterns pos_separator
    l h1 h2 g word_scores fuel :
  build_graph stopwords syntactic_filter pos_separator 0 l h1 empty_graph = Ok (h2, g) →
  undirected_TextRank (nodes g) (neighbors g) (edge_weight g) (85 # 100) (1 # 10000) fuel
  = Ok word_scores →
  ∃ sentences ks,
    list_len h2 l = Ok (length sentences)
    ∧ mapM (λ i, load h2 l i ≫= as_tagged) (seq 0 (length sentences)) = Ok sentences
    ∧ score_keyphrase_candidates word_scores
        (generate_candidates syntactic_filter syntactic_patterns sentences) = Ok ks
    ∧ (∀ k, k ∈ ks.*1 ↔
            k ∈ (generate_candidates syntactic_filter syntactic_patterns sentences).*1)
    ∧ (∀ e, e ∈ ks → (0 <= e.2)%Q).
Proof.
  intros Hb Hrank.
  destruct (build_graph_tallied _ _ _ _ _ _ _ _ Hb)
    as (sentences & Hh2 & Hwf & Hnodes & _).
  destruct (tagged_loads _ _ _ Hh2) as [Hlen Hloads].
  assert (∀ n, (n ∈ nodes g ↔ is_Some (word_scores !! n))
               ∧ ∀ s, word_scores !! n = Some s → (1 - (85 # 100) <= s)%Q) as Hscored.
  { destruct (textrank_safe g (85 # 100) (1 # 10000) Hwf) with (fuel := fuel)
      as [(ws & Hws & Hsc)|Hout]; [done|done| |congruence].
    assert (ws = word_scores) as -> by congruence. done. }
  exists sentences.
  destruct (score_loop word_scores []
              (generate_candidates syntactic_filter syntactic_patterns sentences))
    as [[_ (ks & Hks & Hkeys)]|[Hex _]].
  - exists ks. split; [done|]. split; [done|]. split; [exact Hks|].
    split; [intros k; rewrite Hkeys, elem_of_nil; tauto|].
    apply (scores_nonneg word_scores
             (generate_candidates syntactic_filter syntactic_patterns sentences) ks);
      [|exact Hks].
    intros n s Hs. destruct (Hscored n) as [_ Hlow].
    eapply Qle_trans; [|by apply Hlow]. done.
  - exfalso. apply Exists_exists in Hex as (e & He & Hex).
    apply Exists_exists in Hex as (w & Hw & Hnone).
    destruct (generate_candidates_sound _ _ _ _ He) as (_ & _ & s & Hs & Hrun).
    destruct Hrun as (_ & Hall & pre & post & Heq & _).
    assert (w ∈ nodes g) as Hn.
    { apply Hnodes. split; [by eapply Forall_forall in Hall|].
      apply list_elem_of_join. exists s. split; [|done].
      rewrite Heq. apply elem_of_app. right. apply elem_of_app. by left. }
    destruct (Hscored w) as [Hkey _]. apply Hkey in Hn as [? Hn]. congruence.
Qed.



End constructor.
End constructor_theorems.

(** ** Instances *)

Module coverage_witnesses.
Import word_graph word_graph_spec search_spec path_spec graph_spec total_spec
       statistics_spec path_facts graph_theorems total_facts statistics_theorems
       preprocess_facts bigram_facts partition_spec partition_facts
       examples more_examples AsciiRe.

Lemma fork_paths :
  k_shortest_paths english_verbs 1 (neighbors fork_graph) (edge_weight fork_graph)
                   10 fork_start fork_end 50
  = Ok [([fork_start; ("run/-/VB", 0); fork_end], 11%Q);
        ([fork_start; ("go/-/VB", 0); fork_end], 3%Q)].
Proof. vm_compute. reflexivity. Qed.

Lemma k_shortest_paths_bounded_witness :
  k_shortest_paths english_verbs 1 (neighbors fork_graph) (edge_weight fork_graph)
                   10 fork_start fork_end 1
  = Ok [([fork_start; ("run/-/VB", 0); fork_end], 11%Q)]
  ∧ (Z.of_nat (length [([fork_start; ("run/-/VB", 0%nat); fork_end], 11%Q)]) ≤ Z.max 0 1)%Z.
Proof.
  assert (k_shortest_paths english_verbs 1 (neighbors fork_graph) (edge_weight fork_graph)
            10 fork_start fork_end 1
          = Ok [([fork_start; ("run/-/VB", 0); fork_end], 11%Q)]) as Hk
    by (vm_compute; reflexivity).
  split; [exact Hk|].
  exact (k_shortest_paths_bounded english_verbs 1 (neighbors fork_graph)
           (edge_weight fork_graph) fork_start fork_end 10 1 _ Hk).
Defined.

Lemma k_shortest_paths_NoDup_witness :
  NoDup [fork_start; ("run/-/VB", 0); fork_end] ∧ NoDup [fork_start; ("go/-/VB", 0); fork_end].
Proof.
  pose proof (k_shortest_paths_NoDup english_verbs 1 (neighbors fork_graph)
                (edge_weight fork_graph) fork_start fork_end 10 50 _ fork_paths) as Hnd.
  split.
  - apply (Hnd _ 11%Q). apply list_elem_of_here.
  - apply (Hnd _ 3%Q). apply list_elem_of_further, list_elem_of_here.
Defined.

Lemma k_shortest_paths_costed_witness :
  ∃ c, path_cost (edge_weight fork_graph) [fork_start; ("run/-/VB", 0); fork_end] = Ok c
       ∧ (c == 11)%Q.
Proof.
  apply (k_shortest_paths_costed english_verbs 1 (neighbors fork_graph)
           (edge_weight fork_graph) fork_start fork_end 10 50 _ fork_paths).
  apply list_elem_of_here.
Defined.

Lemma k_shortest_paths_spelled_apart_witness :
  ∃ raws,
    mapM (spelled english_verbs)
         [[fork_start; ("run/-/VB", 0); fork_end]; [fork_start; ("go/-/VB", 0); fork_end]]
    = Ok raws
    ∧ NoDup raws.
Proof.
  exact (k_shortest_paths_spelled_apart english_verbs 1 (neighbors fork_graph)
           (edge_weight fork_graph) fork_start fork_end 10 50 _ fork_paths).
Defined.

Lemma two_graph_built : build_graph ∅ two_sentences two_weights = Ok two_graph.
Proof. vm_compute. reflexivity. Qed.

Lemma build_graph_sentence_paths_witness :
  ∃ p, length p = length [first; tok "a" "N"; tok "c" "VB"; tok "," "P"; last]
       ∧ (∀ j n, p !! j = Some n →
            ∃ a t, nodes two_graph !! n = Some a ∧ (1, j) ∈ info a
                   ∧ [first; tok "a" "N"; tok "c" "VB"; tok "," "P"; last] !! j = Some t
                   ∧ n.1 = key_of t)
       ∧ (∀ j u v, p !! j = Some u → p !! S j = Some v →
            ∃ q, edge_weight two_graph u v = Ok q).
Proof.
  apply (build_graph_sentence_paths ∅ two_sentences two_weights two_graph two_graph_built 1
           [first; tok "a" "N"; tok "c" "VB"; tok "," "P"; last]).
  reflexivity.
Defined.

Lemma build_graph_edges_witness :
  (∃ q, Some (4 # 3)%Q = Some q
        ∧ get_edge_weight two_sentences two_weights two_graph ("a/-/N", 0) ("c/-/VB", 0)
          = Ok q)
  ∧ ∃ s p au av,
      s < 2 ∧ nodes two_graph !! ("a/-/N", 0) = Some au
      ∧ nodes two_graph !! ("c/-/VB", 0) = Some av
      ∧ (s, p) ∈ info au ∧ (s, S p) ∈ info av.
Proof.
  apply (build_graph_edges ∅ two_sentences two_weights two_graph two_graph_built).
  vm_compute. reflexivity.
Defined.

Lemma build_graph_variants_numbered_witness :
  build_graph ∅ two_sentences two_weights = Ok two_graph
  ∧ ∀ key l, is_Some (nodes two_graph !! (key, l)) ↔ l < ambiguous_nodes two_graph key.
Proof.
  split; [exact two_graph_built|].
  exact (build_graph_variants_numbered ∅ two_sentences two_weights two_graph two_graph_built).
Defined.

Lemma build_graph_nodes_hold_their_word_witness :
  build_graph ∅ two_sentences two_weights = Ok two_graph
  ∧ ∀ key l a, nodes two_graph !! (key, l) = Some a →
      (∃ i j s t rest, info a = (i, j) :: rest ∧ two_sentences !! i = Some s
                       ∧ s !! j = Some t ∧ label a = lower t.1.1)
      ∧ ∀ i j, (i, j) ∈ info a →
          ∃ s t, two_sentences !! i = Some s ∧ s !! j = Some t
                 ∧ lower t.1.1 +:+ sep +:+ t.1.2 = key.
Proof.
  split; [exact two_graph_built|].
  exact (build_graph_nodes_hold_their_word ∅ two_sentences two_weights two_graph
           two_graph_built).
Defined.

Lemma two_sentences_closed : closed_sentences two_sentences.
Proof.
  intros s Hs. apply elem_of_cons in Hs as [->|Hs]; [|apply list_elem_of_singleton in Hs as ->].
  - exists [first; tok "a" "N"; tok "b" "VB"; tok "a" "N"]. split; [done|].
    repeat constructor; by vm_compute.
  - exists [first; tok "a" "N"; tok "c" "VB"; tok "," "P"]. split; [done|].
    repeat constructor; by vm_compute.
Qed.


Lemma one_statistics :
  compute_statistics [[tok "a" "N"; tok "a" "N"]]
  = Ok ({[ "a/-/N" := 2 ]}, {[ "a/-/N" := 2%Q ]}).
Proof. vm_compute. reflexivity. Qed.

Lemma compute_statistics_frequency_witness :
  ({[ "a/-/N" := 2 ]} : gmap string nat) !! "a/-/N"
  = if decide ("a/-/N" ∈ keys_of [[tok "a" "N"; tok "a" "N"]])
    then Some (count "a/-/N" (keys_of [[tok "a" "N"; tok "a" "N"]])) else None.
Proof.
  exact (compute_statistics_frequency [[tok "a" "N"; tok "a" "N"]] _ _ one_statistics "a/-/N").
Defined.

Lemma compute_statistics_weight_witness :
  ∃ ws,
    mapM float_of_string (weights_for "a/-/N" (concat [[tok "a" "N"; tok "a" "N"]])) = Ok ws
    ∧ Forall (λ w, 0 <= w)%Q ws
    ∧ ({[ "a/-/N" := 2%Q ]} : gmap string Q) !! "a/-/N"
      = if decide (ws = []) then None else Some (sum ws).
Proof.
  exact (compute_statistics_weight [[tok "a" "N"; tok "a" "N"]] _ _ one_statistics "a/-/N").
Defined.

Lemma cat_word_graph_built :
  init (heap_of ["the/DT/1 cat/NN/2 sat/VB/1"]) 1 8 "en" {["the"]} "/" = Ok cat_word_graph.
Proof. vm_compute. reflexivity. Qed.


Lemma pre_process_sentences_shape_witness :
  ∃ h',
    pre_process_sentences "/" 1 1 (heap_of ["the/DT/1 cat/NN/2 sat/VB/1"]) = Ok h'
    ∧ ∀ i, i < 1 →
        ∃ raw tokens,
          load (heap_of ["the/DT/1 cat/NN/2 sat/VB/1"]) 1 i = Ok (VStr raw)
          ∧ load h' 1 i
            = Ok (VSentence ((start, start, start) :: tokens ++ [(stop, stop, stop)]))
          ∧ tokens ≠ []
          ∧ length tokens = length (split " " (strip (re_sub " +" " " raw)))
          ∧ Forall (λ t : token, lower t.1.1 = t.1.1) tokens.
Proof.
  assert (∃ h', pre_process_sentences "/" 1 1 (heap_of ["the/DT/1 cat/NN/2 sat/VB/1"])
                = Ok h') as [h' Hh'].
  { eexists. vm_compute. reflexivity. }
  exists h'. split; [exact Hh'|].
  exact (pre_process_sentences_shape "/" 1 1 _ h' Hh').
Defined.

Lemma two_graph_paths :
  k_shortest_paths english_verbs 1 (neighbors two_graph) (edge_weight two_graph)
                   20 fork_start fork_end 5
  = Ok [([fork_start; ("a/-/N", 0); ("b/-/VB", 0); ("a/-/N", 1); fork_end], (24 # 9)%Q);
        ([fork_start; ("a/-/N", 0); ("c/-/VB", 0); (",/-/P", 0); fork_end], (10 # 3)%Q)].
Proof. vm_compute. reflexivity. Qed.

Lemma compressions_follow_sentences_witness :
  ∃ i s pos t1 t2,
    two_sentences !! i = Some s ∧ s !! pos = Some t1 ∧ s !! S pos = Some t2
    ∧ key_of t1 = "b/-/VB" ∧ key_of t2 = "a/-/N".
Proof.
  apply (compressions_follow_sentences ∅ two_sentences two_weights english_verbs 1
           two_graph 20 fork_start fork_end 5 _ two_graph_built two_graph_paths
           [fork_start; ("a/-/N", 0); ("b/-/VB", 0); ("a/-/N", 1); fork_end] (24 # 9)%Q
           (list_elem_of_here _ _) 2 ("b/-/VB", 0) ("a/-/N", 1)); reflexivity.
Defined.

Lemma no_stopword_is_punctuation (s : list token) (t : token) :
  s ∈ two_sentences → t ∈ s → is_stopword ∅ t.1.1 = true → is_punct t.1.1 = false.
Proof.
  intros _ _ Hs. unfold is_stopword in Hs. apply bool_decide_eq_true in Hs.
  by apply not_elem_of_empty in Hs.
Qed.

Lemma build_graph_one_node_witness :
  build_graph ∅ two_sentences two_weights = Ok two_graph
  ∧ ∀ n1 n2 a1 a2 i j,
      nodes two_graph !! n1 = Some a1 → nodes two_graph !! n2 = Some a2 →
      (i, j) ∈ info a1 → (i, j) ∈ info a2 → n1 = n2.
Proof.
  split; [exact two_graph_built|].
  exact (build_graph_one_node ∅ two_sentences no_stopword_is_punctuation two_weights
           two_graph two_graph_built).
Defined.

End coverage_witnesses.

Module reranker_witnesses.
Import keyphrase_reranker reranker_spec cooccurrence_spec constructor_spec search_spec
  reranker_facts rerank_facts cluster_theorems score_theorems sweep_theorems
  cooccurrence_theorems textrank_theorems constructor_theorems
  examples reranker_examples AsciiRe.

Lemma big_cat_copy :
  list_copy (heap_of big_cat_sentences) 1 = Ok (big_cat_copied, 2%positive).
Proof. reflexivity. Qed.

Lemma big_cat_built :
  build_graph (list_to_set ["the"]) (syntactic_filter_of "en") "/" 0 2 big_cat_copied
              empty_graph
  = Ok (big_cat.1, self_graph big_cat.2).
Proof. reflexivity. Qed.

Lemma big_cat_ranked :
  undirected_TextRank (nodes (self_graph big_cat.2)) (neighbors (self_graph big_cat.2))
                      (edge_weight (self_graph big_cat.2)) (85 # 100) (1 # 10000) 5
  = Ok (self_word_scores big_cat.2).
Proof. reflexivity. Qed.

Lemma big_cat_init :
  init 5 (heap_of big_cat_sentences) 1 big_cat_nbest "en" [] ["the"] "/"
  = Ok (big_cat.1, big_cat.2).
Proof. reflexivity. Qed.

Lemma cluster_keyphrase_candidates_keeps_witness :
  ∃ (kept : list string) candidates scores,
    cluster_keyphrase_candidates
      [("big cat", [("big", "JJ"); ("cat", "NN")]); ("cat", [("cat", "NN")])]
      [("big cat", (2 # 3)%Q); ("cat", (1 # 2)%Q)]
    = Ok (candidates, scores)
    ∧ scores.*1 = candidates.*1
    ∧ candidates ≠ [].
Proof.
  destruct (cluster_keyphrase_candidates_keeps
              [("big cat", [("big", "JJ"); ("cat", "NN")]); ("cat", [("cat", "NN")])]
              [("big cat", (2 # 3)%Q); ("cat", (1 # 2)%Q)] eq_refl)
    as (kept & candidates & scores & Hc & _ & _ & Hkeys & Hne & _).
  exists kept, candidates, scores. split; [exact Hc|]. split; [exact Hkeys|].
  apply Hne. discriminate.
Defined.

Lemma score_keyphrase_candidates_normalised_witness :
  ∃ ks,
    score_keyphrase_candidates {[ ("big", "JJ") := 1%Q; ("cat", "NN") := 1%Q ]}
                               [("big cat", [("big", "JJ"); ("cat", "NN")])] = Ok ks
    ∧ Forall2 (λ (e : string * list wnode) (s : string * Q),
                 s.1 = e.1
                 ∧ ∃ total,
                     word_total {[ ("big", "JJ") := 1%Q; ("cat", "NN") := 1%Q ]} e.2
                     = Ok total
                     ∧ s.2 = (total / (inject_Z (Z.of_nat (length e.2)) + 1))%Q)
              [("big cat", [("big", "JJ"); ("cat", "NN")])] ks.
Proof.
  apply score_keyphrase_candidates_normalised.
  - apply NoDup_singleton.
  - constructor; [|constructor]. simpl.
    constructor; [eexists; vm_compute; reflexivity|].
    constructor; [eexists; vm_compute; reflexivity|constructor].
Defined.

Lemma two_keyphrases_scored e :
  e ∈ self_keyphrase_candidates two_keyphrases →
  ∃ s, dict_get (self_keyphrase_scores two_keyphrases) e.1 = Ok s ∧ (0 <= s)%Q.
Proof.
  intros He. simpl in He.
  apply elem_of_cons in He as [->|He];
    [|apply elem_of_cons in He as [->|He]; [|by apply elem_of_nil in He]].
  - exists (2 # 3)%Q. split; [vm_compute; reflexivity|]. unfold Qle. simpl. lia.
  - exists (1 # 2)%Q. split; [vm_compute; reflexivity|]. unfold Qle. simpl. lia.
Qed.

Lemma big_cat_paths c : c ∈ big_cat_nbest → c.2 ≠ [].
Proof.
  intros Hc. unfold big_cat_nbest in Hc.
  apply elem_of_cons in Hc as [->|Hc]; [done|].
  apply elem_of_cons in Hc as [->|Hc]; [done|]. by apply elem_of_nil in Hc.
Qed.


Lemma sweep_last_node_witness :
  ∃ st' new old,
    sweep (nodes (self_graph big_cat.2)) (neighbors (self_graph big_cat.2))
          (edge_weight (self_graph big_cat.2)) (85 # 100)
          (initial_scores (nodes (self_graph big_cat.2)), (1 # 10000)%Q) = Ok st'
    ∧ st'.1 !! ("cat", "NN") = Some new
    ∧ initial_scores (nodes (self_graph big_cat.2)) !! ("cat", "NN") = Some old
    ∧ st'.2 = Qabs (new - old)
    ∧ unstable (1 # 10000) st' = Qle_bool (1 # 10000) (Qabs (new - old)).
Proof.
  assert (∃ st', sweep (nodes (self_graph big_cat.2)) (neighbors (self_graph big_cat.2))
                       (edge_weight (self_graph big_cat.2)) (85 # 100)
                       (initial_scores (nodes (self_graph big_cat.2)), (1 # 10000)%Q)
                 = Ok st') as [st' Hs] by (eexists; reflexivity).
  destruct (sweep_last_node _ _ _ _ (1 # 10000) _ st' ("cat", "NN") Hs)
    as (new & old & H1 & H2 & H3 & H4); [vm_compute; reflexivity|].
  exists st', new, old. split; [exact Hs|]. split; [exact H1|]. split; [exact H2|].
  split; [exact H3|exact H4].
Defined.

Lemma build_graph_cooccurrences_witness :
  ∃ sentences,
    big_cat.1 !! 2%positive = Some (VTagged <$> sentences)
    ∧ NoDup (nodes (self_graph big_cat.2))
    ∧ weights (self_graph big_cat.2) !! (("big", "JJ"), ("cat", "NN"))
      = (if decide (cooccurrences 0 sentences ("big", "JJ") ("cat", "NN") = 0) then None
         else Some (cooccurrences 0 sentences ("big", "JJ") ("cat", "NN"))).
Proof.
  destruct (build_graph_cooccurrences _ _ _ _ _ _ _ _ big_cat_built)
    as (sentences & Hh & Hnd & _ & Hw & _).
  exists sentences. split; [exact Hh|]. split; [exact Hnd|].
  apply Hw; vm_compute; [apply list_elem_of_here|apply list_elem_of_further, list_elem_of_here].
Defined.

Lemma cooccurrence_edges_window_witness :
  ∃ sentences,
    big_cat.1 !! 2%positive = Some (VTagged <$> sentences)
    ∧ ∃ s j k,
        s ∈ sentences ∧ j < k
        ∧ (Z.of_nat k < Z.of_nat j + (if (0 <? 1)%Z then Z.of_nat (length s) else 0))%Z
        ∧ ((s !! j = Some ("big", "JJ") ∧ s !! k = Some ("cat", "NN"))
           ∨ (s !! j = Some ("cat", "NN") ∧ s !! k = Some ("big", "JJ"))).
Proof.
  destruct (cooccurrence_edges_window _ _ _ _ _ _ _ _ big_cat_built)
    as (sentences & Hh & Hedge).
  exists sentences. split; [exact Hh|].
  apply (Hedge ("big", "JJ") ("cat", "NN")). vm_compute. reflexivity.
Defined.

Lemma textrank_on_built_graph_witness :
  (∃ word_scores,
     undirected_TextRank (nodes (self_graph big_cat.2)) (neighbors (self_graph big_cat.2))
                         (edge_weight (self_graph big_cat.2)) (85 # 100) (1 # 10000) 5
     = Ok word_scores
     ∧ ∀ n, (n ∈ nodes (self_graph big_cat.2) ↔ is_Some (word_scores !! n))
            ∧ ∀ s, word_scores !! n = Some s → (1 - (85 # 100) <= s)%Q)
  ∨ undirected_TextRank (nodes (self_graph big_cat.2)) (neighbors (self_graph big_cat.2))
                        (edge_weight (self_graph big_cat.2)) (85 # 100) (1 # 10000) 5
    = Raise OutOfFuel.
Proof.
  apply (textrank_on_built_graph _ _ _ _ _ _ _ _ (85 # 100) (1 # 10000) 5 big_cat_built).
  - unfold Qle. simpl. lia.
  - unfold Qle. simpl. lia.
Defined.



End reranker_witnesses.
